(** * Zebra solver: a shallow embedding of [src/solver/solver.ts] and
    [src/solver/clueEval.ts], and the properties of the specification
    checked against it.

    JavaScript objects used as dictionaries are finite maps ([gmap]) where the
    code only looks keys up, and association lists where the code iterates over
    them in insertion order.  Arrays are lists; a write past the end of an array
    extends it, as in JavaScript.  Numbers are IEEE-754 doubles
    ([PrimFloat.float]).  Exceptions are the [Throw] case of [Result]. *)

From Stdlib Require Import PrimFloat FloatOps SpecFloat ZArith Ascii Lia.
From stdpp Require Import gmap strings list pretty sorting.

Open Scope string_scope.
Open Scope list_scope.

(** ** JavaScript numbers *)

Abbreviation number := float.

(** The double nearest to an integer (round to nearest, ties to even). *)
Definition number_of_Z (z : Z) : number :=
  SF2Prim (binary_normalize prec emax z 0 false).

Definition number_of_nat (n : nat) : number := number_of_Z (Z.of_nat n).

Definition js_add (l r : number) : number := PrimFloat.add l r.
Definition js_sub (l r : number) : number := PrimFloat.sub l r.
Definition js_mul (l r : number) : number := PrimFloat.mul l r.
Definition js_div (l r : number) : number := PrimFloat.div l r.
Definition js_abs (x : number) : number := PrimFloat.abs x.

(** [l % r]: the remainder has the sign of the dividend and is exact. *)
Definition js_rem (l r : number) : number :=
  match Prim2SF l, Prim2SF r with
  | S754_nan, _ | _, S754_nan => nan
  | S754_infinity _, _ => nan
  | _, S754_zero _ => nan
  | _, S754_infinity _ => l
  | S754_zero _, _ => l
  | S754_finite sl ml el, S754_finite _ mr er =>
      let e := Z.min el er in
      let L := (Z.pos ml * 2 ^ (el - e))%Z in
      let R := (Z.pos mr * 2 ^ (er - e))%Z in
      let q := (L mod R)%Z in
      SF2Prim (binary_normalize prec emax (if sl then (- q)%Z else q) e sl)
  end.

Definition js_eq (l r : number) : bool := PrimFloat.eqb l r.
Definition js_ne (l r : number) : bool := negb (PrimFloat.eqb l r).
Definition js_lt (l r : number) : bool := PrimFloat.ltb l r.
Definition js_le (l r : number) : bool := PrimFloat.leb l r.
Definition js_gt (l r : number) : bool := PrimFloat.ltb r l.
Definition js_ge (l r : number) : bool := PrimFloat.leb r l.

(** *** [parseInt(string)] with no radix

    Leading white space is skipped, an optional sign is read, a [0x] or [0X]
    prefix selects radix 16, and the longest prefix of digits is converted;
    [NaN] when there is no digit. *)

Definition isWhiteSpace (c : ascii) : bool :=
  let n := nat_of_ascii c in
  (n =? 9)%nat || (n =? 10)%nat || (n =? 11)%nat || (n =? 12)%nat
  || (n =? 13)%nat || (n =? 32)%nat.

Fixpoint trimStart (s : string) : string :=
  match s with
  | String c s' => if isWhiteSpace c then trimStart s' else s
  | EmptyString => s
  end.

Definition digitValue (radix : Z) (c : ascii) : option Z :=
  let n := Z.of_nat (nat_of_ascii c) in
  let v :=
    if ((48 <=? n) && (n <=? 57))%Z then Some (n - 48)%Z
    else if ((97 <=? n) && (n <=? 122))%Z then Some (n - 87)%Z
    else if ((65 <=? n) && (n <=? 90))%Z then Some (n - 55)%Z
    else None in
  match v with
  | Some d => if (d <? radix)%Z then Some d else None
  | None => None
  end.

Fixpoint readDigits (radix : Z) (s : string) (acc : option Z) : option Z :=
  match s with
  | String c s' =>
      match digitValue radix c with
      | Some d => readDigits radix s' (Some (default 0%Z acc * radix + d)%Z)
      | None => acc
      end
  | EmptyString => acc
  end.

Definition parseInt (input : string) : number :=
  let s := trimStart input in
  let '(negative, s) :=
    match s with
    | String "-" s' => (true, s')
    | String "+" s' => (false, s')
    | _ => (false, s)
    end in
  let '(radix, s) :=
    match s with
    | String "0" (String "x" s') => (16%Z, s')
    | String "0" (String "X" s') => (16%Z, s')
    | _ => (10%Z, s)
    end in
  match readDigits radix s None with
  | None => nan
  | Some z =>
      SF2Prim (binary_normalize prec emax (if negative then (- z)%Z else z) 0 negative)
  end.

(** ** Exceptions *)

(** [pos : [number, number, number?]] of an AST node. *)
Abbreviation Position := (list nat) (only parsing).

Inductive exn :=
| ThrowBool (b : bool)
  (* [getTrueIndex]: [throw true] (several true cells), [throw false] (none) *)
| SolverError (message : string) (position : Position)
| TypeError
  (* the runtime's TypeError: a property of [undefined] is read or written,
     or [undefined] is iterated *).

Inductive Result (A : Type) :=
| OK (a : A)
| Throw (e : exn).
Arguments OK {A} a.
Arguments Throw {A} e.

#[global] Instance Result_ret : MRet Result := fun A a => OK a.
#[global] Instance Result_bind : MBind Result := fun A B f r =>
  match r with
  | OK a => f a
  | Throw e => Throw e
  end.

#[global] Instance Result_fmap : FMap Result := fun A B f r =>
  match r with
  | OK a => OK (f a)
  | Throw e => Throw e
  end.

(** [for (const x of xs) s = body(x, s)] with exceptions. *)
Fixpoint forEach {A S : Type} (body : A → S → Result S) (xs : list A) (s : S) : Result S :=
  match xs with
  | [] => OK s
  | x :: xs' => s' ← body x s; forEach body xs' s'
  end.

(** ** The AST ([src/compiler/ast.ts]) *)

(** [states] of a relational node: [{l, r}], each a number, [null] or absent. *)
Record States := mkStates { states_l : option number; states_r : option number }.

(** The fields every node inherits from [Expression].  [type] is the
    constructor and [returns] follows from it. *)
Record Expression := mkExpression {
  pos : Position;
  dollar : bool;
  solved : option bool;
  states : option States;
}.

Definition set_solved (v : bool) (e : Expression) : Expression :=
  mkExpression (pos e) (dollar e) (Some v) (states e).
Definition set_states (s : States) (e : Expression) : Expression :=
  mkExpression (pos e) (dollar e) (solved e) (Some s).

Record Identifier := mkIdentifier {
  id_base : Expression;
  symbol : string;
}.

#[warnings="-register-all"]
Inductive ArithmeticExpression :=
| NumericLiteral (base : Expression) (value : number)
| NumericIdentifier (base : Expression) (symbol category : string)
| ArithmeticBinaryOperation (base : Expression) (operator : string)
    (operand0 operand1 : ArithmeticExpression)
| TruthsOperator (base : Expression) (elements : list LogicalExpression)
    (* [operands[0].elements]; the parser accepts logical elements only *)
with LogicalExpression :=
| LogicalUnaryOperation (base : Expression) (operator : string)
    (operand0 : LogicalExpression)
| LogicalBinaryOperation (base : Expression) (operator : string)
    (operand0 operand1 : LogicalExpression)
| LogicalOperation (base : Expression) (operator : string)
    (operands : list LogicalExpression)
| RelationalOperation (base : Expression) (operator : string)
    (operand0 operand1 : ArithmeticExpression)
| PositionalOperation (base : Expression) (operator : string)
    (operand0 operand1 : Identifier) (distance : option nat)
| InOperator (base : Expression) (operator : string)
    (operand0 : InLeft) (operand1 : InRight)
with InLeft :=
| InIdentifier (id : Identifier)
| InArithmetic (a : ArithmeticExpression)
with InRight :=
| SetLiteral (elements : list SetElement)
| RangeLiteral (range_start range_end : ArithmeticExpression)
with SetElement :=
| ElemIdentifier (id : Identifier)
| ElemArithmetic (a : ArithmeticExpression)
| ElemOther (base : Expression)
    (* a logical expression, a nested set or a range as an element of the set
       of [in]: the solver reads only its absent [symbol] and its [returns]
       tag, which is not ['arithmetic'] *).

Definition logical_base (clue : LogicalExpression) : Expression :=
  match clue with
  | LogicalUnaryOperation b _ _ | LogicalBinaryOperation b _ _ _
  | LogicalOperation b _ _ | RelationalOperation b _ _ _
  | PositionalOperation b _ _ _ _ | InOperator b _ _ _ => b
  end.

Definition arithmetic_base (exp : ArithmeticExpression) : Expression :=
  match exp with
  | NumericLiteral b _ | NumericIdentifier b _ _
  | ArithmeticBinaryOperation b _ _ _ | TruthsOperator b _ => b
  end.

(** [token.solved = v] on a logical node. *)
Definition assign_solved (v : bool) (clue : LogicalExpression) : LogicalExpression :=
  match clue with
  | LogicalUnaryOperation b o a => LogicalUnaryOperation (set_solved v b) o a
  | LogicalBinaryOperation b o a0 a1 => LogicalBinaryOperation (set_solved v b) o a0 a1
  | LogicalOperation b o l => LogicalOperation (set_solved v b) o l
  | RelationalOperation b o a0 a1 => RelationalOperation (set_solved v b) o a0 a1
  | PositionalOperation b o i0 i1 d => PositionalOperation (set_solved v b) o i0 i1 d
  | InOperator b o l r => InOperator (set_solved v b) o l r
  end.

Definition clue_solved (clue : LogicalExpression) : option bool :=
  solved (logical_base clue).
Definition clue_dollar (clue : LogicalExpression) : bool :=
  dollar (logical_base clue).

(** ** The matrix and the solver configuration ([src/solver/solver.ts]) *)

(** [Matrix = Record<string, boolean[]>]: row key to the array of the
    positions that remain possible. *)
Abbreviation Matrix := (gmap string (list bool)).

(** The truth value of [row[i]]; [undefined] past the end is falsy. *)
Definition truthy (row : list bool) (i : nat) : bool := default false (row !! i).

(** [row[i] = v]: in range the cell is replaced; past the end the array grows
    (a skipped cell reads as falsy and is stored as [false]). *)
Definition setIndex (row : list bool) (i : nat) (v : bool) : list bool :=
  if (i <? length row)%nat then <[i := v]> row
  else row ++ replicate (i - length row) false ++ [v].

(** [m[key]]; using the row when it is [undefined] raises a TypeError. *)
Definition getRow (m : Matrix) (key : string) : Result (list bool) :=
  match m !! key with
  | Some row => OK row
  | None => Throw TypeError
  end.

(** [m[key][i]] read as a condition. *)
Definition getCell (m : Matrix) (key : string) (i : nat) : Result bool :=
  row ← getRow m key; OK (truthy row i).

(** [m[key][i] = v]. *)
Definition setCell (m : Matrix) (key : string) (i : nat) (v : bool) : Result Matrix :=
  row ← getRow m key; OK (<[key := setIndex row i v]> m).

(** [`${category}.${item}`]. *)
Definition rowKey (category item : string) : string := category +:+ "." +:+ item.

(** [categories : Record<string, string[]>]: the entries in the order in which
    [for ... in], [Object.entries] and [Object.values] enumerate the object.
    That is the order in which the keys were added, except that the keys that
    are array indices (the decimal numeral of an integer below 2^32 - 1) come
    first, in ascending order.  The keys are pairwise different. *)
Abbreviation Categories := (list (string * list string)).

Fixpoint lookupCategory (categories : Categories) (name : string) : option (list string) :=
  match categories with
  | [] => None
  | (n, items) :: rest => if String.eqb n name then Some items else lookupCategory rest name
  end.

(** [categories[name] = items]: an existing key keeps its place. *)
Fixpoint assignCategory (categories : Categories) (name : string) (items : list string)
  : Categories :=
  match categories with
  | [] => [(name, items)]
  | (n, its) :: rest =>
      if String.eqb n name then (n, items) :: rest
      else (n, its) :: assignCategory rest name items
  end.

Definition includes (xs : list string) (x : string) : bool := bool_decide (x ∈ xs).

Record SolverConfig := mkSolverConfig {
  categories : Categories;
  greatCategories : list string;
  nameKV : gmap string string;
  itemOptions : list string;
  count : nat;
  combinations : list (list (list nat));
  maximumIterations : nat;
}.

(** *** [shortNamesMap] *)

(** The search-and-splice loop over [kva]: [Some] of the list without its
    first entry for [item], [None] when there is none. *)
Fixpoint spliceFirst (item : string) (kva : list (string * string))
  : option (list (string * string)) :=
  match kva with
  | [] => None
  | (k, v) :: rest =>
      if String.eqb k item then Some rest
      else match spliceFirst item rest with
           | Some rest' => Some ((k, v) :: rest')
           | None => None
           end
  end.

Definition shortNamesItem (category item : string)
    (acc : list (string * string) * list string) : list (string * string) * list string :=
  let '(kva, items) := acc in
  let items := items ++ [rowKey category item] in
  match spliceFirst item kva with
  | Some kva' => (kva', items)
  | None => (kva ++ [(item, rowKey category item)], items)
  end.

Definition shortNamesCategory (great : list string) (count : nat)
    (entry : string * list string) (acc : list (string * string) * list string)
  : Result (list (string * string) * list string) :=
  let '(category, its) := entry in
  if negb (length its =? count)%nat && negb (includes great category)
  then Throw (SolverError "All categories must have the same number of items." [1; 1])
  else OK (foldl (fun acc item => shortNamesItem category item acc) acc its).

(** [Object.fromEntries(kva)]: a later entry overrides an earlier one. *)
Definition fromEntries (kva : list (string * string)) : gmap string string :=
  foldl (fun m kv => <[kv.1 := kv.2]> m) ∅ kva.

Definition shortNamesMap (categories : Categories) (great : list string)
  : Result (gmap string string * list string * nat) :=
  match categories with
  | [] => Throw (SolverError "No categories provided." [1; 1])
  | _ =>
      match List.find (fun entry => negb (includes great entry.1)) categories with
      | None => Throw TypeError
      | Some (_, its) =>
          let count := length its in
          '(kva, items) ← forEach (shortNamesCategory great count) categories ([], []);
          OK (fromEntries kva, items, count)
      end
  end.

(** *** [generateAllCombinations] *)

(** [backtrack(start, depth)] with [remaining = k - depth]; the result is the
    list of the combinations pushed, in order. *)
Fixpoint backtrack (n remaining start : nat) (combination : list nat) : list (list nat) :=
  match remaining with
  | 0 => [combination]
  | S remaining' =>
      flat_map (fun i => backtrack n remaining' (S i) (combination ++ [i]))
               (seq start (n - start))
  end.

Definition generateCombinations (n k : nat) : list (list nat) := backtrack n k 0 [].

Definition generateAllCombinations (count : nat) : list (list (list nat)) :=
  [] :: map (generateCombinations count) (seq 1 (count - 1)).

(** *** [generateInitialMatrix]

    Returns the matrix and the [categories] object as the function leaves it,
    with the position category [#]. *)
Definition positionRow (count i : nat) : list bool :=
  <[i := true]> (replicate count false).

Definition generateInitialMatrix (categories : Categories) (itemOptions : list string)
    (count : nat) : Matrix * Categories :=
  let matrix := foldl (fun m item => <[item := replicate count true]> m) ∅ itemOptions in
  let matrix :=
    foldl (fun m i => <["#." +:+ pretty (i + 1) := positionRow count i]> m)
          matrix (seq 0 count) in
  (matrix, assignCategory categories "#" (map (fun i => pretty (i + 1)) (seq 0 count))).

(** *** [eliminateImpossibleOptionsByCategory] *)

(** [sc.categories[category][i]] inside a template string: ["undefined"]
    past the end of the item list. *)
Definition itemAt (items : list string) (i : nat) : string :=
  default "undefined" (items !! i).

Definition categoryItems (sc : SolverConfig) (category : string) : Result (list string) :=
  match lookupCategory (categories sc) category with
  | Some items => OK items
  | None => Throw TypeError
  end.

(** [combination.every(col => !row[col])] for the row stored under [key]. *)
Definition rowAvoids (matrix : Matrix) (combination : list nat) (key : string) : Result bool :=
  match combination with
  | [] => OK true
  | _ => row ← getRow matrix key; OK (forallb (fun col => negb (truthy row col)) combination)
  end.

(** [rows.filter(...).map(({ idx }) => idx)]; [rows] holds the row arrays by
    reference, so the filter reads the matrix as it is now. *)
Fixpoint matchingRows (matrix : Matrix) (combination : list nat)
    (rows : list (nat * string)) : Result (list nat) :=
  match rows with
  | [] => OK []
  | (idx, key) :: rest =>
      b ← rowAvoids matrix combination key;
      tl ← matchingRows matrix combination rest;
      OK (if (b : bool) then idx :: tl else tl)
  end.

Definition eliminateCombination (category : string) (items : list string)
    (rows : list (nat * string)) (sc : SolverConfig) (k : nat)
    (combination : list nat) (matrix : Matrix) : Result Matrix :=
  let requiredRows := sc.(count) - k in
  matching ← matchingRows matrix combination rows;
  if (length matching <? requiredRows)%nat then OK matrix
  else
    forEach (fun (i : nat) (matrix : Matrix) =>
      if bool_decide (i ∈ matching) then OK matrix
      else
        forEach (fun (j : nat) (matrix : Matrix) =>
          if bool_decide (j ∈ combination) then OK matrix
          else setCell matrix (rowKey category (itemAt items i)) j false)
          (seq 0 k) matrix)
      (seq 0 k) matrix.

Definition eliminateImpossibleOptionsByCategory (matrix : Matrix) (category : string)
    (sc : SolverConfig) : Result Matrix :=
  match sc.(count) with
  | 0 => OK matrix
  | _ =>
      items ← categoryItems sc category;
      let rows := map (fun i => (i, rowKey category (itemAt items i)))
                      (seq 0 sc.(count)) in
      forEach (fun (k : nat) (matrix : Matrix) =>
        match combinations sc !! k with
        | None => Throw TypeError
        | Some columnCombinations =>
            forEach (eliminateCombination category items rows sc k)
                    columnCombinations matrix
        end)
        (seq 1 (sc.(count) - 1)) matrix
  end.

Definition eliminateImpossibleOptions (m : Matrix) (sc : SolverConfig) : Result Matrix :=
  forEach (fun (entry : string * list string) (m : Matrix) =>
             eliminateImpossibleOptionsByCategory m entry.1 sc)
          (categories sc) m.

(** *** [parseIdentifier] *)

(** [name.replace(/[#.]/g, '')]. *)
Fixpoint removeHashDot (s : string) : string :=
  match s with
  | EmptyString => EmptyString
  | String c s' =>
      if (Ascii.eqb c "#" || Ascii.eqb c ".")%bool then removeHashDot s'
      else String c (removeHashDot s')
  end.

(** [type IdParser = (id: Identifier) => string].  The parser reads the
    [symbol] and the [pos] of its argument; a node passed through a cast may
    have no [symbol]. *)
Definition IdParser : Type := option string → Position → Result string.

(** The properties that an object literal inherits from [Object.prototype].
    [nameKV] is made by [Object.fromEntries], so its entries are its own
    properties; read at one of these keys without an entry of its own it
    gives a function (the prototype itself for [__proto__]), which is not
    nullish and has no [startsWith]. *)
Definition inheritedKeys : list string :=
  ["constructor"; "hasOwnProperty"; "isPrototypeOf"; "propertyIsEnumerable";
   "toLocaleString"; "toString"; "valueOf"; "__proto__";
   "__defineGetter__"; "__defineSetter__"; "__lookupGetter__"; "__lookupSetter__"].

(** [nameKV[identifier.symbol] ?? identifier.symbol] and what follows.  The call
    [name.startsWith] raises a TypeError when [name] is undefined (a node
    without [symbol]) or an inherited property of [nameKV]. *)
Definition parseIdentifier (nameKV : gmap string string) (itemOptions : list string)
    (dollar : nat) : IdParser := fun symbol position =>
  let written := default "undefined" symbol in
  match (match nameKV !! written with
         | Some name => Some name
         | None => if includes inheritedKeys written then None else symbol
         end) with
  | None => Throw TypeError
  | Some name =>
      if String.prefix "#" name then OK ("#." +:+ removeHashDot name)
      else if String.eqb name "$" then OK ("#." +:+ pretty dollar)
      else if includes itemOptions name then OK name
      else Throw (SolverError ("Identifier " +:+ written +:+ " not found.") position)
  end.

Definition idOf (p : IdParser) (id : Identifier) : Result string :=
  p (Some (symbol id)) (pos (id_base id)).

(** ** Clue evaluation ([src/solver/clueEval.ts]) *)

(** *** [getTrueIndex] *)

Fixpoint getTrueIndexFrom (i : nat) (ar : list bool) (idx : option nat) : Result nat :=
  match ar with
  | [] => match idx with
          | Some idx => OK idx
          | None => Throw (ThrowBool false)
          end
  | b :: ar' =>
      if b then
        match idx with
        | None => getTrueIndexFrom (S i) ar' (Some i)
        | Some _ => Throw (ThrowBool true)
        end
      else getTrueIndexFrom (S i) ar' idx
  end.

Definition getTrueIndex (ar : list bool) : Result nat := getTrueIndexFrom 0 ar None.

(** [getTrueIndex(m[key])]. *)
Definition trueIndexOf (m : Matrix) (key : string) : Result nat :=
  row ← getRow m key; getTrueIndex row.

(** *** The operator tables *)

(** [clueCheckers.PositionalOperation]: the value stored in [token.solved],
    from [l], [r] and [token.distance]. *)
Definition positionalCheckers (operator : string) : option (option nat → nat → nat → bool) :=
  if String.eqb operator "=" then Some (fun _ l r => (l =? r)%nat)
  else if String.eqb operator "-" then
    Some (fun distance l r => (Z.of_nat r - Z.of_nat l =? Z.of_nat (default 1%nat distance))%Z)
  else if String.eqb operator "--" then Some (fun _ l r => (l <? r)%nat)
  else None.

(** [clueCheckers.LogicalBinaryOperation]: [out] from [a] and [b]. *)
Definition logicalBinaryCheckers (operator : string) : option (bool → bool → bool) :=
  if String.eqb operator "&" then Some andb
  else if String.eqb operator "|" then Some orb
  else if String.eqb operator "^" then Some (fun a b => negb (Bool.eqb a b))
  else if String.eqb operator "<=>" then Some Bool.eqb
  else if String.eqb operator "=>" then Some (fun a b => negb a || b)
  else None.

(** The comparison [ok] that the six relational entries pass on. *)
Definition relationalOperators (operator : string) : option (number → number → bool) :=
  if String.eqb operator "==" then Some js_eq
  else if String.eqb operator ">" then Some js_gt
  else if String.eqb operator "<" then Some js_lt
  else if String.eqb operator ">=" then Some js_ge
  else if String.eqb operator "<=" then Some js_le
  else if String.eqb operator "!=" then Some js_ne
  else None.

(** The [switch] of [parseArithmetic]. *)
Definition arithmeticOperator (operator : string) (position : Position) (l r : number)
  : Result number :=
  if String.eqb operator "+" then OK (js_add l r)
  else if String.eqb operator "-" then OK (js_sub l r)
  else if String.eqb operator "*" then OK (js_mul l r)
  else if String.eqb operator "/" then OK (js_div l r)
  else if String.eqb operator "%" then OK (js_rem l r)
  else if String.eqb operator "diff" then OK (js_abs (js_sub l r))
  else Throw (SolverError ("Unexpected arithmetic operator " +:+ operator +:+ ".") position).

(** *** [parseArithmetic] on a [NumericIdentifier] *)

(** The inner loop over the items of the category at column [i]: [None] is
    the [return null], [Some val] the value of [val] when the loop ends. *)
Fixpoint scanItems (m : Matrix) (category : string) (i : nat) (items : list string)
    (val : option number) : Result (option (option number)) :=
  match items with
  | [] => OK (Some val)
  | item :: rest =>
      cell ← getCell m (rowKey category item) i;
      if negb cell then scanItems m category i rest val
      else
        let v := parseInt item in
        match val with
        | None => scanItems m category i rest (Some v)
        | Some val' =>
            if js_ne val' v then OK None else scanItems m category i rest val
        end
  end.

Fixpoint scanColumns (m : Matrix) (category : string) (items : list string)
    (i : nat) (idRow : list bool) (val : option number) : Result (option number) :=
  match idRow with
  | [] => OK val
  | b :: idRow' =>
      if negb b then scanColumns m category items (S i) idRow' val
      else
        r ← scanItems m category i items val;
        match r with
        | None => OK None
        | Some val' => scanColumns m category items (S i) idRow' val'
        end
  end.

Definition categoryMissing (category : string) (position : Position) : exn :=
  SolverError ("Category " +:+ category +:+ " does not exist.") position.

Definition numericIdentifierValue (m : Matrix) (p : IdParser) (sc : SolverConfig)
    (base : Expression) (symbol category : string) : Result (option number) :=
  key ← p (Some symbol) (pos base);
  match lookupCategory (categories sc) category with
  | None =>
      if includes inheritedKeys category then
        (* [sc.categories[id.category]] is an inherited property: it is not
           falsy, and [for ... of] raises when it first reaches it *)
        idRow ← getRow m key;
        if existsb (fun b => b) idRow then Throw TypeError else OK None
      else Throw (categoryMissing category (pos base))
  | Some items =>
      idRow ← getRow m key;
      scanColumns m category items 0 idRow None
  end.

(** What [p(s as Identifier)] reads of an element of a set. *)
Definition elementIdentifier (s : SetElement) : option string * Position :=
  match s with
  | ElemIdentifier id => (Some (symbol id), pos (id_base id))
  | ElemArithmetic (NumericIdentifier b symbol _) => (Some symbol, pos b)
  | ElemArithmetic a => (None, pos (arithmetic_base a))
  | ElemOther b => (None, pos b)
  end.

(** [l == r] for some element of the set, in order; the first element whose
    row is not a singleton raises. *)
Fixpoint identifierInSet (m : Matrix) (p : IdParser) (l : nat) (elements : list SetElement)
  : Result bool :=
  match elements with
  | [] => OK false
  | s :: rest =>
      key ← p (elementIdentifier s).1 (elementIdentifier s).2;
      r ← trueIndexOf m key;
      if (l =? r)%nat then OK true else identifierInSet m p l rest
  end.

(** The loops over the operands of a node, with the recursive call as the
    parameter [check] or [parse]. *)

(** [for (const clue of elements) if (checkClueThrowable(clue)) count++]. *)
Definition truthsLoop (check : LogicalExpression → Result (bool * LogicalExpression)) :=
  fix truths (clues : list LogicalExpression) (count : number)
    : Result (number * list LogicalExpression) :=
    match clues with
    | [] => OK (count, [])
    | clue :: rest =>
        '(t, clue') ← check clue;
        '(count', rest') ← truths rest (if (t : bool) then js_add count 1 else count);
        OK (count', clue' :: rest')
    end.

(** The loop of the [&] ([isAnd]) and [|] checkers of [LogicalOperation]. *)
Definition checkOperands (check : LogicalExpression → Result (bool * LogicalExpression))
    (isAnd : bool) :=
  fix each (clues : list LogicalExpression) (result allSolved : bool)
    : Result (bool * bool * list LogicalExpression) :=
    match clues with
    | [] => OK (result, allSolved, [])
    | clue :: rest =>
        '(t, clue') ← check clue;
        let result := if isAnd then (if (t : bool) then result else false)
                      else (if t then true else result) in
        let allSolved := if clue_solved clue' is None then false else allSolved in
        '(result', allSolved', rest') ← each rest result allSolved;
        OK (result', allSolved', clue' :: rest')
    end.

(** The loop over the items of the set of an arithmetic [in]. *)
Definition arithmeticInSet
    (parse : ArithmeticExpression → Result (option number * ArithmeticExpression))
    (val : number) (position : Position) :=
  fix each (items : list SetElement) : Result (bool * list SetElement) :=
    match items with
    | [] => OK (false, [])
    | ElemArithmetic item :: rest =>
        '(v, item') ← parse item;
        match v with
        | None => OK (true, ElemArithmetic item' :: rest)
        | Some v =>
            if js_eq v val then OK (true, ElemArithmetic item' :: rest)
            else '(out, rest') ← each rest;
                 OK (out, ElemArithmetic item' :: rest')
        end
    | _ :: _ => Throw (SolverError "This set can only be arithmetic." position)
    end.

(** *** [parseArithmetic], [checkClueThrowable] and [clueCheckers]

    Each function returns its result together with the node as the call leaves
    it: the checkers assign [token.solved] and [token.states].  A raised
    exception ends the evaluation of the whole clue. *)
Section Checkers.
Variables (m : Matrix) (p : IdParser) (sc : SolverConfig).

Fixpoint parseArithmetic (exp : ArithmeticExpression)
  : Result (option number * ArithmeticExpression) :=
  match exp with
  | NumericLiteral _ value => OK (Some value, exp)
  | NumericIdentifier b symbol category =>
      val ← numericIdentifierValue m p sc b symbol category; OK (val, exp)
  | ArithmeticBinaryOperation b operator e0 e1 =>
      '(l, e0') ← parseArithmetic e0;
      '(r, e1') ← parseArithmetic e1;
      let exp' := ArithmeticBinaryOperation b operator e0' e1' in
      match l, r with
      | Some l, Some r => v ← arithmeticOperator operator (pos b) l r; OK (Some v, exp')
      | _, _ => OK (None, exp')
      end
  | TruthsOperator b elements =>
      '(count, elements') ← truthsLoop checkClueThrowable elements 0%float;
      OK (Some count, TruthsOperator b elements')
  end
with checkClueThrowable (clue : LogicalExpression) : Result (bool * LogicalExpression) :=
  match clue_solved clue with
  | Some s => OK (s, clue)
  | None =>
      match clue with
      | PositionalOperation b operator i0 i1 distance =>
          match positionalCheckers operator with
          | None => OK (true, clue)
          | Some check =>
              k0 ← idOf p i0; l ← trueIndexOf m k0;
              k1 ← idOf p i1; r ← trueIndexOf m k1;
              let out := check distance l r in
              OK (out, assign_solved out clue)
          end
      | LogicalBinaryOperation b operator o0 o1 =>
          match logicalBinaryCheckers operator with
          | None => OK (true, clue)
          | Some f =>
              '(a, o0') ← checkClueThrowable o0;
              '(b', o1') ← checkClueThrowable o1;
              let out := f a b' in
              let token := LogicalBinaryOperation b operator o0' o1' in
              OK (out, if bool_decide (is_Some (clue_solved o0') ∧ is_Some (clue_solved o1'))
                       then assign_solved out token else token)
          end
      | LogicalOperation b operator operands =>
          if String.eqb operator "&" || String.eqb operator "|" then
            let isAnd := String.eqb operator "&" in
            '(result, allSolved, operands') ←
              checkOperands checkClueThrowable isAnd operands isAnd true;
            let token := LogicalOperation b operator operands' in
            OK (result, if (allSolved : bool) then assign_solved result token else token)
          else OK (true, clue)
      | LogicalUnaryOperation b operator o0 =>
          if String.eqb operator "!" then
            '(t, o0') ← checkClueThrowable o0;
            let out := negb t in
            let token := LogicalUnaryOperation b operator o0' in
            OK (out, if clue_solved o0' is None then token else assign_solved out token)
          else OK (true, clue)
      | InOperator b operator lhs rhs =>
          if String.eqb operator "in" then
            match lhs, rhs with
            | InIdentifier id, RangeLiteral _ _ =>
                Throw (SolverError "Identifier can be only in a SetLiteral." (pos b))
            | InIdentifier id, SetLiteral elements =>
                k ← idOf p id; l ← trueIndexOf m k;
                out ← identifierInSet m p l elements;
                OK (out, clue)
            | InArithmetic a, SetLiteral elements =>
                '(val, a') ← parseArithmetic a;
                match val with
                | None => OK (true, InOperator b operator (InArithmetic a') rhs)
                | Some val =>
                    '(out, elements') ← arithmeticInSet parseArithmetic val (pos b) elements;
                    OK (out, InOperator b operator (InArithmetic a') (SetLiteral elements'))
                end
            | InArithmetic a, RangeLiteral range_start range_end =>
                '(val, a') ← parseArithmetic a;
                match val with
                | None => OK (true, InOperator b operator (InArithmetic a') rhs)
                | Some val =>
                    '(start', s') ← parseArithmetic range_start;
                    '(end', e') ← parseArithmetic range_end;
                    let token := InOperator b operator (InArithmetic a') (RangeLiteral s' e') in
                    match start', end' with
                    | Some start', Some end' => OK (js_ge val start' && js_le val end', token)
                    | _, _ => OK (true, token)
                    end
                end
            end
          else OK (true, clue)
      | RelationalOperation b operator a0 a1 =>
          match relationalOperators operator with
          | None => OK (true, clue)
          | Some ok =>
              (* checkRelational *)
              let st := default (mkStates None None) (states b) in
              '(l, a0') ← match states_l st with
                          | Some l => OK (Some l, a0)
                          | None => parseArithmetic a0
                          end;
              '(r, a1') ← match states_r st with
                          | Some r => OK (Some r, a1)
                          | None => parseArithmetic a1
                          end;
              let token := RelationalOperation (set_states (mkStates l r) b) operator a0' a1' in
              match l, r with
              | Some l, Some r =>
                  let result := ok l r in OK (result, assign_solved result token)
              | _, _ => OK (true, token)
              end
          end
      end
  end.

End Checkers.

(** [structuredClone]: a deep copy is the same value. *)
Definition structuredClone {A : Type} (a : A) : A := a.

(** The entry of [clueCheckers] for the node, applied to it: [None] when the
    table has no entry for its type and operator. *)
Definition hasChecker (clue : LogicalExpression) : bool :=
  match clue with
  | PositionalOperation _ operator _ _ _ => bool_decide (is_Some (positionalCheckers operator))
  | LogicalBinaryOperation _ operator _ _ => bool_decide (is_Some (logicalBinaryCheckers operator))
  | LogicalOperation _ operator _ => String.eqb operator "&" || String.eqb operator "|"
  | LogicalUnaryOperation _ operator _ => String.eqb operator "!"
  | InOperator _ operator _ _ => String.eqb operator "in"
  | RelationalOperation _ operator _ _ => bool_decide (is_Some (relationalOperators operator))
  end.

(** *** [checkClue] *)
Definition checkClue (clue : LogicalExpression) (matrix : Matrix)
    (identifierParser : IdParser) (sc : SolverConfig) : bool :=
  match clue_solved clue with
  | Some s => s
  | None =>
      if negb (hasChecker clue) then true
      else
        let clueClone := structuredClone clue in
        match checkClueThrowable matrix identifierParser sc clueClone with
        | OK (b, _) => b
        | Throw _ => true
        end
  end.

(** *** The evaluators ([clueEvaluators]) *)

Definition positionalDistanceEval (m : Matrix) (sc : SolverConfig) (l r : string)
    (dist : nat) : Result Matrix :=
  m ← forEach (fun (i : nat) (m : Matrix) =>
         a ← getCell m l i;
         b ← (if (a : bool) then getCell m r (i + dist) else OK false);
         if a && b then OK m
         else m ← setCell m l i false; setCell m r (i + dist) false)
       (seq 0 (count sc - dist)) m;
  forEach (fun (i : nat) (m : Matrix) =>
         m ← (if (dist <=? count sc + i)%nat
              then setCell m l (count sc + i - dist) false
              else (* a negative index names a property, not a cell *)
                _ ← getRow m l; OK m);
         setCell m r i false)
       (seq 0 dist) m.

(** One loop of the [--] evaluator: clear [m[clear][i]], stop after the first
    [i] where [m[test][i]] holds. *)
Fixpoint sweep (clear test : string) (indices : list nat) (m : Matrix) : Result Matrix :=
  match indices with
  | [] => OK m
  | i :: rest =>
      m ← setCell m clear i false;
      t ← getCell m test i;
      if (t : bool) then OK m else sweep clear test rest m
  end.

Definition somewhereLeftEval (m : Matrix) (sc : SolverConfig) (l r : string) : Result Matrix :=
  m ← sweep r l (seq 0 (count sc)) m;
  sweep l r (rev (seq 0 (count sc))) m.

(** The [in] evaluator when the left operand is an identifier. *)
Definition inSetEval (m : Matrix) (p : IdParser) (sc : SolverConfig) (id : Identifier)
    (elements : list SetElement) : Result Matrix :=
  l ← idOf p id;
  can ← forEach (fun (s : SetElement) (can : list bool) =>
           r ← p (elementIdentifier s).1 (elementIdentifier s).2;
           forEach (fun (i : nat) (can : list bool) =>
                      c ← getCell m r i;
                      OK (if (c : bool) then setIndex can i true else can))
                   (seq 0 (count sc)) can)
         elements (replicate (count sc) false);
  forEach (fun (i : nat) (m : Matrix) =>
             a ← getCell m l i;
             setCell m l i (a && truthy can i))
          (seq 0 (count sc)) m.

(** [row.filter(b => b).length]. *)
Definition countTrue (row : list bool) : nat := length (List.filter (fun b => b) row).

(** [idRow.indexOf(true)] for a row with a true cell. *)
Fixpoint indexOfTrue (row : list bool) : nat :=
  match row with
  | [] => 0
  | b :: row' => if b then 0 else S (indexOfTrue row')
  end.

(** The body shared by the two branches of [relationalEval], after the other
    operand has been evaluated: [test item] is [ok(parseInt(item), r)] or
    [ok(l, parseInt(item))]. *)
Definition relationalNarrow (m : Matrix) (p : IdParser) (sc : SolverConfig)
    (tokenPos : Position) (idBase : Expression) (symbol category : string)
    (test : number → bool) : Result Matrix :=
  key ← p (Some symbol) (pos idBase);
  idRow ← getRow m key;
  if negb (countTrue idRow =? 1)%nat then OK m
  else
    let position := indexOfTrue idRow in
    match lookupCategory (categories sc) category with
    | None =>
        (* an inherited property is not falsy and not iterable *)
        if includes inheritedKeys category then Throw TypeError
        else Throw (categoryMissing category tokenPos)
    | Some items =>
        forEach (fun (item : string) (m : Matrix) =>
                   if negb (test (parseInt item))
                   then setCell m (rowKey category item) position false
                   else OK m)
                items m
    end.

Definition relationalEval (b : Expression) (operator : string)
    (a0 a1 : ArithmeticExpression) (m : Matrix) (p : IdParser) (sc : SolverConfig)
    (ok : number → number → bool) : Result (Matrix * LogicalExpression) :=
  match a0, a1 with
  | NumericIdentifier b0 symbol category, _ =>
      '(r, a1') ← parseArithmetic m p sc a1;
      let token := RelationalOperation b operator a0 a1' in
      match r with
      | None => OK (m, token)
      | Some r =>
          m' ← relationalNarrow m p sc (pos b) b0 symbol category (fun v => ok v r);
          OK (m', token)
      end
  | _, NumericIdentifier b1 symbol category =>
      '(l, a0') ← parseArithmetic m p sc a0;
      let token := RelationalOperation b operator a0' a1 in
      match l with
      | None => OK (m, token)
      | Some l =>
          m' ← relationalNarrow m p sc (pos b) b1 symbol category (fun v => ok l v);
          OK (m', token)
      end
  | _, _ => OK (m, RelationalOperation b operator a0 a1)
  end.

(** The final loops of the two disjunction evaluators: clear every cell of
    [m] below [count] that [keep] rejects. *)
Definition clearRow (count : nat) (keep : nat → bool) (row : list bool) : list bool :=
  foldl (fun row i => if keep i then row else setIndex row i false) row (seq 0 count).

Definition cellOf (m : Matrix) (key : string) (i : nat) : bool :=
  truthy (default [] (m !! key)) i.

Definition intersectSnapshots (count : nat) (keep : string → nat → bool) (m : Matrix)
  : Matrix :=
  map_imap (fun key row => Some (clearRow count (keep key) row)) m.

(** The loop of the [&] evaluator of [LogicalOperation]. *)
Definition parseEach (parse : LogicalExpression → Matrix → Result (Matrix * LogicalExpression)) :=
  fix each (clues : list LogicalExpression) (m : Matrix)
    : Result (Matrix * list LogicalExpression) :=
    match clues with
    | [] => OK (m, [])
    | c :: rest =>
        '(m, c') ← parse c m;
        '(m, rest') ← each rest m;
        OK (m, c' :: rest')
    end.

(** [token.operands.map(c => ...)] of the [|] evaluator: the snapshots. *)
Definition snapshotEach (parse : LogicalExpression → Matrix → Result (Matrix * LogicalExpression))
    (sc : SolverConfig) (matrix : Matrix) :=
  fix each (clues : list LogicalExpression) : Result (list Matrix * list LogicalExpression) :=
    match clues with
    | [] => OK ([], [])
    | c :: rest =>
        let mc := structuredClone matrix in
        '(mc, c') ← parse c mc;
        mc ← eliminateImpossibleOptions mc sc;
        '(snapshots, rest') ← each rest;
        OK (mc :: snapshots, c' :: rest')
    end.

Section Evaluators.
Variables (p : IdParser) (sc : SolverConfig).

(** [parseClue], with the entries of [clueEvaluators] in place.  The snapshots
    of a disjunction are clones of [m] and keep its keys, so [s[key]] is
    defined in the final loop. *)
Fixpoint parseClue (clue : LogicalExpression) (matrix : Matrix)
  : Result (Matrix * LogicalExpression) :=
  match clue_solved clue with
  | Some _ => OK (matrix, clue)
  | None =>
      match clue with
      | PositionalOperation b operator i0 i1 distance =>
          if String.eqb operator "=" then
            l ← idOf p i0; r ← idOf p i1;
            m ← positionalDistanceEval matrix sc l r 0; OK (m, clue)
          else if String.eqb operator "-" then
            l ← idOf p i0; r ← idOf p i1;
            m ← positionalDistanceEval matrix sc l r (default 1 distance); OK (m, clue)
          else if String.eqb operator "--" then
            l ← idOf p i0; r ← idOf p i1;
            m ← somewhereLeftEval matrix sc l r; OK (m, clue)
          else OK (matrix, clue)
      | LogicalBinaryOperation b operator o0 o1 =>
          if String.eqb operator "&" then
            '(m, o0') ← parseClue o0 matrix;
            '(m, o1') ← parseClue o1 m;
            OK (m, LogicalBinaryOperation b operator o0' o1')
          else if String.eqb operator "|" then
            (* evalBinaryLogical *)
            let m1 := structuredClone matrix in
            let m2 := structuredClone matrix in
            '(m1, o0') ← parseClue o0 m1;
            '(m2, o1') ← parseClue o1 m2;
            m1 ← eliminateImpossibleOptions m1 sc;
            m2 ← eliminateImpossibleOptions m2 sc;
            OK (intersectSnapshots (count sc)
                  (fun key i => cellOf m1 key i || cellOf m2 key i) matrix,
                LogicalBinaryOperation b operator o0' o1')
          else OK (matrix, clue)
      | LogicalOperation b operator operands =>
          if String.eqb operator "&" then
            '(m, operands') ← parseEach parseClue operands matrix;
            OK (m, LogicalOperation b operator operands')
          else if String.eqb operator "|" then
            '(snapshots, operands') ← snapshotEach parseClue sc matrix operands;
            OK (intersectSnapshots (count sc)
                  (fun key i => existsb (fun s => cellOf s key i) snapshots) matrix,
                LogicalOperation b operator operands')
          else OK (matrix, clue)
      | InOperator b operator lhs rhs =>
          if String.eqb operator "in" then
            match lhs, rhs with
            | InIdentifier id, RangeLiteral _ _ =>
                Throw (SolverError "Identifier can be only in a SetLiteral." (pos b))
            | InIdentifier id, SetLiteral elements =>
                m ← inSetEval matrix p sc id elements; OK (m, clue)
            | InArithmetic _, _ => OK (matrix, clue)
            end
          else OK (matrix, clue)
      | RelationalOperation b operator a0 a1 =>
          match relationalOperators operator with
          | Some ok => relationalEval b operator a0 a1 matrix p sc ok
          | None => OK (matrix, clue)
          end
      | LogicalUnaryOperation _ _ _ => OK (matrix, clue)
      end
  end.

End Evaluators.

(** ** The search ([solve] and the functions local to it) *)

Record IterationState := mkIterationState {
  matrix : Matrix;
  clues : list LogicalExpression;
}.

(** [stats], with the solutions pushed so far. *)
Record Stats := mkStats {
  iteration_ : nat;
  option_ : nat;
  solutions_ : list Matrix;
}.

(** [id => parseIdentifier(id, d)]. *)
Definition idParser (sc : SolverConfig) (d : nat) : IdParser :=
  parseIdentifier (nameKV sc) (itemOptions sc) d.

(** The values of [d] for which the loop [for (d = 1; d <= count; d++)]
    with its [if (!clue.dollar) break] runs its body. *)
Definition dynamicPositions (sc : SolverConfig) (clue : LogicalExpression) : list nat :=
  if clue_dollar clue then seq 1 (count sc) else take 1 (seq 1 (count sc)).

Definition iterationClue (sc : SolverConfig) (clue : LogicalExpression) (m : Matrix)
  : Result (Matrix * LogicalExpression) :=
  forEach (fun (d : nat) (s : Matrix * LogicalExpression) =>
             parseClue (idParser sc d) sc s.2 s.1)
          (dynamicPositions sc clue) (m, clue).

Fixpoint iterationClues (sc : SolverConfig) (clues : list LogicalExpression) (m : Matrix)
  : Result (Matrix * list LogicalExpression) :=
  match clues with
  | [] => OK (m, [])
  | clue :: rest =>
      '(m, clue') ← iterationClue sc clue m;
      '(m, rest') ← iterationClues sc rest m;
      OK (m, clue' :: rest')
  end.

Definition iteration (sc : SolverConfig) (state : IterationState) : Result IterationState :=
  '(m, clues') ← iterationClues sc (clues state) (matrix state);
  m ← eliminateImpossibleOptions m sc;
  OK (mkIterationState m clues').

(** [state.matrix[key][i] != snapshot[key][i]] for some key and [i < count]. *)
Definition rowChanged (count : nat) (row snapshot : list bool) : bool :=
  existsb (fun i => negb (bool_decide (row !! i = snapshot !! i))) (seq 0 count).

Definition matrixChanged (count : nat) (m snapshot : Matrix) : bool :=
  existsb (fun entry : string * list bool =>
             rowChanged count entry.2 (default [] (snapshot !! entry.1)))
          (map_to_list m).

(** The [while (true)] loop of [solveOption]; [fuel] bounds the number of
    rounds, [None] when it runs out. *)
Fixpoint iterationLoop (sc : SolverConfig) (fuel : nat) (state : IterationState)
  : option (Result IterationState) :=
  match fuel with
  | 0 => None
  | S fuel' =>
      let snapshot := structuredClone (matrix state) in
      match iteration sc state with
      | Throw e => Some (Throw e)
      | OK state' =>
          if matrixChanged (count sc) (matrix state') snapshot
          then iterationLoop sc fuel' state'
          else Some (OK state')
      end
  end.

(** The indexes of the true cells of a row, in order. *)
Fixpoint trueIndexesFrom (i : nat) (row : list bool) : list nat :=
  match row with
  | [] => []
  | b :: row' => if b then i :: trueIndexesFrom (S i) row' else trueIndexesFrom (S i) row'
  end.
Definition trueIndexes (row : list bool) : list nat := trueIndexesFrom 0 row.

(** [colHas]: an array that may get holes when it is written past its end. *)
Definition setSparse (colHas : list (option bool)) (i : nat) (v : bool) : list (option bool) :=
  if (i <? length colHas)%nat then <[i := Some v]> colHas
  else colHas ++ replicate (i - length colHas) None ++ [Some v].

Definition colHasAt (colHas : list (option bool)) (i : nat) : bool :=
  match colHas !! i with
  | Some (Some b) => b
  | _ => false
  end.

(** [for (const ti of trueIndexes)]: a column that is already taken clears
    [allSolved]; the column is then marked. *)
Definition markIndexes (acc : bool * list (option bool)) (tis : list nat)
  : bool * list (option bool) :=
  foldl (fun (acc : bool * list (option bool)) ti =>
           ((if colHasAt acc.2 ti then false else acc.1), setSparse acc.2 ti true))
        acc tis.

(** The body of the loop over the items of a category in [solveOption]:
    [None] is [return -1]. *)
Definition validateItem (sc : SolverConfig) (m : Matrix) (category item : string)
    (acc : bool * list (option bool)) : Result (option (bool * list (option bool))) :=
  let '(allSolved, colHas) := acc in
  row ← getRow m (rowKey category item);
  let tis := trueIndexes row in
  let allSolved := if (1 <? length tis)%nat then false else allSolved in
  if (length tis =? 0)%nat && negb (includes (greatCategories sc) category) then OK None
  else
    OK (Some (markIndexes (allSolved, colHas) tis)).

Fixpoint validateItems (sc : SolverConfig) (m : Matrix) (category : string)
    (items : list string) (acc : bool * list (option bool))
  : Result (option (bool * list (option bool))) :=
  match items with
  | [] => OK (Some acc)
  | item :: rest =>
      r ← validateItem sc m category item acc;
      match r with
      | None => OK None
      | Some acc' => validateItems sc m category rest acc'
      end
  end.

(** The loop over the categories: [None] is [return -1], [Some allSolved]
    otherwise. *)
Fixpoint validateCategories (sc : SolverConfig) (m : Matrix) (cats : Categories)
    (allSolved : bool) : Result (option bool) :=
  match cats with
  | [] => OK (Some allSolved)
  | (category, items) :: rest =>
      r ← validateItems sc m category items (allSolved, replicate (count sc) (Some false));
      match r with
      | None => OK None
      | Some (allSolved', colHas) =>
          if bool_decide (Some false ∈ colHas) then OK None
          else validateCategories sc m rest allSolved'
      end
  end.

(** The loop over the clues of [solveOption]: [false] is [return -2]. *)
Definition checkClues (sc : SolverConfig) (state : IterationState) : bool :=
  forallb (fun clue =>
             forallb (fun d => checkClue clue (matrix state) (idParser sc d) sc)
                     (dynamicPositions sc clue))
          (clues state).

(** [solveOption] after the loop has ended in [state]. *)
Definition solveOptionCheck (sc : SolverConfig) (state : IterationState) (stats : Stats)
  : Result (Z * Stats) :=
  r ← validateCategories sc (matrix state) (categories sc) true;
  match r with
  | None => OK ((-1)%Z, stats)
  | Some allSolved =>
      if negb (checkClues sc state) then OK ((-2)%Z, stats)
      else if (allSolved : bool) then
        OK (1%Z, mkStats (iteration_ stats) (option_ stats)
                         (solutions_ stats ++ [matrix state]))
      else OK (0%Z, stats)
  end.

(** The number of cells below [count] that are not yet [false].  Every round
    of the loop that changes the matrix lowers it (see
    [iterationLoop_terminates]), so [S] of it is enough fuel. *)
Definition openRow (count : nat) (row : list bool) : nat :=
  length (List.filter (fun i => negb (bool_decide (row !! i = Some false))) (seq 0 count)).

Definition openCells (count : nat) (m : Matrix) : nat :=
  sum_list_with (fun entry : string * list bool => openRow count entry.2) (map_to_list m).

(** [solveOption]: the state is returned as the call leaves it.  The loop
    never runs out of the fuel given here ([iterationLoop_terminates]), so the
    last branch is never taken. *)
Definition solveOption (sc : SolverConfig) (state : IterationState) (stats : Stats)
  : Result (Z * IterationState * Stats) :=
  match iterationLoop sc (S (openCells (count sc) (matrix state))) state with
  | Some (OK state') =>
      '(code, stats') ← solveOptionCheck sc state' stats; OK (code, state', stats')
  | Some (Throw e) => Throw e
  | None => Throw TypeError
  end.

(** *** [runIterations] *)

(** [count] of the items of [category] that are possible at [col]. *)
Fixpoint countAtColumn (m : Matrix) (category : string) (items : list string) (col : nat)
  : Result nat :=
  match items with
  | [] => OK 0
  | item :: rest =>
      c ← getCell m (rowKey category item) col;
      n ← countAtColumn m category rest col;
      OK (if (c : bool) then S n else n)
  end.

(** The scan for the cell to branch on: [None] is the initial
    [minimumOptions = Infinity], [minimumCategory = ''], [minimumCol = -1]. *)
Definition scanColumn (m : Matrix) (category : string) (items : list string) (col : nat)
    (minimum : option (nat * string * nat)) : Result (option (nat * string * nat)) :=
  n ← countAtColumn m category items col;
  let below := match minimum with
               | None => true
               | Some (minimumOptions, _, _) => (n <? minimumOptions)%nat
               end in
  OK (if (1 <? n)%nat && below then Some (n, category, col) else minimum).

Definition findMinimum (sc : SolverConfig) (m : Matrix) : Result (option (nat * string * nat)) :=
  forEach (fun (entry : string * list string) minimum =>
             forEach (scanColumn m entry.1 entry.2) (seq 0 (count sc)) minimum)
          (categories sc) None.

(** The child state that forces [item] at [minimumCol]. *)
Definition forceItem (state : IterationState) (minimumCategory : string)
    (items : list string) (minimumCol : nat) (item : string) : Result IterationState :=
  let newState := structuredClone state in
  m ← forEach (fun (it : string) (m : Matrix) =>
                 setCell m (rowKey minimumCategory it) minimumCol false)
              items (matrix newState);
  m ← setCell m (rowKey minimumCategory item) minimumCol true;
  OK (mkIterationState m (clues newState)).

(** The states pushed on [newOptionStack] for a state on which [solveOption]
    returned 0. *)
Definition expandState (sc : SolverConfig) (state : IterationState)
  : Result (list IterationState) :=
  minimum ← findMinimum sc (matrix state);
  match minimum with
  | None =>
      (* [categories['']] and column [-1], which no row has *)
      match lookupCategory (categories sc) "" with
      | None => Throw TypeError
      | Some items =>
          forEach (fun (item : string) (acc : list IterationState) =>
                     _ ← getRow (matrix state) (rowKey "" item); OK acc)
                  items []
      end
  | Some (_, minimumCategory, minimumCol) =>
      match lookupCategory (categories sc) minimumCategory with
      | None => Throw TypeError
      | Some items =>
          forEach (fun (item : string) (acc : list IterationState) =>
                     c ← getCell (matrix state) (rowKey minimumCategory item) minimumCol;
                     if (c : bool) then
                       newState ← forceItem state minimumCategory items minimumCol item;
                       OK (acc ++ [newState])
                     else OK acc)
                  items []
      end
  end.

(** The body of [for (const state of optionStack)]. *)
Definition processState (sc : SolverConfig) (state : IterationState)
    (acc : list IterationState * Stats) : Result (list IterationState * Stats) :=
  let '(newOptionStack, stats) := acc in
  let stats := mkStats (iteration_ stats) (S (option_ stats)) (solutions_ stats) in
  '(solved, state', stats) ← solveOption sc state stats;
  if negb (solved =? 0)%Z then OK (newOptionStack, stats)
  else
    children ← expandState sc state';
    OK (newOptionStack ++ children, stats).

(** The [for] loop of [runIterations] with [remaining] iterations to go. *)
Fixpoint runLoop (sc : SolverConfig) (remaining : nat) (optionStack : list IterationState)
    (stats : Stats) : Result (bool * list IterationState * Stats) :=
  match remaining with
  | 0 => OK (bool_decide (optionStack = []), optionStack, stats)
  | S remaining' =>
      match optionStack with
      | [] => OK (true, [], stats)
      | _ =>
          '(newOptionStack, stats) ← forEach (processState sc) optionStack ([], stats);
          let optionStack := structuredClone newOptionStack in
          runLoop sc remaining' optionStack
                  (mkStats (S (iteration_ stats)) (option_ stats) (solutions_ stats))
      end
  end.

Definition runIterations (sc : SolverConfig) (inputOptionStack : option (list IterationState))
    (state : IterationState) : Result (bool * list IterationState * Stats) :=
  let optionStack := default [structuredClone state] inputOptionStack in
  runLoop sc (maximumIterations sc) optionStack (mkStats 0 0 []).

(** *** [solve] *)

Record SolveInput := mkSolveInput {
  in_categories : Categories;
  in_clues : list LogicalExpression;  (* [clues.body] *)
  in_maximumIterations : nat;
  in_optionStack : option (list IterationState);
  in_greatCategories : list string;
}.

Record Solved := mkSolved {
  done : bool;
  optionStack : list IterationState;
  iterations : nat;
  options : nat;
  solutions : list Matrix;
}.

(** The configuration [sc] that [solve] builds, with the [categories] object
    as [generateInitialMatrix] leaves it, and the initial matrix. *)
Definition solverConfig (input : SolveInput) : Result (SolverConfig * Matrix) :=
  '(nameKV, itemOptions, count) ← shortNamesMap (in_categories input) (in_greatCategories input);
  let combinations := generateAllCombinations count in
  let '(initialMatrix, categories) :=
    generateInitialMatrix (in_categories input) itemOptions count in
  OK (mkSolverConfig categories (in_greatCategories input) nameKV itemOptions count
                     combinations (in_maximumIterations input),
      initialMatrix).

(** [solve]: the result, and the caller's [categories] object after the call. *)
Definition solve (input : SolveInput) : Result (Solved * Categories) :=
  '(sc, initialMatrix) ← solverConfig input;
  '(done, optionStack, stats) ←
    runIterations sc (in_optionStack input) (mkIterationState initialMatrix (in_clues input));
  OK (mkSolved done optionStack (iteration_ stats) (option_ stats) (solutions_ stats),
      categories sc).

(** *** [iterativeSolver] ([src/index.ts])

    The closure keeps [compiled], whose [categories] object every call of
    [solve] receives and changes, and the variable [optionStack]. *)
Record Solver := mkSolver {
  compiled_clues : list LogicalExpression;
  compiled_categories : Categories;
  compiled_greatCategories : list string;
  solver_optionStack : option (list IterationState);
}.

(** [iterativeSolver(input)], from the result of [compile(input)]. *)
Definition iterativeSolver (clues : list LogicalExpression) (categories : Categories)
    (greatCategories : list string) : Solver :=
  mkSolver clues categories greatCategories None.

(** One call [iteration(iterations)] of the function [iterativeSolver] returns. *)
Definition solverIteration (s : Solver) (iterations : nat) : Result (Solved * Solver) :=
  '(res, categories) ←
    solve (mkSolveInput (compiled_categories s) (compiled_clues s) iterations
                        (solver_optionStack s) (compiled_greatCategories s));
  OK (res, mkSolver (compiled_clues s) categories (compiled_greatCategories s)
                    (Some (optionStack res))).

(** ** Predicates of the specification *)

(** [row'] is [row] after cells went from true to false: no cell is true in
    [row'] that was not true in [row], and the row has not shrunk. *)
Definition row_le (row' row : list bool) : Prop :=
  (length row ≤ length row')%nat ∧ ∀ i, truthy row' i = true → truthy row i = true.

(** [m'] has the rows of [m], each narrowed. *)
Definition narrows (m' m : Matrix) : Prop :=
  ∀ key, option_Forall2 row_le (m' !! key) (m !! key).

(** The dimensions are stable: the same rows, each of the same length. *)
Definition sameDimensions (m' m : Matrix) : Prop :=
  ∀ key, option_Forall2 (fun row' row => length row' = length row) (m' !! key) (m !! key).

(** Every row has one cell per position. *)
Definition wellFormed (count : nat) (m : Matrix) : Prop :=
  map_Forall (fun _ row => length row = count) m.

(** Every distance of a positional clue that [parseClue] propagates is at
    most [count]. *)
Fixpoint distancesWithin (count : nat) (clue : LogicalExpression) : Prop :=
  match clue with
  | PositionalOperation _ operator _ _ distance =>
      if String.eqb operator "-" then (default 1 distance ≤ count)%nat else True
  | LogicalBinaryOperation _ _ o0 o1 => distancesWithin count o0 ∧ distancesWithin count o1
  | LogicalOperation _ _ operands =>
      (fix all (clues : list LogicalExpression) : Prop :=
         match clues with
         | [] => True
         | clue :: rest => distancesWithin count clue ∧ all rest
         end) operands
  | _ => True
  end.

(** The premises of the induction on expressions for the operands of [in]. *)
Definition inLeftAll (P : ArithmeticExpression → Prop) (lhs : InLeft) : Prop :=
  match lhs with
  | InIdentifier _ => True
  | InArithmetic a => P a
  end.

Definition elementAll (P : ArithmeticExpression → Prop) (s : SetElement) : Prop :=
  match s with
  | ElemArithmetic a => P a
  | _ => True
  end.

Definition inRightAll (P : ArithmeticExpression → Prop) (rhs : InRight) : Prop :=
  match rhs with
  | SetLiteral elements => Forall (elementAll P) elements
  | RangeLiteral range_start range_end => P range_start ∧ P range_end
  end.

(** *** The clue without the fields the checkers assign *)

Definition eraseBase (b : Expression) : Expression :=
  mkExpression (pos b) (dollar b) None None.

Fixpoint eraseArithmetic (exp : ArithmeticExpression) : ArithmeticExpression :=
  match exp with
  | NumericLiteral b value => NumericLiteral b value
  | NumericIdentifier b symbol category => NumericIdentifier b symbol category
  | ArithmeticBinaryOperation b operator e0 e1 =>
      ArithmeticBinaryOperation b operator (eraseArithmetic e0) (eraseArithmetic e1)
  | TruthsOperator b elements => TruthsOperator b (map eraseLogical elements)
  end
with eraseLogical (clue : LogicalExpression) : LogicalExpression :=
  match clue with
  | LogicalUnaryOperation b operator o0 =>
      LogicalUnaryOperation (eraseBase b) operator (eraseLogical o0)
  | LogicalBinaryOperation b operator o0 o1 =>
      LogicalBinaryOperation (eraseBase b) operator (eraseLogical o0) (eraseLogical o1)
  | LogicalOperation b operator operands =>
      LogicalOperation (eraseBase b) operator (map eraseLogical operands)
  | RelationalOperation b operator a0 a1 =>
      RelationalOperation (eraseBase b) operator (eraseArithmetic a0) (eraseArithmetic a1)
  | PositionalOperation b operator i0 i1 distance =>
      PositionalOperation (eraseBase b) operator i0 i1 distance
  | InOperator b operator lhs rhs =>
      InOperator (eraseBase b) operator
        match lhs with
        | InIdentifier id => InIdentifier id
        | InArithmetic a => InArithmetic (eraseArithmetic a)
        end
        match rhs with
        | SetLiteral elements =>
            SetLiteral (map (fun s => match s with
                                      | ElemArithmetic a => ElemArithmetic (eraseArithmetic a)
                                      | _ => s
                                      end) elements)
        | RangeLiteral range_start range_end =>
            RangeLiteral (eraseArithmetic range_start) (eraseArithmetic range_end)
        end
  end.

Definition eraseElement (s : SetElement) : SetElement :=
  match s with
  | ElemArithmetic a => ElemArithmetic (eraseArithmetic a)
  | _ => s
  end.

(** Two clues that differ at most in [solved] and [states]. *)
Definition sameClue (clue' clue : LogicalExpression) : Prop :=
  eraseLogical clue' = eraseLogical clue.

(** [parseArithmetic] and [checkClueThrowable] leave the expression as it
    was up to [solved] and [states]. *)
Definition erasedArithmetic (m : Matrix) (p : IdParser) (sc : SolverConfig)
    (a : ArithmeticExpression) : Prop :=
  ∀ v a', parseArithmetic m p sc a = OK (v, a') → eraseArithmetic a' = eraseArithmetic a.

Definition erasedCheck (m : Matrix) (p : IdParser) (sc : SolverConfig)
    (c : LogicalExpression) : Prop :=
  ∀ t c', checkClueThrowable m p sc c = OK (t, c') → eraseLogical c' = eraseLogical c.

(** *** Validity of a recorded solution (C1) *)

(** [category] covers the column [col] exactly once: exactly one of its
    items, counted by place in the item list, is possible there. *)
Definition coversOnce (m : Matrix) (category : string) (items : list string) (col : nat)
  : Prop :=
  ∃ j, (∃ item row, items !! j = Some item ∧ m !! rowKey category item = Some row
                    ∧ truthy row col = true)
       ∧ ∀ j' item row, items !! j' = Some item → m !! rowKey category item = Some row →
                        truthy row col = true → j' = j.

Definition validCategory (sc : SolverConfig) (m : Matrix) (category : string)
    (items : list string) : Prop :=
  (∀ item, item ∈ items →
     ∃ row, m !! rowKey category item = Some row
            ∧ if includes (greatCategories sc) category
              then (countTrue row ≤ 1)%nat else countTrue row = 1%nat)
  ∧ ∀ col, (col < count sc)%nat → coversOnce m category items col.

(** The cells of [colHas] below [count] are not holes. *)
Definition colHasDefined (count : nat) (colHas : list (option bool)) : Prop :=
  ∀ col, (col < count)%nat → ∃ b, colHas !! col = Some (Some b).

(** The clue checker returns true, once for a clue without [$] and for every
    position [d] in [1, N] for a clue with [$]. *)
Definition checksTrue (sc : SolverConfig) (m : Matrix) (clue : LogicalExpression) : Prop :=
  ∀ d, (1 ≤ d ≤ count sc)%nat → clue_dollar clue = true ∨ d = 1%nat →
       checkClue clue m (idParser sc d) sc = true.

(** [m] is valid for the categories of [sc] (the object as [solve] leaves it,
    its entry [#] holding the position numerals) and passes the check of every
    clue of the list, read with the [solved] and [states] fields it has. *)
Definition validSolution (sc : SolverConfig) (m : Matrix) (clues : list LogicalExpression)
  : Prop :=
  (∀ category items, (category, items) ∈ categories sc → validCategory sc m category items)
  ∧ ∀ clue, clue ∈ clues → checksTrue sc m clue.

(** Two clue lists that differ at most in [solved] and [states]. *)
Definition sameClues (clues' clues : list LogicalExpression) : Prop :=
  map eraseLogical clues' = map eraseLogical clues.

(** *** The truths operator (C7) *)

(** The outcome of checking the elements in order: the first exception, or
    else the number of checks that returned true. *)
Fixpoint countChecks (results : list (Result bool)) : Result nat :=
  match results with
  | [] => OK 0%nat
  | Throw e :: _ => Throw e
  | OK t :: rest => k ← countChecks rest; OK (if (t : bool) then S k else k)
  end.

(** The result of [k] increments [count++] from 0. *)
Definition countNumber (k : nat) : number := Nat.iter k (fun count => js_add count 1) 0%float.

(** *** Objects held by reference (C10)

    The clue and the matrix that [checkClue] receives are objects of its
    caller, and the checkers receive references to them: a checker can assign
    to any object it can reach.  A heap maps a reference to the object it
    names.  A clue object owns the nodes below it (a deep copy has no node in
    common with its original); a node of it is named by the reference of the
    clue and the place of the node in it. *)
Inductive Object :=
| ClueObject (clue : LogicalExpression)
| MatrixObject (m : Matrix).

Abbreviation Heap := (gmap nat Object).

(** A new object, at a reference that names no object yet. *)
Definition allocate (h : Heap) (o : Object) : nat * Heap :=
  let ref := fresh (dom h) in (ref, <[ref := o]> h).

(** A computation on the heap: the heap as it leaves it, also when it
    raises, and its result or the exception. *)
Definition Run (A : Type) : Type := Heap → Heap * Result A.

#[global] Instance Run_ret : MRet Run := fun A a h => (h, OK a).
#[global] Instance Run_bind : MBind Run := fun A B f r h =>
  match r h with
  | (h', OK a) => f a h'
  | (h', Throw e) => (h', Throw e)
  end.

(** A step that does not touch the heap. *)
Definition runResult {A : Type} (r : Result A) : Run A := fun h => (h, r).

(** The place of a node in a clue: how the node is read from the clue, and how
    an assignment to the node changes the clue. *)
Record Place (A : Type) := mkPlace {
  place_get : LogicalExpression → option A;
  place_set : (A → A) → LogicalExpression → LogicalExpression;
}.
Arguments mkPlace {A} _ _.
Arguments place_get {A} _ _.
Arguments place_set {A} _ _ _.

(** A field of a node that holds a node: [operands[i]], [elements[i]],
    [start], [end]. *)
Record Field (A B : Type) := mkField {
  field_get : A → option B;
  field_set : (B → B) → A → A;
}.
Arguments mkField {A B} _ _.
Arguments field_get {A B} _ _.
Arguments field_set {A B} _ _ _.

Definition rootPlace : Place LogicalExpression := mkPlace Some (fun f root => f root).

(** The node in the field [F] of the node at the place [P]. *)
Definition fieldOf {A B : Type} (F : Field A B) (P : Place A) : Place B :=
  mkPlace (fun root => place_get P root ≫= field_get F)
          (fun f => place_set P (field_set F f)).

Definition unaryOperand : Field LogicalExpression LogicalExpression :=
  mkField (fun c => match c with LogicalUnaryOperation _ _ o0 => Some o0 | _ => None end)
          (fun f c => match c with
                      | LogicalUnaryOperation b op o0 => LogicalUnaryOperation b op (f o0)
                      | _ => c
                      end).

Definition binaryOperand0 : Field LogicalExpression LogicalExpression :=
  mkField (fun c => match c with LogicalBinaryOperation _ _ o0 _ => Some o0 | _ => None end)
          (fun f c => match c with
                      | LogicalBinaryOperation b op o0 o1 =>
                          LogicalBinaryOperation b op (f o0) o1
                      | _ => c
                      end).

Definition binaryOperand1 : Field LogicalExpression LogicalExpression :=
  mkField (fun c => match c with LogicalBinaryOperation _ _ _ o1 => Some o1 | _ => None end)
          (fun f c => match c with
                      | LogicalBinaryOperation b op o0 o1 =>
                          LogicalBinaryOperation b op o0 (f o1)
                      | _ => c
                      end).

Definition operandAt (i : nat) : Field LogicalExpression LogicalExpression :=
  mkField (fun c => match c with LogicalOperation _ _ operands => operands !! i | _ => None end)
          (fun f c => match c with
                      | LogicalOperation b op operands =>
                          LogicalOperation b op (alter f i operands)
                      | _ => c
                      end).

Definition relationalOperand0 : Field LogicalExpression ArithmeticExpression :=
  mkField (fun c => match c with RelationalOperation _ _ a0 _ => Some a0 | _ => None end)
          (fun f c => match c with
                      | RelationalOperation b op a0 a1 => RelationalOperation b op (f a0) a1
                      | _ => c
                      end).

Definition relationalOperand1 : Field LogicalExpression ArithmeticExpression :=
  mkField (fun c => match c with RelationalOperation _ _ _ a1 => Some a1 | _ => None end)
          (fun f c => match c with
                      | RelationalOperation b op a0 a1 => RelationalOperation b op a0 (f a1)
                      | _ => c
                      end).

Definition inLeftOperand : Field LogicalExpression ArithmeticExpression :=
  mkField (fun c => match c with InOperator _ _ (InArithmetic a) _ => Some a | _ => None end)
          (fun f c => match c with
                      | InOperator b op (InArithmetic a) rhs =>
                          InOperator b op (InArithmetic (f a)) rhs
                      | _ => c
                      end).

Definition elementArithmetic (s : SetElement) : option ArithmeticExpression :=
  match s with
  | ElemArithmetic a => Some a
  | _ => None
  end.

Definition alterElement (f : ArithmeticExpression → ArithmeticExpression) (s : SetElement)
  : SetElement :=
  match s with
  | ElemArithmetic a => ElemArithmetic (f a)
  | _ => s
  end.

Definition setElementAt (i : nat) : Field LogicalExpression ArithmeticExpression :=
  mkField (fun c => match c with
                    | InOperator _ _ _ (SetLiteral elements) =>
                        elements !! i ≫= elementArithmetic
                    | _ => None
                    end)
          (fun f c => match c with
                      | InOperator b op lhs (SetLiteral elements) =>
                          InOperator b op lhs (SetLiteral (alter (alterElement f) i elements))
                      | _ => c
                      end).

Definition rangeStart : Field LogicalExpression ArithmeticExpression :=
  mkField (fun c => match c with InOperator _ _ _ (RangeLiteral s _) => Some s | _ => None end)
          (fun f c => match c with
                      | InOperator b op lhs (RangeLiteral s e) =>
                          InOperator b op lhs (RangeLiteral (f s) e)
                      | _ => c
                      end).

Definition rangeEnd : Field LogicalExpression ArithmeticExpression :=
  mkField (fun c => match c with InOperator _ _ _ (RangeLiteral _ e) => Some e | _ => None end)
          (fun f c => match c with
                      | InOperator b op lhs (RangeLiteral s e) =>
                          InOperator b op lhs (RangeLiteral s (f e))
                      | _ => c
                      end).

Definition arithmeticOperand0 : Field ArithmeticExpression ArithmeticExpression :=
  mkField (fun a => match a with ArithmeticBinaryOperation _ _ e0 _ => Some e0 | _ => None end)
          (fun f a => match a with
                      | ArithmeticBinaryOperation b op e0 e1 =>
                          ArithmeticBinaryOperation b op (f e0) e1
                      | _ => a
                      end).

Definition arithmeticOperand1 : Field ArithmeticExpression ArithmeticExpression :=
  mkField (fun a => match a with ArithmeticBinaryOperation _ _ _ e1 => Some e1 | _ => None end)
          (fun f a => match a with
                      | ArithmeticBinaryOperation b op e0 e1 =>
                          ArithmeticBinaryOperation b op e0 (f e1)
                      | _ => a
                      end).

Definition truthsElementAt (i : nat) : Field ArithmeticExpression LogicalExpression :=
  mkField (fun a => match a with TruthsOperator _ elements => elements !! i | _ => None end)
          (fun f a => match a with
                      | TruthsOperator b elements => TruthsOperator b (alter f i elements)
                      | _ => a
                      end).

(** [token.states.l = l] and [token.states.r = r] on a relational node
    ([token.states] is [{}] when it was undefined). *)
Definition assign_states (f : States → States) (clue : LogicalExpression) : LogicalExpression :=
  match clue with
  | RelationalOperation b o a0 a1 =>
      RelationalOperation (set_states (f (default (mkStates None None) (states b))) b) o a0 a1
  | _ => clue
  end.

(** The loops over the operands of a node on the heap; [i] is the index of
    the operand. *)
Definition truthsLoopAt (check : nat → LogicalExpression → Run bool) :=
  fix truths (clues : list LogicalExpression) (i : nat) (count : number) : Run number :=
    match clues with
    | [] => mret count
    | clue :: rest =>
        t ← check i clue;
        truths rest (S i) (if (t : bool) then js_add count 1 else count)
    end.

Definition checkOperandsAt (check : nat → LogicalExpression → Run bool)
    (solvedOf : nat → Run (option bool)) (isAnd : bool) :=
  fix each (clues : list LogicalExpression) (i : nat) (result allSolved : bool)
    : Run (bool * bool) :=
    match clues with
    | [] => mret (result, allSolved)
    | clue :: rest =>
        t ← check i clue;
        s ← solvedOf i;
        let result := if isAnd then (if (t : bool) then result else false)
                      else (if t then true else result) in
        let allSolved := if (s : option bool) is None then false else allSolved in
        each rest (S i) result allSolved
    end.

Definition arithmeticInSetAt (parse : nat → ArithmeticExpression → Run (option number))
    (val : number) (position : Position) :=
  fix each (items : list SetElement) (i : nat) : Run bool :=
    match items with
    | [] => mret false
    | ElemArithmetic item :: rest =>
        v ← parse i item;
        match v with
        | None => mret true
        | Some v => if js_eq v val then mret true else each rest (S i)
        end
    | _ :: _ => runResult (Throw (SolverError "This set can only be arithmetic." position))
    end.

(** The checkers on the heap.  [clue] is the reference of the clue object the
    checker was called with and [matrix] that of the matrix; the first
    argument of a function is the node as the clue had it when the check
    began (its type, its operator and its operands do not change), and the
    place names the node in the clue object, where the fields [solved] and
    [states] are read and assigned.  The assignments of the source are
    [token.solved = ...] in the checkers and [token.states = ...],
    [token.states.l = ...], [token.states.r = ...], [token.solved = ...] in
    [checkRelational] ([writeNode]); the matrix is read through its reference
    ([m[...]], [readMatrix]). *)
Section CheckersAt.
Variables (clue matrix : nat) (p : IdParser) (sc : SolverConfig).

Definition readMatrix : Run Matrix := fun h =>
  match h !! matrix with
  | Some (MatrixObject m) => (h, OK m)
  | _ => (h, Throw TypeError)
  end.

Definition readNode {A : Type} (P : Place A) : Run A := fun h =>
  match h !! clue with
  | Some (ClueObject root) =>
      match place_get P root with
      | Some node => (h, OK node)
      | None => (h, Throw TypeError)
      end
  | _ => (h, Throw TypeError)
  end.

Definition writeNode (P : Place LogicalExpression)
    (f : LogicalExpression → LogicalExpression) : Run unit := fun h =>
  match h !! clue with
  | Some (ClueObject root) => (<[clue := ClueObject (place_set P f root)]> h, OK tt)
  | _ => (h, Throw TypeError)
  end.

Definition solvedAt (P : Place LogicalExpression) : Run (option bool) :=
  node ← readNode P; mret (clue_solved node).

Fixpoint parseArithmeticAt (exp : ArithmeticExpression) (P : Place ArithmeticExpression)
  : Run (option number) :=
  match exp with
  | NumericLiteral _ value => mret (Some value)
  | NumericIdentifier b symbol category =>
      m ← readMatrix; runResult (numericIdentifierValue m p sc b symbol category)
  | ArithmeticBinaryOperation b operator e0 e1 =>
      l ← parseArithmeticAt e0 (fieldOf arithmeticOperand0 P);
      r ← parseArithmeticAt e1 (fieldOf arithmeticOperand1 P);
      match l, r with
      | Some l, Some r => v ← runResult (arithmeticOperator operator (pos b) l r); mret (Some v)
      | _, _ => mret None
      end
  | TruthsOperator b elements =>
      count ← truthsLoopAt
                 (fun i element => checkClueThrowableAt element (fieldOf (truthsElementAt i) P))
                 elements 0%nat 0%float;
      mret (Some count)
  end
with checkClueThrowableAt (token : LogicalExpression) (P : Place LogicalExpression)
  : Run bool :=
  s ← solvedAt P;
  match s with
  | Some s => mret s
  | None =>
      match token with
      | PositionalOperation b operator i0 i1 distance =>
          match positionalCheckers operator with
          | None => mret true
          | Some check =>
              m ← readMatrix;
              k0 ← runResult (idOf p i0); l ← runResult (trueIndexOf m k0);
              k1 ← runResult (idOf p i1); r ← runResult (trueIndexOf m k1);
              let out := check distance l r in
              _ ← writeNode P (assign_solved out); mret out
          end
      | LogicalBinaryOperation b operator o0 o1 =>
          match logicalBinaryCheckers operator with
          | None => mret true
          | Some f =>
              a ← checkClueThrowableAt o0 (fieldOf binaryOperand0 P);
              b' ← checkClueThrowableAt o1 (fieldOf binaryOperand1 P);
              let out := f a b' in
              s0 ← solvedAt (fieldOf binaryOperand0 P);
              s1 ← solvedAt (fieldOf binaryOperand1 P);
              _ ← (if bool_decide (is_Some s0 ∧ is_Some s1)
                   then writeNode P (assign_solved out) else mret tt);
              mret out
          end
      | LogicalOperation b operator operands =>
          if String.eqb operator "&" || String.eqb operator "|" then
            let isAnd := String.eqb operator "&" in
            '(result, allSolved) ←
              checkOperandsAt
                (fun i operand => checkClueThrowableAt operand (fieldOf (operandAt i) P))
                (fun i => solvedAt (fieldOf (operandAt i) P))
                isAnd operands 0%nat isAnd true;
            _ ← (if (allSolved : bool) then writeNode P (assign_solved result) else mret tt);
            mret result
          else mret true
      | LogicalUnaryOperation b operator o0 =>
          if String.eqb operator "!" then
            t ← checkClueThrowableAt o0 (fieldOf unaryOperand P);
            let out := negb t in
            s0 ← solvedAt (fieldOf unaryOperand P);
            _ ← (if (s0 : option bool) is None then mret tt
                 else writeNode P (assign_solved out));
            mret out
          else mret true
      | InOperator b operator lhs rhs =>
          if String.eqb operator "in" then
            match lhs, rhs with
            | InIdentifier id, RangeLiteral _ _ =>
                runResult (Throw (SolverError "Identifier can be only in a SetLiteral." (pos b)))
            | InIdentifier id, SetLiteral elements =>
                m ← readMatrix;
                k ← runResult (idOf p id); l ← runResult (trueIndexOf m k);
                runResult (identifierInSet m p l elements)
            | InArithmetic a, SetLiteral elements =>
                val ← parseArithmeticAt a (fieldOf inLeftOperand P);
                match val with
                | None => mret true
                | Some val =>
                    arithmeticInSetAt
                      (fun i item => parseArithmeticAt item (fieldOf (setElementAt i) P))
                      val (pos b) elements 0%nat
                end
            | InArithmetic a, RangeLiteral range_start range_end =>
                val ← parseArithmeticAt a (fieldOf inLeftOperand P);
                match val with
                | None => mret true
                | Some val =>
                    start' ← parseArithmeticAt range_start (fieldOf rangeStart P);
                    end' ← parseArithmeticAt range_end (fieldOf rangeEnd P);
                    match start', end' with
                    | Some start', Some end' => mret (js_ge val start' && js_le val end')
                    | _, _ => mret true
                    end
                end
            end
          else mret true
      | RelationalOperation b operator a0 a1 =>
          match relationalOperators operator with
          | None => mret true
          | Some ok =>
              (* checkRelational *)
              _ ← writeNode P (assign_states (fun st => st));
              node ← readNode P;
              l ← match states_l (default (mkStates None None) (states (logical_base node))) with
                  | Some l => mret (Some l)
                  | None => parseArithmeticAt a0 (fieldOf relationalOperand0 P)
                  end;
              _ ← writeNode P (assign_states (fun st => mkStates l (states_r st)));
              node ← readNode P;
              r ← match states_r (default (mkStates None None) (states (logical_base node))) with
                  | Some r => mret (Some r)
                  | None => parseArithmeticAt a1 (fieldOf relationalOperand1 P)
                  end;
              _ ← writeNode P (assign_states (fun st => mkStates (states_l st) r));
              match l, r with
              | Some l, Some r =>
                  let result := ok l r in
                  _ ← writeNode P (assign_solved result); mret result
              | _, _ => mret true
              end
          end
      end
  end.

End CheckersAt.

(** [checkClue] on references: [clue.solved] is read in the caller's clue,
    then the checker [c] is called with the reference of the clone
    [structuredClone(clue)] and with the reference of the caller's matrix, and
    every exception it raises is caught.  The clone has no [solved] at its top,
    so calling [c] on it is what [checkClueThrowable] does.  [None] when
    [clue] does not name a clue. *)
Definition checkClueRef (h : Heap) (clue matrix : nat) (identifierParser : IdParser)
    (sc : SolverConfig) : option (bool * Heap) :=
  match h !! clue with
  | Some (ClueObject c) =>
      match clue_solved c with
      | Some s => Some (s, h)
      | None =>
          if negb (hasChecker c) then Some (true, h)
          else
            let '(clueClone, h) := allocate h (ClueObject (structuredClone c)) in
            match checkClueThrowableAt clueClone matrix identifierParser sc c rootPlace h with
            | (h, OK b) => Some (b, h)
            | (h, Throw _) => Some (true, h)
            end
      end
  | _ => None
  end.

(** The heap changes at most at [ref]. *)
Definition confined {A : Type} (ref : nat) (r : Run A) : Prop :=
  ∀ h h' x, r h = (h', x) → ∀ ref', ref' ≠ ref → h' !! ref' = h !! ref'.

(** What reading and assigning at a place or in a field satisfy: a read after
    an assignment sees it, two assignments are one, an assignment depends on
    the node it finds only, and assigning what is there changes nothing. *)
Definition lawful {A : Type} (P : Place A) : Prop :=
  (∀ f root, place_get P (place_set P f root) = f <$> place_get P root)
  ∧ (∀ f g root, place_set P g (place_set P f root) = place_set P (g ∘ f) root)
  ∧ (∀ f g root, (∀ node, place_get P root = Some node → f node = g node) →
       place_set P f root = place_set P g root)
  ∧ (∀ root, place_set P (fun node => node) root = root).

Definition lawfulField {A B : Type} (F : Field A B) : Prop :=
  (∀ f a, field_get F (field_set F f a) = f <$> field_get F a)
  ∧ (∀ f g a, field_set F g (field_set F f a) = field_set F (g ∘ f) a)
  ∧ (∀ f g a, (∀ b, field_get F a = Some b → f b = g b) → field_set F f a = field_set F g a)
  ∧ (∀ a, field_set F (fun b => b) a = a).

(** The evaluation on the heap of a node at a place of the clue at [clue]
    ends as the evaluation on values does: with the same result or the same
    exception, in a heap that differs at [clue] only; and when it returns, the
    clue has the node that the evaluation on values returns in place of the
    node. *)
Definition simulatesArithmetic (h0 : Heap) (clue matrix : nat) (m : Matrix) (p : IdParser)
    (sc : SolverConfig) (exp : ArithmeticExpression) : Prop :=
  ∀ P root, lawful P → place_get P root = Some exp →
    ∃ root',
      parseArithmeticAt clue matrix p sc exp P (<[clue := ClueObject root]> h0)
      = (<[clue := ClueObject root']> h0, fst <$> parseArithmetic m p sc exp)
      ∧ ∀ v exp', parseArithmetic m p sc exp = OK (v, exp') →
          root' = place_set P (fun _ => exp') root.

Definition simulatesCheck (h0 : Heap) (clue matrix : nat) (m : Matrix) (p : IdParser)
    (sc : SolverConfig) (token : LogicalExpression) : Prop :=
  ∀ P root, lawful P → place_get P root = Some token →
    ∃ root',
      checkClueThrowableAt clue matrix p sc token P (<[clue := ClueObject root]> h0)
      = (<[clue := ClueObject root']> h0, fst <$> checkClueThrowable m p sc token)
      ∧ ∀ v token', checkClueThrowable m p sc token = OK (v, token') →
          root' = place_set P (fun _ => token') root.

(** *** Puzzles as the lexer and the header parser deliver them (C9) *)

Definition startsWithDigit (s : string) : bool :=
  match s with
  | String c _ => (48 <=? nat_of_ascii c)%nat && (nat_of_ascii c <=? 57)%nat
  | EmptyString => false
  end.

(** The symbols that a clue hands to the identifier parser. *)
Fixpoint arithmeticSymbols (exp : ArithmeticExpression) : list string :=
  match exp with
  | NumericLiteral _ _ => []
  | NumericIdentifier _ symbol _ => [symbol]
  | ArithmeticBinaryOperation _ _ e0 e1 => arithmeticSymbols e0 ++ arithmeticSymbols e1
  | TruthsOperator _ elements => flat_map clueSymbols elements
  end
with clueSymbols (clue : LogicalExpression) : list string :=
  match clue with
  | LogicalUnaryOperation _ _ o0 => clueSymbols o0
  | LogicalBinaryOperation _ _ o0 o1 => clueSymbols o0 ++ clueSymbols o1
  | LogicalOperation _ _ operands => flat_map clueSymbols operands
  | RelationalOperation _ _ a0 a1 => arithmeticSymbols a0 ++ arithmeticSymbols a1
  | PositionalOperation _ _ i0 i1 _ => [symbol i0; symbol i1]
  | InOperator _ _ lhs rhs =>
      match lhs with
      | InIdentifier id => [symbol id]
      | InArithmetic a => arithmeticSymbols a
      end
      ++ match rhs with
         | SetLiteral elements =>
             flat_map (fun s => match s with
                                | ElemIdentifier id => [symbol id]
                                | ElemArithmetic a => arithmeticSymbols a
                                | ElemOther _ => []
                                end) elements
         | RangeLiteral range_start range_end =>
             arithmeticSymbols range_start ++ arithmeticSymbols range_end
         end
  end.

(** What the identifier parser is given: a symbol that does not begin with a
    digit, or no symbol. *)
Definition lexerSymbol (symbol : option string) : Prop :=
  match symbol with
  | Some s => startsWithDigit s = false
  | None => True
  end.

(** No identifier of the clue begins with a digit: the lexer reads a word
    that begins with a digit as a number. *)
Definition lexerClue (clue : LogicalExpression) : Prop :=
  Forall (fun s => startsWithDigit s = false) (clueSymbols clue).

(** ** The puzzles used as concrete inputs *)

(** A node as the parser builds it: [solved] and [states] are absent. *)
Definition node : Expression := mkExpression [1; 1] false None None.
Definition ident (symbol : string) : Identifier := mkIdentifier node symbol.
Definition literal (z : Z) : ArithmeticExpression := NumericLiteral node (number_of_Z z).

(** [names - bob al], [age - 10 20]. *)
Definition people : Categories := [("names", ["bob"; "al"]); ("age", ["10"; "20"])].

(** [!(bob:age == 20)]. *)
Definition bobIsNot20 : LogicalExpression :=
  LogicalUnaryOperation node "!"
    (RelationalOperation node "==" (NumericIdentifier node "bob" "age") (literal 20)).

(** [bob:age == 20]. *)
Definition bobIs20 : LogicalExpression :=
  RelationalOperation node "==" (NumericIdentifier node "bob" "age") (literal 20).

(** A full assignment for [people]: bob is 10 and first, al is 20 and second. *)
Definition bobFirstAged10 : Matrix :=
  list_to_map [("names.bob", [true; false]); ("names.al", [false; true]);
               ("age.10", [true; false]); ("age.20", [false; true]);
               ("#.1", [true; false]); ("#.2", [false; true])].

(** [!(foo = bob)], where no item is called [foo]. *)
Definition notFooIsBob : LogicalExpression :=
  LogicalUnaryOperation node "!"
    (PositionalOperation node "=" (ident "foo") (ident "bob") None).

(** [names - a b] with the clue [a -3- b]. *)
Definition pair : Categories := [("names", ["a"; "b"])].
Definition threeLeftOf : LogicalExpression :=
  PositionalOperation node "-" (ident "a") (ident "b") (Some 3).

(** [names - a b c]; [b] and [c] can no longer be at the third position. *)
Definition trio : Categories := [("names", ["a"; "b"; "c"])].
Definition trioMatrix (initialMatrix : Matrix) : Matrix :=
  <["names.c" := [true; true; false]]> (<["names.b" := [true; true; false]]> initialMatrix).

(** The categories object of the header [a - x p], [7 - x y], [b - x q]: the
    key [7] is an array index, so it is enumerated first. *)
Definition indexNamed : Categories :=
  [("7", ["x"; "y"]); ("a", ["x"; "p"]); ("b", ["x"; "q"])].

(** Three categories that each have an item [x]. *)
Definition sharedName : Categories :=
  [("a", ["x"; "p"]); ("b", ["x"; "q"]); ("c", ["x"; "r"])].

(** A header that names a category [#]: [# - a b], [names - x y], with the
    clue [a = x]. *)
Definition hashCategory : Categories := [("#", ["a"; "b"]); ("names", ["x"; "y"])].
Definition aIsX : LogicalExpression :=
  PositionalOperation node "=" (ident "a") (ident "x") None.

(** [P] on the configuration and the initial matrix that [solve] builds for
    the categories. *)
Definition configured (categories : Categories) (P : SolverConfig → Matrix → Prop) : Prop :=
  match solverConfig (mkSolveInput categories [] 20 None []) with
  | OK (sc, initialMatrix) => P sc initialMatrix
  | Throw _ => False
  end.

(** Two calls in a row of the function [iterativeSolver] returns, with the
    budgets [k1] and [k2]: the solutions of both. *)
Definition resumed (s : Solver) (k1 k2 : nat) : Result (list Matrix) :=
  '(res1, s1) ← solverIteration s k1;
  '(res2, _) ← solverIteration s1 k2;
  OK (solutions res1 ++ solutions res2).

(** The statistics of a run that goes on from [base]: the iterations and the
    options add up, and the solutions are pushed after those of [base]. *)
Definition continueStats (base stats : Stats) : Stats :=
  mkStats (iteration_ base + iteration_ stats) (option_ base + option_ stats)
          (solutions_ base ++ solutions_ stats).

(** One step of the matrix: it narrows, and keeps the rows at one cell per
    position when [inRange] holds. *)
Definition step (count : nat) (inRange : Prop) (m m' : Matrix) : Prop :=
  narrows m' m ∧ (inRange → wellFormed count m → wellFormed count m').


(** ** Concrete configurations

    The configuration and the initial matrix that [solve] builds for [pair]
    and for [people] (see [solverConfig_pair] and [solverConfig_people]). *)

Definition pairConfig : SolverConfig :=
  mkSolverConfig (pair ++ [("#", ["1"; "2"])]) []
    (list_to_map [("a", "names.a"); ("b", "names.b")])
    ["names.a"; "names.b"] 2 (generateAllCombinations 2) 20.

Definition pairMatrix : Matrix :=
  list_to_map [("names.a", [true; true]); ("names.b", [true; true]);
               ("#.1", [true; false]); ("#.2", [false; true])].

Definition peopleConfig : SolverConfig :=
  mkSolverConfig (people ++ [("#", ["1"; "2"])]) []
    (list_to_map [("bob", "names.bob"); ("al", "names.al"); ("10", "age.10"); ("20", "age.20")])
    ["names.bob"; "names.al"; "age.10"; "age.20"] 2 (generateAllCombinations 2) 20.

Definition peopleMatrix : Matrix :=
  list_to_map [("names.bob", [true; true]); ("names.al", [true; true]);
               ("age.10", [true; true]); ("age.20", [true; true]);
               ("#.1", [true; false]); ("#.2", [false; true])].

(** [pairMatrix] with [a] first and [b] second. *)
Definition pairSolved : Matrix :=
  list_to_map [("names.a", [true; false]); ("names.b", [false; true]);
               ("#.1", [true; false]); ("#.2", [false; true])].

(** [a - b]: [a] is directly left of [b]. *)
Definition aLeftOfB : LogicalExpression :=
  PositionalOperation node "-" (ident "a") (ident "b") None.

(** ** Further predicates *)

(** The items of the categories in the order of enumeration, each with its
    category. *)
Definition categoryPairs (cats : Categories) : list (string * string) :=
  flat_map (fun entry : string * list string => map (fun item => (entry.1, item)) entry.2) cats.

(** The categories in which [item] occurs, one entry for each occurrence, in
    the order in which the categories are enumerated. *)
Definition occurrences (item : string) (cats : Categories) : list string :=
  (filter (fun p : string * string => p.2 = item) (categoryPairs cats)).*1.

(** Every character of the string is a decimal digit. *)
Fixpoint allDigits (s : string) : bool :=
  match s with
  | EmptyString => true
  | String c s' => (48 <=? nat_of_ascii c)%nat && (nat_of_ascii c <=? 57)%nat && allDigits s'
  end.

(** *** Assignments below a matrix *)

(** [M] lies within [m]: a cell that is true in [M] is true in [m]. *)
Definition within (M m : Matrix) : Prop :=
  ∀ key i, cellOf M key i = true → cellOf m key i = true.

(** The row [key] of [M] has its one true cell at [i]. *)
Definition placedAt (M : Matrix) (key : string) (i : nat) : Prop :=
  ∀ j, cellOf M key j = true ↔ j = i.

(** Every row of [M] has exactly one true cell, at a position below [count]. *)
Definition assignment (count : nat) (M : Matrix) : Prop :=
  ∀ key row, M !! key = Some row → ∃ i, (i < count)%nat ∧ placedAt M key i.

(** [M] is a full assignment for [sc]: every row has its one true cell below
    [count], and every category has [count] items, each with a row, that
    cover every position exactly once. *)
Definition fullAssignment (sc : SolverConfig) (M : Matrix) : Prop :=
  assignment (count sc) M
  ∧ ∀ category items, (category, items) ∈ categories sc →
      length items = count sc
      ∧ (∀ item, item ∈ items → is_Some (M !! rowKey category item))
      ∧ ∀ col, (col < count sc)%nat → coversOnce M category items col.

(** The clues built from positional clues and memberships of an identifier
    in a set of identifiers with [&] and [|], binary or prefix. *)
Fixpoint positive (clue : LogicalExpression) : Prop :=
  match clue with
  | PositionalOperation _ _ _ _ _ => True
  | InOperator _ _ (InIdentifier _) (SetLiteral _) => True
  | LogicalBinaryOperation _ operator o0 o1 =>
      (operator = "&" ∨ operator = "|") ∧ positive o0 ∧ positive o1
  | LogicalOperation _ _ operands =>
      (fix all (clues : list LogicalExpression) : Prop :=
         match clues with
         | [] => True
         | clue :: rest => positive clue ∧ all rest
         end) operands
  | _ => False
  end.

(** Propagating [clue] leaves the clue as it is and keeps the full assignment
    [M] whenever the checker accepts [M]; the checker returns on [M]. *)
Definition propagationSound (p : IdParser) (sc : SolverConfig) (M : Matrix)
    (clue : LogicalExpression) : Prop :=
  ∀ m m' clue',
    parseClue p sc clue m = OK (m', clue') →
    (∀ key, is_Some (m !! key) → is_Some (M !! key)) →
    clue' = clue
    ∧ ∃ v checked, checkClueThrowable M p sc clue = OK (v, checked)
                   ∧ (v = true → within M m → within M m').

(** [m] has the cells of [M] in every row of every category. *)
Definition agrees (sc : SolverConfig) (m M : Matrix) : Prop :=
  ∀ category items item j, (category, items) ∈ categories sc → item ∈ items →
    cellOf m (rowKey category item) j = cellOf M (rowKey category item) j.

(** The state is a branch for the clue list [clues0] that contains [M]. *)
Definition contains (M : Matrix) (clues0 : list LogicalExpression) (state : IterationState)
  : Prop :=
  clues state = clues0 ∧ within M (matrix state)
  ∧ ∀ key, is_Some (matrix state !! key) → is_Some (M !! key).

(** [b - a]: [b] is directly left of [a]. *)
Definition bLeftOfA : LogicalExpression :=
  PositionalOperation node "-" (ident "b") (ident "a") None.

(** A heap with the clue [a - b] at reference 0 and the matrix [pairSolved]
    at reference 1. *)
Definition pairHeap : Heap :=
  <[1%nat := MatrixObject pairSolved]> (<[0%nat := ClueObject aLeftOfB]> ∅).

(** The puzzle [pair] with the clue [a - b]. *)
Definition pairInput : SolveInput := mkSolveInput pair [aLeftOfB] 20 None [].

(** *** [finalGrid] ([solutionString] of the result of [solve])

    Besides the TypeError of a row that is missing, [' '.repeat] raises a
    RangeError when its count is negative. *)

(** [s.length]: the number of UTF-16 code units of a string that is given by
    its UTF-8 bytes.  A byte below 128 or the first byte of a character of two
    or three bytes stands for one unit, the first byte of a character of four
    bytes for the two units of a surrogate pair, a continuation byte for
    none. *)
Fixpoint jsLength (s : string) : nat :=
  match s with
  | EmptyString => 0
  | String c s' =>
      (if (nat_of_ascii c <? 128)%nat then 1
       else if (nat_of_ascii c <? 192)%nat then 0
       else if (nat_of_ascii c <? 240)%nat then 1
       else 2) + jsLength s'
  end.

Inductive gridExn :=
| Raised (e : exn)
| RangeError.

Inductive Drawn (A : Type) :=
| Done (a : A)
| Fails (e : gridExn).
Arguments Done {A} a.
Arguments Fails {A} e.

#[global] Instance Drawn_ret : MRet Drawn := fun A a => Done a.
#[global] Instance Drawn_bind : MBind Drawn := fun A B f r =>
  match r with
  | Done a => f a
  | Fails e => Fails e
  end.

Definition ofResult {A : Type} (r : Result A) : Drawn A :=
  match r with
  | OK a => Done a
  | Throw e => Fails (Raised e)
  end.

Definition newline : string := String (ascii_of_nat 10) EmptyString.

Fixpoint repeatChar (c : ascii) (n : nat) : string :=
  match n with
  | 0 => EmptyString
  | S n' => String c (repeatChar c n')
  end.

(** [c.repeat(n)] for an integer [n]. *)
Definition repeat (c : ascii) (n : Z) : Drawn string :=
  if (n <? 0)%Z then Fails RangeError else Done (repeatChar c (Z.to_nat n)).

(** [xs.map(f)] for an [f] that may throw. *)
Fixpoint mapDrawn {A B : Type} (f : A → Drawn B) (xs : list A) : Drawn (list B) :=
  match xs with
  | [] => Done []
  | x :: xs' => y ← f x; ys ← mapDrawn f xs'; Done (y :: ys)
  end.

(** The first loop of [finalGrid]. *)
Definition longestName (categories : Categories) : nat :=
  foldl (fun longest (entry : string * list string) =>
           let longest :=
             if (longest <? jsLength entry.1)%nat then jsLength entry.1
             else longest in
           foldl (fun longest item =>
                    if (longest <? jsLength item)%nat then jsLength item
                    else longest)
                 longest entry.2)
        0%nat categories.

Definition pad (longestName : nat) (str : string) : Drawn string :=
  spaces ← repeat " " (Z.of_nat longestName - Z.of_nat (jsLength str));
  Done (str +:+ spaces).

(** The second loop of [finalGrid]: the rows that do not have exactly one
    true cell are replaced in the clone [m]. *)
Definition blankRows (sc : SolverConfig) (matrix : Matrix) : Result Matrix :=
  forEach (fun (entry : string * list string) (m : Matrix) =>
             forEach (fun (item : string) (m : Matrix) =>
                        row ← getRow m (rowKey entry.1 item);
                        OK (if negb (countTrue row =? 1)%nat
                            then <[rowKey entry.1 item := replicate (count sc) false]> m
                            else m))
                     entry.2 m)
          (categories sc) (structuredClone matrix).

(** The cell of the header line for the position [i + 1].  The count
    [longestName / 2 - 0.5] that [repeat] truncates towards zero is the
    quotient of [longestName - 1] by 2 (zero for [longestName = 0]). *)
Definition headerCell (longestName i : nat) : Drawn string :=
  spaces ← repeat " " (Z.quot (Z.of_nat longestName - 1) 2);
  pad longestName (spaces +:+ pretty (i + 1)).

(** The cell of the line of [ctg] for the position [i + 1]. *)
Definition gridCell (m : Matrix) (longestName : nat) (ctg : string) (items : list string)
    (i : nat) : Drawn string :=
  names ← mapDrawn (fun item => c ← ofResult (getCell m (rowKey ctg item) i);
                                Done (if (c : bool) then item else EmptyString))
                   items;
  pad longestName (String.concat EmptyString names).

(** The last loop of [finalGrid]: one line for every category but [#]. *)
Fixpoint gridRows (m : Matrix) (longestName count : nat) (categories : Categories)
    (out : string) : Drawn string :=
  match categories with
  | [] => Done out
  | (ctg, items) :: rest =>
      if String.eqb ctg "#" then gridRows m longestName count rest out
      else
        name ← pad longestName ctg;
        cells ← mapDrawn (gridCell m longestName ctg items) (seq 0 count);
        gridRows m longestName count rest
                 (out +:+ ("| " +:+ name +:+ " | " +:+ String.concat " | " cells +:+ " |"
                           +:+ newline))
  end.

Definition finalGrid (sc : SolverConfig) (matrix : Matrix) : Drawn string :=
  let out := EmptyString in
  let longestName := longestName (categories sc) in
  m ← ofResult (blankRows sc matrix);
  let rule := repeatChar "-" ((longestName + 3) * (count sc + 1) + 1) in
  let out := out +:+ (rule +:+ newline) in
  blank ← pad longestName EmptyString;
  cells ← mapDrawn (headerCell longestName) (seq 0 (count sc));
  let out := out +:+ ("| " +:+ blank +:+ " | " +:+ String.concat " | " cells +:+ " |"
                      +:+ newline) in
  let out := out +:+ (rule +:+ newline) in
  out ← gridRows m longestName (count sc) (categories sc) out;
  Done (out +:+ rule).

(** [str] followed by spaces up to the width [width]. *)
Definition padded (width : nat) (str : string) : string :=
  str +:+ repeatChar " " (width - jsLength str).

(** The categories that [finalGrid] draws, in the order of enumeration. *)
Definition drawnCategories (sc : SolverConfig) : Categories :=
  List.filter (fun entry : string * list string => negb (String.eqb entry.1 "#"))
              (categories sc).

(** A line of the grid: the name and the cells, each at the width [width]. *)
Definition gridLine (width : nat) (name : string) (cells : list string) : string :=
  "| " +:+ padded width name +:+ " | " +:+ String.concat " | " (map (padded width) cells)
  +:+ " |".

(** *** Further puzzles *)

(** The configuration that [solve] builds for [trio]. *)
Definition trioConfig : SolverConfig :=
  mkSolverConfig (trio ++ [("#", ["1"; "2"; "3"])]) []
    (list_to_map [("a", "names.a"); ("b", "names.b"); ("c", "names.c")])
    ["names.a"; "names.b"; "names.c"] 3 (generateAllCombinations 3) 20.

(** [b] and [c] can no longer be at the third position. *)
Definition trioOpen : Matrix :=
  list_to_map [("names.a", [true; true; true]); ("names.b", [true; true; false]);
               ("names.c", [true; true; false]);
               ("#.1", [true; false; false]); ("#.2", [false; true; false]);
               ("#.3", [false; false; true])].

(** [trioOpen] after [eliminateImpossibleOptions]. *)
Definition trioEliminated : Matrix :=
  list_to_map [("names.a", [false; true; true]); ("names.b", [true; true; false]);
               ("names.c", [true; true; false]);
               ("#.1", [true; false; false]); ("#.2", [false; true; false]);
               ("#.3", [false; false; true])].

(** [b], [c], [a] from left to right. *)
Definition trioSolved : Matrix :=
  list_to_map [("names.a", [false; false; true]); ("names.b", [true; false; false]);
               ("names.c", [false; true; false]);
               ("#.1", [true; false; false]); ("#.2", [false; true; false]);
               ("#.3", [false; false; true])].

(** [al - bob]: [al] is directly left of [bob]. *)
Definition alLeftOfBob : LogicalExpression :=
  PositionalOperation node "-" (ident "al") (ident "bob") None.

(** [peopleMatrix] with [bob] first and [al] second, the ages open. *)
Definition peopleNamed : Matrix :=
  list_to_map [("names.bob", [true; false]); ("names.al", [false; true]);
               ("age.10", [true; true]); ("age.20", [true; true]);
               ("#.1", [true; false]); ("#.2", [false; true])].

(** [peopleNamed] with [bob] aged 10 and [al] aged 20. *)
Definition peopleSolved : Matrix :=
  list_to_map [("names.bob", [true; false]); ("names.al", [false; true]);
               ("age.10", [true; false]); ("age.20", [false; true]);
               ("#.1", [true; false]); ("#.2", [false; true])].

(** The puzzle [names - a b], [n - 0 1] with the clues [b = #2] and
    [a:n == truths(b = $, b = #1)]; the nodes that contain [$] have [dollar]
    set, as the parser sets it. *)
Definition dollarNode : Expression := mkExpression [1; 1] true None None.
Definition bits : Categories := [("names", ["a"; "b"]); ("n", ["0"; "1"])].
Definition bSecond : LogicalExpression :=
  PositionalOperation node "=" (ident "b") (ident "#2") None.
Definition bAtDollar : LogicalExpression :=
  PositionalOperation dollarNode "=" (ident "b") (mkIdentifier dollarNode "$") None.
Definition bFirst : LogicalExpression :=
  PositionalOperation node "=" (ident "b") (ident "#1") None.
Definition countClue : LogicalExpression :=
  RelationalOperation dollarNode "==" (NumericIdentifier node "a" "n")
    (TruthsOperator dollarNode [bAtDollar; bFirst]).
Definition bitsInput : SolveInput := mkSolveInput bits [bSecond; countClue] 20 None [].

Definition bitsConfig : SolverConfig :=
  mkSolverConfig (bits ++ [("#", ["1"; "2"])]) []
    (list_to_map [("a", "names.a"); ("b", "names.b"); ("0", "n.0"); ("1", "n.1")])
    ["names.a"; "names.b"; "n.0"; "n.1"] 2 (generateAllCombinations 2) 20.

(** The initial matrix of [bits] after [b = #2] has been propagated. *)
Definition bitsNarrowed : Matrix :=
  list_to_map [("names.a", [true; true]); ("names.b", [false; true]);
               ("n.0", [true; true]); ("n.1", [true; true]);
               ("#.1", [true; false]); ("#.2", [false; true])].

(** The matrix that [solve] records for [bitsInput]. *)
Definition bitsRecorded : Matrix :=
  list_to_map [("names.a", [true; false]); ("names.b", [false; true]);
               ("n.0", [true; false]); ("n.1", [false; true]);
               ("#.1", [true; false]); ("#.2", [false; true])].

(** [countClue] as its propagation at the position 1 leaves it on
    [bitsNarrowed]: the two elements of [truths] have [solved] set. *)
Definition countClueChecked : LogicalExpression :=
  RelationalOperation dollarNode "==" (NumericIdentifier node "a" "n")
    (TruthsOperator dollarNode
       [assign_solved false bAtDollar; assign_solved false bFirst]).

(** *** Clues without [truths] *)

(** No [truths] operator occurs in the expression. *)
Fixpoint truthsFreeArithmetic (exp : ArithmeticExpression) : Prop :=
  match exp with
  | NumericLiteral _ _ | NumericIdentifier _ _ _ => True
  | ArithmeticBinaryOperation _ _ e0 e1 => truthsFreeArithmetic e0 ∧ truthsFreeArithmetic e1
  | TruthsOperator _ _ => False
  end.

Definition truthsFreeElement (s : SetElement) : Prop :=
  match s with
  | ElemArithmetic a => truthsFreeArithmetic a
  | ElemIdentifier _ | ElemOther _ => True
  end.

Fixpoint truthsFree (clue : LogicalExpression) : Prop :=
  match clue with
  | LogicalUnaryOperation _ _ o0 => truthsFree o0
  | LogicalBinaryOperation _ _ o0 o1 => truthsFree o0 ∧ truthsFree o1
  | LogicalOperation _ _ operands =>
      (fix all (clues : list LogicalExpression) : Prop :=
         match clues with
         | [] => True
         | c :: rest => truthsFree c ∧ all rest
         end) operands
  | RelationalOperation _ _ a0 a1 => truthsFreeArithmetic a0 ∧ truthsFreeArithmetic a1
  | PositionalOperation _ _ _ _ _ => True
  | InOperator _ _ lhs rhs =>
      match lhs with
      | InIdentifier _ => True
      | InArithmetic a => truthsFreeArithmetic a
      end
      ∧ match rhs with
        | SetLiteral elements => Forall truthsFreeElement elements
        | RangeLiteral range_start range_end =>
            truthsFreeArithmetic range_start ∧ truthsFreeArithmetic range_end
        end
  end.

(** The initial matrix of [bits]. *)
Definition bitsMatrix : Matrix :=
  list_to_map [("names.a", [true; true]); ("names.b", [true; true]);
               ("n.0", [true; true]); ("n.1", [true; true]);
               ("#.1", [true; false]); ("#.2", [false; true])].

(** The two solutions of [people] with [bob:age == 20]. *)
Definition bobFirstAged20 : Matrix :=
  list_to_map [("names.bob", [true; false]); ("names.al", [false; true]);
               ("age.10", [false; true]); ("age.20", [true; false]);
               ("#.1", [true; false]); ("#.2", [false; true])].
Definition bobSecondAged20 : Matrix :=
  list_to_map [("names.bob", [false; true]); ("names.al", [true; false]);
               ("age.10", [true; false]); ("age.20", [false; true]);
               ("#.1", [true; false]); ("#.2", [false; true])].

(** Every category of the configuration is valid in [m]. *)
Definition validCategories (sc : SolverConfig) (m : Matrix) : Prop :=
  ∀ category items, (category, items) ∈ categories sc → validCategory sc m category items.

(** * Theorems *)

(** ** Rows *)

Lemma truthy_ge (row : list bool) (i : nat) : (length row ≤ i)%nat → truthy row i = false.
Proof. intros H. unfold truthy. by rewrite lookup_ge_None_2. Qed.

Lemma length_setIndex (row : list bool) (i : nat) (v : bool) :
  length (setIndex row i v) = (length row `max` S i)%nat.
Proof.
  unfold setIndex. destruct (Nat.ltb_spec i (length row)).
  - rewrite length_insert. lia.
  - rewrite !length_app, length_replicate. simpl. lia.
Qed.

Lemma truthy_setIndex (row : list bool) (i j : nat) (v : bool) :
  truthy (setIndex row i v) j = if decide (j = i) then v else truthy row j.
Proof.
  unfold setIndex, truthy. destruct (Nat.ltb_spec i (length row)).
  - destruct (decide (j = i)) as [->|].
    + by rewrite list_lookup_insert_eq.
    + by rewrite list_lookup_insert_ne.
  - destruct (decide (j = i)) as [->|].
    + rewrite lookup_app_r by done. rewrite lookup_app_r by (rewrite length_replicate; lia).
      rewrite length_replicate. by replace (i - length row - (i - length row))%nat with 0%nat by lia.
    + destruct (decide (j < length row)%nat).
      * by rewrite lookup_app_l.
      * rewrite (lookup_ge_None_2 row) by lia.
        rewrite lookup_app_r by lia.
        destruct (decide (j < i)%nat).
        -- rewrite lookup_app_l by (rewrite length_replicate; lia).
           rewrite lookup_replicate_2; [done|lia].
        -- rewrite lookup_app_r by (rewrite length_replicate; lia).
           rewrite length_replicate. rewrite lookup_ge_None_2; [done|simpl; lia].
Qed.

Lemma row_le_refl (row : list bool) : row_le row row.
Proof. split; auto. Qed.

Lemma row_le_trans (r1 r2 r3 : list bool) : row_le r1 r2 → row_le r2 r3 → row_le r1 r3.
Proof. intros [L1 H1] [L2 H2]. split; [lia|auto]. Qed.

Lemma setIndex_row_le (row : list bool) (i : nat) (v : bool) :
  (v = true → truthy row i = true) → row_le (setIndex row i v) row.
Proof.
  intros Hv. split.
  - rewrite length_setIndex. lia.
  - intros j. rewrite truthy_setIndex. destruct (decide (j = i)) as [->|]; auto.
Qed.

(** ** Matrices *)

#[global] Instance narrows_refl : Reflexive narrows.
Proof. intros m key. destruct (m !! key); constructor. apply row_le_refl. Qed.

#[global] Instance narrows_trans : Transitive narrows.
Proof.
  intros m1 m2 m3 H12 H23 key. specialize (H12 key). specialize (H23 key).
  destruct H12; inversion H23; subst; constructor. eauto using row_le_trans.
Qed.

Lemma narrows_insert (m : Matrix) (key : string) (row row' : list bool) :
  m !! key = Some row → row_le row' row → narrows (<[key := row']> m) m.
Proof.
  intros Hm Hle k. destruct (decide (k = key)) as [->|].
  - rewrite lookup_insert_eq, Hm. by constructor.
  - rewrite lookup_insert_ne by done. destruct (m !! k); constructor. apply row_le_refl.
Qed.

Lemma wellFormed_insert (count : nat) (m : Matrix) (key : string) (row : list bool) :
  wellFormed count m → length row = count → wellFormed count (<[key := row]> m).
Proof. intros Hm Hr. by apply map_Forall_insert_2. Qed.

Lemma step_refl count (P : Prop) m : step count P m m.
Proof. split; [reflexivity|auto]. Qed.

Lemma step_trans count (P : Prop) m1 m2 m3 :
  step count P m1 m2 → step count P m2 m3 → step count P m1 m3.
Proof. intros [N1 W1] [N2 W2]. split; [by etrans|auto]. Qed.

Lemma step_weaken count (P Q : Prop) m m' : (Q → P) → step count P m m' → step count Q m m'.
Proof. intros HPQ [N W]. split; auto. Qed.

Lemma getRow_OK (m : Matrix) key row : getRow m key = OK row → m !! key = Some row.
Proof. unfold getRow. destruct (m !! key); congruence. Qed.

Lemma getCell_OK (m : Matrix) key i b :
  getCell m key i = OK b → ∃ row, m !! key = Some row ∧ b = truthy row i.
Proof.
  unfold getCell. destruct (getRow m key) as [row|] eqn:E; simpl; [|discriminate].
  apply getRow_OK in E. intros [= <-]. eauto.
Qed.

Lemma setCell_step (count : nat) (m m' : Matrix) key i v :
  setCell m key i v = OK m' →
  (v = true → cellOf m key i = true) →
  step count (i < count)%nat m m'.
Proof.
  unfold setCell. destruct (getRow m key) as [row|] eqn:E; simpl; [|discriminate].
  apply getRow_OK in E. intros [= <-] Hv. split.
  - eapply narrows_insert; [done|]. apply setIndex_row_le.
    intros Hv'. specialize (Hv Hv'). unfold cellOf in Hv. by rewrite E in Hv.
  - intros Hi Hwf. apply wellFormed_insert; [done|].
    rewrite length_setIndex. specialize (Hwf _ _ E). simpl in Hwf. lia.
Qed.

Lemma setCell_false_step (count : nat) (m m' : Matrix) key i :
  setCell m key i false = OK m' → step count (i < count)%nat m m'.
Proof. intros H. eapply setCell_step; [done|discriminate]. Qed.

(** ** Loops *)

Lemma forEach_invariant {A S : Type} (R : S → S → Prop) (body : A → S → Result S)
    (xs : list A) :
  (∀ s, R s s) → (∀ s1 s2 s3, R s1 s2 → R s2 s3 → R s1 s3) →
  (∀ x s s', x ∈ xs → body x s = OK s' → R s s') →
  ∀ s s', forEach body xs s = OK s' → R s s'.
Proof.
  intros Hrefl Htrans. induction xs as [|x xs IH]; intros Hbody s s'; simpl.
  - intros [= <-]. apply Hrefl.
  - destruct (body x s) as [s1|] eqn:E; simpl; [|discriminate].
    intros H. eapply Htrans.
    + eapply Hbody; [left|done].
    + apply IH; [|done]. intros y t t' Hy. apply Hbody. by right.
Qed.

Lemma forEach_step {A : Type} count (P : Prop) (body : A → Matrix → Result Matrix)
    (xs : list A) (m m' : Matrix) :
  (∀ x s s', x ∈ xs → body x s = OK s' → step count P s s') →
  forEach body xs m = OK m' → step count P m m'.
Proof.
  intros Hbody. apply (forEach_invariant (step count P)); eauto using step_refl, step_trans.
Qed.

Lemma bind_OK {A B : Type} (r : Result A) (f : A → Result B) (b : B) :
  (r ≫= f) = OK b → ∃ a, r = OK a ∧ f a = OK b.
Proof. destruct r as [a|e]; simpl; [eauto|discriminate]. Qed.

(** Destructs the binds of a hypothesis [... = OK _]. *)
Ltac inv_bind H :=
  repeat match type of H with
  | (_ ≫= _) = OK _ =>
      let a := fresh "a" in
      let Ha := fresh "Ha" in
      apply bind_OK in H as (a & Ha & H)
  | OK _ = OK _ => injection H as H
  | Throw _ = OK _ => discriminate H
  end.

Lemma cellOf_lookup (m : Matrix) key row i : m !! key = Some row → cellOf m key i = truthy row i.
Proof. unfold cellOf. by intros ->. Qed.

Lemma positionalDistanceEval_step (m m' : Matrix) (sc : SolverConfig) l r dist :
  positionalDistanceEval m sc l r dist = OK m' →
  step (count sc) (dist ≤ count sc)%nat m m'.
Proof.
  unfold positionalDistanceEval. intros H.
  apply bind_OK in H as (m1 & H1 & H).
  eapply step_trans.
  - eapply step_weaken; [|eapply (forEach_step (count sc) True); [|exact H1]]; [done|].
    intros i s s' Hi Hbody. apply elem_of_seq in Hi.
    apply bind_OK in Hbody as (a & _ & Hbody).
    apply bind_OK in Hbody as (b & _ & Hbody).
    destruct (a && b).
    + injection Hbody as <-. apply step_refl.
    + apply bind_OK in Hbody as (s1 & Hs1 & Hbody).
      eapply step_trans; (eapply step_weaken; [|eapply setCell_false_step; eassumption]); lia.
  - eapply forEach_step; [|exact H].
    intros i s s' Hi Hbody. apply elem_of_seq in Hi.
    apply bind_OK in Hbody as (s1 & Hs1 & Hbody).
    eapply step_trans.
    + destruct (dist <=? count sc + i)%nat eqn:E.
      * eapply step_weaken; [|eapply setCell_false_step; eassumption]. lia.
      * apply bind_OK in Hs1 as (? & _ & [= <-]). apply step_refl.
    + eapply step_weaken; [|eapply setCell_false_step; eassumption]. lia.
Qed.

Lemma sweep_step (count : nat) clear test indices (m m' : Matrix) :
  Forall (fun i => i < count)%nat indices →
  sweep clear test indices m = OK m' → step count True m m'.
Proof.
  intros Hin. revert m. induction Hin as [|i rest Hi _ IH]; intros m; simpl.
  - intros [= <-]. apply step_refl.
  - intros H. apply bind_OK in H as (m1 & H1 & H). apply bind_OK in H as (t & _ & H).
    eapply step_trans.
    + eapply step_weaken; [|eapply setCell_false_step; eassumption]. done.
    + destruct t; [injection H as <-; apply step_refl|by apply IH].
Qed.

Lemma somewhereLeftEval_step (m m' : Matrix) (sc : SolverConfig) l r :
  somewhereLeftEval m sc l r = OK m' → step (count sc) True m m'.
Proof.
  unfold somewhereLeftEval. intros H. apply bind_OK in H as (m1 & H1 & H).
  eapply step_trans; (eapply sweep_step; [|eassumption]).
  - apply Forall_forall. intros i Hi. apply elem_of_seq in Hi. lia.
  - apply Forall_forall. intros i Hi. apply list_elem_of_In, in_rev, list_elem_of_In, elem_of_seq in Hi. lia.
Qed.

Lemma inSetEval_step (m m' : Matrix) p (sc : SolverConfig) id elements :
  inSetEval m p sc id elements = OK m' → step (count sc) True m m'.
Proof.
  unfold inSetEval. intros H.
  apply bind_OK in H as (l & _ & H). apply bind_OK in H as (can & _ & H).
  eapply forEach_step; [|exact H].
  intros i s s' Hi Hbody. apply elem_of_seq in Hi.
  apply bind_OK in Hbody as (a & Ha & Hbody).
  eapply step_weaken; [|eapply setCell_step; [eassumption|]].
  - lia.
  - apply getCell_OK in Ha as (row & Hrow & ->).
    intros Hv. apply andb_true_iff in Hv as [Hv _]. by rewrite (cellOf_lookup _ _ row).
Qed.

Lemma indexOfTrue_lt (row : list bool) : (0 < countTrue row)%nat → (indexOfTrue row < length row)%nat.
Proof.
  unfold countTrue. induction row as [|[] row IH]; simpl; lia.
Qed.

Lemma relationalNarrow_step (m m' : Matrix) p (sc : SolverConfig) tokenPos idBase symbol
    category test :
  relationalNarrow m p sc tokenPos idBase symbol category test = OK m' →
  step (count sc) True m m'.
Proof.
  unfold relationalNarrow. intros H.
  apply bind_OK in H as (key & _ & H). apply bind_OK in H as (a0 & Ha0 & H).
  destruct (Nat.eqb_spec (countTrue a0) 1) as [Hc|]; simpl in H;
    [|injection H as <-; apply step_refl].
  destruct (lookupCategory _ _) as [items|]; [|by destruct (includes _ _)].
  assert (Hstep : step (count sc) (indexOfTrue a0 < count sc)%nat m m').
  { eapply forEach_step; [|exact H]. intros item s s' _ Hbody. cbv beta in Hbody.
    destruct (negb (test (parseInt item))).
    - eapply setCell_false_step; eassumption.
    - injection Hbody as <-. apply step_refl. }
  destruct Hstep as [HN HW]. split; [done|]. intros _ Hwf. apply HW; [|done].
  apply getRow_OK in Ha0. specialize (Hwf _ _ Ha0). simpl in Hwf. rewrite <- Hwf.
  apply indexOfTrue_lt. lia.
Qed.

Lemma relationalEval_step b operator a0 a1 (m m' : Matrix) p (sc : SolverConfig) ok clue' :
  relationalEval b operator a0 a1 m p sc ok = OK (m', clue') →
  step (count sc) True m m'.
Proof.
  unfold relationalEval. intros H.
  destruct a0; destruct a1;
    try (injection H as <- _; apply step_refl);
    apply bind_OK in H as ([[v|] a'] & _ & H); simpl in H;
    try (injection H as <- _; apply step_refl);
    apply bind_OK in H as (m1 & H1 & [= <- _]);
    eapply relationalNarrow_step; eassumption.
Qed.

(** ** Elimination narrows *)

Lemma eliminateCombination_step category items rows (sc : SolverConfig) k combination
    (m m' : Matrix) :
  eliminateCombination category items rows sc k combination m = OK m' →
  step (count sc) (k ≤ count sc)%nat m m'.
Proof.
  unfold eliminateCombination. intros H.
  apply bind_OK in H as (matching & _ & H).
  destruct (length matching <? count sc - k)%nat.
  { injection H as <-. apply step_refl. }
  eapply forEach_step; [|exact H].
  intros i s s' _ Hi. cbv beta in Hi.
  destruct (bool_decide (i ∈ matching)); [injection Hi as <-; apply step_refl|].
  eapply forEach_step; [|exact Hi].
  intros j t t' Hj Hbody. cbv beta in Hbody. apply elem_of_seq in Hj.
  destruct (bool_decide (j ∈ combination)); [injection Hbody as <-; apply step_refl|].
  eapply step_weaken; [|eapply setCell_false_step; eassumption]. lia.
Qed.

Lemma eliminateImpossibleOptionsByCategory_step (m m' : Matrix) category (sc : SolverConfig) :
  eliminateImpossibleOptionsByCategory m category sc = OK m' →
  step (count sc) True m m'.
Proof.
  unfold eliminateImpossibleOptionsByCategory. intros H.
  destruct (count sc) as [|n] eqn:Hn; [injection H as <-; apply step_refl|].
  apply bind_OK in H as (items & _ & H).
  eapply forEach_step; [|exact H].
  intros k s s' Hk Hbody. cbv beta in Hbody. apply elem_of_seq in Hk.
  destruct (combinations sc !! k) as [columnCombinations|]; [|discriminate].
  eapply forEach_step; [|exact Hbody].
  intros combination t t' _ Hc.
  rewrite <- Hn. eapply step_weaken; [|eapply eliminateCombination_step; exact Hc]. lia.
Qed.

Lemma eliminateImpossibleOptions_step (m m' : Matrix) (sc : SolverConfig) :
  eliminateImpossibleOptions m sc = OK m' → step (count sc) True m m'.
Proof.
  unfold eliminateImpossibleOptions. intros H.
  eapply forEach_step; [|exact H].
  intros entry s s' _ Hbody. cbv beta in Hbody.
  eapply eliminateImpossibleOptionsByCategory_step; exact Hbody.
Qed.

(** ** The intersection of the snapshots narrows *)

Lemma clearCells_row_le (keep : nat → bool) (indices : list nat) (row : list bool) :
  row_le (foldl (fun row i => if keep i then row else setIndex row i false) row indices) row.
Proof.
  revert row. induction indices as [|i rest IH]; intros row; simpl; [apply row_le_refl|].
  eapply row_le_trans; [apply IH|].
  destruct (keep i); [apply row_le_refl|]. by apply setIndex_row_le.
Qed.

Lemma clearCells_length (keep : nat → bool) (indices : list nat) (row : list bool) :
  Forall (fun i => i < length row)%nat indices →
  length (foldl (fun row i => if keep i then row else setIndex row i false) row indices)
  = length row.
Proof.
  revert row. induction indices as [|i rest IH]; intros row Hin; simpl; [done|].
  apply Forall_cons in Hin as [Hi Hin].
  assert (Hlen : length (if keep i then row else setIndex row i false) = length row).
  { destruct (keep i); [done|]. rewrite length_setIndex. lia. }
  rewrite IH; [done|]. by rewrite Hlen.
Qed.

Lemma intersectSnapshots_step (count : nat) keep (m : Matrix) :
  step count True m (intersectSnapshots count keep m).
Proof.
  unfold intersectSnapshots, clearRow. split.
  - intros key. rewrite map_lookup_imap. destruct (m !! key) as [row|]; simpl; constructor.
    apply clearCells_row_le.
  - intros _ Hwf key row'. rewrite map_lookup_imap.
    destruct (m !! key) as [row|] eqn:E; simpl; [|discriminate]. intros [= <-].
    specialize (Hwf _ _ E). simpl in Hwf. simpl. rewrite clearCells_length; [done|].
    apply Forall_forall. intros i Hi. apply elem_of_seq in Hi. lia.
Qed.

(** ** Induction on clues *)

Lemma logical_ind (P : LogicalExpression → Prop)
    (Hunary : ∀ b operator o0, P o0 → P (LogicalUnaryOperation b operator o0))
    (Hbinary : ∀ b operator o0 o1, P o0 → P o1 → P (LogicalBinaryOperation b operator o0 o1))
    (Hnary : ∀ b operator operands, Forall P operands → P (LogicalOperation b operator operands))
    (Hrelational : ∀ b operator a0 a1, P (RelationalOperation b operator a0 a1))
    (Hpositional : ∀ b operator i0 i1 distance, P (PositionalOperation b operator i0 i1 distance))
    (Hin : ∀ b operator lhs rhs, P (InOperator b operator lhs rhs)) :
  ∀ clue, P clue.
Proof.
  fix IH 1. intros [b op o0|b op o0 o1|b op operands|b op a0 a1|b op i0 i1 d|b op lhs rhs].
  - apply Hunary, IH.
  - apply Hbinary; apply IH.
  - apply Hnary. induction operands as [|c rest IHrest]; constructor; [apply IH|apply IHrest].
  - apply Hrelational.
  - apply Hpositional.
  - apply Hin.
Qed.

(** ** Propagation narrows *)

Lemma parseClue_step (p : IdParser) (sc : SolverConfig) (clue : LogicalExpression) :
  ∀ (m m' : Matrix) clue',
    parseClue p sc clue m = OK (m', clue') →
    step (count sc) (distancesWithin (count sc) clue) m m'.
Proof.
  induction clue as [b op o0 IH0|b op o0 o1 IH0 IH1|b op operands IH|b op a0 a1
                    |b op i0 i1 distance|b op lhs rhs] using logical_ind;
    intros m m' clue' H; simpl in H; unfold clue_solved in H; simpl in H;
    (destruct (solved b); [injection H as <- _; apply step_refl|]).
  - injection H as <- _. apply step_refl.
  - destruct (String.eqb op "&").
    { apply bind_OK in H as ([m1 o0'] & H0 & H). apply bind_OK in H as ([m2 o1'] & H1 & H).
      injection H as <- _. simpl.
      eapply step_trans; (eapply step_weaken; [|eauto]); tauto. }
    destruct (String.eqb op "|"); [|injection H as <- _; apply step_refl].
    apply bind_OK in H as ([m1 o0'] & H0 & H). apply bind_OK in H as ([m2 o1'] & H1 & H).
    apply bind_OK in H as (m1' & _ & H). apply bind_OK in H as (m2' & _ & H).
    injection H as <- _. eapply step_weaken; [|apply intersectSnapshots_step]. done.
  - destruct (String.eqb op "&").
    { apply bind_OK in H as ([m1 operands'] & H & [= <- _]).
      revert m m1 operands' H. simpl.
      induction IH as [|c rest IHc _ IHrest]; intros m m1 operands' H.
      - injection H as <- _. apply step_refl.
      - apply bind_OK in H as ([m2 c'] & Hc & H).
        apply bind_OK in H as ([m3 rest'] & Hrest & H). injection H as <- _.
        eapply step_trans; (eapply step_weaken; [|eauto]); tauto. }
    destruct (String.eqb op "|"); [|injection H as <- _; apply step_refl].
    apply bind_OK in H as ([snapshots operands'] & _ & [= <- _]).
    eapply step_weaken; [|apply intersectSnapshots_step]. done.
  - destruct (relationalOperators op) as [ok|]; [|injection H as <- _; apply step_refl].
    eapply step_weaken; [|eapply relationalEval_step; exact H]. done.
  - simpl. destruct (String.eqb op "=").
    { apply bind_OK in H as (l & _ & H). apply bind_OK in H as (r & _ & H).
      apply bind_OK in H as (m1 & H1 & [= <- _]).
      eapply step_weaken; [|eapply positionalDistanceEval_step; exact H1]. lia. }
    destruct (String.eqb op "-").
    { apply bind_OK in H as (l & _ & H). apply bind_OK in H as (r & _ & H).
      apply bind_OK in H as (m1 & H1 & [= <- _]).
      eapply positionalDistanceEval_step; exact H1. }
    destruct (String.eqb op "--"); [|injection H as <- _; apply step_refl].
    apply bind_OK in H as (l & _ & H). apply bind_OK in H as (r & _ & H).
    apply bind_OK in H as (m1 & H1 & [= <- _]).
    eapply step_weaken; [|eapply somewhereLeftEval_step; exact H1]. done.
  - destruct (String.eqb op "in"); [|injection H as <- _; apply step_refl].
    destruct lhs as [id|a]; [|injection H as <- _; apply step_refl].
    destruct rhs as [elements|]; [|discriminate].
    apply bind_OK in H as (m1 & H1 & [= <- _]).
    eapply step_weaken; [|eapply inSetEval_step; exact H1]. done.
Qed.

(** ** The loop of [solveOption] ends *)

Lemma filter_length_le {A : Type} (f g : A → bool) (l : list A) :
  (∀ x, x ∈ l → f x = true → g x = true) →
  (length (List.filter f l) ≤ length (List.filter g l))%nat.
Proof.
  induction l as [|x l IH]; intros H; simpl; [done|].
  assert (IH' := IH (fun y Hy => H y (list_elem_of_further _ _ _ Hy))).
  specialize (H x (list_elem_of_here _ _)).
  destruct (f x), (g x); simpl; first [lia|by specialize (H eq_refl)].
Qed.

Lemma filter_length_lt {A : Type} (f g : A → bool) (l : list A) (x : A) :
  (∀ y, y ∈ l → f y = true → g y = true) →
  x ∈ l → f x = false → g x = true →
  (length (List.filter f l) < length (List.filter g l))%nat.
Proof.
  induction l as [|y l IH]; intros H Hx Hf Hg; [by apply elem_of_nil in Hx|].
  assert (Hl : ∀ z, z ∈ l → f z = true → g z = true)
    by (intros z Hz; apply H; by right).
  apply elem_of_cons in Hx as [<-|Hx]; simpl.
  - rewrite Hf, Hg. simpl. pose proof (filter_length_le f g l Hl). lia.
  - specialize (IH Hl Hx Hf Hg). specialize (H y (list_elem_of_here _ _)).
    destruct (f y), (g y); simpl; first [lia|by specialize (H eq_refl)].
Qed.

Lemma row_le_lookup (row' row : list bool) (i : nat) :
  row_le row' row →
  row' !! i = row !! i
  ∨ (row' !! i = Some false ∧ row !! i ≠ Some false).
Proof.
  intros [Hlen Hcells]. specialize (Hcells i). unfold truthy in Hcells.
  destruct (row' !! i) as [[]|] eqn:E'.
  - left. destruct (row !! i) as [[]|]; simpl in Hcells; auto; by specialize (Hcells eq_refl).
  - destruct (row !! i) as [[]|] eqn:E; [right|left|right]; done.
  - left. apply lookup_ge_None in E'. symmetry. apply lookup_ge_None. lia.
Qed.

Lemma openRow_le (count : nat) (row' row : list bool) :
  row_le row' row → (openRow count row' ≤ openRow count row)%nat.
Proof.
  intros Hle. apply filter_length_le. intros i _.
  destruct (row_le_lookup row' row i Hle) as [->|[-> H]]; [done|].
  by rewrite bool_decide_eq_true_2.
Qed.

Lemma openRow_lt (count : nat) (row' row : list bool) :
  row_le row' row → rowChanged count row' row = true →
  (openRow count row' < openRow count row)%nat.
Proof.
  intros Hle Hch. unfold rowChanged in Hch.
  apply existsb_exists in Hch as (i & Hi & Hne).
  apply negb_true_iff, bool_decide_eq_false in Hne.
  apply (filter_length_lt _ _ _ i).
  - intros j _. destruct (row_le_lookup row' row j Hle) as [->|[-> H]]; [done|].
    by rewrite bool_decide_eq_true_2.
  - by apply list_elem_of_In.
  - destruct (row_le_lookup row' row i Hle) as [?|[-> H]]; [done|].
    by rewrite bool_decide_eq_true_2.
  - destruct (row_le_lookup row' row i Hle) as [?|[_ H]]; [done|].
    by rewrite bool_decide_eq_false_2.
Qed.

Lemma openCells_insert (count : nat) (m : Matrix) key row :
  m !! key = None →
  openCells count (<[key := row]> m) = (openRow count row + openCells count m)%nat.
Proof. intros H. unfold openCells. by rewrite map_to_list_insert. Qed.

Lemma matrixChanged_true (count : nat) (m' m : Matrix) :
  matrixChanged count m' m = true ↔
  ∃ key row', m' !! key = Some row' ∧ rowChanged count row' (default [] (m !! key)) = true.
Proof.
  unfold matrixChanged. rewrite existsb_exists. split.
  - intros ([key row'] & Hin & H). exists key, row'. split; [|done].
    by apply elem_of_map_to_list, list_elem_of_In.
  - intros (key & row' & Hin & H). exists (key, row'). split; [|done].
    by apply list_elem_of_In, elem_of_map_to_list.
Qed.

Lemma narrows_delete (m' m : Matrix) key : narrows m' m → narrows (delete key m') (delete key m).
Proof.
  intros H k. destruct (decide (k = key)) as [->|].
  - rewrite !lookup_delete_eq. constructor.
  - rewrite !lookup_delete_ne by done. apply H.
Qed.

Lemma openCells_narrows (count : nat) (m : Matrix) :
  ∀ m', narrows m' m →
    (openCells count m' ≤ openCells count m)%nat
    ∧ (matrixChanged count m' m = true → (openCells count m' < openCells count m)%nat).
Proof.
  induction m as [|key row m Hkey IH] using map_ind; intros m' Hn.
  - assert (m' = ∅) as ->.
    { apply map_eq. intros k. specialize (Hn k). rewrite lookup_empty in *. by inversion Hn. }
    split; [done|]. intros H. apply matrixChanged_true in H as (k & r & Hk & _).
    by rewrite lookup_empty in Hk.
  - pose proof (Hn key) as Hk. rewrite lookup_insert_eq in Hk.
    inversion Hk as [row' ? Hle Hrow'|]; subst. symmetry in Hrow'.
    assert (Hrest : narrows (delete key m') m).
    { apply narrows_delete with (key := key) in Hn.
      by rewrite delete_insert_eq, (delete_id m) in Hn. }
    destruct (IH _ Hrest) as [IHle IHlt].
    rewrite <- (insert_delete_id m' key row') by done.
    rewrite !openCells_insert by (done || apply lookup_delete_eq).
    pose proof (openRow_le count row' row Hle) as Hrle.
    split; [lia|].
    intros H. apply matrixChanged_true in H as (k & r & Hk' & Hch).
    destruct (decide (k = key)) as [->|Hne].
    + rewrite lookup_insert_eq in Hk', Hch. injection Hk' as <-. simpl in Hch.
      pose proof (openRow_lt count row' row Hle Hch). lia.
    + rewrite lookup_insert_ne in Hk', Hch by done.
      assert (matrixChanged count (delete key m') m = true) as Hm.
      { apply matrixChanged_true. exists k, r. by split. }
      specialize (IHlt Hm). lia.
Qed.

Lemma iterationClue_narrows (sc : SolverConfig) clue (m m' : Matrix) clue' :
  iterationClue sc clue m = OK (m', clue') → narrows m' m.
Proof.
  unfold iterationClue. intros H.
  change m with ((m, clue).1). change m' with ((m', clue').1).
  revert H. apply (forEach_invariant (fun s s' => narrows s'.1 s.1)).
  - by intros.
  - intros s1 s2 s3 H12 H23. by etrans.
  - intros d [s c] [s' c'] _ Hbody. simpl in *. by apply parseClue_step in Hbody as [? _].
Qed.

Lemma iterationClues_narrows (sc : SolverConfig) clues (m m' : Matrix) clues' :
  iterationClues sc clues m = OK (m', clues') → narrows m' m.
Proof.
  revert m m' clues'. induction clues as [|clue rest IH]; intros m m' clues' H; simpl in H.
  - by injection H as <- _.
  - apply bind_OK in H as ([m1 clue'] & H1 & H).
    apply bind_OK in H as ([m2 rest'] & H2 & [= <- _]).
    etrans; [by eapply IH|by eapply iterationClue_narrows].
Qed.

Lemma iteration_narrows (sc : SolverConfig) (state state' : IterationState) :
  iteration sc state = OK state' → narrows (matrix state') (matrix state).
Proof.
  unfold iteration. intros H.
  apply bind_OK in H as ([m1 clues'] & H1 & H).
  apply bind_OK in H as (m2 & H2 & [= <-]). simpl.
  etrans; [by eapply eliminateImpossibleOptions_step|by eapply iterationClues_narrows].
Qed.

(** The loop ends within the fuel that [solveOption] gives it. *)
Lemma iterationLoop_terminates (sc : SolverConfig) (fuel : nat) (state : IterationState) :
  (openCells (count sc) (matrix state) < fuel)%nat →
  is_Some (iterationLoop sc fuel state).
Proof.
  revert state. induction fuel as [|fuel IH]; intros state Hfuel; [lia|]. simpl.
  destruct (iteration sc state) as [state'|e] eqn:E; [|by eexists].
  unfold structuredClone.
  destruct (matrixChanged _ _ _) eqn:Hch; [|by eexists].
  apply IH. apply iteration_narrows in E.
  destruct (openCells_narrows (count sc) _ _ E) as [_ Hlt]. specialize (Hlt Hch). lia.
Qed.

(** More fuel does not change the result. *)
Lemma iterationLoop_fuel (sc : SolverConfig) (fuel fuel' : nat) (state : IterationState) r :
  iterationLoop sc fuel state = Some r → (fuel ≤ fuel')%nat →
  iterationLoop sc fuel' state = Some r.
Proof.
  revert fuel' state. induction fuel as [|fuel IH]; intros fuel' state H Hle; [discriminate|].
  destruct fuel' as [|fuel']; [lia|]. simpl in *.
  destruct (iteration sc state) as [state'|e]; [|done].
  destruct (matrixChanged _ _ _); [|done]. apply IH; [done|lia].
Qed.

(** ** Induction on arithmetic expressions and clues together *)

Section ExpressionInduction.
Variables (P : ArithmeticExpression → Prop) (Q : LogicalExpression → Prop).
Hypothesis Hliteral : ∀ b value, P (NumericLiteral b value).
Hypothesis Hidentifier : ∀ b symbol category, P (NumericIdentifier b symbol category).
Hypothesis Harithmetic : ∀ b operator e0 e1,
  P e0 → P e1 → P (ArithmeticBinaryOperation b operator e0 e1).
Hypothesis Htruths : ∀ b elements, Forall Q elements → P (TruthsOperator b elements).
Hypothesis Hunary : ∀ b operator o0, Q o0 → Q (LogicalUnaryOperation b operator o0).
Hypothesis Hbinary : ∀ b operator o0 o1,
  Q o0 → Q o1 → Q (LogicalBinaryOperation b operator o0 o1).
Hypothesis Hnary : ∀ b operator operands,
  Forall Q operands → Q (LogicalOperation b operator operands).
Hypothesis Hrelational : ∀ b operator a0 a1,
  P a0 → P a1 → Q (RelationalOperation b operator a0 a1).
Hypothesis Hpositional : ∀ b operator i0 i1 distance,
  Q (PositionalOperation b operator i0 i1 distance).
Hypothesis Hin : ∀ b operator lhs rhs,
  inLeftAll P lhs → inRightAll P rhs → Q (InOperator b operator lhs rhs).

Ltac expression_cases IHa IHc :=
  match goal with
  | |- ∀ a : ArithmeticExpression, P a =>
      intros [b v|b s c|b o e0 e1|b elements];
      [apply Hliteral|apply Hidentifier|apply Harithmetic; apply IHa|
       apply Htruths; induction elements as [|c rest IHrest]; constructor;
       [apply IHc|apply IHrest]]
  | |- ∀ c : LogicalExpression, Q c =>
      intros [b o o0|b o o0 o1|b o operands|b o a0 a1|b o i0 i1 d|b o lhs rhs];
      [apply Hunary, IHc|apply Hbinary; apply IHc|
       apply Hnary; induction operands as [|c rest IHrest]; constructor;
       [apply IHc|apply IHrest]|
       apply Hrelational; apply IHa|apply Hpositional|
       apply Hin;
       [destruct lhs as [id|a]; simpl; [exact I|apply IHa]|
        destruct rhs as [elements|s e]; simpl;
        [induction elements as [|[id|a|b'] rest IHrest]; constructor; simpl;
         first [exact I|apply IHa|apply IHrest]|split; apply IHa]]]
  end.

Lemma arithmetic_ind : ∀ a, P a.
Proof.
  fix IHa 1 with (IHc (c : LogicalExpression) {struct c} : Q c).
  - expression_cases IHa IHc.
  - expression_cases IHa IHc.
Qed.

Lemma clue_ind : ∀ c, Q c.
Proof.
  fix IHc 1 with (IHa (a : ArithmeticExpression) {struct a} : P a).
  - expression_cases IHa IHc.
  - expression_cases IHa IHc.
Qed.

End ExpressionInduction.

Lemma expression_ind (P : ArithmeticExpression → Prop) (Q : LogicalExpression → Prop) :
  (∀ b value, P (NumericLiteral b value)) →
  (∀ b symbol category, P (NumericIdentifier b symbol category)) →
  (∀ b operator e0 e1, P e0 → P e1 → P (ArithmeticBinaryOperation b operator e0 e1)) →
  (∀ b elements, Forall Q elements → P (TruthsOperator b elements)) →
  (∀ b operator o0, Q o0 → Q (LogicalUnaryOperation b operator o0)) →
  (∀ b operator o0 o1, Q o0 → Q o1 → Q (LogicalBinaryOperation b operator o0 o1)) →
  (∀ b operator operands, Forall Q operands → Q (LogicalOperation b operator operands)) →
  (∀ b operator a0 a1, P a0 → P a1 → Q (RelationalOperation b operator a0 a1)) →
  (∀ b operator i0 i1 distance, Q (PositionalOperation b operator i0 i1 distance)) →
  (∀ b operator lhs rhs, inLeftAll P lhs → inRightAll P rhs → Q (InOperator b operator lhs rhs)) →
  (∀ a, P a) ∧ (∀ c, Q c).
Proof. intros. split; [apply (arithmetic_ind P Q)|apply (clue_ind P Q)]; assumption. Qed.

(** ** The checkers and the evaluators assign only [solved] and [states] *)

Lemma erase_assign_solved v clue : eraseLogical (assign_solved v clue) = eraseLogical clue.
Proof. by destruct clue. Qed.

Lemma truthsLoop_erased check clues :
  Forall (fun c => ∀ t c', check c = OK (t, c') → eraseLogical c' = eraseLogical c) clues →
  ∀ count count' clues', truthsLoop check clues count = OK (count', clues') →
    map eraseLogical clues' = map eraseLogical clues.
Proof.
  induction 1 as [|clue rest IHclue _ IHrest]; intros count count' clues' H; simpl in H.
  - by simplify_eq.
  - apply bind_OK in H as ([t clue'] & Hc & H).
    apply bind_OK in H as ([count1 rest'] & Hr & H). simplify_eq. simpl.
    f_equal; [by eapply IHclue|by eapply IHrest].
Qed.

Lemma checkOperands_erased check isAnd clues :
  Forall (fun c => ∀ t c', check c = OK (t, c') → eraseLogical c' = eraseLogical c) clues →
  ∀ r s r' s' clues', checkOperands check isAnd clues r s = OK (r', s', clues') →
    map eraseLogical clues' = map eraseLogical clues.
Proof.
  induction 1 as [|clue rest IHclue _ IHrest]; intros r s r' s' clues' H; simpl in H.
  - by simplify_eq.
  - apply bind_OK in H as ([t clue'] & Hc & H).
    apply bind_OK in H as ([[r1 s1] rest'] & Hr & H). simplify_eq. simpl.
    f_equal; [by eapply IHclue|by eapply IHrest].
Qed.

Lemma arithmeticInSet_erased parse val position items :
  Forall (elementAll (fun a => ∀ v a', parse a = OK (v, a') →
                                 eraseArithmetic a' = eraseArithmetic a)) items →
  ∀ out items', arithmeticInSet parse val position items = OK (out, items') →
    map eraseElement items' = map eraseElement items.
Proof.
  induction 1 as [|item rest IHitem _ IHrest]; intros out items' H; simpl in H.
  - by simplify_eq.
  - destruct item as [id|a|b]; try discriminate. simpl in IHitem.
    apply bind_OK in H as ([v a'] & Ha & H). apply IHitem in Ha.
    destruct v as [v|]; [destruct (js_eq v val)|]; simplify_eq; simpl; try by rewrite Ha.
    apply bind_OK in H as ([out1 rest'] & Hr & H). simplify_eq. simpl.
    rewrite Ha. f_equal. by eapply IHrest.
Qed.

Lemma checkers_erased (m : Matrix) (p : IdParser) (sc : SolverConfig) :
  (∀ a, erasedArithmetic m p sc a) ∧ (∀ c, erasedCheck m p sc c).
Proof.
  apply expression_ind; unfold erasedArithmetic, erasedCheck.
  - intros b value v a' [= _ <-]. done.
  - intros b symbol category v a' H. simpl in H.
    apply bind_OK in H as (val & _ & [= _ <-]). done.
  - intros b op e0 e1 IH0 IH1 v a' H. simpl in H.
    apply bind_OK in H as ([l e0'] & H0 & H). apply bind_OK in H as ([r e1'] & H1 & H).
    apply IH0 in H0. apply IH1 in H1.
    destruct l as [l|]; [destruct r as [r|]|];
      [apply bind_OK in H as (x & _ & [= _ <-])|injection H as _ <-..]; simpl; congruence.
  - intros b elements IH v a' H. simpl in H.
    apply bind_OK in H as ([count elements'] & H & [= _ <-]). simpl. f_equal.
    by eapply truthsLoop_erased.
  - intros b op o0 IH t c' H. simpl in H. unfold clue_solved in H. simpl in H.
    destruct (solved b); [by simplify_eq|].
    destruct (String.eqb op "!"); [|by simplify_eq].
    apply bind_OK in H as ([t0 o0'] & H0 & H). apply IH in H0.
    destruct (solved (logical_base o0')); simplify_eq; simpl; by rewrite H0.
  - intros b op o0 o1 IH0 IH1 t c' H. simpl in H. unfold clue_solved in H. simpl in H.
    destruct (solved b); [by simplify_eq|].
    destruct (logicalBinaryCheckers op) as [f|]; [|by simplify_eq].
    apply bind_OK in H as ([t0 o0'] & H0 & H). apply bind_OK in H as ([t1 o1'] & H1 & H).
    apply IH0 in H0. apply IH1 in H1.
    destruct (bool_decide _); simplify_eq; simpl; by rewrite H0, H1.
  - intros b op operands IH t c' H. simpl in H. unfold clue_solved in H. simpl in H.
    destruct (solved b); [by simplify_eq|].
    destruct (String.eqb op "&" || String.eqb op "|"); [|by simplify_eq].
    apply bind_OK in H as ([[result allSolved] operands'] & H & H').
    eapply checkOperands_erased in H; [|exact IH].
    destruct allSolved; simplify_eq; simpl; by rewrite H.
  - intros b op a0 a1 IH0 IH1 t c' H. simpl in H. unfold clue_solved in H. simpl in H.
    destruct (solved b); [by simplify_eq|].
    destruct (relationalOperators op) as [ok|]; [|by simplify_eq].
    apply bind_OK in H as ([l a0'] & H0 & H). apply bind_OK in H as ([r a1'] & H1 & H).
    assert (eraseArithmetic a0' = eraseArithmetic a0) as E0.
    { destruct (states_l _); [by simplify_eq|by eapply IH0]. }
    assert (eraseArithmetic a1' = eraseArithmetic a1) as E1.
    { destruct (states_r _); [by simplify_eq|by eapply IH1]. }
    destruct l, r; simplify_eq; simpl; by rewrite E0, E1.
  - intros b op i0 i1 distance t c' H. simpl in H. unfold clue_solved in H. simpl in H.
    destruct (solved b); [by simplify_eq|].
    destruct (positionalCheckers op) as [check|]; [|by simplify_eq].
    apply bind_OK in H as (k0 & _ & H). apply bind_OK in H as (l & _ & H).
    apply bind_OK in H as (k1 & _ & H). apply bind_OK in H as (r & _ & H).
    by simplify_eq.
  - intros b op lhs rhs IHl IHr t c' H. simpl in H. unfold clue_solved in H. simpl in H.
    destruct (solved b); [by simplify_eq|].
    destruct (String.eqb op "in"); [|by simplify_eq].
    destruct lhs as [id|a], rhs as [elements|s e]; simpl in IHl, IHr.
    + apply bind_OK in H as (k & _ & H). apply bind_OK in H as (l & _ & H).
      apply bind_OK in H as (out & _ & H). by simplify_eq.
    + discriminate.
    + apply bind_OK in H as ([val a'] & Ha & H). apply IHl in Ha.
      destruct val as [val|]; [|simplify_eq; simpl; by rewrite Ha].
      apply bind_OK in H as ([out elements'] & He & H). simplify_eq. simpl.
      eapply arithmeticInSet_erased in He; [|exact IHr].
      unfold eraseElement in He. by rewrite Ha, He.
    + apply bind_OK in H as ([val a'] & Ha & H). apply IHl in Ha.
      destruct val as [val|]; [|simplify_eq; simpl; by rewrite Ha].
      destruct IHr as [IHs IHe].
      apply bind_OK in H as ([vs s'] & Hs & H). apply bind_OK in H as ([ve e'] & He & H).
      apply IHs in Hs. apply IHe in He.
      destruct vs, ve; simplify_eq; simpl; by rewrite Ha, Hs, He.
Qed.

Lemma parseArithmetic_erased m p sc a v a' :
  parseArithmetic m p sc a = OK (v, a') → eraseArithmetic a' = eraseArithmetic a.
Proof. apply (checkers_erased m p sc). Qed.

Lemma checkClueThrowable_erased m p sc c t c' :
  checkClueThrowable m p sc c = OK (t, c') → sameClue c' c.
Proof. apply (checkers_erased m p sc). Qed.

Lemma relationalEval_erased b operator a0 a1 m p sc ok m' clue' :
  relationalEval b operator a0 a1 m p sc ok = OK (m', clue') →
  sameClue clue' (RelationalOperation b operator a0 a1).
Proof.
  unfold relationalEval, sameClue. intros H.
  destruct a0; destruct a1; try (by simplify_eq);
    apply bind_OK in H as ([v a'] & Ha & H); apply parseArithmetic_erased in Ha;
    (destruct v; [apply bind_OK in H as (m1 & _ & H)|]); simplify_eq; simpl in *; congruence.
Qed.

Lemma parseEach_erased parse clues :
  Forall (fun c => ∀ m m' c', parse c m = OK (m', c') → sameClue c' c) clues →
  ∀ m m' clues', parseEach parse clues m = OK (m', clues') →
    map eraseLogical clues' = map eraseLogical clues.
Proof.
  induction 1 as [|clue rest IHclue _ IHrest]; intros m m' clues' H; simpl in H.
  - by simplify_eq.
  - apply bind_OK in H as ([m1 clue'] & Hc & H).
    apply bind_OK in H as ([m2 rest'] & Hr & H). simplify_eq. simpl.
    f_equal; [by eapply IHclue|by eapply IHrest].
Qed.

Lemma snapshotEach_erased parse sc matrix clues :
  Forall (fun c => ∀ m m' c', parse c m = OK (m', c') → sameClue c' c) clues →
  ∀ snapshots clues', snapshotEach parse sc matrix clues = OK (snapshots, clues') →
    map eraseLogical clues' = map eraseLogical clues.
Proof.
  induction 1 as [|clue rest IHclue _ IHrest]; intros snapshots clues' H; simpl in H.
  - by simplify_eq.
  - apply bind_OK in H as ([m1 clue'] & Hc & H). apply bind_OK in H as (m2 & _ & H).
    apply bind_OK in H as ([ss rest'] & Hr & H). simplify_eq. simpl.
    f_equal; [by eapply IHclue|by eapply IHrest].
Qed.

Lemma parseClue_erased (p : IdParser) (sc : SolverConfig) (clue : LogicalExpression) :
  ∀ (m m' : Matrix) clue', parseClue p sc clue m = OK (m', clue') → sameClue clue' clue.
Proof.
  unfold sameClue.
  induction clue as [b op o0 IH0|b op o0 o1 IH0 IH1|b op operands IH|b op a0 a1
                    |b op i0 i1 distance|b op lhs rhs] using logical_ind;
    intros m m' clue' H; simpl in H; unfold clue_solved in H; simpl in H;
    (destruct (solved b); [by simplify_eq|]).
  - by simplify_eq.
  - destruct (String.eqb op "&").
    { apply bind_OK in H as ([m1 o0'] & H0 & H). apply bind_OK in H as ([m2 o1'] & H1 & H).
      apply IH0 in H0. apply IH1 in H1. simplify_eq. simpl. by rewrite H0, H1. }
    destruct (String.eqb op "|"); [|by simplify_eq].
    apply bind_OK in H as ([m1 o0'] & H0 & H). apply bind_OK in H as ([m2 o1'] & H1 & H).
    apply bind_OK in H as (m1' & _ & H). apply bind_OK in H as (m2' & _ & H).
    apply IH0 in H0. apply IH1 in H1. simplify_eq. simpl. by rewrite H0, H1.
  - destruct (String.eqb op "&").
    { apply bind_OK in H as ([m1 operands'] & H & H').
      eapply parseEach_erased in H; [|exact IH]. simplify_eq. simpl. by rewrite H. }
    destruct (String.eqb op "|"); [|by simplify_eq].
    apply bind_OK in H as ([snapshots operands'] & H & H').
    eapply snapshotEach_erased in H; [|exact IH]. simplify_eq. simpl. by rewrite H.
  - destruct (relationalOperators op) as [ok|]; [|by simplify_eq].
    by apply relationalEval_erased in H.
  - destruct (String.eqb op "=").
    { apply bind_OK in H as (l & _ & H). apply bind_OK in H as (r & _ & H).
      apply bind_OK in H as (m1 & H1 & H). by simplify_eq. }
    destruct (String.eqb op "-").
    { apply bind_OK in H as (l & _ & H). apply bind_OK in H as (r & _ & H).
      apply bind_OK in H as (m1 & H1 & H). by simplify_eq. }
    destruct (String.eqb op "--"); [|by simplify_eq].
    apply bind_OK in H as (l & _ & H). apply bind_OK in H as (r & _ & H).
    apply bind_OK in H as (m1 & H1 & H). by simplify_eq.
  - destruct (String.eqb op "in"); [|by simplify_eq].
    destruct lhs as [id|a]; [|by simplify_eq].
    destruct rhs as [elements|]; [|discriminate].
    apply bind_OK in H as (m1 & H1 & H). by simplify_eq.
Qed.

Lemma sameClue_dollar c' c : sameClue c' c → clue_dollar c' = clue_dollar c.
Proof.
  unfold sameClue, clue_dollar. intros H.
  destruct c', c; simpl in *; try discriminate; unfold eraseBase in H; by simplify_eq.
Qed.

Lemma iterationClue_erased sc clue m m' clue' :
  iterationClue sc clue m = OK (m', clue') → sameClue clue' clue.
Proof.
  unfold iterationClue. intros H.
  change clue with ((m, clue).2). change clue' with ((m', clue').2).
  revert H. apply (forEach_invariant (fun s s' => sameClue s'.2 s.2)).
  - by intros.
  - intros s1 s2 s3 H12 H23. unfold sameClue in *. congruence.
  - intros d [s c] [s' c'] _ Hbody. simpl in *. by apply parseClue_erased in Hbody.
Qed.

Lemma iterationClues_erased sc clues m m' clues' :
  iterationClues sc clues m = OK (m', clues') →
  map eraseLogical clues' = map eraseLogical clues.
Proof.
  revert m m' clues'. induction clues as [|clue rest IH]; intros m m' clues' H; simpl in H.
  - by simplify_eq.
  - apply bind_OK in H as ([m1 clue'] & H1 & H).
    apply bind_OK in H as ([m2 rest'] & H2 & H). simplify_eq. simpl.
    f_equal; [by eapply iterationClue_erased|by eapply IH].
Qed.

Lemma iteration_erased sc state state' :
  iteration sc state = OK state' →
  map eraseLogical (clues state') = map eraseLogical (clues state).
Proof.
  unfold iteration. intros H.
  apply bind_OK in H as ([m1 clues'] & H1 & H).
  apply bind_OK in H as (m2 & H2 & [= <-]). simpl. by eapply iterationClues_erased.
Qed.

Lemma iterationLoop_erased sc fuel state state' :
  iterationLoop sc fuel state = Some (OK state') →
  map eraseLogical (clues state') = map eraseLogical (clues state).
Proof.
  revert state. induction fuel as [|fuel IH]; intros state H; [discriminate|]. simpl in H.
  destruct (iteration sc state) as [state1|e] eqn:E; [|discriminate].
  apply iteration_erased in E.
  destruct (matrixChanged _ _ _); [|by simplify_eq].
  rewrite <- E. by apply IH.
Qed.

Lemma iterationLoop_narrows sc fuel state state' :
  iterationLoop sc fuel state = Some (OK state') →
  narrows (matrix state') (matrix state).
Proof.
  revert state. induction fuel as [|fuel IH]; intros state H; [discriminate|]. simpl in H.
  destruct (iteration sc state) as [state1|e] eqn:E; [|discriminate].
  apply iteration_narrows in E.
  destruct (matrixChanged _ _ _); [|by simplify_eq].
  etrans; [by apply IH|done].
Qed.

(** ** The validation of [solveOption] *)

Lemma elem_of_trueIndexesFrom (k i : nat) (row : list bool) :
  i ∈ trueIndexesFrom k row ↔ (k ≤ i)%nat ∧ truthy row (i - k) = true.
Proof.
  revert k. induction row as [|b row IH]; intros k; simpl.
  - split; [by intros ?%elem_of_nil|]. intros [_ H]. unfold truthy in H. by rewrite lookup_nil in H.
  - assert (Hrest : i ∈ trueIndexesFrom (S k) row ↔ (k < i)%nat ∧ truthy (b :: row) (i - k) = true).
    { rewrite IH. split; intros [Hle H]; (split; [lia|]).
      - replace (i - k)%nat with (S (i - S k)) by lia. done.
      - replace (i - k)%nat with (S (i - S k)) in H by lia. done. }
    destruct b.
    + rewrite elem_of_cons, Hrest. split.
      * intros [->|[Hlt H]]; [|split; [lia|done]]. split; [lia|]. by rewrite Nat.sub_diag.
      * intros [Hle H]. destruct (decide (i = k)); [by left|right]. split; [lia|done].
    + rewrite Hrest. split; intros [Hle H]; (split; [|done]); [lia|].
      destruct (decide (i = k)) as [->|]; [|lia]. by rewrite Nat.sub_diag in H.
Qed.

Lemma elem_of_trueIndexes (i : nat) (row : list bool) :
  i ∈ trueIndexes row ↔ truthy row i = true.
Proof.
  unfold trueIndexes. rewrite elem_of_trueIndexesFrom, Nat.sub_0_r. split; [by intros [_ ?]|].
  intros H. split; [lia|done].
Qed.

Lemma length_trueIndexesFrom (k : nat) (row : list bool) :
  length (trueIndexesFrom k row) = countTrue row.
Proof.
  unfold countTrue. revert k. induction row as [|[] row IH]; intros k; simpl; [done|..].
  - by rewrite IH.
  - apply IH.
Qed.

Lemma length_trueIndexes (row : list bool) : length (trueIndexes row) = countTrue row.
Proof. apply length_trueIndexesFrom. Qed.

Lemma NoDup_trueIndexesFrom (k : nat) (row : list bool) : NoDup (trueIndexesFrom k row).
Proof.
  revert k. induction row as [|[] row IH]; intros k; simpl; [constructor|..|apply IH].
  constructor; [|apply IH]. rewrite elem_of_trueIndexesFrom. lia.
Qed.

(** [colHas] *)

Lemma setSparse_lookup (colHas : list (option bool)) (i j : nat) :
  setSparse colHas i true !! j
  = if decide (j = i) then Some (Some true)
    else if decide (j < length colHas)%nat then colHas !! j
    else if decide (j < i)%nat then Some None else None.
Proof.
  unfold setSparse. destruct (Nat.ltb_spec i (length colHas)).
  - destruct (decide (j = i)) as [->|].
    + by rewrite list_lookup_insert_eq.
    + rewrite list_lookup_insert_ne by done.
      destruct (decide (j < length colHas)%nat); [done|].
      rewrite lookup_ge_None_2 by lia. destruct (decide (j < i)%nat); [lia|done].
  - destruct (decide (j = i)) as [->|].
    + rewrite lookup_app_r by done. rewrite lookup_app_r by (rewrite length_replicate; lia).
      rewrite length_replicate.
      by replace (i - length colHas - (i - length colHas))%nat with 0%nat by lia.
    + destruct (decide (j < length colHas)%nat); [by rewrite lookup_app_l|].
      rewrite lookup_app_r by lia.
      destruct (decide (j < i)%nat).
      * rewrite lookup_app_l by (rewrite length_replicate; lia).
        rewrite lookup_replicate_2; [done|lia].
      * rewrite lookup_app_r by (rewrite length_replicate; lia).
        rewrite length_replicate. rewrite lookup_ge_None_2; [done|simpl; lia].
Qed.

Lemma colHasAt_setSparse (colHas : list (option bool)) (i j : nat) :
  colHasAt (setSparse colHas i true) j = if decide (j = i) then true else colHasAt colHas j.
Proof.
  unfold colHasAt. rewrite setSparse_lookup.
  destruct (decide (j = i)); [done|].
  destruct (decide (j < length colHas)%nat); [done|].
  rewrite (lookup_ge_None_2 colHas) by lia. by destruct (decide (j < i)%nat).
Qed.

Lemma colHasDefined_setSparse count (colHas : list (option bool)) (i : nat) :
  colHasDefined count colHas → colHasDefined count (setSparse colHas i true).
Proof.
  intros H col Hcol. destruct (H col Hcol) as [b Hb]. rewrite setSparse_lookup.
  destruct (decide (col = i)); [by eexists|].
  apply lookup_lt_Some in Hb as Hlt. rewrite decide_True by done. by eexists.
Qed.

Lemma colHas_no_false count (colHas : list (option bool)) :
  colHasDefined count colHas → Some false ∉ colHas →
  ∀ col, (col < count)%nat → colHasAt colHas col = true.
Proof.
  intros Hdef Hno col Hcol. destruct (Hdef col Hcol) as [[] Hb]; unfold colHasAt; rewrite Hb; [done|].
  exfalso. apply Hno. by eapply list_elem_of_lookup_2.
Qed.

Lemma markIndexes_spec count (tis : list nat) (a : bool) (colHas : list (option bool)) :
  let r := markIndexes (a, colHas) tis in
  (colHasDefined count colHas → colHasDefined count r.2)
  ∧ (∀ j, colHasAt r.2 j = true ↔ colHasAt colHas j = true ∨ j ∈ tis)
  ∧ (r.1 = true → a = true ∧ ∀ j, j ∈ tis → colHasAt colHas j = false).
Proof.
  revert a colHas. induction tis as [|ti tis IH]; intros a colHas; unfold markIndexes; simpl.
  - split; [done|]. split; [|intros ->; split; [done|by intros j ?%elem_of_nil]].
    intros j. split; [by left|]. intros [?|?%elem_of_nil]; done.
  - specialize (IH (if colHasAt colHas ti then false else a) (setSparse colHas ti true)).
    simpl in IH. destruct IH as (Hdef & Hat & Hall).
    unfold markIndexes in *.
    split; [|split].
    + intros H. by apply Hdef, colHasDefined_setSparse.
    + intros j. rewrite Hat, colHasAt_setSparse, elem_of_cons.
      destruct (decide (j = ti)); intuition.
    + intros H. destruct (Hall H) as [Ha Hrest].
      destruct (colHasAt colHas ti) eqn:E; [discriminate|]. split; [done|].
      intros j [->|Hj]%elem_of_cons; [done|].
      specialize (Hrest j Hj). rewrite colHasAt_setSparse in Hrest.
      by destruct (decide (j = ti)).
Qed.

Lemma validateItem_spec (sc : SolverConfig) (m : Matrix) category item a colHas a' colHas' :
  validateItem sc m category item (a, colHas) = OK (Some (a', colHas')) →
  ∃ row, m !! rowKey category item = Some row
    ∧ (includes (greatCategories sc) category = false → (1 ≤ countTrue row)%nat)
    ∧ (colHasDefined (count sc) colHas → colHasDefined (count sc) colHas')
    ∧ (∀ j, colHasAt colHas' j = true ↔ colHasAt colHas j = true ∨ truthy row j = true)
    ∧ (a' = true → a = true ∧ (countTrue row ≤ 1)%nat
                   ∧ ∀ j, truthy row j = true → colHasAt colHas j = false).
Proof.
  unfold validateItem. intros H. apply bind_OK in H as (row & Hrow & H).
  apply getRow_OK in Hrow. exists row. split; [done|].
  rewrite length_trueIndexes in H.
  destruct (Nat.eqb_spec (countTrue row) 0) as [E0|E0]; simpl in H.
  - destruct (includes (greatCategories sc) category) eqn:G; simpl in H; [|discriminate].
    injection H as H.
    pose proof (markIndexes_spec (count sc) (trueIndexes row)
                  (if (1 <? countTrue row)%nat then false else a) colHas) as Hspec.
    rewrite H in Hspec. simpl in Hspec. destruct Hspec as (Hdef & Hat & Hall).
    split; [done|]. split; [done|]. split.
    + intros j. rewrite Hat. by rewrite elem_of_trueIndexes.
    + intros Ha. destruct (Hall Ha) as [Ha1 Hno].
      destruct (Nat.ltb_spec 1 (countTrue row)); [discriminate|].
      split; [done|]. split; [done|]. intros j Hj. apply Hno. by apply elem_of_trueIndexes.
  - injection H as H.
    pose proof (markIndexes_spec (count sc) (trueIndexes row)
                  (if (1 <? countTrue row)%nat then false else a) colHas) as Hspec.
    rewrite H in Hspec. simpl in Hspec. destruct Hspec as (Hdef & Hat & Hall).
    split; [intros _; lia|]. split; [done|]. split.
    + intros j. rewrite Hat. by rewrite elem_of_trueIndexes.
    + intros Ha. destruct (Hall Ha) as [Ha1 Hno].
      destruct (Nat.ltb_spec 1 (countTrue row)); [discriminate|].
      split; [done|]. split; [done|]. intros j Hj. apply Hno. by apply elem_of_trueIndexes.
Qed.

(** What the loop over the items of one category establishes. *)
Lemma validateItems_spec (sc : SolverConfig) (m : Matrix) category items :
  ∀ a colHas a' colHas',
  validateItems sc m category items (a, colHas) = OK (Some (a', colHas')) →
  (∀ item, item ∈ items →
     ∃ row, m !! rowKey category item = Some row
       ∧ (includes (greatCategories sc) category = false → (1 ≤ countTrue row)%nat)
       ∧ (a' = true → (countTrue row ≤ 1)%nat))
  ∧ (colHasDefined (count sc) colHas → colHasDefined (count sc) colHas')
  ∧ (∀ j, colHasAt colHas' j = true →
          colHasAt colHas j = true
          ∨ ∃ k item row, items !! k = Some item ∧ m !! rowKey category item = Some row
                          ∧ truthy row j = true)
  ∧ (∀ j k item row, items !! k = Some item → m !! rowKey category item = Some row →
       truthy row j = true → colHasAt colHas' j = true)
  ∧ (∀ j, colHasAt colHas j = true → colHasAt colHas' j = true)
  ∧ (a' = true → a = true
       ∧ ∀ k item row j, items !! k = Some item → m !! rowKey category item = Some row →
           truthy row j = true →
           colHasAt colHas j = false
           ∧ ∀ k' item' row', items !! k' = Some item' →
               m !! rowKey category item' = Some row' → truthy row' j = true → k' = k).
Proof.
  induction items as [|item rest IH]; intros a colHas a' colHas' H; simpl in H.
  - injection H as <- <-. split; [by intros ? ?%elem_of_nil|]. split; [done|].
    split; [by left|]. split; [intros ? ? ? ? Hk; by rewrite lookup_nil in Hk|].
    split; [done|]. intros Ha. split; [done|]. intros ? ? ? ? Hk; by rewrite lookup_nil in Hk.
  - apply bind_OK in H as (r & Hitem & H). destruct r as [[a1 colHas1]|]; [|discriminate].
    apply validateItem_spec in Hitem as (row0 & Hrow0 & Hge & Hdef0 & Hat0 & Hall0).
    apply IH in H as (Hrows & Hdef & Hback & Hfwd & Hmono & Hall). clear IH.
    split; [|split; [|split; [|split; [|split]]]].
    + intros it [->|Hit]%elem_of_cons.
      * exists row0. split; [done|]. split; [done|]. intros Ha.
        destruct (Hall Ha) as [Ha1 _]. by destruct (Hall0 Ha1) as (_ & ? & _).
      * by apply Hrows.
    + auto.
    + intros j Hj. destruct (Hback j Hj) as [Hj1|(k & it & row & Hk & Hrow & Ht)].
      * apply Hat0 in Hj1 as [?|?]; [by left|]. right. exists 0%nat, item, row0. done.
      * right. by exists (S k), it, row.
    + intros j [|k] it row Hk Hrow Ht; simpl in Hk.
      * injection Hk as <-. rewrite Hrow0 in Hrow. injection Hrow as <-.
        apply Hmono, Hat0. by right.
      * by eapply Hfwd.
    + intros j Hj. apply Hmono, Hat0. by left.
    + intros Ha. destruct (Hall Ha) as [Ha1 Huniq]. destruct (Hall0 Ha1) as (Ha0 & _ & Hno0).
      split; [done|]. intros [|k] it row j Hk Hrow Ht; simpl in Hk.
      * injection Hk as <-. rewrite Hrow0 in Hrow. injection Hrow as <-.
        split; [by apply Hno0|]. intros [|k'] it' row' Hk' Hrow' Ht'; [done|]. simpl in Hk'.
        destruct (Huniq k' it' row' j Hk' Hrow' Ht') as [Hfalse _].
        assert (colHasAt colHas1 j = true) by (apply Hat0; by right). congruence.
      * destruct (Huniq k it row j Hk Hrow Ht) as [Hfalse Hothers].
        assert (Hnot0 : truthy row0 j ≠ true).
        { intros Ht0. assert (colHasAt colHas1 j = true) by (apply Hat0; by right). congruence. }
        split.
        -- destruct (colHasAt colHas j) eqn:E; [|done].
           assert (colHasAt colHas1 j = true) by (apply Hat0; by left). congruence.
        -- intros [|k'] it' row' Hk' Hrow' Ht'; simpl in Hk'.
           ++ injection Hk' as <-. rewrite Hrow0 in Hrow'. injection Hrow' as <-. done.
           ++ f_equal. by eapply Hothers.
Qed.

Lemma colHasAt_replicate (count j : nat) : colHasAt (replicate count (Some false)) j = false.
Proof.
  unfold colHasAt. destruct (replicate count (Some false) !! j) as [o|] eqn:E; [|done].
  apply lookup_replicate in E as [-> _]. done.
Qed.

Lemma colHasDefined_replicate (count : nat) : colHasDefined count (replicate count (Some false)).
Proof. intros col Hcol. exists false. by apply lookup_replicate_2. Qed.

Lemma validateCategories_spec (sc : SolverConfig) (m : Matrix) (cats : Categories) :
  ∀ a, validateCategories sc m cats a = OK (Some true) →
    a = true
    ∧ ∀ category items, (category, items) ∈ cats → validCategory sc m category items.
Proof.
  induction cats as [|[category items] rest IH]; intros a H; simpl in H.
  - injection H as ->. split; [done|]. by intros ? ? ?%elem_of_nil.
  - apply bind_OK in H as (r & Hitems & H).
    destruct r as [[a1 colHas]|]; [|discriminate].
    destruct (bool_decide (Some false ∈ colHas)) eqn:Hfalse; [discriminate|].
    apply bool_decide_eq_false in Hfalse.
    apply IH in H as [-> Hrest]. clear IH.
    apply validateItems_spec in Hitems as (Hrows & Hdef & Hback & _ & _ & Hall).
    destruct (Hall eq_refl) as [-> Huniq].
    split; [done|]. intros c its [[= -> ->]|Hin]%elem_of_cons; [|by apply Hrest].
    split.
    + intros item Hitem. destruct (Hrows item Hitem) as (row & Hrow & Hge & Hle).
      exists row. split; [done|]. specialize (Hle eq_refl).
      destruct (includes (greatCategories sc) category); [done|]. specialize (Hge eq_refl). lia.
    + intros col Hcol.
      pose proof (colHas_no_false _ _ (Hdef (colHasDefined_replicate _)) Hfalse col Hcol) as Hat.
      destruct (Hback col Hat) as [Habs|(k & item & row & Hk & Hrow & Ht)].
      { by rewrite colHasAt_replicate in Habs. }
      exists k. split; [by exists item, row|].
      intros k' item' row' Hk' Hrow' Ht'.
      destruct (Huniq k item row col Hk Hrow Ht) as [_ Hothers]. by eapply Hothers.
Qed.

Lemma elem_of_dynamicPositions (sc : SolverConfig) clue d :
  d ∈ dynamicPositions sc clue ↔ (1 ≤ d ≤ count sc)%nat ∧ (clue_dollar clue = true ∨ d = 1%nat).
Proof.
  unfold dynamicPositions. destruct (clue_dollar clue).
  - rewrite elem_of_seq. split; [intros ?; split; [lia|by left]|intros [? _]; lia].
  - destruct (count sc) as [|n]; simpl.
    + split; [by intros ?%elem_of_nil|lia].
    + rewrite take_0. rewrite list_elem_of_singleton.
      split; [intros ->; split; [lia|by right]|by intros [_ [?|?]]].
Qed.

Lemma checkClues_true (sc : SolverConfig) (state : IterationState) :
  checkClues sc state = true → ∀ clue, clue ∈ clues state → checksTrue sc (matrix state) clue.
Proof.
  unfold checkClues. rewrite forallb_forall. intros H clue Hclue d Hd Hdollar.
  specialize (H clue (proj1 (list_elem_of_In _ _) Hclue)).
  rewrite forallb_forall in H. apply H, list_elem_of_In, elem_of_dynamicPositions. done.
Qed.

(** What [solveOption] has established when it returns 1, and what it
    records. *)
Lemma solveOptionCheck_spec (sc : SolverConfig) (state : IterationState) (stats stats' : Stats)
    (code : Z) :
  solveOptionCheck sc state stats = OK (code, stats') →
  (code = 1%Z ∧ validSolution sc (matrix state) (clues state)
   ∧ solutions_ stats' = solutions_ stats ++ [matrix state])
  ∨ (code ≠ 1%Z ∧ stats' = stats).
Proof.
  unfold solveOptionCheck. intros H. apply bind_OK in H as (r & Hval & H).
  destruct r as [allSolved|]; [|right; by simplify_eq].
  destruct (checkClues sc state) eqn:Hcheck; simpl in H; [|right; by simplify_eq].
  destruct allSolved; [|right; by simplify_eq].
  left. injection H as <- <-. split; [done|]. split; [|done].
  apply validateCategories_spec in Hval as [_ Hval].
  split; [done|]. by apply checkClues_true.
Qed.

(** ** What [solveOption] records *)

Lemma solveOption_spec (sc : SolverConfig) (state state' : IterationState)
    (stats stats' : Stats) (code : Z) :
  solveOption sc state stats = OK (code, state', stats') →
  sameClues (clues state') (clues state)
  ∧ ((code = 1%Z ∧ validSolution sc (matrix state') (clues state')
      ∧ solutions_ stats' = solutions_ stats ++ [matrix state'])
     ∨ (code ≠ 1%Z ∧ stats' = stats)).
Proof.
  unfold solveOption. intros H.
  destruct (iterationLoop _ _ _) as [[state1|e]|] eqn:E; try discriminate.
  apply bind_OK in H as ([code1 stats1] & Hcheck & H). injection H as <- <- <-.
  split; [by eapply iterationLoop_erased|]. by apply solveOptionCheck_spec.
Qed.

Lemma forceItem_clues state category items col item child :
  forceItem state category items col item = OK child → clues child = clues state.
Proof.
  unfold forceItem. intros H. apply bind_OK in H as (m1 & _ & H).
  apply bind_OK in H as (m2 & _ & H). by injection H as <-.
Qed.

Lemma expandState_clues (sc : SolverConfig) (state : IterationState) children :
  expandState sc state = OK children →
  Forall (fun child => clues child = clues state) children.
Proof.
  unfold expandState. intros H. apply bind_OK in H as (minimum & _ & H).
  cut (Forall (fun child => clues child = clues state) [] →
       Forall (fun child => clues child = clues state) children);
    [intros HR; apply HR; constructor|].
  destruct minimum as [[[n category] col]|];
    (destruct (lookupCategory _ _) as [items|]; [|discriminate]);
    revert H;
    apply (forEach_invariant (fun acc acc' =>
             Forall (fun child => clues child = clues state) acc →
             Forall (fun child => clues child = clues state) acc'));
    try done; try (by intros; auto).
  - intros item s s' _ Hbody Hs. cbv beta in Hbody.
    apply bind_OK in Hbody as (c & _ & Hbody). destruct c; [|by simplify_eq].
    apply bind_OK in Hbody as (child & Hchild & [= <-]).
    apply Forall_app. split; [done|]. constructor; [|constructor].
    by eapply forceItem_clues.
  - intros item s s' _ Hbody Hs. cbv beta in Hbody.
    apply bind_OK in Hbody as (? & _ & [= <-]). done.
Qed.

(** ** The solver reads the short-name table only through the identifier
    parser *)

Lemma forEach_ext {A S : Type} (f g : A → S → Result S) (xs : list A) (s : S) :
  (∀ x t, x ∈ xs → f x t = g x t) → forEach f xs s = forEach g xs s.
Proof.
  revert s. induction xs as [|x xs IH]; intros s H; simpl; [done|].
  rewrite H by left. destruct (g x s) as [s'|e]; simpl; [|done].
  apply IH. intros y t Hy. apply H. by right.
Qed.

Section SameConfiguration.
Variables (cats : Categories) (great : list string) (k : nat)
          (combos : list (list (list nat))).
Variables (nameKV1 nameKV2 : gmap string string) (items1 items2 : list string)
          (max1 max2 : nat).
Let sc1 := mkSolverConfig cats great nameKV1 items1 k combos max1.
Let sc2 := mkSolverConfig cats great nameKV2 items2 k combos max2.

Lemma eliminateImpossibleOptions_same (m : Matrix) :
  eliminateImpossibleOptions m sc2 = eliminateImpossibleOptions m sc1.
Proof. reflexivity. Qed.

Lemma positionalDistanceEval_same (m : Matrix) l r dist :
  positionalDistanceEval m sc2 l r dist = positionalDistanceEval m sc1 l r dist.
Proof. reflexivity. Qed.

Lemma somewhereLeftEval_same (m : Matrix) l r :
  somewhereLeftEval m sc2 l r = somewhereLeftEval m sc1 l r.
Proof. reflexivity. Qed.

Lemma validateItems_same (m : Matrix) category items acc :
  validateItems sc2 m category items acc = validateItems sc1 m category items acc.
Proof.
  revert acc. induction items as [|item rest IH]; intros acc; simpl; [done|].
  change (validateItem sc2 m category item acc) with (validateItem sc1 m category item acc).
  destruct (validateItem sc1 m category item acc) as [[acc'|]|e]; simpl; auto.
Qed.

Lemma validateCategories_same (m : Matrix) cs allSolved :
  validateCategories sc2 m cs allSolved = validateCategories sc1 m cs allSolved.
Proof.
  revert allSolved. induction cs as [|[category items] rest IH]; intros a; simpl; [done|].
  rewrite validateItems_same.
  destruct (validateItems sc1 m category items _) as [[[a' colHas]|]|e]; simpl; auto.
  destruct (bool_decide _); auto.
Qed.

Lemma expandState_same (state : IterationState) : expandState sc2 state = expandState sc1 state.
Proof. reflexivity. Qed.

Lemma dynamicPositions_same clue : dynamicPositions sc2 clue = dynamicPositions sc1 clue.
Proof. reflexivity. Qed.


Variables (p1 p2 : IdParser).
Hypothesis parsers_agree : ∀ symbol position,
  lexerSymbol symbol → p2 symbol position = p1 symbol position.

Lemma idOf_same (id : Identifier) :
  startsWithDigit (symbol id) = false → idOf p2 id = idOf p1 id.
Proof. intros H. unfold idOf. by apply parsers_agree. Qed.

Lemma numericIdentifierValue_same (m : Matrix) b symbol category :
  startsWithDigit symbol = false →
  numericIdentifierValue m p2 sc2 b symbol category
  = numericIdentifierValue m p1 sc1 b symbol category.
Proof. intros H. unfold numericIdentifierValue. by rewrite parsers_agree. Qed.

Lemma identifierInSet_same (m : Matrix) l elements :
  Forall (fun s => lexerSymbol (elementIdentifier s).1) elements →
  identifierInSet m p2 l elements = identifierInSet m p1 l elements.
Proof.
  induction 1 as [|s rest Hs _ IH]; simpl; [done|].
  rewrite parsers_agree by done.
  destruct (p1 _ _) as [key|e]; simpl; [|done].
  destruct (trueIndexOf m key) as [r|e]; simpl; [|done].
  by destruct (l =? r)%nat.
Qed.

Lemma truthsLoop_ext (check1 check2 : LogicalExpression → Result (bool * LogicalExpression))
    clues :
  Forall (fun c => check2 c = check1 c) clues →
  ∀ count, truthsLoop check2 clues count = truthsLoop check1 clues count.
Proof.
  induction 1 as [|c rest Hc _ IH]; intros count; simpl; [done|].
  rewrite Hc. destruct (check1 c) as [[t c']|e]; simpl; [|done]. by rewrite IH.
Qed.

Lemma checkOperands_ext (check1 check2 : LogicalExpression → Result (bool * LogicalExpression))
    isAnd clues :
  Forall (fun c => check2 c = check1 c) clues →
  ∀ r s, checkOperands check2 isAnd clues r s = checkOperands check1 isAnd clues r s.
Proof.
  induction 1 as [|c rest Hc _ IH]; intros r s; simpl; [done|].
  rewrite Hc. destruct (check1 c) as [[t c']|e]; simpl; [|done]. by rewrite IH.
Qed.

Lemma arithmeticInSet_ext
    (parse1 parse2 : ArithmeticExpression → Result (option number * ArithmeticExpression))
    val position items :
  Forall (elementAll (fun a => parse2 a = parse1 a)) items →
  arithmeticInSet parse2 val position items = arithmeticInSet parse1 val position items.
Proof.
  induction 1 as [|item rest Hitem _ IH]; simpl; [done|].
  destruct item as [id|a|b]; try done. simpl in Hitem. rewrite Hitem.
  destruct (parse1 a) as [[[v|] a']|e]; simpl; try done.
  destruct (js_eq v val); [done|]. by rewrite IH.
Qed.

Lemma Forall_both {A : Type} (P Q R : A → Prop) (l : list A) :
  Forall P l → Forall Q l → (∀ x, P x → Q x → R x) → Forall R l.
Proof. induction 1; inversion 1; constructor; auto. Qed.

Lemma Forall_flat_map {A B : Type} (P : B → Prop) (f : A → list B) (l : list A) :
  Forall P (flat_map f l) ↔ Forall (fun x => Forall P (f x)) l.
Proof.
  induction l as [|x l IH]; simpl; [split; constructor|].
  rewrite Forall_app, Forall_cons, IH. done.
Qed.

Lemma checkers_same (m : Matrix) :
  (∀ a, Forall (fun s => startsWithDigit s = false) (arithmeticSymbols a) →
        parseArithmetic m p2 sc2 a = parseArithmetic m p1 sc1 a)
  ∧ (∀ c, lexerClue c → checkClueThrowable m p2 sc2 c = checkClueThrowable m p1 sc1 c).
Proof.
  apply expression_ind; unfold lexerClue.
  - done.
  - intros b symbol category H. simpl in *. rewrite Forall_singleton in H.
    by rewrite numericIdentifierValue_same.
  - intros b op e0 e1 IH0 IH1 H. simpl in *. apply Forall_app in H as [H0 H1].
    by rewrite IH0, IH1.
  - intros b elements IH H. simpl in *. apply Forall_flat_map in H.
    rewrite (truthsLoop_ext (checkClueThrowable m p1 sc1) (checkClueThrowable m p2 sc2)); [done|].
    eapply Forall_both; [exact IH|exact H|]. intros c Hc Hs. by apply Hc.
  - intros b op o0 IH H. simpl in *. by rewrite IH.
  - intros b op o0 o1 IH0 IH1 H. simpl in *. apply Forall_app in H as [H0 H1].
    by rewrite IH0, IH1.
  - intros b op operands IH H. simpl in *. apply Forall_flat_map in H.
    rewrite (checkOperands_ext (checkClueThrowable m p1 sc1) (checkClueThrowable m p2 sc2));
      [done|].
    eapply Forall_both; [exact IH|exact H|]. intros c Hc Hs. by apply Hc.
  - intros b op a0 a1 IH0 IH1 H. simpl in *. apply Forall_app in H as [H0 H1].
    by rewrite IH0, IH1.
  - intros b op i0 i1 distance H. simpl in *.
    rewrite Forall_cons, Forall_singleton in H. destruct H as [H0 H].
    by rewrite !idOf_same.
  - intros b op lhs rhs IHl IHr H. simpl in *. apply Forall_app in H as [Hl Hr].
    destruct lhs as [id|a], rhs as [elements|s e]; simpl in *.
    + rewrite Forall_singleton in Hl. rewrite idOf_same by done.
      apply Forall_flat_map in Hr.
      destruct (clue_solved _); [done|]. destruct (op =? "in"); [|done].
      destruct (idOf p1 id) as [key|]; simpl; [|done].
      destruct (trueIndexOf m key) as [l|]; simpl; [|done].
      rewrite identifierInSet_same; [done|].
      eapply Forall_impl; [exact Hr|]. intros [id'|[]|b'] Hs; simpl in *; try done;
        by rewrite Forall_singleton in Hs.
    + done.
    + rewrite IHl by done. apply Forall_flat_map in Hr.
      destruct (clue_solved _); [done|]. destruct (op =? "in"); [|done].
      destruct (parseArithmetic m p1 sc1 a) as [[[val|] a']|e]; simpl; try done.
      rewrite (arithmeticInSet_ext (parseArithmetic m p1 sc1) (parseArithmetic m p2 sc2));
        [done|].
      eapply Forall_both; [exact IHr|exact Hr|].
      intros [id'|a''|b'] Ha Hs; simpl in *; try done. by apply Ha.
    + apply Forall_app in Hr as [Hs He]. destruct IHr as [IHs IHe].
      by rewrite IHl, IHs, IHe.
Qed.

Lemma parseArithmetic_same (m : Matrix) a :
  Forall (fun s => startsWithDigit s = false) (arithmeticSymbols a) →
  parseArithmetic m p2 sc2 a = parseArithmetic m p1 sc1 a.
Proof. apply checkers_same. Qed.

Lemma checkClueThrowable_same (m : Matrix) c :
  lexerClue c → checkClueThrowable m p2 sc2 c = checkClueThrowable m p1 sc1 c.
Proof. apply checkers_same. Qed.

Lemma checkClue_same (m : Matrix) c :
  lexerClue c → checkClue c m p2 sc2 = checkClue c m p1 sc1.
Proof. intros H. unfold checkClue, structuredClone. by rewrite checkClueThrowable_same. Qed.

Lemma inSetEval_same (m : Matrix) id elements :
  startsWithDigit (symbol id) = false →
  Forall (fun s => lexerSymbol (elementIdentifier s).1) elements →
  inSetEval m p2 sc2 id elements = inSetEval m p1 sc1 id elements.
Proof.
  intros Hid Hels. unfold inSetEval. rewrite idOf_same by done.
  destruct (idOf p1 id) as [l|e]; simpl; [|done].
  rewrite (forEach_ext _
    (fun (s : SetElement) (can : list bool) =>
       r ← p1 (elementIdentifier s).1 (elementIdentifier s).2;
       forEach (fun (i : nat) (can : list bool) =>
                  c ← getCell m r i; OK (if (c : bool) then setIndex can i true else can))
               (seq 0 k) can)); [done|].
  intros s can Hs. rewrite parsers_agree; [done|].
  by eapply Forall_forall in Hels.
Qed.

Lemma relationalNarrow_same (m : Matrix) tokenPos idBase symbol category test :
  startsWithDigit symbol = false →
  relationalNarrow m p2 sc2 tokenPos idBase symbol category test
  = relationalNarrow m p1 sc1 tokenPos idBase symbol category test.
Proof. intros H. unfold relationalNarrow. by rewrite parsers_agree. Qed.

Lemma relationalEval_same b operator a0 a1 (m : Matrix) ok :
  Forall (fun s => startsWithDigit s = false) (arithmeticSymbols a0 ++ arithmeticSymbols a1) →
  relationalEval b operator a0 a1 m p2 sc2 ok = relationalEval b operator a0 a1 m p1 sc1 ok.
Proof.
  intros [H0 H1]%Forall_app. unfold relationalEval.
  destruct a0 as [b0 v0|b0 s0 c0|b0 o0 x0 y0|b0 els0].
  - destruct a1 as [b1 v1|b1 s1 c1|b1 o1 x1 y1|b1 els1]; try done.
    simpl in H1. rewrite Forall_singleton in H1. rewrite parseArithmetic_same by done.
    destruct (parseArithmetic m p1 sc1 _) as [[[l|] a0']|e]; simpl; try done.
    by rewrite relationalNarrow_same.
  - simpl in H0. rewrite Forall_singleton in H0. rewrite parseArithmetic_same by done.
    destruct (parseArithmetic m p1 sc1 a1) as [[[r|] a1']|e]; simpl; try done.
    by rewrite relationalNarrow_same.
  - destruct a1 as [b1 v1|b1 s1 c1|b1 o1 x1 y1|b1 els1]; try done.
    simpl in H1. rewrite Forall_singleton in H1. rewrite parseArithmetic_same by done.
    destruct (parseArithmetic m p1 sc1 _) as [[[l|] a0']|e]; simpl; try done.
    by rewrite relationalNarrow_same.
  - destruct a1 as [b1 v1|b1 s1 c1|b1 o1 x1 y1|b1 els1]; try done.
    simpl in H1. rewrite Forall_singleton in H1. rewrite parseArithmetic_same by done.
    destruct (parseArithmetic m p1 sc1 _) as [[[l|] a0']|e]; simpl; try done.
    by rewrite relationalNarrow_same.
Qed.

Lemma parseEach_ext (parse1 parse2 : LogicalExpression → Matrix → Result (Matrix * LogicalExpression))
    clues :
  Forall (fun c => ∀ m, parse2 c m = parse1 c m) clues →
  ∀ m, parseEach parse2 clues m = parseEach parse1 clues m.
Proof.
  induction 1 as [|c rest Hc _ IH]; intros m; simpl; [done|].
  rewrite Hc. destruct (parse1 c m) as [[m1 c']|e]; simpl; [|done]. by rewrite IH.
Qed.

Lemma snapshotEach_ext
    (parse1 parse2 : LogicalExpression → Matrix → Result (Matrix * LogicalExpression))
    matrix clues :
  Forall (fun c => ∀ m, parse2 c m = parse1 c m) clues →
  snapshotEach parse2 sc2 matrix clues = snapshotEach parse1 sc1 matrix clues.
Proof.
  induction 1 as [|c rest Hc _ IH]; simpl; [done|].
  rewrite Hc. destruct (parse1 c _) as [[m1 c']|e]; simpl; [|done].
  change (eliminateImpossibleOptions m1 sc2) with (eliminateImpossibleOptions m1 sc1).
  destruct (eliminateImpossibleOptions m1 sc1) as [m2|e]; simpl; [|done]. by rewrite IH.
Qed.

Lemma parseClue_same (clue : LogicalExpression) :
  lexerClue clue → ∀ m, parseClue p2 sc2 clue m = parseClue p1 sc1 clue m.
Proof.
  unfold lexerClue.
  induction clue as [b op o0 IH0|b op o0 o1 IH0 IH1|b op operands IH|b op a0 a1
                    |b op i0 i1 distance|b op lhs rhs] using logical_ind;
    intros H m; simpl in *.
  - done.
  - apply Forall_app in H as [H0 H1].
    destruct (clue_solved _); [done|].
    destruct (op =? "&").
    { rewrite IH0 by done. destruct (parseClue p1 sc1 o0 m) as [[m1 o0']|e]; simpl; [|done].
      by rewrite IH1. }
    destruct (op =? "|"); [|done].
    unfold structuredClone. rewrite IH0, IH1 by done.
    destruct (parseClue p1 sc1 o0 m) as [[m1 o0']|e]; simpl; [|done].
    destruct (parseClue p1 sc1 o1 m) as [[m2 o1']|e]; simpl; [|done].
    done.
  - apply Forall_flat_map in H.
    assert (Hall : Forall (fun c => ∀ m, parseClue p2 sc2 c m = parseClue p1 sc1 c m) operands).
    { eapply Forall_both; [exact IH|exact H|]. intros c Hc Hs. by apply Hc. }
    destruct (clue_solved _); [done|].
    destruct (op =? "&"); [by rewrite (parseEach_ext (parseClue p1 sc1) (parseClue p2 sc2))|].
    destruct (op =? "|"); [|done].
    by rewrite (snapshotEach_ext (parseClue p1 sc1) (parseClue p2 sc2)).
  - destruct (clue_solved _); [done|].
    destruct (relationalOperators op); [|done]. by apply relationalEval_same.
  - rewrite Forall_cons, Forall_singleton in H. destruct H as [H0 H1].
    by rewrite !idOf_same.
  - apply Forall_app in H as [Hl Hr].
    destruct (clue_solved _); [done|]. destruct (op =? "in"); [|done].
    destruct lhs as [id|a]; [|done]. destruct rhs as [elements|]; [|done].
    simpl in Hl. rewrite Forall_singleton in Hl. rewrite inSetEval_same; [done|done|].
    apply Forall_flat_map in Hr.
    eapply Forall_impl; [exact Hr|]. intros [id'|[]|b'] Hs; simpl in *; try done;
      by rewrite Forall_singleton in Hs.
Qed.

End SameConfiguration.

(** ** The search under two short-name tables that agree on the symbols of
    the clues *)

Lemma symbols_erased :
  (∀ a, arithmeticSymbols (eraseArithmetic a) = arithmeticSymbols a)
  ∧ (∀ c, clueSymbols (eraseLogical c) = clueSymbols c).
Proof.
  apply expression_ind; simpl; try done.
  - intros _ _ e0 e1 -> ->. done.
  - intros _ elements H. induction H as [|c rest Hc _ IH]; simpl; [done|]. by rewrite Hc, IH.
  - intros _ _ o0 o1 -> ->. done.
  - intros _ _ operands H. induction H as [|c rest Hc _ IH]; simpl; [done|]. by rewrite Hc, IH.
  - intros _ _ a0 a1 -> ->. done.
  - intros _ _ lhs rhs Hl Hr. f_equal.
    + destruct lhs as [id|a]; simpl in *; [done|by rewrite Hl].
    + destruct rhs as [elements|s e]; simpl in *.
      * induction Hr as [|s rest Hs _ IH]; simpl; [done|]. rewrite IH. f_equal.
        destruct s as [id|a|b]; simpl in *; [done|by rewrite Hs|done].
      * destruct Hr as [-> ->]. done.
Qed.

Lemma lexerClue_sameClue c' c : sameClue c' c → lexerClue c → lexerClue c'.
Proof.
  unfold sameClue, lexerClue. intros H.
  rewrite <- (proj2 symbols_erased c), <- (proj2 symbols_erased c'). by rewrite H.
Qed.

Lemma lexerClues_sameClues clues' clues :
  sameClues clues' clues → Forall lexerClue clues → Forall lexerClue clues'.
Proof.
  unfold sameClues. revert clues. induction clues' as [|c' rest' IH]; intros [|c rest] H Hall;
    simpl in H; try discriminate; [constructor|].
  injection H as Hc Hrest. apply Forall_cons in Hall as [Hc0 Hrest0].
  constructor; [by eapply lexerClue_sameClue|by eapply IH].
Qed.

Lemma forEach_ext_invariant {A S : Type} (I : S → Prop) (f g : A → S → Result S)
    (xs : list A) :
  (∀ x s, I s → g x s = f x s) → (∀ x s s', I s → f x s = OK s' → I s') →
  ∀ s, I s → forEach g xs s = forEach f xs s.
Proof.
  intros Hext Hkeep. induction xs as [|x xs IH]; intros s Hs; simpl; [done|].
  rewrite Hext by done. destruct (f x s) as [s'|e] eqn:E; simpl; [|done].
  apply IH. by eapply Hkeep.
Qed.

Lemma forEach_ext_elements {A S : Type} (P : A → Prop) (f g : A → S → Result S)
    (xs : list A) :
  (∀ x s, P x → g x s = f x s) → Forall P xs → ∀ s, forEach g xs s = forEach f xs s.
Proof.
  intros Hext. induction 1 as [|x xs Hx _ IH]; intros s; simpl; [done|].
  rewrite Hext by done. destruct (f x s) as [s'|e]; simpl; [|done]. apply IH.
Qed.

Section SameSearch.
Variables (cats : Categories) (great : list string) (k : nat)
          (combos : list (list (list nat))).
Variables (nameKV1 nameKV2 : gmap string string) (items1 items2 : list string)
          (max1 max2 : nat).
Let sc1 := mkSolverConfig cats great nameKV1 items1 k combos max1.
Let sc2 := mkSolverConfig cats great nameKV2 items2 k combos max2.

Hypothesis tables_agree : ∀ d symbol position,
  lexerSymbol symbol →
  parseIdentifier nameKV2 items2 d symbol position
  = parseIdentifier nameKV1 items1 d symbol position.

Lemma iterationClue_same clue (m : Matrix) :
  lexerClue clue → iterationClue sc2 clue m = iterationClue sc1 clue m.
Proof.
  intros H. unfold iterationClue.
  change (dynamicPositions sc2 clue) with (dynamicPositions sc1 clue).
  apply (forEach_ext_invariant (fun s : Matrix * LogicalExpression => lexerClue s.2)); [| |done].
  - intros d [m0 c] Hc. simpl in *.
    apply (parseClue_same cats great k combos nameKV1 nameKV2 items1 items2 max1 max2);
      [|done]. apply tables_agree.
  - intros d [m0 c] [m' c'] Hc Hbody. simpl in *.
    apply parseClue_erased in Hbody. by eapply lexerClue_sameClue.
Qed.

Lemma iterationClues_same clues (m : Matrix) :
  Forall lexerClue clues → iterationClues sc2 clues m = iterationClues sc1 clues m.
Proof.
  intros H. revert m. induction H as [|clue rest Hclue _ IH]; intros m; simpl; [done|].
  rewrite iterationClue_same by done.
  destruct (iterationClue sc1 clue m) as [[m1 clue']|e]; simpl; [|done]. by rewrite IH.
Qed.

Lemma iteration_same state :
  Forall lexerClue (clues state) → iteration sc2 state = iteration sc1 state.
Proof. intros H. unfold iteration. by rewrite iterationClues_same. Qed.

Lemma iterationLoop_same fuel state :
  Forall lexerClue (clues state) → iterationLoop sc2 fuel state = iterationLoop sc1 fuel state.
Proof.
  revert state. induction fuel as [|fuel IH]; intros state H; simpl; [done|].
  rewrite iteration_same by done.
  destruct (iteration sc1 state) as [state'|e] eqn:E; [|done].
  destruct (matrixChanged _ _ _); [|done]. apply IH.
  apply iteration_erased in E. by eapply lexerClues_sameClues.
Qed.

Lemma checkClues_same state :
  Forall lexerClue (clues state) → checkClues sc2 state = checkClues sc1 state.
Proof.
  unfold checkClues. induction 1 as [|clue rest Hclue _ IH]; simpl; [done|].
  rewrite IH. f_equal.
  change (dynamicPositions sc2 clue) with (dynamicPositions sc1 clue).
  induction (dynamicPositions sc1 clue) as [|d ds IHd]; simpl; [done|].
  rewrite IHd. f_equal.
  apply (checkClue_same cats great k combos nameKV1 nameKV2 items1 items2 max1 max2); [|done].
  apply tables_agree.
Qed.

Lemma solveOptionCheck_same state stats :
  Forall lexerClue (clues state) →
  solveOptionCheck sc2 state stats = solveOptionCheck sc1 state stats.
Proof.
  intros H. unfold solveOptionCheck.
  rewrite (validateCategories_same cats great k combos nameKV1 nameKV2 items1 items2 max1 max2).
  by rewrite checkClues_same.
Qed.

Lemma solveOption_same state stats :
  Forall lexerClue (clues state) → solveOption sc2 state stats = solveOption sc1 state stats.
Proof.
  intros H. unfold solveOption. rewrite iterationLoop_same by done.
  change (count sc2) with (count sc1).
  destruct (iterationLoop sc1 _ state) as [[state'|e]|] eqn:E; [|done|done].
  rewrite solveOptionCheck_same; [done|].
  apply iterationLoop_erased in E. by eapply lexerClues_sameClues.
Qed.

Lemma processState_same state acc :
  Forall lexerClue (clues state) → processState sc2 state acc = processState sc1 state acc.
Proof.
  intros H. destruct acc as [stack stats]. unfold processState.
  rewrite solveOption_same by done.
  destruct (solveOption sc1 state _) as [[[code state'] stats']|e]; simpl; [|done].
  destruct (negb _); [done|]. by change (expandState sc2 state') with (expandState sc1 state').
Qed.

Lemma processState_lexer (sc : SolverConfig) state acc acc' :
  Forall lexerClue (clues state) → processState sc state acc = OK acc' →
  Forall (fun state => Forall lexerClue (clues state)) acc.1 →
  Forall (fun state => Forall lexerClue (clues state)) acc'.1.
Proof.
  destruct acc as [stack stats]. unfold processState. intros Hstate H Hstack. simpl in Hstack.
  apply bind_OK in H as ([[code state'] stats1] & Hsolve & H).
  apply solveOption_spec in Hsolve as [Hsame _].
  destruct (negb _); [by injection H as <-|].
  apply bind_OK in H as (children & Hchildren & [= <-]). simpl.
  apply Forall_app. split; [done|]. apply expandState_clues in Hchildren.
  eapply Forall_impl; [exact Hchildren|]. intros child ->. by eapply lexerClues_sameClues.
Qed.

Lemma wave_lexer (sc : SolverConfig) optionStack :
  Forall (fun state => Forall lexerClue (clues state)) optionStack →
  ∀ acc acc', forEach (processState sc) optionStack acc = OK acc' →
  Forall (fun state => Forall lexerClue (clues state)) acc.1 →
  Forall (fun state => Forall lexerClue (clues state)) acc'.1.
Proof.
  induction 1 as [|state rest Hstate _ IH]; intros acc acc' H Hacc; simpl in H;
    [by simplify_eq|].
  apply bind_OK in H as (acc1 & H1 & H). eapply IH; [done|]. by eapply processState_lexer.
Qed.

Lemma runLoop_lexer (sc : SolverConfig) remaining :
  ∀ optionStack stats done' optionStack' stats',
  Forall (fun state => Forall lexerClue (clues state)) optionStack →
  runLoop sc remaining optionStack stats = OK (done', optionStack', stats') →
  Forall (fun state => Forall lexerClue (clues state)) optionStack'.
Proof.
  induction remaining as [|remaining IH]; intros optionStack stats done' optionStack' stats'
    Hstack H; simpl in H; [by simplify_eq|].
  destruct optionStack as [|state rest]; [by simplify_eq|].
  apply bind_OK in H as ([newStack stats1] & Hwave & H).
  eapply IH; [|exact H]. eapply wave_lexer in Hwave; [exact Hwave|done|constructor].
Qed.

Lemma runLoop_same remaining :
  ∀ optionStack stats,
  Forall (fun state => Forall lexerClue (clues state)) optionStack →
  runLoop sc2 remaining optionStack stats = runLoop sc1 remaining optionStack stats.
Proof.
  induction remaining as [|remaining IH]; intros optionStack stats Hstack; simpl; [done|].
  destruct optionStack as [|state rest]; [done|].
  rewrite (forEach_ext_elements (fun state => Forall lexerClue (clues state))
             (processState sc1) (processState sc2));
    [|intros; by apply processState_same|done].
  destruct (forEach (processState sc1) _ _) as [[newStack stats1]|e] eqn:E; simpl; [|done].
  apply IH. eapply wave_lexer in E; [exact E|done|constructor].
Qed.

End SameSearch.

(** ** The search does not read [stats], and a budget can be split *)

Lemma forEach_cons {A S : Type} (body : A → S → Result S) x xs (s : S) :
  forEach body (x :: xs) s = body x s ≫= forEach body xs.
Proof. done. Qed.

Lemma continueStats_zero base : continueStats base (mkStats 0 0 []) = base.
Proof.
  destruct base as [i o sols]. unfold continueStats. simpl.
  by rewrite !Nat.add_0_r, app_nil_r.
Qed.

Lemma solveOptionCheck_continue sc state base stats :
  solveOptionCheck sc state (continueStats base stats)
  = (fun r => (r.1, continueStats base r.2)) <$> solveOptionCheck sc state stats.
Proof.
  unfold solveOptionCheck.
  destruct (validateCategories _ _ _ _) as [[allSolved|]|e]; simpl; try done.
  destruct (negb _); [done|]. destruct allSolved; [|done]. simpl.
  unfold continueStats. simpl. by rewrite app_assoc.
Qed.

Lemma solveOption_continue sc state base stats :
  solveOption sc state (continueStats base stats)
  = (fun r => (r.1, continueStats base r.2)) <$> solveOption sc state stats.
Proof.
  unfold solveOption. destruct (iterationLoop _ _ _) as [[state'|e]|]; try done.
  rewrite solveOptionCheck_continue.
  by destruct (solveOptionCheck sc state' stats) as [[code stats']|e].
Qed.

Lemma processState_continue sc state stack base stats :
  processState sc state (stack, continueStats base stats)
  = (fun r => (r.1, continueStats base r.2)) <$> processState sc state (stack, stats).
Proof.
  unfold processState.
  change (mkStats (iteration_ (continueStats base stats)) (S (option_ (continueStats base stats)))
                  (solutions_ (continueStats base stats)))
    with (mkStats (iteration_ base + iteration_ stats) (S (option_ base + option_ stats))
                  (solutions_ base ++ solutions_ stats)).
  rewrite plus_n_Sm.
  change (mkStats (iteration_ base + iteration_ stats) (option_ base + S (option_ stats))
                  (solutions_ base ++ solutions_ stats))
    with (continueStats base (mkStats (iteration_ stats) (S (option_ stats)) (solutions_ stats))).
  rewrite solveOption_continue.
  destruct (solveOption sc state _) as [[[code state'] stats']|e]; simpl; [|done].
  destruct (negb _); [done|]. by destruct (expandState sc state') as [children|e].
Qed.

Lemma wave_continue sc optionStack base :
  ∀ stack stats,
  forEach (processState sc) optionStack (stack, continueStats base stats)
  = (fun r => (r.1, continueStats base r.2)) <$> forEach (processState sc) optionStack (stack, stats).
Proof.
  induction optionStack as [|state rest IH]; intros stack stats; [done|].
  rewrite !forEach_cons, processState_continue.
  destruct (processState sc state (stack, stats)) as [[stack1 stats1]|e]; simpl; [|done].
  apply IH.
Qed.

Lemma runLoop_continue sc remaining base :
  ∀ optionStack stats,
  runLoop sc remaining optionStack (continueStats base stats)
  = (fun r => (r.1, continueStats base r.2)) <$> runLoop sc remaining optionStack stats.
Proof.
  induction remaining as [|remaining IH]; intros optionStack stats; [done|].
  destruct optionStack as [|state rest]; [done|].
  cbn [runLoop]. rewrite wave_continue.
  destruct (forEach (processState sc) (state :: rest) ([], stats))
    as [[newStack stats1]|e]; simpl; [|done].
  rewrite <- IH. f_equal. unfold continueStats. simpl. by rewrite plus_n_Sm.
Qed.

Lemma runLoop_split sc k1 k2 :
  ∀ optionStack stats,
  runLoop sc (k1 + k2) optionStack stats
  = r ← runLoop sc k1 optionStack stats; runLoop sc k2 r.1.2 r.2.
Proof.
  induction k1 as [|k1 IH]; intros optionStack stats; [done|].
  destruct optionStack as [|state rest].
  - simpl. by destruct k2.
  - cbn [Nat.add runLoop].
    destruct (forEach (processState sc) (state :: rest) ([], stats))
      as [[newStack stats1]|e]; simpl; [|done]. apply IH.
Qed.

(** ** The short-name table of a second call

    The first call leaves the position category [#] in the [categories]
    object, so the second call reads it as one more category of the header. *)

Lemma assignCategory_fresh (cats : Categories) name items :
  lookupCategory cats name = None → assignCategory cats name items = cats ++ [(name, items)].
Proof.
  induction cats as [|[n its] rest IH]; simpl; [done|].
  destruct (String.eqb n name); [done|]. intros H. by rewrite IH.
Qed.

Lemma assignCategory_again (cats : Categories) name items items' :
  lookupCategory cats name = None →
  assignCategory (cats ++ [(name, items)]) name items' = cats ++ [(name, items')].
Proof.
  induction cats as [|[n its] rest IH]; simpl.
  - by rewrite String.eqb_refl.
  - destruct (String.eqb n name); [done|]. intros H. by rewrite IH.
Qed.

Lemma forEach_app {A S : Type} (body : A → S → Result S) xs ys (s : S) :
  forEach body (xs ++ ys) s = forEach body xs s ≫= forEach body ys.
Proof.
  revert s. induction xs as [|x xs IH]; intros s; simpl; [done|].
  destruct (body x s) as [s'|e]; simpl; [apply IH|done].
Qed.

Lemma find_app_Some {A : Type} (f : A → bool) xs ys y :
  List.find f xs = Some y → List.find f (xs ++ ys) = Some y.
Proof. induction xs as [|x xs IH]; simpl; [done|]. destruct (f x); auto. Qed.

(** A numeral begins with a digit. *)
Lemma startsWithDigit_char x s : startsWithDigit (String (pretty_N_char x) s) = true.
Proof. unfold pretty_N_char. by repeat case_match. Qed.

Lemma startsWithDigit_go x :
  ∀ s, startsWithDigit s = true → startsWithDigit (pretty_N_go x s) = true.
Proof.
  induction (N.lt_wf_0 x) as [x _ IH]. intros s Hs.
  destruct (decide (x = 0%N)) as [->|Hx]; [by rewrite pretty_N_go_0|].
  rewrite pretty_N_go_step by lia. apply IH; [apply N.div_lt; lia|].
  apply startsWithDigit_char.
Qed.

Lemma startsWithDigit_pretty (n : nat) : startsWithDigit (pretty n) = true.
Proof.
  unfold pretty, pretty_nat, pretty, pretty_N. case_decide; [done|].
  rewrite pretty_N_go_step by lia. apply startsWithDigit_go, startsWithDigit_char.
Qed.

(** [Object.fromEntries] at one key. *)
Lemma fromEntries_snoc kva k v : fromEntries (kva ++ [(k, v)]) = <[k := v]> (fromEntries kva).
Proof. unfold fromEntries. by rewrite foldl_app. Qed.

Lemma fromEntries_from (m : gmap string string) kva key :
  foldl (fun m kv => <[kv.1 := kv.2]> m) m kva !! key
  = match fromEntries kva !! key with Some v => Some v | None => m !! key end.
Proof.
  unfold fromEntries. induction kva as [|[k v] rest IH] using rev_ind; simpl; [done|].
  rewrite !foldl_app. simpl. destruct (decide (k = key)) as [->|Hk].
  - by rewrite !lookup_insert_eq.
  - by rewrite !lookup_insert_ne.
Qed.

Lemma fromEntries_cons k v rest key :
  fromEntries ((k, v) :: rest) !! key
  = match fromEntries rest !! key with
    | Some w => Some w
    | None => if decide (k = key) then Some v else None
    end.
Proof.
  unfold fromEntries at 1. simpl. rewrite fromEntries_from.
  destruct (fromEntries rest !! key); [done|].
  destruct (decide (k = key)) as [->|Hk]; [by rewrite lookup_insert_eq|by rewrite lookup_insert_ne].
Qed.

Lemma spliceFirst_lookup item kva kva' key :
  spliceFirst item kva = Some kva' → key ≠ item →
  fromEntries kva' !! key = fromEntries kva !! key.
Proof.
  revert kva'. induction kva as [|[k v] rest IH]; intros kva' H Hkey; simpl in H; [done|].
  destruct (String.eqb k item) eqn:E.
  - apply String.eqb_eq in E as ->. injection H as <-. rewrite fromEntries_cons.
    destruct (fromEntries rest !! key); [done|]. by rewrite decide_False.
  - destruct (spliceFirst item rest) as [rest'|]; [|done]. injection H as <-.
    rewrite !fromEntries_cons. by rewrite (IH rest').
Qed.

Lemma shortNamesItem_lookup category item kva items key :
  key ≠ item →
  fromEntries (shortNamesItem category item (kva, items)).1 !! key = fromEntries kva !! key.
Proof.
  intros Hkey. unfold shortNamesItem. destruct (spliceFirst item kva) as [kva'|] eqn:E; simpl.
  - by eapply spliceFirst_lookup.
  - rewrite fromEntries_snoc. by rewrite lookup_insert_ne.
Qed.

Lemma shortNamesItem_items category item kva items :
  (shortNamesItem category item (kva, items)).2 = items ++ [rowKey category item].
Proof. unfold shortNamesItem. by destruct (spliceFirst item kva). Qed.

Lemma shortNamesItems_lookup category its key :
  key ∉ its → ∀ acc,
  fromEntries (foldl (fun acc item => shortNamesItem category item acc) acc its).1 !! key
  = fromEntries acc.1 !! key.
Proof.
  induction its as [|item rest IH]; intros Hkey acc; simpl; [done|].
  apply not_elem_of_cons in Hkey as [Hitem Hrest]. rewrite IH by done.
  destruct acc as [kva items]. by apply shortNamesItem_lookup.
Qed.

Lemma shortNamesItems_items category its :
  ∀ acc,
  (foldl (fun acc item => shortNamesItem category item acc) acc its).2
  = acc.2 ++ map (rowKey category) its.
Proof.
  induction its as [|item rest IH]; intros acc; simpl; [by rewrite app_nil_r|].
  rewrite IH. destruct acc as [kva items]. rewrite shortNamesItem_items. simpl.
  by rewrite <- app_assoc.
Qed.

(** The numerals that [generateInitialMatrix] gives to the category [#]. *)
Lemma numerals_length count :
  length (map (fun i => pretty (i + 1)) (seq 0 count)) = count.
Proof. by rewrite length_map, length_seq. Qed.

Lemma numerals_digit count key :
  startsWithDigit key = false → key ∉ map (fun i => pretty (i + 1)) (seq 0 count).
Proof.
  intros Hkey [i [-> _]]%list_elem_of_fmap.
  by rewrite startsWithDigit_pretty in Hkey.
Qed.

Lemma shortNamesMap_again (cats : Categories) great nameKV itemOptions count :
  shortNamesMap cats great = OK (nameKV, itemOptions, count) →
  ∃ nameKV' itemOptions',
    shortNamesMap (cats ++ [("#", map (fun i => pretty (i + 1)) (seq 0 count))]) great
    = OK (nameKV', itemOptions', count)
    ∧ (∀ key, startsWithDigit key = false → nameKV' !! key = nameKV !! key)
    ∧ (∀ name, String.prefix "#" name = false →
               includes itemOptions' name = includes itemOptions name).
Proof.
  unfold shortNamesMap. intros H.
  destruct cats as [|entry rest]; [done|].
  change ((entry :: rest) ++ ?l) with (entry :: (rest ++ l)).
  cbv iota. rewrite app_comm_cons.
  destruct (List.find _ (entry :: rest)) as [[n its]|] eqn:Efind; [|done].
  rewrite (find_app_Some _ _ _ _ Efind).
  apply bind_OK in H as ([kva items] & Hloop & [= <- <- <-]).
  rewrite forEach_app, Hloop. simpl.
  rewrite numerals_length, Nat.eqb_refl. simpl.
  pose proof (fun key H => shortNamesItems_lookup "#"
                (map (fun i => pretty (i + 1)) (seq 0 (length its))) key H (kva, items)) as Hkva.
  pose proof (shortNamesItems_items "#"
                (map (fun i => pretty (i + 1)) (seq 0 (length its))) (kva, items)) as Hitems.
  destruct (foldl _ _ _) as [kva2 items2]. simpl in Hkva, Hitems. subst items2.
  eexists _, _. split; [done|]. split.
  - intros key Hkey. apply Hkva. by apply numerals_digit.
  - intros name Hname. unfold includes.
    apply bool_decide_ext. rewrite elem_of_app. split; [|by left].
    intros [H|H]; [done|]. apply list_elem_of_fmap in H as [item [-> _]].
    by unfold rowKey in Hname.
Qed.

Lemma parseIdentifier_again (nameKV nameKV' : gmap string string) itemOptions itemOptions' :
  (∀ key, startsWithDigit key = false → nameKV' !! key = nameKV !! key) →
  (∀ name, String.prefix "#" name = false →
           includes itemOptions' name = includes itemOptions name) →
  ∀ d symbol position, lexerSymbol symbol →
    parseIdentifier nameKV' itemOptions' d symbol position
    = parseIdentifier nameKV itemOptions d symbol position.
Proof.
  intros Hkv Hitems d symbol position Hsymbol. unfold parseIdentifier.
  rewrite Hkv by by destruct symbol.
  destruct (match nameKV !! default "undefined" symbol with
            | Some name => Some name
            | None => if includes inheritedKeys (default "undefined" symbol) then None else symbol
            end) as [name|]; [|done].
  destruct (String.prefix "#" name) eqn:E; [done|]. by rewrite Hitems.
Qed.

(** ** Division (C4) *)

Lemma number_neq (x y : number) : PrimFloat.eqb x y = false → PrimFloat.eqb x x = true → x ≠ y.
Proof. intros Hxy Hxx ->. congruence. Qed.

(** C4, counterexample: [7 / 2] evaluates to 3.5, not to the integer
    quotient 3. *)
Lemma division_7_2_is_not_3 :
  fst <$> parseArithmetic ∅ (parseIdentifier ∅ [] 1) (mkSolverConfig [] [] ∅ [] 0 [] 0)
            (ArithmeticBinaryOperation node "/" (literal 7) (literal 2))
    = OK (Some 3.5%float)
  ∧ number_of_Z (7 / 2) = 3%float
  ∧ 3.5%float ≠ 3%float.
Proof.
  split; [vm_compute; reflexivity|].
  split; [vm_compute; reflexivity|].
  apply number_neq; vm_compute; reflexivity.
Qed.

(** C4, as amended: when the two operands of [/] evaluate to the numbers [l]
    and [r], the evaluator returns the IEEE-754 double-precision quotient
    [l / r] of JavaScript's [/]; nothing truncates or rounds it to an
    integer. *)
Theorem division_is_floating_point (m : Matrix) (p : IdParser) (sc : SolverConfig)
    (b : Expression) (e0 e1 e0' e1' : ArithmeticExpression) (l r : number) :
  parseArithmetic m p sc e0 = OK (Some l, e0') →
  parseArithmetic m p sc e1 = OK (Some r, e1') →
  parseArithmetic m p sc (ArithmeticBinaryOperation b "/" e0 e1)
    = OK (Some (js_div l r), ArithmeticBinaryOperation b "/" e0' e1').
Proof.
  intros H0 H1. cbn [parseArithmetic]. rewrite H0. cbn. rewrite H1. reflexivity.
Qed.

Lemma division_is_floating_point_witness :
  parseArithmetic ∅ (parseIdentifier ∅ [] 1) (mkSolverConfig [] [] ∅ [] 0 [] 0)
    (ArithmeticBinaryOperation node "/" (literal 7) (literal 2))
  = OK (Some (js_div (number_of_Z 7) (number_of_Z 2)),
        ArithmeticBinaryOperation node "/" (literal 7) (literal 2)).
Proof.
  apply (division_is_floating_point ∅ (parseIdentifier ∅ [] 1)
           (mkSolverConfig [] [] ∅ [] 0 [] 0) node (literal 7) (literal 2)
           (literal 7) (literal 2) (number_of_Z 7) (number_of_Z 2));
    reflexivity.
Defined.

(** ** Short names (C8) *)

(** C8, at the failing input: an item name shared by three categories is in
    the short-name table, bound to the item of the last of them. *)
Lemma short_name_of_three_categories :
  configured sharedName (fun sc _ => nameKV sc !! "x" = Some "c.x").
Proof. vm_compute. reflexivity. Qed.

(** ** Subset elimination (C6) *)

(** C6, at the failing input: with [b] and [c] confined to the first two
    positions, the subset [S = {2}] has [R(S) = {b, c}] and [|R(S)| = 2 = N - 1],
    yet the cell of [a] at the second position stays true. *)
Lemma elimination_keeps_cell_outside_subset :
  configured trio (fun sc initialMatrix =>
    let m := trioMatrix initialMatrix in
    matchingRows m [2] [(0, "names.a"); (1, "names.b"); (2, "names.c")] = OK [1; 2]
    ∧ (.!! "names.a") <$> eliminateImpossibleOptionsByCategory m "names" sc
      = OK (Some [false; true; true])).
Proof. vm_compute. split; reflexivity. Qed.

(** ** Monotone narrowing (C2) *)

(** C2, at the failing input: with two positions, propagating [a -3- b]
    lengthens the row of [b] from two cells to three. *)
Lemma distance_beyond_count_lengthens_row :
  configured pair (fun sc initialMatrix =>
    initialMatrix !! "names.b" = Some [true; true]
    ∧ (fun r => r.1 !! "names.b") <$> parseClue (idParser sc 1) sc threeLeftOf initialMatrix
      = OK (Some [false; false; false])).
Proof. vm_compute. split; reflexivity. Qed.

(** ** The clue checker (C3, C5) *)

(** C3, at the failing input: on the initial matrix the age of bob is not
    determined, yet [checkClue] returns false for [!(bob:age == 20)], a clue
    that holds in a full assignment narrowing that matrix; the solver then
    finds no solution. *)
Lemma negation_of_undetermined_is_false :
  configured people (fun sc initialMatrix =>
    fst <$> parseArithmetic initialMatrix (idParser sc 1) sc (NumericIdentifier node "bob" "age")
      = OK None
    ∧ checkClue bobIsNot20 initialMatrix (idParser sc 1) sc = false
    ∧ checkClue bobIsNot20 bobFirstAged10 (idParser sc 1) sc = true)
  ∧ (solutions ∘ fst) <$> solve (mkSolveInput people [bobIsNot20] 20 None []) = OK [].
Proof. vm_compute. repeat split; reflexivity. Qed.

(** C5, at the failing input: the identifier [foo] does not resolve, but
    [checkClue] turns the error into the result true, and [solve] returns
    solutions instead of failing. *)
Lemma unknown_identifier_is_swallowed :
  configured pair (fun sc initialMatrix =>
    idOf (idParser sc 1) (ident "foo") = Throw (SolverError "Identifier foo not found." [1; 1])
    ∧ checkClue (LogicalUnaryOperation node "!"
                   (PositionalOperation node "=" (ident "foo") (ident "a") None))
                initialMatrix (idParser sc 1) sc = true)
  ∧ (length ∘ solutions ∘ fst)
      <$> solve (mkSolveInput pair
                   [LogicalUnaryOperation node "!"
                      (PositionalOperation node "=" (ident "foo") (ident "a") None)]
                   20 None []) = OK 2.
Proof. vm_compute. repeat split; reflexivity. Qed.

(** ** The truths operator (C7) *)

(** C7, counterexample: on the initial matrix the age of bob is unknown, and
    [truths(bob:age == 20)] counts the comparison as true; and
    [truths(bob = al)], whose rows are not determined, raises the sentinel
    instead of returning a number. *)
Lemma truths_counts_undetermined_as_true :
  configured people (fun sc initialMatrix =>
    fst <$> parseArithmetic initialMatrix (idParser sc 1) sc (NumericIdentifier node "bob" "age")
      = OK None
    ∧ fst <$> parseArithmetic initialMatrix (idParser sc 1) sc (TruthsOperator node [bobIs20])
      = OK (Some 1%float)
    ∧ parseArithmetic initialMatrix (idParser sc 1) sc
        (TruthsOperator node [PositionalOperation node "=" (ident "bob") (ident "al") None])
      = Throw (ThrowBool true)).
Proof. vm_compute. repeat split; reflexivity. Qed.

(** ** Resumption (C9) *)

(** C9, counterexample: for a header with a category named [#], one call with
    budget 3 finds two solutions, while after a call with budget 1 the call
    that resumes fails. *)
Lemma resume_fails_with_hash_category :
  (length ∘ solutions ∘ fst) <$> solverIteration (iterativeSolver [aIsX] hashCategory []) 3
    = OK 2
  ∧ (length ∘ optionStack ∘ fst) <$> solverIteration (iterativeSolver [aIsX] hashCategory []) 1
    = OK 2
  ∧ resumed (iterativeSolver [aIsX] hashCategory []) 1 2
    = Throw (SolverError "Identifier a not found." [1; 1]).
Proof. vm_compute. repeat split; reflexivity. Qed.

(** C1: [solve] records a matrix that fails a clue.  For [names - a b],
    [n - 0 1] with the clues [b = #2] and [a:n == truths(b = $, b = #1)] the
    only solution returned has [b] at the second position and [a] with the
    number 0, although at the position 2 the clue counts one true element:
    the propagation at the position 1 has left [solved = false] in the element
    [b = $], and every later evaluation, the final checks among them, reads
    that field. *)
Lemma recorded_solution_fails_its_clue :
  solve bitsInput = OK (mkSolved true [] 3 5 [bitsRecorded], bits ++ [("#", ["1"; "2"])])
  ∧ solverConfig bitsInput = OK (bitsConfig, bitsMatrix)
  ∧ countClue ∈ in_clues bitsInput
  ∧ clue_dollar countClue = true
  ∧ checkClue countClue bitsRecorded (idParser bitsConfig 2) bitsConfig = false
  ∧ ¬ validSolution bitsConfig bitsRecorded (in_clues bitsInput).
Proof.
  assert (Hcheck : checkClue countClue bitsRecorded (idParser bitsConfig 2) bitsConfig = false)
    by (vm_compute; reflexivity).
  split; [vm_compute; reflexivity|]. split; [vm_compute; reflexivity|].
  split; [right; left|]. split; [reflexivity|]. split; [exact Hcheck|].
  intros [_ Hclues].
  specialize (Hclues countClue ltac:(right; left) 2%nat ltac:(simpl; lia) ltac:(by left)).
  rewrite Hcheck in Hclues. discriminate.
Qed.

(** ** A run in two calls (C9) *)

Lemma solverConfig_first (cats : Categories) clues budget stack great nameKV itemOptions count :
  shortNamesMap cats great = OK (nameKV, itemOptions, count) →
  lookupCategory cats "#" = None →
  solverConfig (mkSolveInput cats clues budget stack great)
  = OK (mkSolverConfig (cats ++ [("#", map (fun i => pretty (i + 1)) (seq 0 count))]) great
                       nameKV itemOptions count (generateAllCombinations count) budget,
        (generateInitialMatrix cats itemOptions count).1).
Proof.
  intros Hnames Hhash. unfold solverConfig. cbn [in_categories in_greatCategories].
  rewrite Hnames. unfold generateInitialMatrix. cbn. by rewrite assignCategory_fresh.
Qed.

Lemma solverConfig_again (cats : Categories) clues budget stack great nameKV itemOptions count :
  shortNamesMap cats great = OK (nameKV, itemOptions, count) →
  lookupCategory cats "#" = None →
  ∃ nameKV' itemOptions' initialMatrix,
    solverConfig (mkSolveInput (cats ++ [("#", map (fun i => pretty (i + 1)) (seq 0 count))])
                               clues budget stack great)
    = OK (mkSolverConfig (cats ++ [("#", map (fun i => pretty (i + 1)) (seq 0 count))]) great
                         nameKV' itemOptions' count (generateAllCombinations count) budget,
          initialMatrix)
    ∧ ∀ d symbol position, lexerSymbol symbol →
        parseIdentifier nameKV' itemOptions' d symbol position
        = parseIdentifier nameKV itemOptions d symbol position.
Proof.
  intros Hnames Hhash.
  destruct (shortNamesMap_again _ _ _ _ _ Hnames) as (nameKV' & itemOptions' & H' & Hkv & Hitems).
  exists nameKV', itemOptions', (generateInitialMatrix
    (cats ++ [("#", map (fun i => pretty (i + 1)) (seq 0 count))]) itemOptions' count).1.
  split; [|by apply parseIdentifier_again].
  unfold solverConfig. cbn [in_categories in_greatCategories].
  rewrite H'. unfold generateInitialMatrix. cbn. by rewrite assignCategory_again.
Qed.

(** C9, as amended: when the header has no category named [#] and no
    identifier of a clue begins with a digit, a call with the budget [k1]
    followed by a call with the budget [k2] ends as one call with the budget
    [k1 + k2] does: with the same exception, or with the solutions of the two
    calls, in order, being the solutions of the one call. *)
Theorem resumption_without_hash_category (body : list LogicalExpression)
    (header : Categories) (great : list string) (k1 k2 : nat) :
  lookupCategory header "#" = None → Forall lexerClue body →
  resumed (iterativeSolver body header great) k1 k2
  = (fun r => solutions r.1) <$> solverIteration (iterativeSolver body header great) (k1 + k2).
Proof.
  intros Hhash Hclues.
  unfold resumed, solverIteration, iterativeSolver, solve.
  cbn [compiled_categories compiled_clues compiled_greatCategories solver_optionStack].
  destruct (shortNamesMap header great) as [[[nameKV itemOptions] count]|e] eqn:Hnames.
  2:{ unfold solverConfig. cbn [in_categories in_greatCategories]. by rewrite Hnames. }
  rewrite !(solverConfig_first _ _ _ _ _ _ _ _ Hnames Hhash).
  cbn [mbind Result_bind]. unfold runIterations, structuredClone.
  cbn [maximumIterations in_optionStack in_clues from_option].
  set (cats' := header ++ [("#", map (fun i => pretty (i + 1)) (seq 0 count))]) in *.
  set (combos := generateAllCombinations count).
  set (state0 := mkIterationState (generateInitialMatrix header itemOptions count).1 body).
  set (sc1 := mkSolverConfig cats' great nameKV itemOptions count combos k1).
  assert (Hstack0 : Forall (fun state => Forall lexerClue (clues state)) [state0])
    by (by constructor).
  rewrite (runLoop_same cats' great count combos nameKV nameKV itemOptions itemOptions
             k1 (k1 + k2)) by done.
  fold sc1. rewrite runLoop_split.
  destruct (runLoop sc1 k1 [state0] (mkStats 0 0 [])) as [[[done1 stack1] stats1]|e1] eqn:Hrun1;
    [|done].
  assert (Hstack1 : Forall (fun state => Forall lexerClue (clues state)) stack1)
    by (by eapply runLoop_lexer in Hrun1).
  cbn [mbind Result_bind optionStack fst snd compiled_categories compiled_clues
       compiled_greatCategories solver_optionStack].
  change (categories sc1) with cats'.
  destruct (solverConfig_again header body k2 (Some stack1) great _ _ _ Hnames Hhash)
    as (nameKV2 & itemOptions2 & initialMatrix2 & Hconfig2 & Htables2).
  fold cats' in Hconfig2. fold combos in Hconfig2. rewrite Hconfig2.
  cbn [mbind Result_bind maximumIterations in_optionStack from_option id].
  rewrite (runLoop_same cats' great count combos nameKV nameKV2 itemOptions itemOptions2
             k1 k2 Htables2) by done.
  fold sc1.
  pose proof (runLoop_continue sc1 k2 stats1 stack1 (mkStats 0 0 [])) as Hcontinue.
  rewrite continueStats_zero in Hcontinue. rewrite Hcontinue.
  by destruct (runLoop sc1 k2 stack1 (mkStats 0 0 [])) as [[[done2 stack2] stats2]|e2].
Qed.

Lemma resumption_without_hash_category_witness :
  resumed (iterativeSolver [bobIs20] people []) 2 2
  = (fun r => solutions r.1) <$> solverIteration (iterativeSolver [bobIs20] people []) (2 + 2)
  ∧ length <$> resumed (iterativeSolver [bobIs20] people []) 2 2 = OK 2%nat.
Proof.
  split.
  - apply resumption_without_hash_category; [reflexivity|repeat constructor].
  - vm_compute. reflexivity.
Defined.

Lemma truthsLoop_counts (check : LogicalExpression → Result (bool * LogicalExpression))
    (clues : list LogicalExpression) :
  ∀ count,
    fst <$> truthsLoop check clues count
    = (fun k => Nat.iter k (fun count => js_add count 1) count)
        <$> countChecks (map (fun clue => fst <$> check clue) clues).
Proof.
  induction clues as [|clue rest IH]; intros count; simpl; [done|].
  destruct (check clue) as [[t clue']|e]; simpl; [|done].
  specialize (IH (if t then js_add count 1 else count)).
  destruct (truthsLoop check rest _) as [[count' rest']|e];
    destruct (countChecks _) as [k|e']; simpl in *; try discriminate; [|congruence].
  injection IH as ->. destruct t; [|done]. by rewrite Nat.iter_succ_r.
Qed.

(** C7, as amended: the evaluator checks the elements in order with
    [checkClueThrowable]; when a check raises it raises the same exception,
    and otherwise it returns the number of elements whose check returned
    true, which includes the conservative true of an element that is not
    determined. *)
Theorem truths_counts_checks (m : Matrix) (p : IdParser) (sc : SolverConfig)
    (b : Expression) (elements : list LogicalExpression) :
  fst <$> parseArithmetic m p sc (TruthsOperator b elements)
  = (fun k => Some (countNumber k))
      <$> countChecks (map (fun clue => fst <$> checkClueThrowable m p sc clue) elements).
Proof.
  simpl. pose proof (truthsLoop_counts (checkClueThrowable m p sc) elements 0%float) as H.
  destruct (truthsLoop _ elements _) as [[count elements']|e];
    destruct (countChecks _) as [k|e']; simpl in *; try discriminate; [|congruence].
  by injection H as ->.
Qed.

(** ** [checkClue] and the objects of its caller (C10) *)

(** *** The checkers assign to the clue they are given, and to nothing else *)

Lemma confined_ret {A : Type} ref (a : A) : confined ref (mret a : Run A).
Proof. by intros h h' x [= <- _] ref' _. Qed.

Lemma confined_runResult {A : Type} ref (r : Result A) : confined ref (runResult r).
Proof. by intros h h' x [= <- _] ref' _. Qed.

Lemma confined_bind {A B : Type} ref (r : Run A) (f : A → Run B) :
  confined ref r → (∀ a, confined ref (f a)) → confined ref (r ≫= f).
Proof.
  intros Hr Hf h h' x H ref' Href. unfold mbind, Run_bind in H.
  destruct (r h) as [h1 [a|e]] eqn:E.
  - rewrite (Hf a h1 h' x H ref' Href). by eapply Hr.
  - injection H as <- _. by eapply Hr.
Qed.

Lemma confined_readMatrix ref matrix : confined ref (readMatrix matrix).
Proof.
  intros h h' x H ref' _. unfold readMatrix in H.
  destruct (h !! matrix) as [[c|m]|]; by injection H as <- _.
Qed.

Lemma confined_readNode {A : Type} clue (P : Place A) : confined clue (readNode clue P).
Proof.
  intros h h' x H ref' _. unfold readNode in H.
  destruct (h !! clue) as [[root|m]|]; try (by injection H as <- _).
  destruct (place_get P root); by injection H as <- _.
Qed.

Lemma confined_writeNode clue (P : Place LogicalExpression) f :
  confined clue (writeNode clue P f).
Proof.
  intros h h' x H ref' Href. unfold writeNode in H.
  destruct (h !! clue) as [[root|m]|]; try (by injection H as <- _).
  injection H as <- _. by rewrite lookup_insert_ne.
Qed.

Lemma confined_solvedAt clue (P : Place LogicalExpression) : confined clue (solvedAt clue P).
Proof.
  apply confined_bind; [apply confined_readNode|]. intros node. apply confined_ret.
Qed.

Create HintDb confined.
#[local] Hint Resolve confined_ret confined_runResult confined_readMatrix confined_readNode
  confined_writeNode confined_solvedAt : confined.

Ltac confine :=
  repeat first
    [ progress eauto with confined
    | apply confined_bind; [|intros ?]
    | match goal with
      | |- confined _ (match ?x with _ => _ end) => destruct x
      | |- confined _ (let '(_, _) := ?x in _) => destruct x
      end ].

Lemma confined_truthsLoopAt ref (check : nat → LogicalExpression → Run bool) clues :
  Forall (fun clue => ∀ i, confined ref (check i clue)) clues →
  ∀ i count, confined ref (truthsLoopAt check clues i count).
Proof.
  induction 1 as [|clue rest Hclue _ IH]; intros i count; simpl; confine.
Qed.

Lemma confined_checkOperandsAt ref (check : nat → LogicalExpression → Run bool) solvedOf
    isAnd clues :
  (∀ i, confined ref (solvedOf i)) →
  Forall (fun clue => ∀ i, confined ref (check i clue)) clues →
  ∀ i result allSolved, confined ref (checkOperandsAt check solvedOf isAnd clues i result allSolved).
Proof.
  intros Hsolved. induction 1 as [|clue rest Hclue _ IH]; intros i result allSolved; simpl;
    confine.
Qed.

Lemma confined_arithmeticInSetAt ref (parse : nat → ArithmeticExpression → Run (option number))
    val position items :
  Forall (elementAll (fun item => ∀ i, confined ref (parse i item))) items →
  ∀ i, confined ref (arithmeticInSetAt parse val position items i).
Proof.
  induction 1 as [|item rest Hitem _ IH]; intros i; simpl; [confine|].
  destruct item as [id|a|b]; simpl in Hitem; confine.
Qed.

(** X25: the checkers ([clueCheckers], [checkRelational], [parseArithmetic])
    assign nothing but fields of the nodes of the clue they are called with:
    run with the references of a clue and of a matrix, on any heap and at any
    node of the clue, they leave every object but that clue as it was, also
    when they raise. *)
Lemma checkers_confined (clue matrix : nat) (p : IdParser) (sc : SolverConfig) :
  (∀ exp P, confined clue (parseArithmeticAt clue matrix p sc exp P))
  ∧ (∀ token P, confined clue (checkClueThrowableAt clue matrix p sc token P)).
Proof.
  apply (expression_ind
           (fun exp => ∀ P, confined clue (parseArithmeticAt clue matrix p sc exp P))
           (fun token => ∀ P, confined clue (checkClueThrowableAt clue matrix p sc token P))).
  - intros b value P. simpl. confine.
  - intros b symbol category P. simpl. confine.
  - intros b operator e0 e1 IH0 IH1 P. simpl. confine.
  - intros b elements IH P. simpl. apply confined_bind; [|intros; confine].
    apply confined_truthsLoopAt. eapply Forall_impl; [exact IH|]. intros c Hc i. apply Hc.
  - intros b operator o0 IH P. simpl. confine.
  - intros b operator o0 o1 IH0 IH1 P. simpl. confine.
  - intros b operator operands IH P. simpl. confine.
    apply confined_checkOperandsAt; [intros; confine|].
    eapply Forall_impl; [exact IH|]. intros c Hc i. apply Hc.
  - intros b operator a0 a1 IH0 IH1 P. simpl. confine.
  - intros b operator i0 i1 distance P. simpl. confine.
  - intros b operator lhs rhs Hl Hr P. simpl. confine; simpl in Hl, Hr;
      try (by apply Hl); try (by destruct Hr as [Hs He]; first [apply Hs|apply He]).
    apply confined_arithmeticInSetAt.
    eapply Forall_impl; [exact Hr|]. intros [id|a'|b'] Hs; simpl in *; [done| |done].
    intros i. apply Hs.
Qed.

(** *** The checkers on the heap compute what the checkers on values do *)

Lemma lawful_root : lawful rootPlace.
Proof.
  repeat split; simpl; try done. intros f g root H. by apply H.
Qed.

Lemma lawful_fieldOf {A B : Type} (F : Field A B) (P : Place A) :
  lawfulField F → lawful P → lawful (fieldOf F P).
Proof.
  intros (Fget & Fset & Fext & Fid) (Pget & Pset & Pext & Pid). repeat split; simpl.
  - intros f root. rewrite Pget. destruct (place_get P root) as [a|]; simpl; [apply Fget|done].
  - intros f g root. rewrite Pset. apply Pext. intros a _. simpl. apply Fset.
  - intros f g root H. apply Pext. intros a Ha. apply Fext. intros b Hb.
    apply H. by rewrite Ha.
  - intros root. rewrite <- (Pid root) at 2. apply Pext. intros a _. apply Fid.
Qed.

Ltac field_laws :=
  repeat split; simpl;
  [ intros f []; simpl; done
  | intros f g []; simpl; done
  | let H := fresh "H" in
    intros f g [] H; simpl in *; try done; f_equal; by apply H
  | intros []; simpl; done ].

Lemma lawful_unaryOperand : lawfulField unaryOperand.
Proof. field_laws. Qed.
Lemma lawful_binaryOperand0 : lawfulField binaryOperand0.
Proof. field_laws. Qed.
Lemma lawful_binaryOperand1 : lawfulField binaryOperand1.
Proof. field_laws. Qed.
Lemma lawful_relationalOperand0 : lawfulField relationalOperand0.
Proof. field_laws. Qed.
Lemma lawful_relationalOperand1 : lawfulField relationalOperand1.
Proof. field_laws. Qed.
Lemma lawful_arithmeticOperand0 : lawfulField arithmeticOperand0.
Proof. field_laws. Qed.
Lemma lawful_arithmeticOperand1 : lawfulField arithmeticOperand1.
Proof. field_laws. Qed.

Lemma lawful_operandAt i : lawfulField (operandAt i).
Proof.
  repeat split; simpl.
  - intros f []; simpl; try done. apply list_lookup_alter_eq.
  - intros f g []; simpl; try done. by rewrite list_alter_alter_eq.
  - intros f g [] H; simpl in *; try done. f_equal. by apply list_alter_ext.
  - intros []; simpl; try done. by rewrite list_alter_id.
Qed.

Lemma lawful_truthsElementAt i : lawfulField (truthsElementAt i).
Proof.
  repeat split; simpl.
  - intros f []; simpl; try done. apply list_lookup_alter_eq.
  - intros f g []; simpl; try done. by rewrite list_alter_alter_eq.
  - intros f g [] H; simpl in *; try done. f_equal. by apply list_alter_ext.
  - intros []; simpl; try done. by rewrite list_alter_id.
Qed.

Lemma lawful_inLeftOperand : lawfulField inLeftOperand.
Proof.
  repeat split; simpl.
  - intros f [| | | | |b op [id|a] rhs]; simpl; done.
  - intros f g [| | | | |b op [id|a] rhs]; simpl; done.
  - intros f g [| | | | |b op [id|a] rhs] H; simpl in *; try done. do 2 f_equal. by apply H.
  - intros [| | | | |b op [id|a] rhs]; simpl; done.
Qed.

Lemma lawful_setElementAt i : lawfulField (setElementAt i).
Proof.
  repeat split; simpl.
  - intros f [| | | | |b op lhs [elements|s e]]; simpl; try done.
    rewrite list_lookup_alter_eq. by destruct (elements !! i) as [[]|].
  - intros f g [| | | | |b op lhs [elements|s e]]; simpl; try done.
    rewrite list_alter_alter_eq. do 2 f_equal. apply list_alter_ext; [|done].
    by intros [] _.
  - intros f g [| | | | |b op lhs [elements|s e]] H; simpl in *; try done.
    do 2 f_equal. apply list_alter_ext; [|done]. intros [id|a|b'] Hx; simpl; try done.
    f_equal. apply H. by rewrite Hx.
  - intros [| | | | |b op lhs [elements|s e]]; simpl; try done.
    do 2 f_equal. apply list_alter_id. by intros [].
Qed.

Lemma lawful_rangeStart : lawfulField rangeStart.
Proof.
  repeat split; simpl.
  - intros f [| | | | |b op lhs [elements|s e]]; simpl; done.
  - intros f g [| | | | |b op lhs [elements|s e]]; simpl; done.
  - intros f g [| | | | |b op lhs [elements|s e]] H; simpl in *; try done.
    do 2 f_equal. by apply H.
  - intros [| | | | |b op lhs [elements|s e]]; simpl; done.
Qed.

Lemma lawful_rangeEnd : lawfulField rangeEnd.
Proof.
  repeat split; simpl.
  - intros f [| | | | |b op lhs [elements|s e]]; simpl; done.
  - intros f g [| | | | |b op lhs [elements|s e]]; simpl; done.
  - intros f g [| | | | |b op lhs [elements|s e]] H; simpl in *; try done.
    do 2 f_equal. by apply H.
  - intros [| | | | |b op lhs [elements|s e]]; simpl; done.
Qed.

#[local] Hint Resolve lawful_root lawful_fieldOf lawful_unaryOperand lawful_binaryOperand0
  lawful_binaryOperand1 lawful_relationalOperand0 lawful_relationalOperand1
  lawful_arithmeticOperand0 lawful_arithmeticOperand1 lawful_operandAt
  lawful_truthsElementAt lawful_inLeftOperand lawful_setElementAt lawful_rangeStart
  lawful_rangeEnd : confined.

Lemma run_bind_OK {A B : Type} (r : Run A) (f : A → Run B) h h' a :
  r h = (h', OK a) → (r ≫= f) h = f a h'.
Proof. intros H. unfold mbind, Run_bind. by rewrite H. Qed.

Lemma run_bind_Throw {A B : Type} (r : Run A) (f : A → Run B) h h' e :
  r h = (h', Throw e) → (r ≫= f) h = (h', Throw e).
Proof. intros H. unfold mbind, Run_bind. by rewrite H. Qed.

Lemma get_set {A : Type} (P : Place A) g root node :
  lawful P → place_get P root = Some node →
  place_get P (place_set P g root) = Some (g node).
Proof. intros (Hget & _) H. by rewrite Hget, H. Qed.

Lemma set_set {A : Type} (P : Place A) f g root :
  lawful P → place_set P g (place_set P f root) = place_set P (g ∘ f) root.
Proof. intros (_ & Hset & _). apply Hset. Qed.

Lemma set_const {A : Type} (P : Place A) g root node :
  lawful P → place_get P root = Some node →
  place_set P g root = place_set P (fun _ => g node) root.
Proof. intros (_ & _ & Hext & _) H. apply Hext. intros n Hn. congruence. Qed.

Lemma set_same {A : Type} (P : Place A) root node :
  lawful P → place_get P root = Some node → root = place_set P (fun _ => node) root.
Proof.
  intros (_ & _ & Hext & Hid) H. rewrite <- (Hid root) at 1. apply Hext.
  intros n Hn. congruence.
Qed.

Section Simulation.
Variables (h0 : Heap) (clue matrix : nat) (m : Matrix) (p : IdParser) (sc : SolverConfig).
Hypothesis Hmatrix : h0 !! matrix = Some (MatrixObject m).
Hypothesis Hne : clue ≠ matrix.

Lemma readMatrix_at root :
  readMatrix matrix (<[clue := ClueObject root]> h0)
  = (<[clue := ClueObject root]> h0, OK m).
Proof. unfold readMatrix. by rewrite lookup_insert_ne, Hmatrix. Qed.

Lemma readNode_at {A : Type} (P : Place A) root node :
  place_get P root = Some node →
  readNode clue P (<[clue := ClueObject root]> h0)
  = (<[clue := ClueObject root]> h0, OK node).
Proof. intros H. unfold readNode. by rewrite lookup_insert_eq, H. Qed.

Lemma writeNode_at (P : Place LogicalExpression) f root :
  writeNode clue P f (<[clue := ClueObject root]> h0)
  = (<[clue := ClueObject (place_set P f root)]> h0, OK tt).
Proof. unfold writeNode. by rewrite lookup_insert_eq, insert_insert_eq. Qed.

Lemma solvedAt_at (P : Place LogicalExpression) root node :
  place_get P root = Some node →
  solvedAt clue P (<[clue := ClueObject root]> h0)
  = (<[clue := ClueObject root]> h0, OK (clue_solved node)).
Proof. intros H. unfold solvedAt. by rewrite (run_bind_OK _ _ _ _ _ (readNode_at P root node H)). Qed.

Lemma run_bind_result {A B : Type} (r : Result A) (f : A → Run B) h :
  (runResult r ≫= f) h = match r with OK a => f a h | Throw e => (h, Throw e) end.
Proof. by destruct r. Qed.

Lemma truthsLoopAt_simulates b (P : Place ArithmeticExpression) elements :
  lawful P → Forall (simulatesCheck h0 clue matrix m p sc) elements →
  ∀ pre count root,
    place_get P root = Some (TruthsOperator b (pre ++ elements)) →
    ∃ root',
      truthsLoopAt (fun i element =>
                      checkClueThrowableAt clue matrix p sc element
                        (fieldOf (truthsElementAt i) P))
                   elements (length pre) count (<[clue := ClueObject root]> h0)
      = (<[clue := ClueObject root']> h0,
         fst <$> truthsLoop (checkClueThrowable m p sc) elements count)
      ∧ ∀ count' elements',
          truthsLoop (checkClueThrowable m p sc) elements count = OK (count', elements') →
          root' = place_set P (fun _ => TruthsOperator b (pre ++ elements')) root.
Proof.
  intros HP. induction 1 as [|element rest Helement _ IH]; intros pre count root Hroot.
  - exists root. split; [done|]. intros count' elements' [= <- <-].
    by apply set_same.
  - cbn [truthsLoopAt truthsLoop].
    destruct (Helement (fieldOf (truthsElementAt (length pre)) P) root)
      as (root1 & Hrun & Hroot1); [eauto with confined| |].
    { simpl. rewrite Hroot. simpl. by rewrite list_lookup_middle. }
    destruct (checkClueThrowable m p sc element) as [[t element']|e] eqn:E; simpl in Hrun.
    + rewrite (run_bind_OK _ _ _ _ _ Hrun). specialize (Hroot1 _ _ eq_refl).
      simpl in Hroot1.
      assert (Hroot' : place_get P root1 = Some (TruthsOperator b ((pre ++ [element']) ++ rest))).
      { rewrite Hroot1, (get_set P _ root _ HP Hroot). simpl. do 2 f_equal.
        rewrite alter_app_r_alt by lia. rewrite Nat.sub_diag. simpl.
        by rewrite <- app_assoc. }
      destruct (IH (pre ++ [element']) (if t then js_add count 1 else count) root1 Hroot')
        as (root2 & Hrun2 & Hroot2).
      rewrite length_app, Nat.add_1_r in Hrun2. exists root2. split.
      * rewrite Hrun2. f_equal. simpl.
        by destruct (truthsLoop _ rest _) as [[count' rest']|e'].
      * intros count' elements' H. simpl in H.
        destruct (truthsLoop _ rest _) as [[count'' rest']|e']; [|done].
        injection H as <- <-. rewrite (Hroot2 _ _ eq_refl), Hroot1. simpl.
        rewrite (set_set P _ _ root HP). rewrite <- app_assoc.
        by apply HP.
    + rewrite (run_bind_Throw _ _ _ _ _ Hrun). exists root1. by split.
Qed.

Lemma checkOperandsAt_simulates b op isAnd (P : Place LogicalExpression) operands :
  lawful P → Forall (simulatesCheck h0 clue matrix m p sc) operands →
  ∀ pre result allSolved root,
    place_get P root = Some (LogicalOperation b op (pre ++ operands)) →
    ∃ root',
      checkOperandsAt (fun i operand =>
                         checkClueThrowableAt clue matrix p sc operand
                           (fieldOf (operandAt i) P))
                      (fun i => solvedAt clue (fieldOf (operandAt i) P))
                      isAnd operands (length pre) result allSolved
                      (<[clue := ClueObject root]> h0)
      = (<[clue := ClueObject root']> h0,
         (fun x : bool * bool * list LogicalExpression => (x.1.1, x.1.2))
           <$> checkOperands (checkClueThrowable m p sc) isAnd operands result allSolved)
      ∧ ∀ result' allSolved' operands',
          checkOperands (checkClueThrowable m p sc) isAnd operands result allSolved
          = OK (result', allSolved', operands') →
          root' = place_set P (fun _ => LogicalOperation b op (pre ++ operands')) root.
Proof.
  intros HP. induction 1 as [|operand rest Hoperand _ IH];
    intros pre result allSolved root Hroot.
  - exists root. split; [done|]. intros result' allSolved' operands' [= <- <- <-].
    by apply set_same.
  - cbn [checkOperandsAt checkOperands].
    destruct (Hoperand (fieldOf (operandAt (length pre)) P) root)
      as (root1 & Hrun & Hroot1); [eauto with confined| |].
    { simpl. rewrite Hroot. simpl. by rewrite list_lookup_middle. }
    destruct (checkClueThrowable m p sc operand) as [[t operand']|e] eqn:E; simpl in Hrun.
    + rewrite (run_bind_OK _ _ _ _ _ Hrun). specialize (Hroot1 _ _ eq_refl).
      simpl in Hroot1.
      assert (Hroot' : place_get P root1
                       = Some (LogicalOperation b op ((pre ++ [operand']) ++ rest))).
      { rewrite Hroot1, (get_set P _ root _ HP Hroot). simpl. do 2 f_equal.
        rewrite alter_app_r_alt by lia. rewrite Nat.sub_diag. simpl.
        by rewrite <- app_assoc. }
      assert (Hoperand' : place_get (fieldOf (operandAt (length pre)) P) root1
                          = Some operand').
      { simpl. rewrite Hroot'. simpl. rewrite <- app_assoc. simpl.
        by rewrite list_lookup_middle. }
      rewrite (run_bind_OK _ _ _ _ _ (solvedAt_at _ root1 operand' Hoperand')).
      destruct (IH (pre ++ [operand'])
                  (if isAnd then if t then result else false else if t then true else result)
                  (if clue_solved operand' is None then false else allSolved) root1 Hroot')
        as (root2 & Hrun2 & Hroot2).
      rewrite length_app, Nat.add_1_r in Hrun2. exists root2. split.
      * rewrite Hrun2. f_equal. simpl.
        by destruct (checkOperands _ _ rest _ _) as [[[result' allSolved'] rest']|e'].
      * intros result' allSolved' operands' H. simpl in H.
        destruct (checkOperands _ _ rest _ _) as [[[result'' allSolved''] rest']|e']; [|done].
        injection H as <- <- <-. rewrite (Hroot2 _ _ _ eq_refl), Hroot1. simpl.
        rewrite (set_set P _ _ root HP). rewrite <- app_assoc.
        by apply HP.
    + rewrite (run_bind_Throw _ _ _ _ _ Hrun). exists root1. by split.
Qed.

Lemma arithmeticInSetAt_simulates b op lhs val position (P : Place LogicalExpression) items :
  lawful P → Forall (elementAll (simulatesArithmetic h0 clue matrix m p sc)) items →
  ∀ pre root,
    place_get P root = Some (InOperator b op lhs (SetLiteral (pre ++ items))) →
    ∃ root',
      arithmeticInSetAt (fun i item =>
                           parseArithmeticAt clue matrix p sc item
                             (fieldOf (setElementAt i) P))
                        val position items (length pre) (<[clue := ClueObject root]> h0)
      = (<[clue := ClueObject root']> h0,
         fst <$> arithmeticInSet (parseArithmetic m p sc) val position items)
      ∧ ∀ out items',
          arithmeticInSet (parseArithmetic m p sc) val position items = OK (out, items') →
          root' = place_set P (fun _ => InOperator b op lhs (SetLiteral (pre ++ items'))) root.
Proof.
  intros HP. induction 1 as [|item rest Hitem _ IH]; intros pre root Hroot.
  - exists root. split; [done|]. intros out items' [= <- <-]. by apply set_same.
  - destruct item as [id|a|b']; cbn [arithmeticInSetAt arithmeticInSet];
      try (exists root; by split).
    simpl in Hitem.
    destruct (Hitem (fieldOf (setElementAt (length pre)) P) root)
      as (root1 & Hrun & Hroot1); [eauto with confined| |].
    { simpl. rewrite Hroot. simpl. by rewrite list_lookup_middle. }
    destruct (parseArithmetic m p sc a) as [[v a']|e] eqn:E; simpl in Hrun.
    + rewrite (run_bind_OK _ _ _ _ _ Hrun). specialize (Hroot1 _ _ eq_refl).
      simpl in Hroot1.
      assert (Hroot' : place_get P root1
                       = Some (InOperator b op lhs
                                 (SetLiteral ((pre ++ [ElemArithmetic a']) ++ rest)))).
      { rewrite Hroot1, (get_set P _ root _ HP Hroot). simpl. do 3 f_equal.
        rewrite alter_app_r_alt by lia. rewrite Nat.sub_diag. simpl.
        by rewrite <- app_assoc. }
      assert (Hdone : root1
                      = place_set P (fun _ => InOperator b op lhs
                                     (SetLiteral (pre ++ ElemArithmetic a' :: rest))) root).
      { rewrite <- app_assoc in Hroot'. simpl in Hroot'. rewrite Hroot1. simpl.
        apply HP. intros node Hnode. rewrite Hroot in Hnode. injection Hnode as <-.
        simpl. do 2 f_equal. rewrite alter_app_r_alt by lia. rewrite Nat.sub_diag. done. }
      simpl. destruct v as [v|].
      2:{ exists root1. split; [done|]. by intros out items' [= <- <-]. }
      destruct (js_eq v val).
      { exists root1. split; [done|]. by intros out items' [= <- <-]. }
      destruct (IH (pre ++ [ElemArithmetic a']) root1 Hroot') as (root2 & Hrun2 & Hroot2).
      rewrite length_app, Nat.add_1_r in Hrun2. exists root2. split.
      * rewrite Hrun2. f_equal.
        by destruct (arithmeticInSet _ _ _ rest) as [[out rest']|e'].
      * intros out items' H.
        destruct (arithmeticInSet _ _ _ rest) as [[out' rest']|e']; [|done].
        injection H as <- <-. rewrite (Hroot2 _ _ eq_refl), Hroot1. simpl.
        rewrite (set_set P _ _ root HP). rewrite <- app_assoc.
        by apply HP.
    + rewrite (run_bind_Throw _ _ _ _ _ Hrun). exists root1. by split.
Qed.

(** The clue after an assignment at the place [P], when the clue before is
    the first clue [root] with the node [node'] at [P]. *)
Lemma advance {A : Type} (P : Place A) f root root' node node' :
  lawful P → place_get P root = Some node →
  place_get P root' = Some node' → root' = place_set P (fun _ => node') root →
  place_get P (place_set P f root') = Some (f node')
  ∧ place_set P f root' = place_set P (fun _ => f node') root.
Proof.
  intros HP Hroot Hget Hform. split; [by apply get_set|].
  rewrite Hform at 1. rewrite (set_set P _ _ root HP). by apply HP.
Qed.

Lemma start {A : Type} (P : Place A) root node :
  lawful P → place_get P root = Some node →
  place_get P root = Some node ∧ root = place_set P (fun _ => node) root.
Proof. intros HP Hroot. split; [done|]. by apply set_same. Qed.

Lemma advance_field {A B : Type} (F : Field A B) (P : Place A) c' root root' root'' node node' :
  lawful P → place_get P root = Some node →
  place_get P root' = Some node' → root' = place_set P (fun _ => node') root →
  root'' = place_set (fieldOf F P) (fun _ => c') root' →
  place_get P root'' = Some (field_set F (fun _ => c') node')
  ∧ root'' = place_set P (fun _ => field_set F (fun _ => c') node') root.
Proof. intros HP Hroot Hget Hform ->. by eapply (advance P). Qed.

Lemma rebase {A : Type} (P : Place A) root root' node' x :
  lawful P → root' = place_set P (fun _ => node') root →
  place_set P (fun _ => x) root' = place_set P (fun _ => x) root.
Proof. intros HP ->. rewrite (set_set P _ _ root HP). by apply HP. Qed.

Lemma checkClueThrowable_nary b operator operands :
  checkClueThrowable m p sc (LogicalOperation b operator operands)
  = match solved b with
    | Some s => OK (s, LogicalOperation b operator operands)
    | None =>
        if String.eqb operator "&" || String.eqb operator "|" then
          checkOperands (checkClueThrowable m p sc) (String.eqb operator "&") operands
            (String.eqb operator "&") true
          ≫= fun '(result, allSolved, operands') =>
               OK (result,
                   if (allSolved : bool)
                   then assign_solved result (LogicalOperation b operator operands')
                   else LogicalOperation b operator operands')
        else OK (true, LogicalOperation b operator operands)
    end.
Proof. reflexivity. Qed.

Lemma checkClueThrowableAt_nary b operator operands P :
  checkClueThrowableAt clue matrix p sc (LogicalOperation b operator operands) P
  = (solvedAt clue P ≫= fun s =>
     match s with
     | Some s => mret s
     | None =>
         if String.eqb operator "&" || String.eqb operator "|" then
           checkOperandsAt
             (fun i operand =>
                checkClueThrowableAt clue matrix p sc operand (fieldOf (operandAt i) P))
             (fun i => solvedAt clue (fieldOf (operandAt i) P))
             (String.eqb operator "&") operands 0%nat (String.eqb operator "&") true
           ≫= fun '(result, allSolved) =>
                (if (allSolved : bool) then writeNode clue P (assign_solved result)
                 else mret tt)
                ≫= fun _ => mret result
         else mret true
     end).
Proof. reflexivity. Qed.

Lemma checkClueThrowable_inSet b operator a elements :
  checkClueThrowable m p sc (InOperator b operator (InArithmetic a) (SetLiteral elements))
  = match solved b with
    | Some s => OK (s, InOperator b operator (InArithmetic a) (SetLiteral elements))
    | None =>
        if String.eqb operator "in" then
          parseArithmetic m p sc a ≫= fun '(val, a') =>
            match val with
            | None => OK (true, InOperator b operator (InArithmetic a') (SetLiteral elements))
            | Some val =>
                arithmeticInSet (parseArithmetic m p sc) val (pos b) elements
                ≫= fun '(out, elements') =>
                     OK (out, InOperator b operator (InArithmetic a') (SetLiteral elements'))
            end
        else OK (true, InOperator b operator (InArithmetic a) (SetLiteral elements))
    end.
Proof. reflexivity. Qed.

Lemma checkClueThrowableAt_inSet b operator a elements P :
  checkClueThrowableAt clue matrix p sc
    (InOperator b operator (InArithmetic a) (SetLiteral elements)) P
  = (solvedAt clue P ≫= fun s =>
     match s with
     | Some s => mret s
     | None =>
         if String.eqb operator "in" then
           parseArithmeticAt clue matrix p sc a (fieldOf inLeftOperand P) ≫= fun val =>
             match val with
             | None => mret true
             | Some val =>
                 arithmeticInSetAt
                   (fun i item =>
                      parseArithmeticAt clue matrix p sc item (fieldOf (setElementAt i) P))
                   val (pos b) elements 0%nat
             end
         else mret true
     end).
Proof. reflexivity. Qed.

Lemma checkClueThrowable_relational b operator a0 a1 :
  checkClueThrowable m p sc (RelationalOperation b operator a0 a1)
  = match solved b with
    | Some s => OK (s, RelationalOperation b operator a0 a1)
    | None =>
        match relationalOperators operator with
        | None => OK (true, RelationalOperation b operator a0 a1)
        | Some ok =>
            match states_l (default (mkStates None None) (states b)) with
            | Some l => OK (Some l, a0)
            | None => parseArithmetic m p sc a0
            end ≫= fun '(l, a0') =>
            match states_r (default (mkStates None None) (states b)) with
            | Some r => OK (Some r, a1)
            | None => parseArithmetic m p sc a1
            end ≫= fun '(r, a1') =>
            match l, r with
            | Some l', Some r' =>
                OK (ok l' r',
                    assign_solved (ok l' r')
                      (RelationalOperation (set_states (mkStates l r) b) operator a0' a1'))
            | _, _ =>
                OK (true, RelationalOperation (set_states (mkStates l r) b) operator a0' a1')
            end
        end
    end.
Proof. reflexivity. Qed.

Lemma checkClueThrowableAt_relational b operator a0 a1 P :
  checkClueThrowableAt clue matrix p sc (RelationalOperation b operator a0 a1) P
  = (solvedAt clue P ≫= fun s =>
     match s with
     | Some s => mret s
     | None =>
         match relationalOperators operator with
         | None => mret true
         | Some ok =>
             writeNode clue P (assign_states (fun st => st)) ≫= fun _ =>
             readNode clue P ≫= fun node =>
             match states_l (default (mkStates None None) (states (logical_base node))) with
             | Some l => mret (Some l)
             | None => parseArithmeticAt clue matrix p sc a0 (fieldOf relationalOperand0 P)
             end ≫= fun l =>
             writeNode clue P (assign_states (fun st => mkStates l (states_r st))) ≫= fun _ =>
             readNode clue P ≫= fun node =>
             match states_r (default (mkStates None None) (states (logical_base node))) with
             | Some r => mret (Some r)
             | None => parseArithmeticAt clue matrix p sc a1 (fieldOf relationalOperand1 P)
             end ≫= fun r =>
             writeNode clue P (assign_states (fun st => mkStates (states_l st) r)) ≫= fun _ =>
             match l, r with
             | Some l, Some r =>
                 writeNode clue P (assign_solved (ok l r)) ≫= fun _ => mret (ok l r)
             | _, _ => mret true
             end
         end
     end).
Proof. reflexivity. Qed.

Lemma checkClueThrowable_inRange b operator a range_start range_end :
  checkClueThrowable m p sc
    (InOperator b operator (InArithmetic a) (RangeLiteral range_start range_end))
  = match solved b with
    | Some s =>
        OK (s, InOperator b operator (InArithmetic a) (RangeLiteral range_start range_end))
    | None =>
        if String.eqb operator "in" then
          parseArithmetic m p sc a ≫= fun '(val, a') =>
            match val with
            | None =>
                OK (true, InOperator b operator (InArithmetic a')
                            (RangeLiteral range_start range_end))
            | Some val =>
                parseArithmetic m p sc range_start ≫= fun '(start', s') =>
                parseArithmetic m p sc range_end ≫= fun '(end', e') =>
                match start', end' with
                | Some start', Some end' =>
                    OK (js_ge val start' && js_le val end',
                        InOperator b operator (InArithmetic a') (RangeLiteral s' e'))
                | _, _ =>
                    OK (true, InOperator b operator (InArithmetic a') (RangeLiteral s' e'))
                end
            end
        else
          OK (true, InOperator b operator (InArithmetic a) (RangeLiteral range_start range_end))
    end.
Proof. reflexivity. Qed.

Lemma checkClueThrowableAt_inRange b operator a range_start range_end P :
  checkClueThrowableAt clue matrix p sc
    (InOperator b operator (InArithmetic a) (RangeLiteral range_start range_end)) P
  = (solvedAt clue P ≫= fun s =>
     match s with
     | Some s => mret s
     | None =>
         if String.eqb operator "in" then
           parseArithmeticAt clue matrix p sc a (fieldOf inLeftOperand P) ≫= fun val =>
             match val with
             | None => mret true
             | Some val =>
                 parseArithmeticAt clue matrix p sc range_start (fieldOf rangeStart P)
                 ≫= fun start' =>
                 parseArithmeticAt clue matrix p sc range_end (fieldOf rangeEnd P)
                 ≫= fun end' =>
                 match start', end' with
                 | Some start', Some end' => mret (js_ge val start' && js_le val end')
                 | _, _ => mret true
                 end
             end
         else mret true
     end).
Proof. reflexivity. Qed.

Lemma checkers_simulate :
  (∀ exp, simulatesArithmetic h0 clue matrix m p sc exp)
  ∧ (∀ token, simulatesCheck h0 clue matrix m p sc token).
Proof.
  apply expression_ind.
  - intros b value P root HP Hroot. exists root. split; [done|].
    intros v exp' [= <- <-]. by apply set_same.
  - intros b symbol category P root HP Hroot. exists root. cbn [parseArithmeticAt parseArithmetic].
    rewrite (run_bind_OK _ _ _ _ _ (readMatrix_at root)). unfold runResult.
    destruct (numericIdentifierValue m p sc b symbol category) as [val|e]; simpl;
      (split; [done|]); [|done].
    intros v exp' [= <- <-]. by apply set_same.
  - intros b operator e0 e1 IH0 IH1 P root HP Hroot.
    cbn [parseArithmeticAt parseArithmetic].
    destruct (IH0 (fieldOf arithmeticOperand0 P) root) as (root0 & Hrun0 & Hroot0);
      [eauto with confined|by simpl; rewrite Hroot|].
    destruct (parseArithmetic m p sc e0) as [[l e0']|e] eqn:E0; simpl in Hrun0;
      [|rewrite (run_bind_Throw _ _ _ _ _ Hrun0); exists root0; by split].
    rewrite (run_bind_OK _ _ _ _ _ Hrun0). specialize (Hroot0 _ _ eq_refl). simpl in Hroot0.
    assert (Hget0 : place_get P root0 = Some (ArithmeticBinaryOperation b operator e0' e1))
      by by rewrite Hroot0, (get_set P _ root _ HP Hroot).
    destruct (IH1 (fieldOf arithmeticOperand1 P) root0) as (root1 & Hrun1 & Hroot1);
      [eauto with confined|by simpl; rewrite Hget0|].
    destruct (parseArithmetic m p sc e1) as [[r e1']|e] eqn:E1; simpl in Hrun1;
      [|rewrite (run_bind_Throw _ _ _ _ _ Hrun1); exists root1; by split].
    rewrite (run_bind_OK _ _ _ _ _ Hrun1). specialize (Hroot1 _ _ eq_refl). simpl in Hroot1.
    assert (Hfinal : root1
                     = place_set P (fun _ => ArithmeticBinaryOperation b operator e0' e1') root).
    { rewrite Hroot1, Hroot0, (set_set P _ _ root HP). apply HP.
      intros node Hnode. rewrite Hroot in Hnode. by injection Hnode as <-. }
    cbn [mbind Result_bind fmap Result_fmap fst].
    destruct l as [l|], r as [r|];
      try (exists root1; split; [done|]; by intros v exp' [= <- <-]).
    unfold runResult, mbind, Run_bind.
    destruct (arithmeticOperator operator (pos b) l r) as [v|e]; simpl;
      exists root1; (split; [done|]); [|done].
    by intros v' exp' [= <- <-].
  - intros b elements IH P root HP Hroot.
    change (parseArithmetic m p sc (TruthsOperator b elements))
      with (truthsLoop (checkClueThrowable m p sc) elements 0%float
            ≫= fun '(count, elements') => OK (Some count, TruthsOperator b elements')).
    change (parseArithmeticAt clue matrix p sc (TruthsOperator b elements) P)
      with (truthsLoopAt (fun i element =>
                            checkClueThrowableAt clue matrix p sc element
                              (fieldOf (truthsElementAt i) P))
                         elements 0%nat 0%float
            ≫= fun count => mret (Some count)).
    destruct (truthsLoopAt_simulates b P elements HP IH [] 0%float root Hroot)
      as (root' & Hrun & Hroot').
    simpl in Hrun. exists root'.
    destruct (truthsLoop (checkClueThrowable m p sc) elements 0%float)
      as [[count elements']|e]; simpl in Hrun.
    + rewrite (run_bind_OK _ _ _ _ _ Hrun). split; [done|].
      intros v exp' [= <- <-]. exact (Hroot' _ _ eq_refl).
    + rewrite (run_bind_Throw _ _ _ _ _ Hrun). by split.
  - (* LogicalUnaryOperation *)
    intros b operator o0 IH P root HP Hroot.
    destruct (start P root _ HP Hroot) as [Hget Hform].
    cbn [checkClueThrowableAt checkClueThrowable].
    rewrite (run_bind_OK _ _ _ _ _ (solvedAt_at P root _ Hroot)).
    change (clue_solved (LogicalUnaryOperation b operator o0)) with (solved b).
    destruct (solved b) as [s|] eqn:Hsolved;
      [exists root; split; [done|]; by intros v token' [= <- <-]|].
    destruct (String.eqb operator "!");
      [|exists root; split; [done|]; by intros v token' [= <- <-]].
    destruct (IH (fieldOf unaryOperand P) root) as (root0 & Hrun0 & Hroot0);
      [eauto with confined|by simpl; rewrite Hroot|].
    destruct (checkClueThrowable m p sc o0) as [[t o0']|e] eqn:E0; simpl in Hrun0;
      [|rewrite (run_bind_Throw _ _ _ _ _ Hrun0); exists root0; by split].
    rewrite (run_bind_OK _ _ _ _ _ Hrun0). specialize (Hroot0 _ _ eq_refl).
    destruct (advance P (field_set unaryOperand (fun _ => o0')) root root _ _
                HP Hroot Hget Hform) as [Hget0 Hform0].
    change (place_set P (field_set unaryOperand (fun _ => o0')) root)
      with (place_set (fieldOf unaryOperand P) (fun _ => o0') root) in Hget0, Hform0.
    rewrite <- Hroot0 in Hget0, Hform0. cbn [field_set unaryOperand] in Hget0, Hform0.
    rewrite (run_bind_OK _ _ _ _ _ (solvedAt_at (fieldOf unaryOperand P) root0 o0'
                                      ltac:(by simpl; rewrite Hget0))).
    cbn [mbind Result_bind fmap Result_fmap fst].
    destruct (clue_solved o0') as [s0|].
    + rewrite (run_bind_OK _ _ _ _ _ (writeNode_at P _ root0)).
      destruct (advance P (assign_solved (negb t)) root root0 _ _ HP Hroot Hget0 Hform0)
        as [Hget1 Hform1].
      eexists. split; [done|]. by intros v token' [= <- <-].
    + exists root0. split; [done|]. by intros v token' [= <- <-].
  - (* LogicalBinaryOperation *)
    intros b operator o0 o1 IH0 IH1 P root HP Hroot.
    destruct (start P root _ HP Hroot) as [Hget Hform].
    cbn [checkClueThrowableAt checkClueThrowable].
    rewrite (run_bind_OK _ _ _ _ _ (solvedAt_at P root _ Hroot)).
    change (clue_solved (LogicalBinaryOperation b operator o0 o1)) with (solved b).
    destruct (solved b) as [s|] eqn:Hsolved;
      [exists root; split; [done|]; by intros v token' [= <- <-]|].
    destruct (logicalBinaryCheckers operator) as [f|];
      [|exists root; split; [done|]; by intros v token' [= <- <-]].
    destruct (IH0 (fieldOf binaryOperand0 P) root) as (root0 & Hrun0 & Hroot0);
      [eauto with confined|by simpl; rewrite Hroot|].
    destruct (checkClueThrowable m p sc o0) as [[t0 o0']|e] eqn:E0; simpl in Hrun0;
      [|rewrite (run_bind_Throw _ _ _ _ _ Hrun0); exists root0; by split].
    rewrite (run_bind_OK _ _ _ _ _ Hrun0). specialize (Hroot0 _ _ eq_refl).
    destruct (advance_field binaryOperand0 P o0' root root root0 _ _
                HP Hroot Hget Hform Hroot0) as [Hget0 Hform0].
    cbn [field_set binaryOperand0] in Hget0, Hform0.
    destruct (IH1 (fieldOf binaryOperand1 P) root0) as (root1 & Hrun1 & Hroot1);
      [eauto with confined|by simpl; rewrite Hget0|].
    destruct (checkClueThrowable m p sc o1) as [[t1 o1']|e] eqn:E1; simpl in Hrun1;
      [|rewrite (run_bind_Throw _ _ _ _ _ Hrun1); exists root1; by split].
    rewrite (run_bind_OK _ _ _ _ _ Hrun1). specialize (Hroot1 _ _ eq_refl).
    destruct (advance_field binaryOperand1 P o1' root root0 root1 _ _
                HP Hroot Hget0 Hform0 Hroot1) as [Hget1 Hform1].
    cbn [field_set binaryOperand1] in Hget1, Hform1.
    rewrite (run_bind_OK _ _ _ _ _ (solvedAt_at (fieldOf binaryOperand0 P) root1 o0'
                                      ltac:(by simpl; rewrite Hget1))).
    rewrite (run_bind_OK _ _ _ _ _ (solvedAt_at (fieldOf binaryOperand1 P) root1 o1'
                                      ltac:(by simpl; rewrite Hget1))).
    cbn [mbind Result_bind fmap Result_fmap fst].
    destruct (bool_decide (is_Some (clue_solved o0') ∧ is_Some (clue_solved o1'))).
    + rewrite (run_bind_OK _ _ _ _ _ (writeNode_at P _ root1)).
      destruct (advance P (assign_solved (f t0 t1)) root root1 _ _ HP Hroot Hget1 Hform1)
        as [Hget2 Hform2].
      eexists. split; [done|]. by intros v token' [= <- <-].
    + exists root1. split; [done|]. by intros v token' [= <- <-].
  - (* LogicalOperation *)
    intros b operator operands IH P root HP Hroot.
    destruct (start P root _ HP Hroot) as [Hget Hform].
    rewrite checkClueThrowableAt_nary, checkClueThrowable_nary.
    rewrite (run_bind_OK _ _ _ _ _ (solvedAt_at P root _ Hroot)).
    change (clue_solved (LogicalOperation b operator operands)) with (solved b).
    destruct (solved b) as [s|] eqn:Hsolved;
      [exists root; split; [done|]; by intros v token' [= <- <-]|].
    destruct (String.eqb operator "&" || String.eqb operator "|");
      [|exists root; split; [done|]; by intros v token' [= <- <-]].
    destruct (checkOperandsAt_simulates b operator (String.eqb operator "&") P operands HP IH
                [] (String.eqb operator "&") true root Hroot) as (root0 & Hrun0 & Hroot0).
    simpl in Hrun0, Hroot0.
    destruct (checkOperands _ _ operands _ _) as [[[result allSolved] operands']|e];
      simpl in Hrun0;
      [|rewrite (run_bind_Throw _ _ _ _ _ Hrun0); exists root0; by split].
    rewrite (run_bind_OK _ _ _ _ _ Hrun0). specialize (Hroot0 _ _ _ eq_refl).
    assert (Hget0 : place_get P root0 = Some (LogicalOperation b operator operands'))
      by by rewrite Hroot0, (get_set P _ root _ HP Hroot).
    cbn [mbind Result_bind fmap Result_fmap fst].
    destruct allSolved.
    + rewrite (run_bind_OK _ _ _ _ _ (writeNode_at P _ root0)).
      destruct (advance P (assign_solved result) root root0 _ _ HP Hroot Hget0 Hroot0)
        as [Hget1 Hform1].
      eexists. split; [done|]. by intros v token' [= <- <-].
    + exists root0. split; [done|]. by intros v token' [= <- <-].
  - (* RelationalOperation: checkRelational *)
    intros b operator a0 a1 IH0 IH1 P root HP Hroot.
    destruct (start P root _ HP Hroot) as [Hget Hform].
    rewrite checkClueThrowableAt_relational, checkClueThrowable_relational.
    rewrite (run_bind_OK _ _ _ _ _ (solvedAt_at P root _ Hroot)).
    change (clue_solved (RelationalOperation b operator a0 a1)) with (solved b).
    destruct (solved b) as [s|] eqn:Hsolved;
      [exists root; split; [done|]; by intros v token' [= <- <-]|].
    destruct (relationalOperators operator) as [ok|];
      [|exists root; split; [done|]; by intros v token' [= <- <-]].
    rewrite (run_bind_OK _ _ _ _ _ (writeNode_at P _ root)).
    destruct (advance P (assign_states (fun st => st)) root root _ _ HP Hroot Hget Hform)
      as [HgetA HformA].
    cbn [assign_states] in HgetA, HformA.
    set (st := default (mkStates None None) (states b)) in *.
    rewrite (run_bind_OK _ _ _ _ _ (readNode_at P _ _ HgetA)).
    change (default (mkStates None None)
              (states (logical_base (RelationalOperation (set_states st b) operator a0 a1))))
      with st.
    (* the left operand *)
    assert (Hleft : (∃ rootB l a0',
      match states_l st with
      | Some l => OK (Some l, a0)
      | None => parseArithmetic m p sc a0
      end = OK (l, a0')
      ∧ place_get P rootB = Some (RelationalOperation (set_states st b) operator a0' a1)
      ∧ rootB = place_set P (fun _ => RelationalOperation (set_states st b) operator a0' a1) root
      ∧ (match states_l st with
         | Some l => mret (Some l)
         | None => parseArithmeticAt clue matrix p sc a0 (fieldOf relationalOperand0 P)
         end) (<[clue := ClueObject (place_set P (assign_states (fun st => st)) root)]> h0)
        = (<[clue := ClueObject rootB]> h0, OK l))
      ∨ ∃ rootB e,
      match states_l st with
      | Some l => OK (Some l, a0)
      | None => parseArithmetic m p sc a0
      end = Throw e
      ∧ (match states_l st with
         | Some l => mret (Some l)
         | None => parseArithmeticAt clue matrix p sc a0 (fieldOf relationalOperand0 P)
         end) (<[clue := ClueObject (place_set P (assign_states (fun st => st)) root)]> h0)
        = (<[clue := ClueObject rootB]> h0, Throw e)).
    { destruct (states_l st) as [l|].
      - left. by eexists _, (Some l), a0.
      - destruct (IH0 (fieldOf relationalOperand0 P)
                    (place_set P (assign_states (fun st => st)) root))
          as (rootB & HrunB & HrootB); [eauto with confined|by simpl; rewrite HgetA|].
        destruct (parseArithmetic m p sc a0) as [[l a0']|e]; simpl in HrunB.
        + left. exists rootB, l, a0'. split; [done|]. specialize (HrootB _ _ eq_refl).
          destruct (advance_field relationalOperand0 P a0' root _ rootB _ _
                      HP Hroot HgetA HformA HrootB) as [HgetB HformB].
          done.
        + right. by exists rootB, e. }
    destruct Hleft as [(rootB & l & a0' & -> & HgetB & HformB & HrunB)|(rootB & e & -> & HrunB)];
      [|rewrite (run_bind_Throw _ _ _ _ _ HrunB); exists rootB; by split].
    rewrite (run_bind_OK _ _ _ _ _ HrunB).
    rewrite (run_bind_OK _ _ _ _ _ (writeNode_at P _ rootB)).
    destruct (advance P (assign_states (fun st => mkStates l (states_r st))) root rootB _ _
                HP Hroot HgetB HformB) as [HgetC HformC].
    cbn [assign_states] in HgetC, HformC.
    change (set_states
              (mkStates l (states_r (default (mkStates None None) (states (set_states st b)))))
              (set_states st b))
      with (set_states (mkStates l (states_r st)) b) in HgetC, HformC.
    rewrite (run_bind_OK _ _ _ _ _ (readNode_at P _ _ HgetC)).
    change (states_r
              (default (mkStates None None)
                 (states (logical_base
                            (RelationalOperation (set_states (mkStates l (states_r st)) b)
                               operator a0' a1)))))
      with (states_r st).
    cbn [mbind Result_bind].
    (* the right operand *)
    set (rootC := place_set P (assign_states (fun st => mkStates l (states_r st))) rootB) in *.
    set (bC := set_states (mkStates l (states_r st)) b) in *.
    assert (Hright : (∃ rootD r a1',
      match states_r st with
      | Some r => OK (Some r, a1)
      | None => parseArithmetic m p sc a1
      end = OK (r, a1')
      ∧ place_get P rootD = Some (RelationalOperation bC operator a0' a1')
      ∧ rootD = place_set P (fun _ => RelationalOperation bC operator a0' a1') root
      ∧ (match states_r st with
         | Some r => mret (Some r)
         | None => parseArithmeticAt clue matrix p sc a1 (fieldOf relationalOperand1 P)
         end) (<[clue := ClueObject rootC]> h0)
        = (<[clue := ClueObject rootD]> h0, OK r))
      ∨ ∃ rootD e,
      match states_r st with
      | Some r => OK (Some r, a1)
      | None => parseArithmetic m p sc a1
      end = Throw e
      ∧ (match states_r st with
         | Some r => mret (Some r)
         | None => parseArithmeticAt clue matrix p sc a1 (fieldOf relationalOperand1 P)
         end) (<[clue := ClueObject rootC]> h0)
        = (<[clue := ClueObject rootD]> h0, Throw e)).
    { destruct (states_r st) as [r|].
      - left. by eexists _, (Some r), a1.
      - destruct (IH1 (fieldOf relationalOperand1 P) rootC)
          as (rootD & HrunD & HrootD); [eauto with confined|by simpl; rewrite HgetC|].
        destruct (parseArithmetic m p sc a1) as [[r a1']|e]; simpl in HrunD.
        + left. exists rootD, r, a1'. split; [done|]. specialize (HrootD _ _ eq_refl).
          destruct (advance_field relationalOperand1 P a1' root _ rootD _ _
                      HP Hroot HgetC HformC HrootD) as [HgetD HformD].
          done.
        + right. by exists rootD, e. }
    destruct Hright as [(rootD & r & a1' & -> & HgetD & HformD & HrunD)|(rootD & e & -> & HrunD)];
      [|rewrite (run_bind_Throw _ _ _ _ _ HrunD); exists rootD; by split].
    rewrite (run_bind_OK _ _ _ _ _ HrunD).
    rewrite (run_bind_OK _ _ _ _ _ (writeNode_at P _ rootD)).
    destruct (advance P (assign_states (fun st => mkStates (states_l st) r)) root rootD _ _
                HP Hroot HgetD HformD) as [HgetE HformE].
    subst bC. cbn [assign_states] in HgetE, HformE.
    change (set_states
              (mkStates
                 (states_l (default (mkStates None None)
                              (states (set_states (mkStates l (states_r st)) b)))) r)
              (set_states (mkStates l (states_r st)) b))
      with (set_states (mkStates l r) b) in HgetE, HformE.
    cbn [mbind Result_bind fmap Result_fmap fst].
    destruct l as [l|], r as [r|];
      try (eexists; split; [done|]; by intros v token' [= <- <-]).
    rewrite (run_bind_OK _ _ _ _ _ (writeNode_at P _ _)).
    destruct (advance P (assign_solved (ok l r)) root _ _ _ HP Hroot HgetE HformE)
      as [HgetF HformF].
    eexists. split; [done|]. by intros v token' [= <- <-].
  - (* PositionalOperation *)
    intros b operator i0 i1 distance P root HP Hroot.
    destruct (start P root _ HP Hroot) as [Hget Hform].
    cbn [checkClueThrowableAt checkClueThrowable].
    rewrite (run_bind_OK _ _ _ _ _ (solvedAt_at P root _ Hroot)).
    change (clue_solved (PositionalOperation b operator i0 i1 distance)) with (solved b).
    destruct (solved b) as [s|] eqn:Hsolved;
      [exists root; split; [done|]; by intros v token' [= <- <-]|].
    destruct (positionalCheckers operator) as [check|];
      [|exists root; split; [done|]; by intros v token' [= <- <-]].
    rewrite (run_bind_OK _ _ _ _ _ (readMatrix_at root)).
    do 4 (rewrite run_bind_result;
          match goal with
          | |- context [match ?r with OK _ => _ | Throw _ => _ end] =>
              destruct r; cbn [mbind Result_bind fmap Result_fmap fst];
              [|exists root; by split]
          end).
    rewrite (run_bind_OK _ _ _ _ _ (writeNode_at P _ root)).
    destruct (advance P (assign_solved (check distance a0 a2)) root root _ _
                HP Hroot Hget Hform) as [Hget1 Hform1].
    eexists. split; [done|]. by intros v token' [= <- <-].
  - (* InOperator *)
    intros b operator lhs rhs Hl Hr P root HP Hroot.
    destruct (start P root _ HP Hroot) as [Hget Hform].
    destruct lhs as [id|a], rhs as [elements|range_start range_end].
    + cbn [checkClueThrowableAt checkClueThrowable].
      rewrite (run_bind_OK _ _ _ _ _ (solvedAt_at P root _ Hroot)).
      change (clue_solved (InOperator b operator (InIdentifier id) (SetLiteral elements)))
        with (solved b).
      destruct (solved b) as [s|] eqn:Hsolved;
        [exists root; split; [done|]; by intros v token' [= <- <-]|].
      destruct (String.eqb operator "in");
        [|exists root; split; [done|]; by intros v token' [= <- <-]].
      rewrite (run_bind_OK _ _ _ _ _ (readMatrix_at root)).
      do 2 (rewrite run_bind_result;
            match goal with
            | |- context [match ?r with OK _ => _ | Throw _ => _ end] =>
                destruct r; cbn [mbind Result_bind fmap Result_fmap fst];
                [|exists root; by split]
            end).
      unfold runResult. exists root.
      destruct (identifierInSet m p _ elements) as [out|e];
        cbn [mbind Result_bind fmap Result_fmap fst]; (split; [done|]); [|done].
      by intros v token' [= <- <-].
    + cbn [checkClueThrowableAt checkClueThrowable].
      rewrite (run_bind_OK _ _ _ _ _ (solvedAt_at P root _ Hroot)).
      change (clue_solved (InOperator b operator (InIdentifier id)
                             (RangeLiteral range_start range_end))) with (solved b).
      destruct (solved b) as [s|] eqn:Hsolved;
        [exists root; split; [done|]; by intros v token' [= <- <-]|].
      destruct (String.eqb operator "in");
        [|exists root; split; [done|]; by intros v token' [= <- <-]].
      exists root. by split.
    + rewrite checkClueThrowableAt_inSet, checkClueThrowable_inSet.
      rewrite (run_bind_OK _ _ _ _ _ (solvedAt_at P root _ Hroot)).
      change (clue_solved (InOperator b operator (InArithmetic a) (SetLiteral elements)))
        with (solved b).
      destruct (solved b) as [s|] eqn:Hsolved;
        [exists root; split; [done|]; by intros v token' [= <- <-]|].
      destruct (String.eqb operator "in");
        [|exists root; split; [done|]; by intros v token' [= <- <-]].
      simpl in Hl, Hr.
      destruct (Hl (fieldOf inLeftOperand P) root) as (root0 & Hrun0 & Hroot0);
        [eauto with confined|by simpl; rewrite Hroot|].
      destruct (parseArithmetic m p sc a) as [[val a']|e] eqn:E0; simpl in Hrun0;
        [|rewrite (run_bind_Throw _ _ _ _ _ Hrun0); exists root0; by split].
      rewrite (run_bind_OK _ _ _ _ _ Hrun0). specialize (Hroot0 _ _ eq_refl).
      destruct (advance_field inLeftOperand P a' root root root0 _ _
                  HP Hroot Hget Hform Hroot0) as [Hget0 Hform0].
      cbn [field_set inLeftOperand] in Hget0, Hform0.
      cbn [mbind Result_bind fmap Result_fmap fst].
      destruct val as [val|];
        [|exists root0; split; [done|]; by intros v token' [= <- <-]].
      destruct (arithmeticInSetAt_simulates b operator (InArithmetic a') val (pos b) P
                  elements HP Hr [] root0 Hget0) as (root1 & Hrun1 & Hroot1).
      simpl in Hrun1, Hroot1. exists root1.
      destruct (arithmeticInSet _ val (pos b) elements) as [[out elements']|e];
        simpl in Hrun1 |- *; (split; [done|]); [|done].
      intros v token' [= <- <-]. rewrite (Hroot1 _ _ eq_refl).
      by eapply rebase.
    + rewrite checkClueThrowableAt_inRange, checkClueThrowable_inRange.
      rewrite (run_bind_OK _ _ _ _ _ (solvedAt_at P root _ Hroot)).
      change (clue_solved (InOperator b operator (InArithmetic a)
                             (RangeLiteral range_start range_end))) with (solved b).
      destruct (solved b) as [s|] eqn:Hsolved;
        [exists root; split; [done|]; by intros v token' [= <- <-]|].
      destruct (String.eqb operator "in");
        [|exists root; split; [done|]; by intros v token' [= <- <-]].
      simpl in Hl, Hr. destruct Hr as [Hs He].
      destruct (Hl (fieldOf inLeftOperand P) root) as (root0 & Hrun0 & Hroot0);
        [eauto with confined|by simpl; rewrite Hroot|].
      destruct (parseArithmetic m p sc a) as [[val a']|e] eqn:E0; simpl in Hrun0;
        [|rewrite (run_bind_Throw _ _ _ _ _ Hrun0); exists root0; by split].
      rewrite (run_bind_OK _ _ _ _ _ Hrun0). specialize (Hroot0 _ _ eq_refl).
      destruct (advance_field inLeftOperand P a' root root root0 _ _
                  HP Hroot Hget Hform Hroot0) as [Hget0 Hform0].
      cbn [field_set inLeftOperand] in Hget0, Hform0.
      cbn [mbind Result_bind fmap Result_fmap fst].
      destruct val as [val|];
        [|exists root0; split; [done|]; by intros v token' [= <- <-]].
      destruct (Hs (fieldOf rangeStart P) root0) as (root1 & Hrun1 & Hroot1);
        [eauto with confined|by simpl; rewrite Hget0|].
      destruct (parseArithmetic m p sc range_start) as [[start' s']|e] eqn:E1; simpl in Hrun1;
        [|rewrite (run_bind_Throw _ _ _ _ _ Hrun1); exists root1; by split].
      rewrite (run_bind_OK _ _ _ _ _ Hrun1). specialize (Hroot1 _ _ eq_refl).
      destruct (advance_field rangeStart P s' root root0 root1 _ _
                  HP Hroot Hget0 Hform0 Hroot1) as [Hget1 Hform1].
      cbn [field_set rangeStart] in Hget1, Hform1.
      destruct (He (fieldOf rangeEnd P) root1) as (root2 & Hrun2 & Hroot2);
        [eauto with confined|by simpl; rewrite Hget1|].
      destruct (parseArithmetic m p sc range_end) as [[end' e']|e] eqn:E2; simpl in Hrun2;
        [|rewrite (run_bind_Throw _ _ _ _ _ Hrun2); exists root2; by split].
      rewrite (run_bind_OK _ _ _ _ _ Hrun2). specialize (Hroot2 _ _ eq_refl).
      destruct (advance_field rangeEnd P e' root root1 root2 _ _
                  HP Hroot Hget1 Hform1 Hroot2) as [Hget2 Hform2].
      cbn [field_set rangeEnd] in Hget2, Hform2.
      cbn [mbind Result_bind fmap Result_fmap fst].
      exists root2. destruct start' as [start'|], end' as [end'|];
        (split; [done|]); by intros v token' [= <- <-].
Qed.

End Simulation.

(** ** [checkClue] *)

(** C10: [checkClue], called with the references of a clue and of a matrix,
    returns the result of the checker and leaves every object of its caller
    as it was, the clue with all its nodes ([solved] and [states] among
    them) and the matrix; what the checkers assign, they assign in the
    clone. *)
Theorem checkClue_leaves_its_arguments (h : Heap) (clue matrix : nat)
    (c : LogicalExpression) (m : Matrix) (p : IdParser) (sc : SolverConfig) :
  h !! clue = Some (ClueObject c) →
  h !! matrix = Some (MatrixObject m) →
  ∃ h', checkClueRef h clue matrix p sc = Some (checkClue c m p sc, h')
        ∧ h' !! clue = Some (ClueObject c)
        ∧ h' !! matrix = Some (MatrixObject m)
        ∧ ∀ ref, ref ∈ dom h → h' !! ref = h !! ref.
Proof.
  intros Hclue Hmatrix. unfold checkClueRef, checkClue. rewrite Hclue.
  destruct (clue_solved c) as [s|]; [by exists h|].
  destruct (negb (hasChecker c)); [by exists h|].
  unfold allocate, structuredClone.
  pose proof (is_fresh (dom h)) as Hfresh. set (clone := fresh (dom h)) in *.
  assert (Hdom : ∀ ref, ref ∈ dom h → ref ≠ clone) by (by intros ref Href ->).
  assert (Hne : clone ≠ matrix).
  { intros E. apply (Hdom matrix); [|done]. apply elem_of_dom. by eexists. }
  destruct (proj2 (checkers_simulate h clone matrix m p sc Hmatrix Hne) c rootPlace c
              lawful_root eq_refl) as (root' & Hrun & _).
  rewrite Hrun. exists (<[clone := ClueObject root']> h).
  split; [by destruct (checkClueThrowable m p sc c) as [[b c']|e]|].
  assert (Hframe : ∀ ref, ref ∈ dom h → <[clone := ClueObject root']> h !! ref = h !! ref).
  { intros ref Href. rewrite lookup_insert_ne; [done|]. intros E. by apply (Hdom ref). }
  split; [|split; [|done]].
  - rewrite Hframe; [done|]. apply elem_of_dom. by eexists.
  - rewrite Hframe; [done|]. apply elem_of_dom. by eexists.
Qed.

Lemma checkClue_leaves_its_arguments_witness :
  (checkClueRef pairHeap 0 1 (idParser pairConfig 1) pairConfig
   = Some (true, <[2%nat := ClueObject (assign_solved true aLeftOfB)]> pairHeap))
  ∧ ∃ h', checkClueRef pairHeap 0 1 (idParser pairConfig 1) pairConfig
          = Some (checkClue aLeftOfB pairSolved (idParser pairConfig 1) pairConfig, h')
          ∧ h' !! 0%nat = Some (ClueObject aLeftOfB)
          ∧ h' !! 1%nat = Some (MatrixObject pairSolved)
          ∧ ∀ ref, ref ∈ dom pairHeap → h' !! ref = pairHeap !! ref.
Proof.
  split; [vm_compute; reflexivity|].
  apply (checkClue_leaves_its_arguments pairHeap 0 1 aLeftOfB pairSolved
           (idParser pairConfig 1) pairConfig); reflexivity.
Defined.

(** * Further properties of the solver *)

(** ** The concrete configurations are those [solve] builds *)

Lemma solverConfig_pair :
  solverConfig (mkSolveInput pair [] 20 None []) = OK (pairConfig, pairMatrix).
Proof. vm_compute. reflexivity. Qed.

Lemma solverConfig_people :
  solverConfig (mkSolveInput people [] 20 None []) = OK (peopleConfig, peopleMatrix).
Proof. vm_compute. reflexivity. Qed.

Lemma wellFormed_pairMatrix : wellFormed 2 pairMatrix.
Proof.
  apply map_Forall_to_list. unfold pairMatrix.
  apply Forall_forall. intros [key row] H.
  apply elem_of_map_to_list in H. vm_compute in H.
  repeat (case_match; simplify_eq); done.
Qed.

(** ** Propagation and elimination only narrow *)

(** X1: a call of [parseClue] that returns leaves every row in the matrix,
    turns cells only from true to false and makes no row shorter; when every
    distance of a [-] clue it propagates is at most [count], a matrix with one
    cell per position in every row stays so. *)
Theorem propagation_narrows (p : IdParser) (sc : SolverConfig) (clue clue' : LogicalExpression)
    (m m' : Matrix) :
  parseClue p sc clue m = OK (m', clue') →
  narrows m' m
  ∧ (distancesWithin (count sc) clue → wellFormed (count sc) m → wellFormed (count sc) m').
Proof. intros H. by apply parseClue_step in H. Qed.

Lemma propagation_narrows_witness :
  narrows pairSolved pairMatrix
  ∧ (distancesWithin 2 aLeftOfB → wellFormed 2 pairMatrix → wellFormed 2 pairSolved).
Proof.
  apply (propagation_narrows (idParser pairConfig 1) pairConfig aLeftOfB aLeftOfB
           pairMatrix pairSolved).
  vm_compute. reflexivity.
Defined.

(** X2: a call of [eliminateImpossibleOptions] that returns turns cells only
    from true to false, keeps every row, and keeps the length of every row of
    a matrix with one cell per position. *)
Theorem elimination_narrows (m m' : Matrix) (sc : SolverConfig) :
  eliminateImpossibleOptions m sc = OK m' →
  narrows m' m ∧ (wellFormed (count sc) m → wellFormed (count sc) m').
Proof.
  intros H. apply eliminateImpossibleOptions_step in H as [Hnarrows Hwell].
  split; [done|]. by apply Hwell.
Qed.

Lemma elimination_narrows_witness :
  trioEliminated ≠ trioOpen
  ∧ narrows trioEliminated trioOpen
  ∧ (wellFormed 3 trioOpen → wellFormed 3 trioEliminated).
Proof.
  split; [by intros H%(f_equal (fun m : Matrix => m !! "names.a"))|].
  apply (elimination_narrows trioOpen trioEliminated trioConfig).
  vm_compute. reflexivity.
Defined.

(** ** The loop of [solveOption] *)

(** X3: the [while (true)] loop of [solveOption] ends: it makes at most one
    round more than there are cells below [count] that are not yet false, and
    more fuel does not change its outcome. *)
Theorem solveOption_loop_ends (sc : SolverConfig) (state : IterationState) :
  ∃ r, ∀ fuel, (openCells (count sc) (matrix state) < fuel)%nat →
               iterationLoop sc fuel state = Some r.
Proof.
  destruct (iterationLoop_terminates sc (S (openCells (count sc) (matrix state))) state)
    as [r Hr]; [lia|].
  exists r. intros fuel Hfuel. eapply iterationLoop_fuel; [exact Hr|lia].
Qed.

(** X4: the evaluators assign nothing in a clue but the fields [solved] and
    [states] of its nodes: the clue [parseClue] leaves is the clue it was
    given up to these. *)
Theorem propagation_keeps_the_clue (p : IdParser) (sc : SolverConfig)
    (clue clue' : LogicalExpression) (m m' : Matrix) :
  parseClue p sc clue m = OK (m', clue') → eraseLogical clue' = eraseLogical clue.
Proof. intros H. by apply parseClue_erased in H. Qed.

Lemma propagation_keeps_the_clue_witness :
  countClueChecked ≠ countClue ∧ eraseLogical countClueChecked = eraseLogical countClue.
Proof.
  split; [discriminate|].
  apply (propagation_keeps_the_clue (idParser bitsConfig 1) bitsConfig countClue
           countClueChecked bitsNarrowed bitsNarrowed).
  vm_compute. reflexivity.
Defined.

(** ** The search loop *)

(** X5: the loop of [runIterations] with the budget [k1 + k2] is the loop with
    the budget [k1] followed, from the stack and the statistics it ends with,
    by the loop with the budget [k2]. *)
Theorem search_budget_splits (sc : SolverConfig) (k1 k2 : nat)
    (optionStack : list IterationState) (stats : Stats) :
  runLoop sc (k1 + k2) optionStack stats
  = r ← runLoop sc k1 optionStack stats; runLoop sc k2 r.1.2 r.2.
Proof. apply runLoop_split. Qed.

(** X6: the search never reads [stats]: started from the statistics [base]
    it ends as when started from zero, with the iterations and the options
    added to those of [base] and the solutions pushed after those of
    [base]. *)
Theorem search_only_adds_to_stats (sc : SolverConfig) (remaining : nat)
    (optionStack : list IterationState) (base : Stats) :
  runLoop sc remaining optionStack base
  = (fun r => (r.1, continueStats base r.2)) <$> runLoop sc remaining optionStack (mkStats 0 0 []).
Proof.
  rewrite <- (continueStats_zero base) at 1. apply runLoop_continue.
Qed.

Lemma solveOption_counters (sc : SolverConfig) state stats code state' stats' :
  solveOption sc state stats = OK (code, state', stats') →
  iteration_ stats' = iteration_ stats ∧ option_ stats' = option_ stats.
Proof.
  unfold solveOption. destruct (iterationLoop _ _ _) as [[state1|e]|]; try discriminate.
  intros H. apply bind_OK in H as ([code1 stats1] & Hcheck & [= <- <- <-]).
  unfold solveOptionCheck in Hcheck. apply bind_OK in Hcheck as (r & _ & Hcheck).
  destruct r as [allSolved|]; [|by simplify_eq].
  destruct (negb _); [by simplify_eq|]. destruct allSolved; by simplify_eq.
Qed.

Lemma runLoop_done (sc : SolverConfig) (remaining : nat)
    (optionStack optionStack' : list IterationState) (stats stats' : Stats) (done' : bool) :
  runLoop sc remaining optionStack stats = OK (done', optionStack', stats') →
  (done' = true ↔ optionStack' = [])
  ∧ (iteration_ stats ≤ iteration_ stats' ≤ iteration_ stats + remaining)%nat.
Proof.
  revert optionStack stats. induction remaining as [|remaining IH]; intros optionStack stats H.
  - simpl in H. injection H as <- <- <-. split; [|lia].
    by rewrite bool_decide_eq_true.
  - destruct optionStack as [|state rest].
    + simpl in H. injection H as <- <- <-. split; [done|lia].
    + cbn [runLoop] in H. apply bind_OK in H as ([newStack stats1] & Hwave & H).
      apply IH in H as [Hdone Hcount]. split; [done|]. simpl in Hcount.
      assert (iteration_ stats1 = iteration_ stats); [|lia].
      clear -Hwave. revert Hwave. generalize (@nil IterationState).
      generalize (state :: rest). intros xs. revert stats.
      induction xs as [|x xs IHxs]; intros stats acc H; simpl in H; [by simplify_eq|].
      apply bind_OK in H as ([acc1 stats2] & Hx & H). apply IHxs in H. rewrite H.
      unfold processState in Hx.
      apply bind_OK in Hx as ([[code state'] stats3] & Hsolve & Hx).
      apply solveOption_counters in Hsolve as [Hiteration _]. simpl in Hiteration.
      rewrite <- Hiteration.
      destruct (negb _); [by simplify_eq|].
      apply bind_OK in Hx as (children & _ & Hx). by simplify_eq.
Qed.

(** X7: the loop of [runIterations] reports [done] exactly when it returns
    an empty stack, and it counts at most [remaining] iterations. *)
Theorem search_done_iff_stack_empty (sc : SolverConfig) (remaining : nat)
    (optionStack optionStack' : list IterationState) (stats stats' : Stats) (done' : bool) :
  runLoop sc remaining optionStack stats = OK (done', optionStack', stats') →
  (done' = true ↔ optionStack' = [])
  ∧ (iteration_ stats ≤ iteration_ stats' ≤ iteration_ stats + remaining)%nat.
Proof. apply runLoop_done. Qed.

Lemma search_done_iff_stack_empty_witness :
  (true = true ↔ @nil IterationState = [])
  ∧ (iteration_ (mkStats 0 0 []) ≤ iteration_ (mkStats 1 1 [pairSolved])
     ≤ iteration_ (mkStats 0 0 []) + 2)%nat.
Proof.
  apply (search_done_iff_stack_empty pairConfig 2 [mkIterationState pairMatrix [aLeftOfB]] []
           (mkStats 0 0 []) (mkStats 1 1 [pairSolved]) true).
  vm_compute. reflexivity.
Defined.

(** ** [getTrueIndex] *)

Lemma getTrueIndexFrom_some (i j : nat) (ar : list bool) :
  getTrueIndexFrom i ar (Some j)
  = match countTrue ar with 0 => OK j | _ => Throw (ThrowBool true) end.
Proof.
  revert i. induction ar as [|b ar IH]; intros i; [done|].
  destruct b; [done|]. simpl. apply IH.
Qed.

Lemma getTrueIndexFrom_none (i : nat) (ar : list bool) :
  getTrueIndexFrom i ar None
  = match countTrue ar with
    | 0 => Throw (ThrowBool false)
    | 1 => OK (i + indexOfTrue ar)%nat
    | _ => Throw (ThrowBool true)
    end.
Proof.
  revert i. induction ar as [|b ar IH]; intros i; [done|]. destruct b.
  - simpl. rewrite getTrueIndexFrom_some. unfold countTrue. simpl.
    destruct (length _); [by rewrite Nat.add_0_r|done].
  - simpl. rewrite IH. unfold countTrue. simpl.
    destruct (length _) as [|[|n]]; try done. by rewrite Nat.add_succ_r.
Qed.

Lemma getTrueIndex_by_count (row : list bool) :
  getTrueIndex row
  = match countTrue row with
    | 0 => Throw (ThrowBool false)
    | 1 => OK (indexOfTrue row)
    | _ => Throw (ThrowBool true)
    end.
Proof. unfold getTrueIndex. by rewrite getTrueIndexFrom_none. Qed.

Lemma truthy_indexOfTrue (row : list bool) :
  (0 < countTrue row)%nat → truthy row (indexOfTrue row) = true.
Proof.
  induction row as [|b row IH]; unfold countTrue; simpl; [lia|].
  destruct b; [done|]. apply IH.
Qed.

Lemma getTrueIndex_cases (row : list bool) :
  (∀ i, getTrueIndex row = OK i ↔ ∀ j, truthy row j = true ↔ j = i)
  ∧ (getTrueIndex row = Throw (ThrowBool false) ↔ ∀ j, truthy row j = false)
  ∧ (getTrueIndex row = Throw (ThrowBool true)
     ↔ ∃ j1 j2, j1 ≠ j2 ∧ truthy row j1 = true ∧ truthy row j2 = true).
Proof.
  rewrite getTrueIndex_by_count.
  pose proof (length_trueIndexes row) as Hlen.
  pose proof (NoDup_trueIndexesFrom 0 row) as Hnodup. fold (trueIndexes row) in Hnodup.
  pose proof (fun i => elem_of_trueIndexes i row) as Hin.
  pose proof (truthy_indexOfTrue row) as Hindex.
  destruct (trueIndexes row) as [|i1 [|i2 rest]] eqn:E; simpl in Hlen; rewrite <- Hlen in *.
  - assert (Hnone : ∀ j, truthy row j = false).
    { intros j. destruct (truthy row j) eqn:Hj; [|done]. apply Hin in Hj. by apply elem_of_nil in Hj. }
    split; [|split].
    + intros i. split; [done|]. intros H. specialize (proj2 (H i) eq_refl).
      by rewrite Hnone.
    + done.
    + split; [done|]. intros (j1 & _ & _ & H & _). by rewrite Hnone in H.
  - assert (Hone : ∀ j, truthy row j = true ↔ j = i1).
    { intros j. rewrite <- Hin. apply list_elem_of_singleton. }
    assert (indexOfTrue row = i1) as -> by (apply Hone, Hindex; lia).
    split; [|split].
    + intros i. split.
      * intros [= <-]. done.
      * intros H. f_equal. apply (proj1 (H i1)). by apply Hone.
    + split; [done|]. intros H. specialize (proj2 (Hone i1) eq_refl). by rewrite H.
    + split; [done|]. intros (j1 & j2 & Hne & H1 & H2).
      apply Hone in H1, H2. congruence.
  - split; [|split].
    + intros i. split; [done|]. intros H.
      apply NoDup_cons in Hnodup as [Hne _].
      assert (i1 = i) by (apply H, Hin; left).
      assert (i2 = i) by (apply H, Hin; right; left).
      subst. exfalso. apply Hne. left.
    + split; [done|]. intros H.
      specialize (proj1 (Hin i1) ltac:(left)). by rewrite H.
    + split; [|done]. intros _. exists i1, i2.
      apply NoDup_cons in Hnodup as [Hne _].
      split; [|split].
      * intros ->. apply Hne. left.
      * apply Hin. left.
      * apply Hin. right. left.
Qed.

(** X8: [getTrueIndex] returns [i] exactly when cell [i] is the one true cell
    of the row; it throws [false] exactly when the row has no true cell and
    [true] exactly when it has two or more. *)
Theorem getTrueIndex_spec (row : list bool) :
  (∀ i, getTrueIndex row = OK i ↔ ∀ j, truthy row j = true ↔ j = i)
  ∧ (getTrueIndex row = Throw (ThrowBool false) ↔ ∀ j, truthy row j = false)
  ∧ (getTrueIndex row = Throw (ThrowBool true)
     ↔ ∃ j1 j2, j1 ≠ j2 ∧ truthy row j1 = true ∧ truthy row j2 = true).
Proof. apply getTrueIndex_cases. Qed.

(** ** [generateAllCombinations] *)

Lemma flat_map_bind {A B : Type} (f : A → list B) (l : list A) : flat_map f l = l ≫= f.
Proof. induction l as [|x l IH]; simpl; [done|]. by rewrite IH. Qed.

Lemma elem_of_backtrack (n remaining : nat) :
  ∀ start combination c,
  c ∈ backtrack n remaining start combination
  ↔ ∃ suffix, c = combination ++ suffix ∧ length suffix = remaining
              ∧ StronglySorted lt suffix ∧ Forall (fun i => start ≤ i < n)%nat suffix.
Proof.
  induction remaining as [|remaining IH]; intros start combination c; simpl.
  - rewrite list_elem_of_singleton. split.
    + intros ->. exists []. rewrite app_nil_r. repeat split; constructor.
    + intros (suffix & -> & Hlen & _). apply nil_length_inv in Hlen as ->.
      by rewrite app_nil_r.
  - rewrite flat_map_bind, list_elem_of_bind. split.
    + intros (i & Hc & Hi). apply elem_of_seq in Hi. apply IH in Hc as (suffix & -> & Hlen & Hsorted & Hall).
      exists (i :: suffix). rewrite <- app_assoc. simpl. split; [done|]. split; [by rewrite Hlen|].
      split.
      * constructor; [done|]. eapply Forall_impl; [exact Hall|]. simpl. lia.
      * constructor; [lia|]. eapply Forall_impl; [exact Hall|]. simpl. lia.
    + intros (suffix & -> & Hlen & Hsorted & Hall).
      destruct suffix as [|i suffix]; [discriminate|].
      apply StronglySorted_inv in Hsorted as [Hsorted Hi].
      apply Forall_cons in Hall as [Hrange Hall].
      exists i. split; [|apply elem_of_seq; lia].
      apply IH. exists suffix. rewrite <- app_assoc. simpl. split; [done|].
      split; [by injection Hlen|]. split; [done|].
      apply Forall_forall. intros j Hj.
      pose proof (proj1 (Forall_forall _ _) Hi j Hj).
      pose proof (proj1 (Forall_forall _ _) Hall j Hj). simpl in *. lia.
Qed.

Lemma NoDup_backtrack (n remaining : nat) :
  ∀ start combination, NoDup (backtrack n remaining start combination).
Proof.
  induction remaining as [|remaining IH]; intros start combination; simpl.
  - apply NoDup_singleton.
  - rewrite flat_map_bind. apply NoDup_bind; [|auto|apply NoDup_seq].
    intros i1 i2 c _ _ H1 H2.
    apply elem_of_backtrack in H1 as (s1 & -> & _), H2 as (s2 & H2 & _).
    rewrite <- !app_assoc in H2. apply app_inv_head in H2. by injection H2.
Qed.

(** X9: for every size [k] with [1 ≤ k < count], the entry [k] of the table
    that [generateAllCombinations] builds lists, without repetition, exactly
    the lists of [k] positions below [count] in increasing order. *)
Theorem combinations_are_the_subsets (count k : nat) :
  (1 ≤ k < count)%nat →
  ∃ combinations,
    generateAllCombinations count !! k = Some combinations
    ∧ NoDup combinations
    ∧ ∀ c, c ∈ combinations
           ↔ length c = k ∧ StronglySorted lt c ∧ Forall (fun i => i < count)%nat c.
Proof.
  intros Hk. exists (generateCombinations count k). split; [|split].
  - unfold generateAllCombinations. destruct k as [|k]; [lia|]. simpl.
    rewrite list_lookup_fmap, lookup_seq_lt by lia. done.
  - apply NoDup_backtrack.
  - intros c. unfold generateCombinations. rewrite elem_of_backtrack. split.
    + intros (suffix & -> & Hlen & Hsorted & Hall). simpl. split; [done|]. split; [done|].
      eapply Forall_impl; [exact Hall|]. simpl. lia.
    + intros (Hlen & Hsorted & Hall). exists c. simpl. split; [done|]. split; [done|].
      split; [done|]. eapply Forall_impl; [exact Hall|]. simpl. lia.
Qed.

Lemma combinations_are_the_subsets_witness :
  ∃ combinations,
    generateAllCombinations 3 !! 2%nat = Some combinations
    ∧ NoDup combinations
    ∧ ∀ c, c ∈ combinations
           ↔ length c = 2%nat ∧ StronglySorted lt c ∧ Forall (fun i => i < 3)%nat c.
Proof. apply (combinations_are_the_subsets 3 2). lia. Defined.

(** ** [shortNamesMap] *)

Lemma shortNamesCategories_OK great count cats :
  ∀ acc acc',
  forEach (shortNamesCategory great count) cats acc = OK acc' →
  Forall (fun entry : string * list string =>
            includes great entry.1 = true ∨ length entry.2 = count) cats
  ∧ acc'.2 = acc.2 ++ flat_map (fun entry => map (rowKey entry.1) entry.2) cats.
Proof.
  induction cats as [|[category its] rest IH]; intros acc acc' H; simpl in H.
  - injection H as <-. split; [constructor|]. simpl. by rewrite app_nil_r.
  - apply bind_OK in H as (acc1 & H1 & H). apply IH in H as [Hrest Hitems].
    unfold shortNamesCategory in H1.
    destruct (negb (length its =? count)%nat && negb (includes great category)) eqn:E;
      [discriminate|].
    injection H1 as <-. split.
    + constructor; [|done]. simpl.
      destruct (includes great category); [by left|right].
      rewrite andb_false_iff, !negb_false_iff in E. destruct E as [E|E]; [|done].
      by apply Nat.eqb_eq.
    + rewrite Hitems, shortNamesItems_items. simpl. by rewrite app_assoc.
Qed.

Lemma shortNamesCategories_Throw great count cats :
  Exists (fun entry : string * list string =>
            includes great entry.1 = false ∧ length entry.2 ≠ count) cats →
  ∀ acc, forEach (shortNamesCategory great count) cats acc
         = Throw (SolverError "All categories must have the same number of items." [1; 1]).
Proof.
  induction cats as [|[category its] rest IH]; intros Hbad acc; [by apply Exists_nil in Hbad|].
  simpl. unfold shortNamesCategory at 1.
  destruct (negb (length its =? count)%nat && negb (includes great category)) eqn:E; [done|].
  simpl. apply IH. apply Exists_cons in Hbad as [[Hgreat Hlen]|Hbad]; [|done].
  simpl in *. rewrite Hgreat in E. apply Nat.eqb_neq in Hlen. rewrite Hlen in E. done.
Qed.

(** X10: when [shortNamesMap] returns, [count] is the number of items of the
    first category that is not great, every category that is not great has
    [count] items, and [itemOptions] lists the keys [category.item] of all
    items, category by category.  The categories are taken in the order in
    which [for ... in] and [Object.entries] enumerate the object (the list
    [cats]): the categories whose name is an array index first, in ascending
    order, then the others as the header has them. *)
Theorem shortNamesMap_items (cats : Categories) (great : list string)
    (nameKV : gmap string string) (itemOptions : list string) (count : nat) :
  shortNamesMap cats great = OK (nameKV, itemOptions, count) →
  (∃ category its,
      List.find (fun entry : string * list string => negb (includes great entry.1)) cats
      = Some (category, its) ∧ count = length its)
  ∧ Forall (fun entry : string * list string =>
              includes great entry.1 = true ∨ length entry.2 = count) cats
  ∧ itemOptions = flat_map (fun entry => map (rowKey entry.1) entry.2) cats.
Proof.
  unfold shortNamesMap. intros H. destruct cats as [|entry rest]; [done|].
  destruct (List.find _ (entry :: rest)) as [[category its]|] eqn:Efind; [|done].
  apply bind_OK in H as ([kva items] & Hloop & [= <- <- <-]).
  apply shortNamesCategories_OK in Hloop as [Hall Hitems].
  split; [by exists category, its|]. split; [done|]. done.
Qed.

Lemma shortNamesMap_items_witness :
  (∃ category its,
      List.find (fun entry : string * list string => negb (includes [] entry.1)) indexNamed
      = Some (category, its) ∧ 2%nat = length its)
  ∧ Forall (fun entry : string * list string =>
              includes [] entry.1 = true ∨ length entry.2 = 2%nat) indexNamed
  ∧ ["7.x"; "7.y"; "a.x"; "a.p"; "b.x"; "b.q"]
    = flat_map (fun entry => map (rowKey entry.1) entry.2) indexNamed.
Proof.
  apply (shortNamesMap_items indexNamed []
           (list_to_map [("y", "7.y"); ("p", "a.p"); ("x", "b.x"); ("q", "b.q")])
           ["7.x"; "7.y"; "a.x"; "a.p"; "b.x"; "b.q"] 2).
  vm_compute. reflexivity.
Defined.

(** X11: [shortNamesMap] throws the error [All categories must have the same
    number of items.] whenever some category that is not great has another
    number of items than the first category that is not great. *)
Theorem shortNamesMap_uneven (cats : Categories) (great : list string)
    (category : string) (its : list string) :
  List.find (fun entry : string * list string => negb (includes great entry.1)) cats
  = Some (category, its) →
  Exists (fun entry : string * list string =>
            includes great entry.1 = false ∧ length entry.2 ≠ length its) cats →
  shortNamesMap cats great
  = Throw (SolverError "All categories must have the same number of items." [1; 1]).
Proof.
  intros Hfind Hbad. unfold shortNamesMap. destruct cats as [|entry rest]; [done|].
  rewrite Hfind. by rewrite shortNamesCategories_Throw.
Qed.

Lemma shortNamesMap_uneven_witness :
  shortNamesMap [("names", ["a"; "b"]); ("age", ["1"])] []
  = Throw (SolverError "All categories must have the same number of items." [1; 1]).
Proof.
  apply (shortNamesMap_uneven _ _ "names" ["a"; "b"]); [reflexivity|].
  apply Exists_cons_tl, Exists_cons_hd. split; [reflexivity|]. simpl. lia.
Defined.

(** *** The short names *)

Lemma spliceFirst_None item kva : spliceFirst item kva = None ↔ item ∉ kva.*1.
Proof.
  induction kva as [|[k v] rest IH]; simpl.
  - split; [intros _; apply not_elem_of_nil|done].
  - destruct (String.eqb k item) eqn:E.
    + apply String.eqb_eq in E as ->. split; [done|]. intros H. exfalso. apply H. left.
    + apply String.eqb_neq in E. rewrite not_elem_of_cons. 
      destruct (spliceFirst item rest) as [rest'|].
      * split; [done|]. intros [_ H]. by apply IH in H.
      * split; [|done]. intros _. split; [done|]. by apply IH.
Qed.

Lemma spliceFirst_keys item kva kva' :
  spliceFirst item kva = Some kva' → NoDup kva.*1 → NoDup kva'.*1 ∧ item ∉ kva'.*1.
Proof.
  revert kva'. induction kva as [|[k v] rest IH]; intros kva' H Hnodup; simpl in *; [done|].
  apply NoDup_cons in Hnodup as [Hk Hrest].
  destruct (String.eqb k item) eqn:E.
  - apply String.eqb_eq in E as ->. by injection H as <-.
  - apply String.eqb_neq in E.
    destruct (spliceFirst item rest) as [rest'|] eqn:Erest; [|done]. injection H as <-.
    destruct (IH rest' eq_refl Hrest) as [Hnodup' Hitem]. simpl. split.
    + apply NoDup_cons. split; [|done]. intros Hin. apply Hk.
      clear -Erest Hin. revert rest' Erest Hin.
      induction rest as [|[k' v'] rest IH]; intros rest' Erest Hin; simpl in *; [done|].
      destruct (String.eqb k' item).
      * injection Erest as <-. by right.
      * destruct (spliceFirst item rest) as [rest''|]; [|done]. injection Erest as <-.
        simpl in Hin. apply elem_of_cons in Hin as [->|Hin]; [left|right; by eapply IH].
    + rewrite not_elem_of_cons. done.
Qed.

Lemma fromEntries_None kva key : key ∉ kva.*1 → fromEntries kva !! key = None.
Proof.
  induction kva as [|[k v] rest IH]; simpl; [done|].
  rewrite not_elem_of_cons. intros [Hk Hrest]. rewrite fromEntries_cons, IH by done.
  by rewrite decide_False.
Qed.

Lemma fromEntries_is_Some kva key : key ∈ kva.*1 → is_Some (fromEntries kva !! key).
Proof.
  induction kva as [|[k v] rest IH]; simpl; [by intros ?%elem_of_nil|].
  rewrite fromEntries_cons. intros [->|H]%elem_of_cons.
  - destruct (fromEntries rest !! k); [done|]. by rewrite decide_True.
  - destruct (IH H) as [w ->]. done.
Qed.

Lemma shortNamesPairs great count cats :
  ∀ acc acc',
  forEach (shortNamesCategory great count) cats acc = OK acc' →
  acc' = foldl (fun acc (p : string * string) => shortNamesItem p.1 p.2 acc) acc
               (categoryPairs cats).
Proof.
  induction cats as [|[category its] rest IH]; intros acc acc' H; simpl in H.
  - by injection H as <-.
  - apply bind_OK in H as (acc1 & H1 & H). apply IH in H as ->.
    unfold shortNamesCategory in H1. destruct (_ && _); [discriminate|]. injection H1 as <-.
    unfold categoryPairs. simpl. rewrite foldl_app. f_equal.
    generalize acc. induction its as [|item its IHits]; intros acc0; simpl; [done|].
    apply IHits.
Qed.

Lemma shortNames_invariant (pairs : list (string * string)) :
  let acc := foldl (fun acc (p : string * string) => shortNamesItem p.1 p.2 acc) ([], []) pairs in
  NoDup acc.1.*1
  ∧ ∀ item,
      let occ := (filter (fun p : string * string => p.2 = item) pairs).*1 in
      fromEntries acc.1 !! item
      = if Nat.even (length occ) then None else (fun c => rowKey c item) <$> last occ.
Proof.
  induction pairs as [|[category item] pairs IH] using rev_ind; simpl.
  - split; [constructor|done].
  - rewrite foldl_app. simpl.
    destruct (foldl _ _ pairs) as [kva items]. simpl in IH. destruct IH as [Hnodup IH].
    unfold shortNamesItem. destruct (spliceFirst item kva) as [kva'|] eqn:E; simpl.
    + destruct (spliceFirst_keys _ _ _ E Hnodup) as [Hnodup' Hitem]. split; [done|].
      intros x. rewrite filter_app, fmap_app, length_app.
      destruct (decide (x = item)) as [->|Hx].
      * rewrite filter_cons_True, filter_nil by done. simpl.
        rewrite fromEntries_None by done.
        assert (Hin : item ∈ kva.*1).
        { destruct (decide (item ∈ kva.*1)); [done|]. by apply spliceFirst_None in n; congruence. }
        apply fromEntries_is_Some in Hin as [v Hv]. rewrite IH in Hv.
        rewrite Nat.add_1_r, Nat.even_succ, <- Nat.negb_even.
        by destruct (Nat.even _).
      * rewrite filter_cons_False, filter_nil by (simpl; congruence). simpl.
        rewrite app_nil_r, Nat.add_0_r. rewrite (spliceFirst_lookup _ _ _ _ E) by done.
        apply IH.
    + apply spliceFirst_None in E. split.
      * rewrite fmap_app. simpl. apply NoDup_app. split; [done|]. split.
        -- intros x Hx [->|[]%elem_of_nil]%elem_of_cons. done.
        -- apply NoDup_singleton.
      * intros x. rewrite filter_app, fmap_app, length_app, fromEntries_snoc.
        destruct (decide (x = item)) as [->|Hx].
        -- rewrite filter_cons_True, filter_nil by done. simpl.
           rewrite lookup_insert_eq, last_snoc.
           pose proof (fromEntries_None _ _ E) as Hnone. rewrite IH in Hnone.
           rewrite Nat.add_1_r, Nat.even_succ, <- Nat.negb_even.
           destruct ((filter _ pairs).*1) as [|c occ]; [done|].
           destruct (Nat.even _); [done|].
           destruct (proj2 (last_is_Some (c :: occ)) ltac:(done)) as [c' Hc'].
           by rewrite Hc' in Hnone.
        -- rewrite filter_cons_False, filter_nil by (simpl; congruence). simpl.
           rewrite app_nil_r, Nat.add_0_r, lookup_insert_ne by done. apply IH.
Qed.

(** X12: in the table [nameKV] that [shortNamesMap] returns, an item name that
    occurs an even number of times in the categories has no entry, and one
    that occurs an odd number of times stands for its last occurrence:
    [category.item], for the category that has it and that [for ... in]
    enumerates last (the categories whose name is an array index come first
    in that order, whatever their place in the header). *)
Theorem shortNamesMap_names (cats : Categories) (great : list string)
    (nameKV : gmap string string) (itemOptions : list string) (count : nat) (item : string) :
  shortNamesMap cats great = OK (nameKV, itemOptions, count) →
  nameKV !! item
  = if Nat.even (length (occurrences item cats)) then None
    else (fun category => rowKey category item) <$> last (occurrences item cats).
Proof.
  unfold shortNamesMap. intros H. destruct cats as [|entry rest]; [done|].
  destruct (List.find _ (entry :: rest)) as [[category its]|]; [|done].
  apply bind_OK in H as ([kva items] & Hloop & [= <- <- <-]).
  apply shortNamesPairs in Hloop.
  pose proof (shortNames_invariant (categoryPairs (entry :: rest))) as [_ Hinv].
  rewrite <- Hloop in Hinv. apply Hinv.
Qed.

Lemma shortNamesMap_names_witness :
  (list_to_map [("y", "7.y"); ("p", "a.p"); ("x", "b.x"); ("q", "b.q")] : gmap string string)
    !! "x"
  = if Nat.even (length (occurrences "x" indexNamed)) then None
    else (fun category => rowKey category "x") <$> last (occurrences "x" indexNamed).
Proof.
  apply (shortNamesMap_names indexNamed []
           (list_to_map [("y", "7.y"); ("p", "a.p"); ("x", "b.x"); ("q", "b.q")])
           ["7.x"; "7.y"; "a.x"; "a.p"; "b.x"; "b.q"] 2 "x").
  vm_compute. reflexivity.
Defined.

(** ** [generateInitialMatrix] *)

Lemma length_positionRow count i : length (positionRow count i) = count.
Proof. unfold positionRow. by rewrite length_insert, length_replicate. Qed.

Lemma truthy_positionRow count i j :
  truthy (positionRow count i) j = bool_decide (j = i ∧ (i < count)%nat).
Proof.
  unfold truthy, positionRow. destruct (decide (j = i ∧ (i < count)%nat)) as [[-> Hi]|Hn].
  - rewrite list_lookup_insert_eq by by rewrite length_replicate.
    simpl. symmetry. by apply bool_decide_eq_true.
  - rewrite bool_decide_eq_false_2 by done.
    destruct (<[i:=true]> (replicate count false) !! j) as [b|] eqn:E; [|done]. simpl.
    destruct (decide (j = i)) as [->|Hj].
    + apply lookup_lt_Some in E. rewrite length_insert, length_replicate in E. lia.
    + rewrite list_lookup_insert_ne in E by done. by apply lookup_replicate in E as [-> _].
Qed.

Lemma initial_items_lookup (row : list bool) (items : list string) :
  ∀ (m : Matrix) key,
  foldl (fun m item => <[item := row]> m) m items !! key
  = if decide (key ∈ items) then Some row else m !! key.
Proof.
  induction items as [|item items IH]; intros m key; cbn [foldl].
  - case_decide as H; [by apply elem_of_nil in H|done].
  - rewrite IH. destruct (decide (key = item)) as [->|Hkey].
    + rewrite lookup_insert_eq. rewrite (decide_True (P := item ∈ item :: items)) by left.
      by case_decide.
    + rewrite lookup_insert_ne by done.
      destruct (decide (key ∈ items)) as [Hin|Hin].
      * by rewrite decide_True by by right.
      * rewrite decide_False; [done|]. by intros [->|?]%elem_of_cons.
Qed.

Lemma initial_positions_lookup (count : nat) (indices : list nat) :
  ∀ (m : Matrix) key,
  NoDup indices →
  foldl (fun m i => <["#." +:+ pretty (i + 1) := positionRow count i]> m) m indices !! key
  = match list_find (fun i => key = "#." +:+ pretty (i + 1)) indices with
    | Some (_, i) => Some (positionRow count i)
    | None => m !! key
    end.
Proof.
  induction indices as [|i indices IH]; intros m key Hnodup; simpl; [done|].
  apply NoDup_cons in Hnodup as [Hi Hnodup]. rewrite IH by done.
  case_decide as Hkey.
  - subst key.
    destruct (list_find _ indices) as [[k j]|] eqn:E; simpl.
    + apply list_find_Some in E as (Hj & Heq & _). simpl in Heq.
      injection Heq as Heq.
      change (pretty (i + 1) = pretty (j + 1)) in Heq. apply (inj (@pretty nat _)) in Heq.
      assert (j = i) as -> by lia. apply list_elem_of_lookup_2 in Hj. done.
    + by rewrite lookup_insert_eq.
  - destruct (list_find _ indices) as [[k j]|]; simpl; [done|].
    by rewrite lookup_insert_ne.
Qed.

Lemma initial_wellFormed_items count (items : list string) :
  ∀ m : Matrix, wellFormed count m →
  wellFormed count (foldl (fun m item => <[item := replicate count true]> m) m items).
Proof.
  induction items as [|item items IH]; intros m Hm; simpl; [done|].
  apply IH, wellFormed_insert; [done|]. by rewrite length_replicate.
Qed.

Lemma initial_wellFormed_positions count (indices : list nat) :
  ∀ m : Matrix, wellFormed count m →
  wellFormed count
    (foldl (fun m i => <["#." +:+ pretty (i + 1) := positionRow count i]> m) m indices).
Proof.
  induction indices as [|i indices IH]; intros m Hm; simpl; [done|].
  apply IH, wellFormed_insert; [done|]. apply length_positionRow.
Qed.

(** X13: in the matrix that [generateInitialMatrix] builds every row has
    [count] cells; the row [#.k] of a position [k] in [1, count] has its one
    true cell at [k - 1]; every other row is the row of an item of
    [itemOptions] and has all its cells true. *)
Theorem initial_matrix_rows (cats : Categories) (itemOptions : list string) (count : nat) :
  let m := (generateInitialMatrix cats itemOptions count).1 in
  wellFormed count m
  ∧ (∀ i, (i < count)%nat →
          ∃ row, m !! ("#." +:+ pretty (i + 1)) = Some row
                 ∧ ∀ j, truthy row j = bool_decide (j = i))
  ∧ (∀ key row, m !! key = Some row →
       (∃ i, (i < count)%nat ∧ key = "#." +:+ pretty (i + 1))
       ∨ (key ∈ itemOptions ∧ row = replicate count true)).
Proof.
  unfold generateInitialMatrix. cbn [fst]. split; [|split].
  - apply initial_wellFormed_positions, initial_wellFormed_items.
    apply map_Forall_empty.
  - intros i Hi. rewrite initial_positions_lookup by apply NoDup_seq.
    destruct (list_find _ (seq 0 count)) as [[k j]|] eqn:E.
    + apply list_find_Some in E as (Hj & Heq & _). simpl in Heq.
      injection Heq as Heq.
      change (pretty (i + 1) = pretty (j + 1)) in Heq. apply (inj (@pretty nat _)) in Heq. assert (j = i) as -> by lia.
      eexists. split; [done|]. intros j. rewrite truthy_positionRow.
      apply bool_decide_ext. intuition.
    + apply list_find_None in E. exfalso.
      apply (proj1 (Forall_forall _ _) E i); [apply elem_of_seq; lia|done].
  - intros key row. rewrite initial_positions_lookup by apply NoDup_seq.
    destruct (list_find _ (seq 0 count)) as [[k j]|] eqn:E.
    + apply list_find_Some in E as (Hj & -> & _). intros _. left.
      apply lookup_seq in Hj as [-> Hk]. by exists k.
    + rewrite initial_items_lookup. case_decide; [|by rewrite lookup_empty].
      intros [= <-]. by right.
Qed.

(** ** Resolved names and the rows of the initial matrix *)

(** X14: with the configuration and the initial matrix that [solve] builds,
    every key that [parseIdentifier] returns for a position [d] in
    [1, count] names a row of the initial matrix, unless the name was written
    with a [#]. *)
Theorem resolved_names_have_rows (input : SolveInput) (sc : SolverConfig)
    (initialMatrix : Matrix) (d : nat) (symbol : option string) (position : Position)
    (key : string) :
  solverConfig input = OK (sc, initialMatrix) →
  (1 ≤ d ≤ count sc)%nat →
  idParser sc d symbol position = OK key →
  is_Some (initialMatrix !! key)
  ∨ ∃ name, String.prefix "#" name = true ∧ key = "#." +:+ removeHashDot name.
Proof.
  unfold solverConfig. intros Hconfig Hd Hkey.
  apply bind_OK in Hconfig as ([[kv items] n] & _ & Hconfig).
  unfold generateInitialMatrix in Hconfig. injection Hconfig as <- <-.
  unfold idParser, parseIdentifier in Hkey. cbn [nameKV itemOptions count] in *.
  destruct (match kv !! default "undefined" symbol with
            | Some name => Some name
            | None => if includes inheritedKeys (default "undefined" symbol) then None else symbol
            end) as [name|]; [|done].
  destruct (String.prefix "#" name) eqn:Hprefix.
  { injection Hkey as <-. right. by exists name. }
  left. rewrite initial_positions_lookup by apply NoDup_seq.
  destruct (list_find _ (seq 0 n)) as [[k j]|] eqn:E; [done|].
  destruct (String.eqb name "$").
  - injection Hkey as <-. apply list_find_None in E. exfalso.
    apply (proj1 (Forall_forall _ _) E (d - 1)%nat); [apply elem_of_seq; lia|].
    by replace (d - 1 + 1)%nat with d by lia.
  - destruct (includes items name) eqn:Hin; [|done]. injection Hkey as <-.
    rewrite initial_items_lookup. apply bool_decide_eq_true in Hin.
    by rewrite decide_True.
Qed.

Lemma resolved_names_have_rows_witness :
  is_Some (peopleMatrix !! "names.bob")
  ∨ ∃ name, String.prefix "#" name = true ∧ "names.bob" = "#." +:+ removeHashDot name.
Proof.
  apply (resolved_names_have_rows (mkSolveInput people [] 20 None []) peopleConfig
           peopleMatrix 1 (Some "bob") [1; 1] "names.bob").
  - vm_compute. reflexivity.
  - simpl. lia.
  - vm_compute. reflexivity.
Defined.

(** ** [parseInt] of a numeral *)

Lemma digitValue_char (x : N) :
  (x < 10)%N → digitValue 10 (pretty_N_char x) = Some (Z.of_N x).
Proof.
  intros Hx.
  assert (x = 0 ∨ x = 1 ∨ x = 2 ∨ x = 3 ∨ x = 4 ∨ x = 5 ∨ x = 6 ∨ x = 7 ∨ x = 8 ∨ x = 9)%N
    as H by lia.
  repeat (destruct H as [->|H]; [reflexivity|]). by subst.
Qed.

Lemma readDigits_go (x : N) :
  ∀ s, readDigits 10 (pretty_N_go x s) None
       = readDigits 10 s (if decide (x = 0)%N then None else Some (Z.of_N x)).
Proof.
  induction (N.lt_wf_0 x) as [x _ IH]. intros s.
  destruct (decide (x = 0)%N) as [->|Hx]; [by rewrite pretty_N_go_0|].
  rewrite pretty_N_go_step by lia. rewrite IH by (apply N.div_lt; lia).
  simpl. rewrite digitValue_char by (apply N.mod_lt; lia). f_equal. f_equal.
  pose proof (N.div_mod x 10 ltac:(lia)) as Hdiv.
  destruct (decide (x `div` 10 = 0)%N) as [H0|H0]; simpl.
  - rewrite H0 in Hdiv. lia.
  - lia.
Qed.

Lemma allDigits_go (x : N) : ∀ s, allDigits (pretty_N_go x s) = allDigits s.
Proof.
  induction (N.lt_wf_0 x) as [x _ IH]. intros s.
  destruct (decide (x = 0)%N) as [->|Hx]; [by rewrite pretty_N_go_0|].
  rewrite pretty_N_go_step by lia. rewrite IH by (apply N.div_lt; lia).
  simpl. pose proof (startsWithDigit_char (x `mod` 10) s) as H. simpl in H. by rewrite H.
Qed.

Lemma allDigits_pretty (x : N) : allDigits (pretty x) = true.
Proof. unfold pretty, pretty_N. case_decide; [done|]. by rewrite allDigits_go. Qed.

Lemma readDigits_pretty (x : N) : readDigits 10 (pretty x) None = Some (Z.of_N x).
Proof.
  unfold pretty, pretty_N. case_decide as Hx; [by subst|].
  rewrite readDigits_go. simpl. by rewrite decide_False.
Qed.

Ltac parseInt_decimal Hread :=
  match goal with
  | |- parseInt ?s = _ =>
      change (parseInt s)
        with (match readDigits 10 s None with
              | Some z => SF2Prim (binary_normalize prec emax z 0 false)
              | None => nan
              end);
      rewrite Hread; reflexivity
  end.

Lemma parseInt_digits (s : string) (z : Z) :
  allDigits s = true → readDigits 10 s None = Some z → parseInt s = number_of_Z z.
Proof.
  intros Hall Hread. destruct s as [|c s]; [done|].
  simpl in Hall. apply andb_true_iff in Hall as [Hc Hs].
  destruct c as [[] [] [] [] [] [] [] []];
    try (exfalso; clear -Hc; vm_compute in Hc; discriminate Hc);
    try parseInt_decimal Hread.
  destruct s as [|c' s]; [parseInt_decimal Hread|].
  simpl in Hs. apply andb_true_iff in Hs as [Hc' Hs].
  destruct c' as [[] [] [] [] [] [] [] []];
    try (exfalso; clear -Hc'; vm_compute in Hc'; discriminate Hc');
    parseInt_decimal Hread.
Qed.

(** X15: [parseInt] reads the decimal numeral of a natural number back as
    that number (as the double nearest to it). *)
Theorem parseInt_of_numeral (n : nat) : parseInt (pretty n) = number_of_nat n.
Proof.
  unfold pretty, pretty_nat, number_of_nat.
  rewrite (parseInt_digits _ (Z.of_N (N.of_nat n))).
  - f_equal. lia.
  - apply allDigits_pretty.
  - apply readDigits_pretty.
Qed.

(** ** Propagation never marks a clue as solved *)

Lemma parseClue_base (p : IdParser) (sc : SolverConfig) (clue clue' : LogicalExpression)
    (m m' : Matrix) :
  parseClue p sc clue m = OK (m', clue') → logical_base clue' = logical_base clue.
Proof.
  destruct clue as [b op o0|b op o0 o1|b op operands|b op a0 a1|b op i0 i1 distance|b op lhs rhs];
    simpl; unfold clue_solved; simpl; destruct (solved b); try (by intros [= _ <-]).
  - destruct (op =? "&").
    { intros H. apply bind_OK in H as ([m1 o0'] & _ & H).
      apply bind_OK in H as ([m2 o1'] & _ & H). by injection H as _ <-. }
    destruct (op =? "|"); [|by intros [= _ <-]].
    unfold structuredClone. intros H. apply bind_OK in H as ([m1 o0'] & _ & H).
    apply bind_OK in H as ([m2 o1'] & _ & H). apply bind_OK in H as (m3 & _ & H).
    apply bind_OK in H as (m4 & _ & H). by injection H as _ <-.
  - destruct (op =? "&").
    { intros H. apply bind_OK in H as ([m1 operands'] & _ & H). by injection H as _ <-. }
    destruct (op =? "|"); [|by intros [= _ <-]].
    intros H. apply bind_OK in H as ([snapshots operands'] & _ & H). by injection H as _ <-.
  - destruct (relationalOperators op); [|by intros [= _ <-]].
    unfold relationalEval.
    destruct a0 as [ba va|ba sa ca|ba oa xa ya|ba ea];
      [destruct a1 as [bb vb|bb sb cb|bb ob xb yb|bb eb]| |
       destruct a1 as [bb vb|bb sb cb|bb ob xb yb|bb eb]|
       destruct a1 as [bb vb|bb sb cb|bb ob xb yb|bb eb]];
      try (by intros [= _ <-]);
      intros H; apply bind_OK in H as ([[r|] a'] & _ & H); try (by injection H as _ <-);
      apply bind_OK in H as (m1 & _ & H); by injection H as _ <-.
  - repeat (destruct (op =? _); [intros H; apply bind_OK in H as (l & _ & H);
      apply bind_OK in H as (r & _ & H); apply bind_OK in H as (m1 & _ & H);
      by injection H as _ <-|]).
    by intros [= _ <-].
  - destruct (op =? "in"); [|by intros [= _ <-]].
    destruct lhs as [id|a]; [|by intros [= _ <-]]. destruct rhs as [elements|]; [|done].
    intros H. apply bind_OK in H as (m1 & _ & H). by injection H as _ <-.
Qed.

Lemma iterationClue_base sc clue m m' clue' :
  iterationClue sc clue m = OK (m', clue') → logical_base clue' = logical_base clue.
Proof.
  unfold iterationClue. intros H.
  change clue with ((m, clue).2). change clue' with ((m', clue').2).
  revert H. apply (forEach_invariant (fun s s' => logical_base s'.2 = logical_base s.2)).
  - done.
  - intros s1 s2 s3 H12 H23. congruence.
  - intros d [s c] [s' c'] _ Hbody. simpl in *. by apply parseClue_base in Hbody.
Qed.

Lemma iterationClues_base sc clues m m' clues' :
  iterationClues sc clues m = OK (m', clues') →
  map logical_base clues' = map logical_base clues.
Proof.
  revert m m' clues'. induction clues as [|clue rest IH]; intros m m' clues' H; simpl in H.
  - by simplify_eq.
  - apply bind_OK in H as ([m1 clue'] & H1 & H).
    apply bind_OK in H as ([m2 rest'] & H2 & H). simplify_eq. simpl.
    f_equal; [by eapply iterationClue_base|by eapply IH].
Qed.

Lemma iterationLoop_base sc fuel state state' :
  iterationLoop sc fuel state = Some (OK state') →
  map logical_base (clues state') = map logical_base (clues state).
Proof.
  revert state. induction fuel as [|fuel IH]; intros state H; [discriminate|]. simpl in H.
  destruct (iteration sc state) as [state1|e] eqn:E; [|discriminate].
  assert (E1 : map logical_base (clues state1) = map logical_base (clues state)).
  { unfold iteration in E. apply bind_OK in E as ([m1 clues'] & H1 & E).
    apply bind_OK in E as (m2 & H2 & [= <-]). simpl. by eapply iterationClues_base. }
  destruct (matrixChanged _ _ _); [|by simplify_eq].
  rewrite <- E1. by apply IH.
Qed.

(** X16: [solveOption] never assigns a field of the top node of a clue of its
    state: the checks run on clones, and the evaluators assign only below the
    top.  So a clue that enters the search without [solved] never gets it. *)
Theorem solveOption_keeps_top_nodes (sc : SolverConfig) (state state' : IterationState)
    (stats stats' : Stats) (code : Z) :
  solveOption sc state stats = OK (code, state', stats') →
  map logical_base (clues state') = map logical_base (clues state).
Proof.
  unfold solveOption. intros H.
  destruct (iterationLoop _ _ _) as [[state1|e]|] eqn:E; try discriminate.
  apply bind_OK in H as ([code1 stats1] & _ & H). injection H as _ <- _.
  by eapply iterationLoop_base.
Qed.

Lemma solveOption_keeps_top_nodes_witness :
  map logical_base (clues (mkIterationState pairSolved [aLeftOfB]))
  = map logical_base (clues (mkIterationState pairMatrix [aLeftOfB])).
Proof.
  apply (solveOption_keeps_top_nodes pairConfig (mkIterationState pairMatrix [aLeftOfB])
           (mkIterationState pairSolved [aLeftOfB]) (mkStats 0 0 [])
           (mkStats 0 0 [pairSolved]) 1%Z).
  vm_compute. reflexivity.
Defined.

(** ** Propagation keeps the assignments that satisfy the clue *)

Lemma getCell_cellOf (m : Matrix) key i b :
  getCell m key i = OK b → b = cellOf m key i ∧ is_Some (m !! key).
Proof.
  intros H. apply getCell_OK in H as (row & Hrow & ->).
  split; [by rewrite (cellOf_lookup _ _ row)|by exists row].
Qed.

Lemma setCell_cellOf (m m' : Matrix) key i v :
  setCell m key i v = OK m' →
  (∀ key' j, cellOf m' key' j
             = if decide (key' = key ∧ j = i) then v else cellOf m key' j)
  ∧ dom m' = dom m.
Proof.
  unfold setCell. intros H. apply bind_OK in H as (row & Hrow & [= <-]).
  apply getRow_OK in Hrow. split.
  - intros key' j. unfold cellOf. destruct (decide (key' = key)) as [->|Hkey].
    + rewrite lookup_insert_eq, Hrow. simpl. rewrite truthy_setIndex.
      destruct (decide (j = i)) as [->|Hj].
      * by rewrite decide_True.
      * rewrite decide_False; [done|]. by intros [_ ?].
    + rewrite lookup_insert_ne by done. rewrite decide_False; [done|]. by intros [? _].
  - apply dom_insert_lookup_L. by exists row.
Qed.

Lemma forEach_preserves {A S : Type} (I : S → Prop) (body : A → S → Result S) (xs : list A) :
  (∀ x s s', x ∈ xs → I s → body x s = OK s' → I s') →
  ∀ s s', I s → forEach body xs s = OK s' → I s'.
Proof.
  induction xs as [|x xs IH]; intros Hbody s s' Hs H; simpl in H; [by simplify_eq|].
  apply bind_OK in H as (s1 & H1 & H). eapply IH; [| |exact H].
  - intros y t t' Hy. apply Hbody. by right.
  - eapply Hbody; [left|exact Hs|exact H1].
Qed.

Lemma within_clear (M m m' : Matrix) key i :
  within M m → setCell m key i false = OK m' → cellOf M key i = false → within M m'.
Proof.
  intros Hwithin Hset HM key' j Hcell. apply setCell_cellOf in Hset as [Hset _].
  rewrite Hset. case_decide as Hd; [|by apply Hwithin].
  destruct Hd as [-> ->]. congruence.
Qed.

Lemma placedAt_inj (M : Matrix) key i j : placedAt M key i → placedAt M key j → i = j.
Proof. intros Hi Hj. apply Hj, Hi. done. Qed.

Lemma positionalDistanceEval_within (M m m' : Matrix) (sc : SolverConfig) l r dist pl :
  within M m → placedAt M l pl → placedAt M r (pl + dist) → (pl + dist < count sc)%nat →
  positionalDistanceEval m sc l r dist = OK m' → within M m'.
Proof.
  intros Hwithin Hl Hr Hrange. unfold positionalDistanceEval. intros H.
  apply bind_OK in H as (m1 & H1 & H2).
  assert (Hm1 : within M m1).
  { revert H1. apply forEach_preserves; [|done].
    intros i s s' _ Hs Hbody. cbv beta in Hbody.
    apply bind_OK in Hbody as (a & Ha & Hbody). apply getCell_cellOf in Ha as [-> _].
    apply bind_OK in Hbody as (b & Hb & Hbody).
    assert (Hne : i ≠ pl ∨ (cellOf s l i && b = true)).
    { destruct (decide (i = pl)) as [->|]; [right|by left].
      rewrite (Hs l pl) by by apply Hl.
      rewrite (Hs l pl) in Hb by by apply Hl. apply getCell_cellOf in Hb as [-> _].
      apply Hs. by apply Hr. }
    destruct (cellOf s l i && b) eqn:E; [by simplify_eq|].
    destruct Hne as [Hne|]; [|done].
    apply bind_OK in Hbody as (s1 & Hs1 & Hbody).
    eapply within_clear; [|exact Hbody|].
    - eapply within_clear; [exact Hs|exact Hs1|].
      destruct (cellOf M l i) eqn:HM; [|done]. by apply Hl in HM.
    - destruct (cellOf M r (i + dist)) eqn:HM; [|done]. apply Hr in HM. lia. }
  revert H2. apply forEach_preserves; [|done].
  intros i s s' Hi Hs Hbody. cbv beta in Hbody. apply elem_of_seq in Hi.
  apply bind_OK in Hbody as (s1 & Hs1 & Hbody).
  assert (Hs1' : within M s1).
  { case_match.
    - eapply within_clear; [exact Hs|exact Hs1|].
      destruct (cellOf M l _) eqn:HM; [|done]. apply Hl in HM. lia.
    - apply bind_OK in Hs1 as (? & _ & [= <-]). done. }
  eapply within_clear; [exact Hs1'|exact Hbody|].
  destruct (cellOf M r i) eqn:HM; [|done]. apply Hr in HM. lia.
Qed.

Lemma sweep_within (M : Matrix) clear test t indices :
  clear ≠ test → cellOf M test t = true →
  (∀ before i after, indices = before ++ i :: after → cellOf M clear i = true → t ∈ before) →
  ∀ m m', within M m → sweep clear test indices m = OK m' → within M m'.
Proof.
  intros Hne Ht. induction indices as [|i rest IH]; intros Hbefore m m' Hwithin H; simpl in H;
    [by simplify_eq|].
  apply bind_OK in H as (m1 & H1 & H). apply bind_OK in H as (b & Hb & H).
  assert (Hclear : cellOf M clear i = false).
  { destruct (cellOf M clear i) eqn:HM; [|done].
    specialize (Hbefore [] i rest eq_refl HM). by apply elem_of_nil in Hbefore. }
  assert (Hm1 : within M m1) by by eapply within_clear.
  destruct b; [by simplify_eq|].
  eapply IH; [|exact Hm1|exact H].
  intros before j after -> HM.
  specialize (Hbefore (i :: before) j after eq_refl HM).
  apply elem_of_cons in Hbefore as [->|]; [|done].
  apply getCell_cellOf in Hb as [Hb _]. apply Hm1 in Ht. congruence.
Qed.

Lemma elem_of_rev_list {A : Type} (x : A) (l : list A) : x ∈ rev l ↔ x ∈ l.
Proof. rewrite !list_elem_of_In. symmetry. apply in_rev. Qed.

Lemma seq_before (n : nat) before i after t :
  seq 0 n = before ++ i :: after → (t < i)%nat → t ∈ before.
Proof.
  intros Heq Ht.
  assert (Hi : seq 0 n !! length before = Some i).
  { rewrite Heq, lookup_app_r, Nat.sub_diag by lia. done. }
  apply lookup_seq in Hi as [Hi Hn]. simpl in Hi.
  assert (Hlookup : seq 0 n !! t = Some t) by (apply lookup_seq; lia).
  rewrite Heq, lookup_app_l in Hlookup by lia. by eapply list_elem_of_lookup_2.
Qed.

Lemma rev_seq_before (n : nat) before i after t :
  rev (seq 0 n) = before ++ i :: after → (i < t < n)%nat → t ∈ before.
Proof.
  rewrite rev_alt. change (rev_append (seq 0 n) []) with (reverse (seq 0 n)).
  intros Heq Ht.
  assert (Hlen : length (reverse (seq 0 n)) = n) by by rewrite length_reverse, length_seq.
  assert (Hi : reverse (seq 0 n) !! length before = Some i).
  { rewrite Heq, lookup_app_r, Nat.sub_diag by lia. done. }
  pose proof (lookup_lt_Some _ _ _ Hi) as Hlt. rewrite Hlen in Hlt.
  rewrite reverse_lookup in Hi by (rewrite length_seq; lia).
  rewrite length_seq in Hi. apply lookup_seq in Hi as [Hi _]. simpl in Hi.
  assert (Hlookup : reverse (seq 0 n) !! (n - S t)%nat = Some t).
  { rewrite reverse_lookup by (rewrite length_seq; lia). rewrite length_seq.
    apply lookup_seq. lia. }
  rewrite Heq, lookup_app_l in Hlookup by lia. by eapply list_elem_of_lookup_2.
Qed.

Lemma somewhereLeftEval_within (M m m' : Matrix) (sc : SolverConfig) l r pl pr :
  within M m → placedAt M l pl → placedAt M r pr → (pl < pr < count sc)%nat →
  somewhereLeftEval m sc l r = OK m' → within M m'.
Proof.
  intros Hwithin Hl Hr Hrange. unfold somewhereLeftEval. intros H.
  apply bind_OK in H as (m1 & H1 & H2).
  assert (Hne : r ≠ l).
  { intros ->. pose proof (placedAt_inj _ _ _ _ Hl Hr). lia. }
  eapply (sweep_within M l r pr); [done|by apply Hr| |
    eapply (sweep_within M r l pl); [done|by apply Hl| |exact Hwithin|exact H1]|exact H2].
  - intros before i after Heq HM. apply Hl in HM as ->.
    eapply rev_seq_before; [exact Heq|lia].
  - intros before i after Heq HM. apply Hr in HM as ->.
    eapply seq_before; [exact Heq|lia].
Qed.

Lemma within_set (M m m' : Matrix) key i v :
  within M m → setCell m key i v = OK m' → (cellOf M key i = true → v = true) → within M m'.
Proof.
  intros Hwithin Hset Hv key' j Hcell. apply setCell_cellOf in Hset as [Hset _].
  rewrite Hset. case_decide as Hd; [|by apply Hwithin].
  destruct Hd as [-> ->]. by apply Hv.
Qed.

Lemma canLoop_keeps (m : Matrix) r (count pl : nat) :
  ∀ indices can can',
  forEach (fun (i : nat) (can : list bool) =>
             c ← getCell m r i; OK (if (c : bool) then setIndex can i true else can))
          indices can = OK can' →
  (truthy can pl = true ∨ (pl ∈ indices ∧ cellOf m r pl = true)) → truthy can' pl = true.
Proof.
  induction indices as [|i rest IH]; intros can can' H Hpl; simpl in H.
  - injection H as <-. destruct Hpl as [|[[]%elem_of_nil _]]; done.
  - apply bind_OK in H as (can1 & H1 & H). apply bind_OK in H1 as (c & Hc & [= <-]).
    apply getCell_cellOf in Hc as [-> _]. eapply IH; [exact H|].
    destruct Hpl as [Hpl|[Hin Hcell]].
    + left. destruct (cellOf m r i); [|done]. rewrite truthy_setIndex. by case_decide.
    + apply elem_of_cons in Hin as [->|Hin]; [|by right].
      left. rewrite Hcell, truthy_setIndex. by rewrite decide_True.
Qed.

Lemma inSetEval_within (M m m' : Matrix) (p : IdParser) (sc : SolverConfig) id elements l pl :
  within M m → idOf p id = OK l → placedAt M l pl → (pl < count sc)%nat →
  (∃ s r, s ∈ elements ∧ p (elementIdentifier s).1 (elementIdentifier s).2 = OK r
          ∧ cellOf M r pl = true) →
  inSetEval m p sc id elements = OK m' → within M m'.
Proof.
  intros Hwithin Hid Hl Hrange (s & r & Hs & Hr & HM). unfold inSetEval. rewrite Hid. simpl.
  intros H. apply bind_OK in H as (can & Hcan & H).
  assert (Hpl : truthy can pl = true).
  { clear H. revert Hcan. generalize (replicate (count sc) false).
    induction elements as [|s0 rest IH]; intros can0 H; [by apply elem_of_nil in Hs|].
    simpl in H. apply bind_OK in H as (can1 & H1 & H).
    apply bind_OK in H1 as (r0 & Hr0 & H1).
    apply elem_of_cons in Hs as [->|Hs].
    - rewrite Hr in Hr0. injection Hr0 as <-.
      assert (Hcan1 : truthy can1 pl = true).
      { eapply (canLoop_keeps m r (count sc)); [exact H1|]. right.
        split; [apply elem_of_seq; lia|by apply Hwithin]. }
      clear -H Hcan1. revert can1 H Hcan1.
      induction rest as [|s1 rest IH]; intros can1 H Hcan1; simpl in H; [by simplify_eq|].
      apply bind_OK in H as (can2 & H2 & H). apply bind_OK in H2 as (r1 & _ & H2).
      eapply IH; [exact H|]. eapply (canLoop_keeps m r1 (count sc)); [exact H2|by left].
    - by eapply IH. }
  revert H. apply forEach_preserves; [|done].
  intros i t t' _ Ht Hbody. cbv beta in Hbody.
  apply bind_OK in Hbody as (a & Ha & Hbody). apply getCell_cellOf in Ha as [-> _].
  eapply within_set; [exact Ht|exact Hbody|].
  intros Hi. apply Hl in Hi as ->. rewrite Hpl, andb_true_r. apply Ht. by apply Hl.
Qed.

(** ** Elimination keeps the full assignments *)

Lemma matchingRows_spec (m : Matrix) (combination : list nat) (keyOf : nat → string) indices :
  combination ≠ [] →
  ∀ matching,
  matchingRows m combination (map (fun i => (i, keyOf i)) indices) = OK matching →
  matching
  = filter (fun i => forallb (fun col => negb (cellOf m (keyOf i) col)) combination = true)
           indices.
Proof.
  intros Hne. induction indices as [|i rest IH]; intros matching H; simpl in H.
  - by injection H as <-.
  - apply bind_OK in H as (b & Hb & H). apply bind_OK in H as (tl & Htl & [= <-]).
    apply IH in Htl as ->. unfold rowAvoids in Hb.
    destruct combination as [|c combination]; [done|].
    apply bind_OK in Hb as (row & Hrow & [= <-]). apply getRow_OK in Hrow.
    rewrite filter_cons. unfold cellOf. rewrite Hrow. simpl.
    destruct (negb (truthy row c) && forallb _ combination); by case_decide.
Qed.

Lemma length_filter_complement {A : Type} (P : A → Prop) `{∀ x, Decision (P x)} (l : list A) :
  (length (filter P l) + length (filter (fun x => ¬ P x) l) = length l)%nat.
Proof.
  induction l as [|x l IH]; [done|]. rewrite !filter_cons.
  destruct (decide (P x)); [rewrite decide_False by tauto|rewrite decide_True by done];
    simpl; lia.
Qed.

Lemma length_outside (count : nat) (combination : list nat) :
  NoDup combination → Forall (fun i => i < count)%nat combination →
  (length (filter (fun j => j ∉ combination) (seq 0 count)) = count - length combination)%nat.
Proof.
  intros Hnodup Hall.
  pose proof (length_filter_complement (fun j => j ∈ combination) (seq 0 count)) as Hsum.
  rewrite length_seq in Hsum.
  assert (Hperm : filter (fun j => j ∈ combination) (seq 0 count) ≡ₚ combination).
  { apply NoDup_Permutation; [apply NoDup_filter, NoDup_seq|done|].
    intros x. rewrite list_elem_of_filter, elem_of_seq. split; [by intros [? _]|].
    intros Hx. split; [done|]. pose proof (proj1 (Forall_forall _ _) Hall x Hx). simpl in *. lia. }
  rewrite Hperm in Hsum. lia.
Qed.

Lemma placedAt_indexOfTrue (M : Matrix) key row i :
  M !! key = Some row → placedAt M key i → indexOfTrue row = i.
Proof.
  intros Hrow Hi. apply Hi. rewrite (cellOf_lookup _ _ row) by done.
  apply truthy_indexOfTrue.
  pose proof (proj2 (Hi i) eq_refl) as Hcell. rewrite (cellOf_lookup _ _ row) in Hcell by done.
  apply elem_of_trueIndexes in Hcell. rewrite <- length_trueIndexes.
  destruct (trueIndexes row); [by apply elem_of_nil in Hcell|simpl; lia].
Qed.

Section Elimination.
Variables (sc : SolverConfig) (M : Matrix) (category : string) (items : list string).
Hypothesis Hassignment : assignment (count sc) M.
Hypothesis Hlength : length items = count sc.
Hypothesis Hrows : ∀ item, item ∈ items → is_Some (M !! rowKey category item).
Hypothesis Hcovers : ∀ col, (col < count sc)%nat → coversOnce M category items col.

Let keyOf (i : nat) : string := rowKey category (itemAt items i).

Lemma keyOf_row (i : nat) :
  (i < count sc)%nat →
  ∃ item row c, items !! i = Some item ∧ keyOf i = rowKey category item
                ∧ M !! keyOf i = Some row ∧ (c < count sc)%nat ∧ placedAt M (keyOf i) c.
Proof.
  intros Hi. rewrite <- Hlength in Hi. apply lookup_lt_is_Some_2 in Hi as [item Hitem].
  assert (Hkey : keyOf i = rowKey category item) by (unfold keyOf, itemAt; by rewrite Hitem).
  destruct (Hrows item) as [row Hrow]; [by eapply list_elem_of_lookup_2|].
  rewrite <- Hkey in Hrow. destruct (Hassignment _ _ Hrow) as (c & Hc & Hplaced).
  by exists item, row, c.
Qed.

Lemma covers_unique (i1 i2 col : nat) :
  (i1 < count sc)%nat → (i2 < count sc)%nat →
  cellOf M (keyOf i1) col = true → cellOf M (keyOf i2) col = true → i1 = i2.
Proof.
  intros H1 H2 Hc1 Hc2.
  destruct (keyOf_row i1 H1) as (item1 & row1 & c1 & Hitem1 & Hkey1 & Hrow1 & Hlt1 & Hp1).
  destruct (keyOf_row i2 H2) as (item2 & row2 & c2 & Hitem2 & Hkey2 & Hrow2 & Hlt2 & Hp2).
  assert (col = c1) as -> by by apply Hp1.
  destruct (Hcovers c1 Hlt1) as (j & _ & Huniq).
  rewrite (cellOf_lookup _ _ row1) in Hc1 by done.
  rewrite (cellOf_lookup _ _ row2) in Hc2 by done.
  rewrite Hkey1 in Hrow1. rewrite Hkey2 in Hrow2.
  rewrite (Huniq i1 item1 row1), (Huniq i2 item2 row2); done.
Qed.

Lemma eliminateCombination_within (k : nat) (combination : list nat) (m m' : Matrix) :
  within M m → (1 ≤ k < count sc)%nat →
  NoDup combination → Forall (fun i => i < count sc)%nat combination → length combination = k →
  eliminateCombination category items
    (map (fun i => (i, rowKey category (itemAt items i))) (seq 0 (count sc))) sc k combination m
  = OK m' →
  within M m'.
Proof.
  intros Hwithin Hk Hnodup Hall Hlen. unfold eliminateCombination. intros H.
  apply bind_OK in H as (matching & Hmatching & H).
  apply (matchingRows_spec m combination keyOf) in Hmatching;
    [|intros ->; simpl in Hlen; lia].
  destruct (length matching <? count sc - k)%nat eqn:Henough; [by simplify_eq|].
  apply Nat.ltb_ge in Henough.
  (* the rows that avoid the combination take every position outside it *)
  set (col := fun i => indexOfTrue (default [] (M !! keyOf i))).
  assert (Hcol : ∀ i, i ∈ matching →
            (i < count sc)%nat ∧ (col i < count sc)%nat ∧ (col i ∉ combination)
            ∧ placedAt M (keyOf i) (col i)).
  { intros i Hi. rewrite Hmatching in Hi. apply list_elem_of_filter in Hi as [Havoid Hi].
    apply elem_of_seq in Hi. destruct (keyOf_row i) as (item & row & c & _ & _ & Hrow & Hc & Hp);
      [lia|].
    assert (col i = c) as -> by (unfold col; rewrite Hrow; by eapply placedAt_indexOfTrue).
    split; [lia|]. split; [done|]. split; [|done].
    intros Hin. rewrite forallb_forall in Havoid.
    assert (Hc' : In c combination) by by apply list_elem_of_In.
    apply Havoid in Hc'.
    rewrite (Hwithin (keyOf i) c) in Hc'; [done|]. by apply Hp. }
  assert (Hperm : col <$> matching ≡ₚ filter (fun j => j ∉ combination) (seq 0 (count sc))).
  { apply submseteq_length_Permutation.
    - apply NoDup_submseteq.
      + apply NoDup_fmap_2_strong.
        * intros i1 i2 H1 H2 Heq. destruct (Hcol i1 H1) as (Hi1 & _ & _ & Hp1).
          destruct (Hcol i2 H2) as (Hi2 & _ & _ & Hp2).
          apply (covers_unique i1 i2 (col i1)); [done|done|by apply Hp1|].
          rewrite Heq. by apply Hp2.
        * rewrite Hmatching. apply NoDup_filter, NoDup_seq.
      + intros c [i [-> Hi]]%list_elem_of_fmap.
        destruct (Hcol i Hi) as (_ & Hc & Hout & _).
        apply list_elem_of_filter. split; [done|]. apply elem_of_seq. lia.
    - rewrite length_fmap, length_outside by done. lia. }
  revert H. apply forEach_preserves; [|done].
  intros i s s' Hi Hs Hbody. cbv beta in Hbody. apply elem_of_seq in Hi.
  case_bool_decide as Hmatch; [by simplify_eq|].
  revert Hbody. apply forEach_preserves; [|done].
  intros j t t' Hj Ht Hbody. cbv beta in Hbody. apply elem_of_seq in Hj.
  case_bool_decide as Hcomb; [by simplify_eq|].
  eapply within_clear; [exact Ht|exact Hbody|].
  destruct (cellOf M (rowKey category (itemAt items i)) j) eqn:HM; [|done].
  exfalso. apply Hmatch.
  assert (Hin : j ∈ col <$> matching).
  { rewrite Hperm. apply list_elem_of_filter. split; [done|]. apply elem_of_seq. lia. }
  apply list_elem_of_fmap in Hin as (i' & Hj' & Hi'). destruct (Hcol i' Hi') as (Hlt & _ & _ & Hp).
  assert (i' = i) as <-; [|done].
  apply (covers_unique i' i j); [done|lia| |done]. rewrite Hj'. by apply Hp.
Qed.

End Elimination.

Lemma lookupCategory_elem (cats : Categories) category items :
  lookupCategory cats category = Some items → (category, items) ∈ cats.
Proof.
  induction cats as [|[n its] rest IH]; simpl; [done|].
  destruct (String.eqb n category) eqn:E.
  - apply String.eqb_eq in E as ->. intros [= ->]. left.
  - intros H. right. by apply IH.
Qed.

Lemma StronglySorted_lt_NoDup (l : list nat) : StronglySorted lt l → NoDup l.
Proof.
  induction 1 as [|x l _ IH Hall]; constructor; [|done].
  intros Hin. pose proof (proj1 (Forall_forall _ _) Hall x Hin). simpl in *. lia.
Qed.

Lemma generateAllCombinations_lookup (count k : nat) combinations combination :
  (1 ≤ k < count)%nat →
  generateAllCombinations count !! k = Some combinations → combination ∈ combinations →
  NoDup combination ∧ Forall (fun i => i < count)%nat combination ∧ length combination = k.
Proof.
  intros Hk Hlookup Hin. unfold generateAllCombinations in Hlookup.
  destruct k as [|k]; [lia|]. simpl in Hlookup.
  rewrite list_lookup_fmap, lookup_seq_lt in Hlookup by lia. injection Hlookup as <-.
  apply elem_of_backtrack in Hin as (suffix & -> & Hlen & Hsorted & Hall). simpl.
  split; [by apply StronglySorted_lt_NoDup|]. split; [|done].
  eapply Forall_impl; [exact Hall|]. simpl. lia.
Qed.

Lemma eliminateImpossibleOptionsByCategory_within (sc : SolverConfig) (M m m' : Matrix)
    category :
  combinations sc = generateAllCombinations (count sc) → fullAssignment sc M →
  within M m → eliminateImpossibleOptionsByCategory m category sc = OK m' → within M m'.
Proof.
  intros Hcombos [Hassignment Hcategories] Hwithin. unfold eliminateImpossibleOptionsByCategory.
  destruct (count sc) as [|n] eqn:Hcount; [by intros [= <-]|].
  rewrite <- Hcount in Hcombos, Hassignment, Hcategories |- *. clear n Hcount.
  intros H. apply bind_OK in H as (items & Hitems & H).
  unfold categoryItems in Hitems.
  destruct (lookupCategory (categories sc) category) as [items'|] eqn:Hlookup; [|done].
  injection Hitems as ->. apply lookupCategory_elem in Hlookup.
  destruct (Hcategories _ _ Hlookup) as (Hlength & Hrows & Hcovers).
  revert H. apply forEach_preserves; [|done].
  intros k s s' Hk Hs Hbody. cbv beta in Hbody. apply elem_of_seq in Hk.
  destruct (combinations sc !! k) as [columnCombinations|] eqn:Hk'; [|done].
  rewrite Hcombos in Hk'.
  revert Hbody. apply forEach_preserves; [|done].
  intros combination t t' Hin Ht Hbody.
  destruct (generateAllCombinations_lookup (count sc) k _ _ ltac:(lia) Hk' Hin)
    as (Hnodup & Hall & Hlen).
  eapply (eliminateCombination_within sc M category items); try done. lia.
Qed.

Lemma eliminateImpossibleOptions_within (sc : SolverConfig) (M m m' : Matrix) :
  combinations sc = generateAllCombinations (count sc) → fullAssignment sc M →
  within M m → eliminateImpossibleOptions m sc = OK m' → within M m'.
Proof.
  intros Hcombos Hfull Hwithin. unfold eliminateImpossibleOptions.
  apply forEach_preserves; [|done].
  intros entry s s' _ Hs Hbody. by eapply eliminateImpossibleOptionsByCategory_within.
Qed.

(** X17: [eliminateImpossibleOptions] never clears a cell of a full
    assignment: when the table of combinations is the one [solve] builds and
    [M] lies within the matrix, [M] lies within the matrix after the call. *)
Theorem elimination_keeps_assignments (sc : SolverConfig) (M m m' : Matrix) :
  combinations sc = generateAllCombinations (count sc) → fullAssignment sc M →
  within M m → eliminateImpossibleOptions m sc = OK m' → within M m'.
Proof. apply eliminateImpossibleOptions_within. Qed.

(** ** Propagation of the positive clues *)

Lemma narrows_keys (m' m : Matrix) key : narrows m' m → is_Some (m' !! key) ↔ is_Some (m !! key).
Proof.
  intros H. specialize (H key). destruct H; split; intros [? ?]; done || by eexists.
Qed.

Lemma trueIndexOf_placed (count : nat) (M : Matrix) key :
  assignment count M → is_Some (M !! key) →
  ∃ i, (i < count)%nat ∧ placedAt M key i ∧ trueIndexOf M key = OK i.
Proof.
  intros Hassignment [row Hrow]. destruct (Hassignment _ _ Hrow) as (i & Hi & Hplaced).
  exists i. split; [done|]. split; [done|]. unfold trueIndexOf, getRow. rewrite Hrow. simpl.
  apply (proj1 (getTrueIndex_cases row)). intros j.
  rewrite <- (cellOf_lookup M key row) by done. apply Hplaced.
Qed.

Lemma setCell_keys (m m' : Matrix) key i v key' :
  setCell m key i v = OK m' → is_Some (m !! key) ∧ (is_Some (m' !! key') ↔ is_Some (m !! key')).
Proof.
  intros H. pose proof H as H'. apply setCell_cellOf in H' as [_ Hdom].
  unfold setCell in H. apply bind_OK in H as (row & Hrow & _). apply getRow_OK in Hrow.
  split; [by exists row|]. by rewrite <- !elem_of_dom, Hdom.
Qed.

Lemma positionalDistanceEval_rows (m m' : Matrix) (sc : SolverConfig) l r dist :
  (0 < count sc)%nat → positionalDistanceEval m sc l r dist = OK m' →
  is_Some (m !! l) ∧ is_Some (m !! r).
Proof.
  intros Hcount. unfold positionalDistanceEval. intros H.
  apply bind_OK in H as (m1 & H1 & H2).
  destruct (count sc - dist)%nat as [|n] eqn:E.
  - simpl in H1. injection H1 as <-. destruct dist as [|dist]; [lia|].
    simpl in H2. apply bind_OK in H2 as (m2 & Hm2 & _).
    apply bind_OK in Hm2 as (m3 & Hm3 & Hm2).
    apply (setCell_keys _ _ _ _ _ r) in Hm2 as [Hr _].
    assert (Hl : is_Some (m !! l) ∧ (is_Some (m3 !! r) ↔ is_Some (m !! r))).
    { case_match.
      - by apply (setCell_keys _ _ _ _ _ r) in Hm3.
      - apply bind_OK in Hm3 as (row & Hrow & [= <-]). apply getRow_OK in Hrow.
        split; [by exists row|done]. }
    destruct Hl as [Hl Hiff]. split; [done|]. by apply Hiff.
  - simpl in H1. apply bind_OK in H1 as (m2 & Hm2 & _).
    apply bind_OK in Hm2 as (a & Ha & Hm2). apply getCell_cellOf in Ha as [-> Hl].
    split; [done|]. apply bind_OK in Hm2 as (b & Hb & Hm2).
    destruct (cellOf m l 0) eqn:Ea.
    + by apply getCell_cellOf in Hb as [_ Hr].
    + simpl in Hm2. apply bind_OK in Hm2 as (m3 & Hm3 & Hm2).
      apply (setCell_keys _ _ _ _ _ r) in Hm2 as [Hr _].
      apply (setCell_keys _ _ _ _ _ r) in Hm3 as [_ Hiff]. by apply Hiff.
Qed.

Lemma somewhereLeftEval_rows (m m' : Matrix) (sc : SolverConfig) l r :
  (0 < count sc)%nat → somewhereLeftEval m sc l r = OK m' →
  is_Some (m !! l) ∧ is_Some (m !! r).
Proof.
  intros Hcount. unfold somewhereLeftEval. intros H. apply bind_OK in H as (m1 & H1 & _).
  destruct (count sc) as [|n]; [lia|]. simpl in H1.
  apply bind_OK in H1 as (m2 & Hm2 & H1). apply bind_OK in H1 as (t & Ht & _).
  apply getCell_cellOf in Ht as [_ Hl].
  pose proof (setCell_keys _ _ _ _ _ l Hm2) as [Hr Hiff]. split; [by apply Hiff|done].
Qed.

Lemma positive_operands b operator operands :
  positive (LogicalOperation b operator operands) ↔ Forall positive operands.
Proof.
  simpl. induction operands as [|c rest IH]; [by split; [constructor|]|].
  rewrite Forall_cons. by rewrite IH.
Qed.

Lemma clearRow_keeps (keep : nat → bool) (j : nat) :
  keep j = true →
  ∀ indices row,
  truthy row j = true →
  truthy (foldl (fun row i => if keep i then row else setIndex row i false) row indices) j = true.
Proof.
  intros Hkeep. induction indices as [|i rest IH]; intros row Hrow; simpl; [done|].
  apply IH. destruct (keep i) eqn:E; [done|]. rewrite truthy_setIndex.
  rewrite decide_False; [done|]. intros ->. congruence.
Qed.

Lemma intersectSnapshots_within (count : nat) (keep : string → nat → bool) (M m : Matrix) :
  within M m → (∀ key i, cellOf M key i = true → keep key i = true) →
  within M (intersectSnapshots count keep m).
Proof.
  intros Hwithin Hkeep key i HM. pose proof (Hwithin key i HM) as Hm.
  unfold cellOf, intersectSnapshots in *. rewrite map_lookup_imap.
  destruct (m !! key) as [row|]; [|done]. simpl in *.
  apply clearRow_keeps; [by apply Hkeep|done].
Qed.

Lemma checkClue_of_throwable (M : Matrix) (p : IdParser) (sc : SolverConfig) clue v checked :
  checkClueThrowable M p sc clue = OK (v, checked) → checkClue clue M p sc = v.
Proof.
  unfold checkClue, structuredClone.
  destruct clue as [b op o0|b op o0 o1|b op operands|b op a0 a1|b op i0 i1 distance|b op lhs rhs];
    simpl; unfold clue_solved; simpl; destruct (solved b); try (by intros [= <- _]);
    intros H; rewrite H; simpl.
  - destruct (op =? "!"); [done|by injection H as <- _].
  - destruct (logicalBinaryCheckers op); [done|by injection H as <- _].
  - destruct (_ || _); [done|by injection H as <- _].
  - destruct (relationalOperators op); [done|by injection H as <- _].
  - destruct (positionalCheckers op); [done|by injection H as <- _].
  - destruct (op =? "in"); [done|by injection H as <- _].
Qed.

Lemma identifierInSet_total (count : nat) (M : Matrix) (p : IdParser) (pl : nat) elements :
  assignment count M →
  Forall (fun s => ∃ r, p (elementIdentifier s).1 (elementIdentifier s).2 = OK r
                        ∧ is_Some (M !! r)) elements →
  ∃ out, identifierInSet M p pl elements = OK out
         ∧ (out = true →
            ∃ s r, s ∈ elements ∧ p (elementIdentifier s).1 (elementIdentifier s).2 = OK r
                   ∧ cellOf M r pl = true).
Proof.
  intros Hassignment. induction 1 as [|s rest (r & Hr & Hrow) _ IH]; simpl.
  - exists false. by split.
  - rewrite Hr. simpl.
    destruct (trueIndexOf_placed count M r Hassignment Hrow) as (pr & _ & Hplaced & ->). simpl.
    destruct (pl =? pr)%nat eqn:E.
    + apply Nat.eqb_eq in E as ->. exists true. split; [done|]. intros _.
      exists s, r. split; [left|]. split; [done|]. by apply Hplaced.
    + destruct IH as (out & -> & Hout). exists out. split; [done|]. intros Ho.
      destruct (Hout Ho) as (s' & r' & Hs' & Hr' & Hcell). exists s', r'.
      split; [by right|done].
Qed.

Lemma inSetEval_rows (m m' : Matrix) (p : IdParser) (sc : SolverConfig) id elements :
  (0 < count sc)%nat → inSetEval m p sc id elements = OK m' →
  (∃ l, idOf p id = OK l ∧ is_Some (m !! l))
  ∧ Forall (fun s => ∃ r, p (elementIdentifier s).1 (elementIdentifier s).2 = OK r
                          ∧ is_Some (m !! r)) elements.
Proof.
  intros Hcount. unfold inSetEval. intros H. apply bind_OK in H as (l & Hl & H).
  apply bind_OK in H as (can & Hcan & H). split.
  - exists l. split; [done|]. destruct (count sc) as [|n]; [lia|]. simpl in H.
    apply bind_OK in H as (m1 & H1 & _). apply bind_OK in H1 as (a & Ha & _).
    by apply getCell_cellOf in Ha as [_ ?].
  - clear H. revert Hcan. generalize (replicate (count sc) false).
    induction elements as [|s rest IH]; intros can0 H; [constructor|]. simpl in H.
    apply bind_OK in H as (can1 & H1 & H). apply bind_OK in H1 as (r & Hr & H1).
    constructor; [|by eapply IH]. exists r. split; [done|].
    destruct (count sc) as [|n]; [lia|]. simpl in H1.
    apply bind_OK in H1 as (can2 & H2 & _). apply bind_OK in H2 as (c & Hc & _).
    by apply getCell_cellOf in Hc as [_ ?].
Qed.

Section Soundness.
Variables (p : IdParser) (sc : SolverConfig) (M : Matrix).
Hypothesis Hcount : (0 < count sc)%nat.
Hypothesis Hcombos : combinations sc = generateAllCombinations (count sc).
Hypothesis Hfull : fullAssignment sc M.

Lemma positional_sound b operator i0 i1 distance :
  propagationSound p sc M (PositionalOperation b operator i0 i1 distance).
Proof.
  intros m m' clue' H Hkeys. destruct Hfull as [Hassignment _].
  simpl in H. unfold clue_solved in H. simpl in H.
  cbn [checkClueThrowable]. unfold clue_solved. cbn [logical_base].
  destruct (solved b) eqn:Hsolved.
  { injection H as <- <-. split; [done|]. by eexists _, _. }
  unfold positionalCheckers.
  destruct (operator =? "=") eqn:E1; [|destruct (operator =? "-") eqn:E2;
    [|destruct (operator =? "--") eqn:E3]].
  - apply bind_OK in H as (l & Hl & H). apply bind_OK in H as (r & Hr & H).
    apply bind_OK in H as (m1 & H1 & [= <- <-]). split; [done|].
    destruct (positionalDistanceEval_rows _ _ _ _ _ _ Hcount H1) as [Hlrow Hrrow].
    destruct (trueIndexOf_placed _ M l Hassignment (Hkeys _ Hlrow)) as (pl & Hpl & Hlp & Htl).
    destruct (trueIndexOf_placed _ M r Hassignment (Hkeys _ Hrrow)) as (pr & Hpr & Hrp & Htr).
    rewrite Hl. simpl. rewrite Htl. simpl. rewrite Hr. simpl. rewrite Htr. simpl.
    eexists _, _. split; [done|]. intros Hv Hwithin. apply Nat.eqb_eq in Hv as <-.
    eapply (positionalDistanceEval_within M m m1 sc l r 0 pl); try done;
      by rewrite Nat.add_0_r.
  - apply bind_OK in H as (l & Hl & H). apply bind_OK in H as (r & Hr & H).
    apply bind_OK in H as (m1 & H1 & [= <- <-]). split; [done|].
    destruct (positionalDistanceEval_rows _ _ _ _ _ _ Hcount H1) as [Hlrow Hrrow].
    destruct (trueIndexOf_placed _ M l Hassignment (Hkeys _ Hlrow)) as (pl & Hpl & Hlp & Htl).
    destruct (trueIndexOf_placed _ M r Hassignment (Hkeys _ Hrrow)) as (pr & Hpr & Hrp & Htr).
    rewrite Hl. simpl. rewrite Htl. simpl. rewrite Hr. simpl. rewrite Htr. simpl.
    eexists _, _. split; [done|]. intros Hv Hwithin. apply Z.eqb_eq in Hv.
    assert (pr = pl + default 1 distance)%nat as -> by lia.
    by eapply (positionalDistanceEval_within M m m1 sc l r _ pl).
  - apply bind_OK in H as (l & Hl & H). apply bind_OK in H as (r & Hr & H).
    apply bind_OK in H as (m1 & H1 & [= <- <-]). split; [done|].
    destruct (somewhereLeftEval_rows _ _ _ _ _ Hcount H1) as [Hlrow Hrrow].
    destruct (trueIndexOf_placed _ M l Hassignment (Hkeys _ Hlrow)) as (pl & Hpl & Hlp & Htl).
    destruct (trueIndexOf_placed _ M r Hassignment (Hkeys _ Hrrow)) as (pr & Hpr & Hrp & Htr).
    rewrite Hl. simpl. rewrite Htl. simpl. rewrite Hr. simpl. rewrite Htr. simpl.
    eexists _, _. split; [done|]. intros Hv Hwithin. apply Nat.ltb_lt in Hv.
    by eapply (somewhereLeftEval_within M m m1 sc l r pl pr).
  - injection H as <- <-. split; [done|]. by eexists _, _.
Qed.

Lemma identifierIn_sound b operator id elements :
  propagationSound p sc M (InOperator b operator (InIdentifier id) (SetLiteral elements)).
Proof.
  intros m m' clue' H Hkeys. destruct Hfull as [Hassignment _].
  simpl in H. unfold clue_solved in H. simpl in H.
  cbn [checkClueThrowable]. unfold clue_solved. cbn [logical_base].
  destruct (solved b) eqn:Hsolved.
  { injection H as <- <-. split; [done|]. by eexists _, _. }
  destruct (operator =? "in") eqn:E; [|injection H as <- <-; split; [done|]; by eexists _, _].
  apply bind_OK in H as (m1 & H1 & [= <- <-]). split; [done|].
  destruct (inSetEval_rows _ _ _ _ _ _ Hcount H1) as [(l & Hl & Hlrow) Helements].
  destruct (trueIndexOf_placed _ M l Hassignment (Hkeys _ Hlrow)) as (pl & Hpl & Hlp & Htl).
  rewrite Hl. simpl. rewrite Htl. simpl.
  destruct (identifierInSet_total (count sc) M p pl elements Hassignment)
    as (out & Hout & Hmember).
  { eapply Forall_impl; [exact Helements|]. intros s (r & Hr & Hrow). exists r. eauto. }
  rewrite Hout. simpl. eexists _, _. split; [done|]. intros -> Hwithin.
  by eapply (inSetEval_within M m m1 p sc id elements l pl); auto.
Qed.

Lemma parseClue_keys (clue clue' : LogicalExpression) (m m' : Matrix) :
  parseClue p sc clue m = OK (m', clue') →
  (∀ key, is_Some (m !! key) → is_Some (M !! key)) →
  ∀ key, is_Some (m' !! key) → is_Some (M !! key).
Proof.
  intros H Hkeys key Hkey. apply parseClue_step in H as [Hnarrows _].
  apply Hkeys. by apply (narrows_keys m' m).
Qed.

Lemma eliminate_keys (m m' : Matrix) :
  eliminateImpossibleOptions m sc = OK m' →
  (∀ key, is_Some (m !! key) → is_Some (M !! key)) →
  ∀ key, is_Some (m' !! key) → is_Some (M !! key).
Proof.
  intros H Hkeys key Hkey. apply eliminateImpossibleOptions_step in H as [Hnarrows _].
  apply Hkeys. by apply (narrows_keys m' m).
Qed.

Lemma binary_sound b operator o0 o1 :
  (operator = "&" ∨ operator = "|") →
  propagationSound p sc M o0 → propagationSound p sc M o1 →
  propagationSound p sc M (LogicalBinaryOperation b operator o0 o1).
Proof.
  intros Hop IH0 IH1 m m' clue' H Hkeys.
  simpl in H. unfold clue_solved in H. simpl in H.
  cbn [checkClueThrowable]. unfold clue_solved. cbn [logical_base].
  destruct (solved b) eqn:Hsolved.
  { injection H as <- <-. split; [done|]. by eexists _, _. }
  destruct Hop as [-> | ->]; simpl in H |- *.
  - apply bind_OK in H as ([m1 o0'] & H0 & H). apply bind_OK in H as ([m2 o1'] & H1 & H).
    injection H as <- <-.
    destruct (IH0 _ _ _ H0 Hkeys) as (-> & v0 & c0 & Hc0 & Hw0).
    destruct (IH1 _ _ _ H1 (parseClue_keys _ _ _ _ H0 Hkeys)) as (-> & v1 & c1 & Hc1 & Hw1).
    split; [done|]. rewrite Hc0. simpl. rewrite Hc1. simpl.
    eexists _, _. split; [done|]. intros [-> ->]%andb_true_iff Hwithin. auto.
  - unfold structuredClone in H.
    apply bind_OK in H as ([m1 o0'] & H0 & H). apply bind_OK in H as ([m2 o1'] & H1 & H).
    apply bind_OK in H as (e1 & He1 & H). apply bind_OK in H as (e2 & He2 & H).
    injection H as <- <-.
    destruct (IH0 _ _ _ H0 Hkeys) as (-> & v0 & c0 & Hc0 & Hw0).
    destruct (IH1 _ _ _ H1 Hkeys) as (-> & v1 & c1 & Hc1 & Hw1).
    split; [done|]. rewrite Hc0. simpl. rewrite Hc1. simpl.
    eexists _, _. split; [done|]. intros Hv Hwithin.
    apply intersectSnapshots_within; [done|]. intros key i HM.
    apply orb_true_iff in Hv as [-> | ->]; apply orb_true_iff; [left|right].
    + eapply (eliminateImpossibleOptions_within sc M m1 e1); auto.
    + eapply (eliminateImpossibleOptions_within sc M m2 e2); auto.
Qed.

Lemma parseEach_sound operands :
  Forall (propagationSound p sc M) operands →
  ∀ m m' operands',
  parseEach (parseClue p sc) operands m = OK (m', operands') →
  (∀ key, is_Some (m !! key) → is_Some (M !! key)) →
  operands' = operands
  ∧ ∀ result allSolved,
      ∃ result' allSolved' checked,
        checkOperands (checkClueThrowable M p sc) true operands result allSolved
        = OK (result', allSolved', checked)
        ∧ (result' = true → result = true ∧ (within M m → within M m')).
Proof.
  induction 1 as [|c rest Hc _ IH]; intros m m' operands' H Hkeys; simpl in H.
  - injection H as <- <-. split; [done|]. intros result allSolved. simpl.
    eexists _, _, _. split; [done|]. auto.
  - apply bind_OK in H as ([m1 c'] & H1 & H). apply bind_OK in H as ([m2 rest'] & H2 & H).
    injection H as <- <-.
    destruct (Hc _ _ _ H1 Hkeys) as (-> & v & checked & Hcheck & Hw).
    destruct (IH _ _ _ H2 (parseClue_keys _ _ _ _ H1 Hkeys)) as (-> & Hrest).
    split; [done|]. intros result allSolved. simpl. rewrite Hcheck. simpl.
    destruct (Hrest (if v then result else false)
                    (if clue_solved checked is None then false else allSolved))
      as (result' & allSolved' & checked' & -> & Hresult).
    simpl. eexists _, _, _. split; [done|]. intros Hr.
    destruct (Hresult Hr) as [Hv Hw']. destruct v; [|done]. split; [done|]. auto.
Qed.

Lemma snapshotEach_sound (m : Matrix) operands :
  Forall (propagationSound p sc M) operands →
  (∀ key, is_Some (m !! key) → is_Some (M !! key)) →
  ∀ snapshots operands',
  snapshotEach (parseClue p sc) sc m operands = OK (snapshots, operands') →
  operands' = operands
  ∧ ∀ result allSolved,
      ∃ result' allSolved' checked,
        checkOperands (checkClueThrowable M p sc) false operands result allSolved
        = OK (result', allSolved', checked)
        ∧ (result' = true → within M m →
           result = true ∨ ∃ s, s ∈ snapshots ∧ within M s).
Proof.
  intros Hall Hkeys. induction Hall as [|c rest Hc _ IH]; intros snapshots operands' H;
    simpl in H.
  - injection H as <- <-. split; [done|]. intros result allSolved. simpl.
    eexists _, _, _. split; [done|]. auto.
  - unfold structuredClone in H.
    apply bind_OK in H as ([m1 c'] & H1 & H). apply bind_OK in H as (e1 & He1 & H).
    apply bind_OK in H as ([snapshots1 rest'] & H2 & H). injection H as <- <-.
    destruct (Hc _ _ _ H1 Hkeys) as (-> & v & checked & Hcheck & Hw).
    destruct (IH _ _ H2) as (-> & Hrest).
    split; [done|]. intros result allSolved. simpl. rewrite Hcheck. simpl.
    destruct (Hrest (if v then true else result)
                    (if clue_solved checked is None then false else allSolved))
      as (result' & allSolved' & checked' & -> & Hresult).
    simpl. eexists _, _, _. split; [done|]. intros Hr Hwithin.
    destruct (Hresult Hr Hwithin) as [Hv|(s & Hs & Hws)].
    + destruct v; [|by left]. right. exists e1. split; [left|].
      eapply (eliminateImpossibleOptions_within sc M m1 e1); auto.
    + right. exists s. split; [by right|done].
Qed.

Lemma operands_sound b operator operands :
  Forall (propagationSound p sc M) operands →
  propagationSound p sc M (LogicalOperation b operator operands).
Proof.
  intros IH m m' clue' H Hkeys.
  simpl in H. unfold clue_solved in H. simpl in H.
  cbn [checkClueThrowable]. unfold clue_solved. cbn [logical_base].
  destruct (solved b) eqn:Hsolved.
  { injection H as <- <-. split; [done|]. by eexists _, _. }
  destruct (operator =? "&") eqn:E1.
  - apply bind_OK in H as ([m1 operands'] & H1 & [= <- <-]).
    destruct (parseEach_sound operands IH _ _ _ H1 Hkeys) as (-> & Hcheck).
    split; [done|]. simpl.
    destruct (Hcheck true true) as (result & allSolved & checked & -> & Hresult). simpl.
    eexists _, _. split; [done|]. intros Hr. by apply Hresult.
  - destruct (operator =? "|") eqn:E2; simpl.
    + apply bind_OK in H as ([snapshots operands'] & H1 & [= <- <-]).
      destruct (snapshotEach_sound m operands IH Hkeys _ _ H1) as (-> & Hcheck).
      split; [done|].
      destruct (Hcheck false true) as (result & allSolved & checked & -> & Hresult). simpl.
      eexists _, _. split; [done|]. intros Hr Hwithin.
      destruct (Hresult Hr Hwithin) as [|(s & Hs & Hws)]; [done|].
      apply intersectSnapshots_within; [done|]. intros key i HM.
      apply existsb_exists. exists s. split; [by apply list_elem_of_In|by apply Hws].
    + injection H as <- <-. split; [done|]. by eexists _, _.
Qed.

Lemma parseClue_sound (clue : LogicalExpression) :
  positive clue → propagationSound p sc M clue.
Proof.
  induction clue as [b op o0 IH0|b op o0 o1 IH0 IH1|b op operands IH|b op a0 a1
                    |b op i0 i1 distance|b op lhs rhs] using logical_ind; intros Hpositive.
  - done.
  - destruct Hpositive as (Hop & H0 & H1). apply binary_sound; auto.
  - apply positive_operands in Hpositive. apply operands_sound.
    eapply Forall_both; [exact IH|exact Hpositive|]. auto.
  - done.
  - apply positional_sound.
  - destruct lhs as [id|a]; [|done]. destruct rhs as [elements|]; [|done].
    apply identifierIn_sound.
Qed.

End Soundness.

(** X18: propagating a positive clue keeps every full assignment that the
    clue checker accepts: when [M] has the rows of the matrix, lies within it
    and [checkClue] returns true on [M], then [M] lies within the matrix that
    [parseClue] leaves; and [parseClue] leaves the clue as it was. *)
Theorem propagation_keeps_assignments (p : IdParser) (sc : SolverConfig) (M m m' : Matrix)
    (clue clue' : LogicalExpression) :
  (0 < count sc)%nat → combinations sc = generateAllCombinations (count sc) →
  fullAssignment sc M → positive clue →
  (∀ key, is_Some (m !! key) → is_Some (M !! key)) → within M m →
  checkClue clue M p sc = true →
  parseClue p sc clue m = OK (m', clue') →
  within M m' ∧ clue' = clue.
Proof.
  intros Hcount Hcombos Hfull Hpositive Hkeys Hwithin Hcheck H.
  destruct (parseClue_sound p sc M Hcount Hcombos Hfull clue Hpositive _ _ _ H Hkeys)
    as (-> & v & checked & Hv & Hsound).
  split; [|done]. apply Hsound; [|done].
  apply checkClue_of_throwable in Hv. congruence.
Qed.

(** ** A check that returns on a matrix returns the same on the full
    assignments within it *)

Section Stability.
Variables (p : IdParser) (count : nat) (M m : Matrix).
Hypothesis Hassignment : assignment count M.
Hypothesis Hkeys : ∀ key, is_Some (m !! key) → is_Some (M !! key).
Hypothesis Hwithin : within M m.

Lemma trueIndexOf_stable key i : trueIndexOf m key = OK i → trueIndexOf M key = OK i.
Proof.
  unfold trueIndexOf at 1. intros H. apply bind_OK in H as (row & Hrow & H).
  apply getRow_OK in Hrow.
  pose proof (proj1 (proj1 (getTrueIndex_cases row) i) H) as Hunique. clear H.
  destruct (trueIndexOf_placed count M key Hassignment) as (j & _ & Hplaced & ->);
    [apply Hkeys; by exists row|].
  f_equal. apply Hunique. rewrite <- (cellOf_lookup m key row) by done.
  apply Hwithin. by apply Hplaced.
Qed.

Lemma identifierInSet_stable l elements out :
  identifierInSet m p l elements = OK out → identifierInSet M p l elements = OK out.
Proof.
  induction elements as [|s rest IH]; simpl; [done|]. intros H.
  apply bind_OK in H as (key & Hkey & H). apply bind_OK in H as (r & Hr & H).
  rewrite Hkey. simpl. rewrite (trueIndexOf_stable _ _ Hr). simpl.
  destruct (l =? r)%nat; [done|]. by apply IH.
Qed.

Lemma checkOperands_stable (sc : SolverConfig) isAnd operands :
  Forall (fun clue => ∀ r, checkClueThrowable m p sc clue = OK r →
                           checkClueThrowable M p sc clue = OK r) operands →
  ∀ result allSolved r,
  checkOperands (checkClueThrowable m p sc) isAnd operands result allSolved = OK r →
  checkOperands (checkClueThrowable M p sc) isAnd operands result allSolved = OK r.
Proof.
  induction 1 as [|c rest Hc _ IH]; intros result allSolved r H; simpl in *; [done|].
  apply bind_OK in H as ([t c'] & Ht & H). rewrite (Hc _ Ht). simpl.
  apply bind_OK in H as ([[result' allSolved'] rest'] & Hrest & H).
  rewrite (IH _ _ _ Hrest). done.
Qed.

Lemma checkClueThrowable_stable (sc : SolverConfig) (clue : LogicalExpression) :
  positive clue →
  ∀ r, checkClueThrowable m p sc clue = OK r → checkClueThrowable M p sc clue = OK r.
Proof.
  induction clue as [b op o0 IH0|b op o0 o1 IH0 IH1|b op operands IH|b op a0 a1
                    |b op i0 i1 distance|b op lhs rhs] using logical_ind;
    intros Hpositive r; cbn [checkClueThrowable]; unfold clue_solved; cbn [logical_base];
    try done; destruct (solved b); try done.
  - destruct Hpositive as (_ & H0 & H1).
    destruct (logicalBinaryCheckers op); [|done]. intros H.
    apply bind_OK in H as ([a o0'] & Ha & H). rewrite (IH0 H0 _ Ha). simpl.
    apply bind_OK in H as ([b' o1'] & Hb & H). rewrite (IH1 H1 _ Hb). done.
  - apply positive_operands in Hpositive.
    destruct (_ || _); [|done]. intros H.
    apply bind_OK in H as ([[result allSolved] operands'] & Hops & H).
    rewrite (checkOperands_stable sc _ operands) with (r := (result, allSolved, operands'));
      [done| |done].
    eapply Forall_both; [exact IH|exact Hpositive|]. auto.
  - destruct (positionalCheckers op); [|done]. intros H.
    apply bind_OK in H as (k0 & Hk0 & H). apply bind_OK in H as (l & Hl & H).
    apply bind_OK in H as (k1 & Hk1 & H). apply bind_OK in H as (r' & Hr & H).
    rewrite Hk0. simpl. rewrite (trueIndexOf_stable _ _ Hl). simpl.
    rewrite Hk1. simpl. rewrite (trueIndexOf_stable _ _ Hr). done.
  - destruct lhs as [id|a]; [|done]. destruct rhs as [elements|]; [|done].
    destruct (op =? "in"); [|done]. intros H.
    apply bind_OK in H as (k & Hk & H). apply bind_OK in H as (l & Hl & H).
    apply bind_OK in H as (out & Hout & H).
    rewrite Hk. simpl. rewrite (trueIndexOf_stable _ _ Hl). simpl.
    rewrite (identifierInSet_stable _ _ _ Hout). done.
Qed.

Lemma checkClue_stable (sc : SolverConfig) (clue : LogicalExpression) :
  positive clue → checkClue clue m p sc = false → checkClue clue M p sc = false.
Proof.
  intros Hpositive. unfold checkClue, structuredClone.
  destruct (clue_solved clue); [done|]. destruct (negb (hasChecker clue)); [done|].
  destruct (checkClueThrowable m p sc clue) as [[v checked]|e] eqn:E; [|done].
  intros ->. by rewrite (checkClueThrowable_stable sc clue Hpositive _ E).
Qed.

End Stability.

(** X19: the clue checker rejects a branch only when it rejects every full
    assignment of the branch: if [checkClue] returns false for a positive clue
    on a matrix, it returns false on every full assignment that has the rows
    of the matrix and lies within it. *)
Theorem rejected_clue_rejects_assignments (p : IdParser) (sc : SolverConfig) (M m : Matrix)
    (clue : LogicalExpression) :
  assignment (count sc) M → (∀ key, is_Some (m !! key) → is_Some (M !! key)) → within M m →
  positive clue → checkClue clue m p sc = false → checkClue clue M p sc = false.
Proof. intros. by eapply checkClue_stable. Qed.

(** ** The validation of a state that contains a full assignment *)

Lemma cellOf_row (m : Matrix) key j :
  cellOf m key j = true → ∃ row, m !! key = Some row ∧ truthy row j = true.
Proof.
  unfold cellOf. destruct (m !! key) as [row|]; [by exists row|].
  simpl. intros H. by destruct j.
Qed.

Lemma setSparse_beyond (count : nat) (colHas : list (option bool)) (i : nat) :
  (∀ col, (count ≤ col)%nat → colHas !! col ≠ Some (Some false)) →
  ∀ col, (count ≤ col)%nat → setSparse colHas i true !! col ≠ Some (Some false).
Proof.
  intros H col Hcol. rewrite setSparse_lookup. repeat case_decide; try done. by apply H.
Qed.

Lemma markIndexes_beyond (count : nat) (tis : list nat) :
  ∀ acc,
  (∀ col, (count ≤ col)%nat → acc.2 !! col ≠ Some (Some false)) →
  ∀ col, (count ≤ col)%nat → (markIndexes acc tis).2 !! col ≠ Some (Some false).
Proof.
  unfold markIndexes. induction tis as [|ti tis IH]; intros acc H; simpl; [done|].
  apply IH. simpl. by apply setSparse_beyond.
Qed.

Lemma validateItems_beyond (sc : SolverConfig) (m : Matrix) category items :
  ∀ acc acc',
  validateItems sc m category items acc = OK (Some acc') →
  (∀ col, (count sc ≤ col)%nat → acc.2 !! col ≠ Some (Some false)) →
  ∀ col, (count sc ≤ col)%nat → acc'.2 !! col ≠ Some (Some false).
Proof.
  induction items as [|item rest IH]; intros acc acc' H Hacc; simpl in H; [by simplify_eq|].
  apply bind_OK in H as (r & Hr & H). destruct r as [acc1|]; [|done].
  eapply IH; [exact H|]. destruct acc as [a colHas]. unfold validateItem in Hr.
  apply bind_OK in Hr as (row & _ & Hr). destruct (_ && _); [done|]. injection Hr as <-.
  by apply markIndexes_beyond.
Qed.

Lemma validateItems_some (sc : SolverConfig) (m : Matrix) category items :
  (∀ item, item ∈ items → ∃ j, cellOf m (rowKey category item) j = true) →
  ∀ acc r, validateItems sc m category items acc = OK r → is_Some r.
Proof.
  induction items as [|item rest IH]; intros Hitems acc r H; simpl in H; [by simplify_eq|].
  apply bind_OK in H as (r1 & Hr1 & H).
  destruct (Hitems item ltac:(left)) as (j & Hj). apply cellOf_row in Hj as (row & Hrow & Hj).
  destruct acc as [a colHas]. unfold validateItem in Hr1. unfold getRow in Hr1.
  rewrite Hrow in Hr1. simpl in Hr1.
  assert (Hlen : (length (trueIndexes row) =? 0)%nat = false).
  { apply Nat.eqb_neq. apply elem_of_trueIndexes in Hj.
    destruct (trueIndexes row); [by apply elem_of_nil in Hj|done]. }
  rewrite Hlen in Hr1. simpl in Hr1. injection Hr1 as <-.
  eapply IH; [|exact H]. intros item' Hin. apply Hitems. by right.
Qed.

Lemma forallb_false_elem {A : Type} (f : A → bool) (l : list A) :
  forallb f l = false → ∃ x, x ∈ l ∧ f x = false.
Proof.
  induction l as [|x l IH]; simpl; [done|]. destruct (f x) eqn:E; simpl.
  - intros H. destruct (IH H) as (y & Hy & Hf). exists y. split; [by right|done].
  - intros _. exists x. split; [left|done].
Qed.

Section Validation.
Variables (sc : SolverConfig) (M m : Matrix).
Hypothesis Hfull : fullAssignment sc M.
Hypothesis Hwithin : within M m.

Lemma validateCategories_accepts (cats : Categories) :
  (∀ category items, (category, items) ∈ cats → (category, items) ∈ categories sc) →
  ∀ a r, validateCategories sc m cats a = OK r → is_Some r.
Proof.
  destruct Hfull as [Hassignment Hcategories].
  induction cats as [|[category items] rest IH]; intros Hin a r H; simpl in H;
    [by simplify_eq|].
  destruct (Hcategories category items (Hin _ _ ltac:(left))) as (Hlength & Hrows & Hcovers).
  apply bind_OK in H as (r1 & Hr1 & H).
  assert (Hsome : is_Some r1).
  { eapply validateItems_some; [|exact Hr1]. intros item Hitem.
    destruct (Hrows item Hitem) as [row Hrow].
    destruct (Hassignment _ _ Hrow) as (j & _ & Hplaced). exists j. apply Hwithin.
    by apply Hplaced. }
  destruct Hsome as [[a' colHas] ->].
  case_bool_decide as Hfalse.
  - exfalso. apply list_elem_of_lookup_1 in Hfalse as [col Hcol].
    assert (Hlt : (col < count sc)%nat).
    { destruct (decide (col < count sc)%nat); [done|]. exfalso.
      eapply (validateItems_beyond sc m category items _ _ Hr1); [|
        |exact Hcol]; [|lia].
      simpl. intros c Hc Hlookup. apply lookup_replicate in Hlookup as [_ ?]. lia. }
    destruct (Hcovers col Hlt) as (j & (item & row & Hitem & Hrow & Htrue) & _).
    assert (Hm : cellOf m (rowKey category item) col = true).
    { apply Hwithin. by rewrite (cellOf_lookup _ _ row). }
    apply cellOf_row in Hm as (row' & Hrow' & Htrue').
    apply validateItems_spec in Hr1 as (_ & _ & _ & Hmarked & _).
    specialize (Hmarked col j item row' Hitem Hrow' Htrue').
    unfold colHasAt in Hmarked. by rewrite Hcol in Hmarked.
  - eapply IH; [|exact H]. intros c its Hc. apply Hin. by right.
Qed.

Lemma validCategory_agrees category items :
  (category, items) ∈ categories sc → validCategory sc m category items →
  ∀ item j, item ∈ items →
    cellOf m (rowKey category item) j = cellOf M (rowKey category item) j.
Proof.
  destruct Hfull as [Hassignment Hcategories].
  intros Hin [Hvalid _] item j Hitem.
  destruct (Hcategories _ _ Hin) as (_ & Hrows & _).
  destruct (Hrows item Hitem) as [rowM HrowM].
  destruct (Hassignment _ _ HrowM) as (pl & _ & Hplaced).
  destruct (Hvalid item Hitem) as (row & Hrow & Hcount).
  assert (Hpl : truthy row pl = true).
  { rewrite <- (cellOf_lookup m _ row) by done. apply Hwithin. by apply Hplaced. }
  assert (Hone : countTrue row = 1%nat).
  { assert (1 ≤ countTrue row)%nat.
    { rewrite <- length_trueIndexes. apply elem_of_trueIndexes in Hpl.
      destruct (trueIndexes row); [by apply elem_of_nil in Hpl|simpl; lia]. }
    destruct (includes _ _); lia. }
  assert (Hunique : ∀ i, truthy row i = true → i = pl).
  { intros i Hi. apply elem_of_trueIndexes in Hi, Hpl.
    rewrite <- length_trueIndexes in Hone.
    destruct (trueIndexes row) as [|x [|y rest]]; try done.
    apply list_elem_of_singleton in Hi, Hpl. congruence. }
  rewrite (cellOf_lookup m _ row) by done.
  destruct (truthy row j) eqn:Hj.
  - apply Hunique in Hj as ->. symmetry. by apply Hplaced.
  - destruct (cellOf M (rowKey category item) j) eqn:HM; [|done].
    apply Hplaced in HM as ->. congruence.
Qed.

End Validation.

Lemma solveOptionCheck_accepts (sc : SolverConfig) (M : Matrix)
    (state : IterationState) (stats stats' : Stats) (code : Z) :
  fullAssignment sc M →
  (∀ key, is_Some (matrix state !! key) → is_Some (M !! key)) → within M (matrix state) →
  Forall positive (clues state) →
  (∀ clue, clue ∈ clues state → checksTrue sc M clue) →
  solveOptionCheck sc state stats = OK (code, stats') →
  code = 0%Z
  ∨ (code = 1%Z
     ∧ solutions_ stats' = solutions_ stats ++ [matrix state]
     ∧ ∀ category items item j, (category, items) ∈ categories sc → item ∈ items →
         cellOf (matrix state) (rowKey category item) j = cellOf M (rowKey category item) j).
Proof.
  intros Hfull Hkeys Hwithin Hpositive Hchecks H.
  pose proof (solveOptionCheck_spec _ _ _ _ _ H) as Hspec.
  unfold solveOptionCheck in H. apply bind_OK in H as (r & Hr & H).
  destruct (validateCategories_accepts sc M (matrix state) Hfull Hwithin (categories sc)
              ltac:(auto) _ _ Hr) as [allSolved ->].
  destruct (negb (checkClues sc state)) eqn:Hclues.
  - exfalso. apply negb_true_iff in Hclues. unfold checkClues in Hclues.
    apply forallb_false_elem in Hclues as (clue & Hclue & Hd).
    apply forallb_false_elem in Hd as (d & Hd & Hfalse).
    apply elem_of_dynamicPositions in Hd as [Hrange Hdollar].
    destruct Hfull as [Hassignment _].
    apply (checkClue_stable (idParser sc d) (count sc) M (matrix state) Hassignment Hkeys
             Hwithin sc clue) in Hfalse.
    + rewrite (Hchecks clue Hclue d Hrange Hdollar) in Hfalse. done.
    + by apply (proj1 (Forall_forall _ _) Hpositive).
  - destruct allSolved; [|left; by injection H as <- _].
    right. injection H as <- <-. split; [done|].
    destruct Hspec as [(_ & [Hvalid _] & _)|[? _]]; [|done]. split; [done|].
    intros category items item j Hin Hitem.
    by apply (validCategory_agrees sc M (matrix state) Hfull Hwithin category items Hin
                (Hvalid _ _ Hin)).
Qed.

(** X20: [solveOption]'s validation never rejects a state that contains an
    accepted assignment: when a full assignment [M] has the rows of the
    state's matrix, lies within it and passes [checkClue] for every clue (all
    positive), the code is 0 or 1, never -1 or -2; and when the code is 1 the
    recorded matrix has the cells of [M] in every row of every category. *)
Theorem validation_keeps_assignments (sc : SolverConfig) (M : Matrix)
    (state : IterationState) (stats stats' : Stats) (code : Z) :
  fullAssignment sc M →
  (∀ key, is_Some (matrix state !! key) → is_Some (M !! key)) → within M (matrix state) →
  Forall positive (clues state) →
  (∀ clue, clue ∈ clues state → checksTrue sc M clue) →
  solveOptionCheck sc state stats = OK (code, stats') →
  code = 0%Z
  ∨ (code = 1%Z
     ∧ solutions_ stats' = solutions_ stats ++ [matrix state]
     ∧ ∀ category items item j, (category, items) ∈ categories sc → item ∈ items →
         cellOf (matrix state) (rowKey category item) j = cellOf M (rowKey category item) j).
Proof. apply solveOptionCheck_accepts. Qed.

(** ** The search finds every full assignment that the clues accept *)

Section Completeness.
Variables (sc : SolverConfig) (M : Matrix) (clues0 : list LogicalExpression).
Hypothesis Hcount : (0 < count sc)%nat.
Hypothesis Hcombos : combinations sc = generateAllCombinations (count sc).
Hypothesis Hunnamed : lookupCategory (categories sc) "" = None.
Hypothesis Hfull : fullAssignment sc M.
Hypothesis Hpositive : Forall positive clues0.
Hypothesis Hchecks : ∀ clue, clue ∈ clues0 → checksTrue sc M clue.

Lemma iterationClue_contains clue (m m' : Matrix) clue' :
  clue ∈ clues0 →
  within M m → (∀ key, is_Some (m !! key) → is_Some (M !! key)) →
  iterationClue sc clue m = OK (m', clue') →
  clue' = clue ∧ within M m' ∧ ∀ key, is_Some (m' !! key) → is_Some (M !! key).
Proof.
  intros Hclue Hwithin Hkeys. unfold iterationClue. intros H.
  cut ((m', clue').2 = clue ∧ within M (m', clue').1
       ∧ ∀ key, is_Some ((m', clue').1 !! key) → is_Some (M !! key)); [done|].
  revert H.
  apply (forEach_preserves (fun s : Matrix * LogicalExpression =>
           s.2 = clue ∧ within M s.1 ∧ ∀ key, is_Some (s.1 !! key) → is_Some (M !! key)));
    [|done].
  intros d [s c] [s' c'] Hd (Hc & Hs & Hk) Hbody. simpl in *. subst c.
  apply elem_of_dynamicPositions in Hd as [Hrange Hdollar].
  destruct (parseClue_sound (idParser sc d) sc M Hcount Hcombos Hfull clue
              (proj1 (Forall_forall _ _) Hpositive clue Hclue) _ _ _ Hbody Hk)
    as (-> & v & checked & Hv & Hsound).
  split; [done|]. split.
  - apply Hsound; [|done]. apply checkClue_of_throwable in Hv.
    rewrite <- Hv. by apply Hchecks.
  - by eapply parseClue_keys.
Qed.

Lemma iterationClues_contains clues :
  (∀ clue, clue ∈ clues → clue ∈ clues0) →
  ∀ (m m' : Matrix) clues',
  within M m → (∀ key, is_Some (m !! key) → is_Some (M !! key)) →
  iterationClues sc clues m = OK (m', clues') →
  clues' = clues ∧ within M m' ∧ ∀ key, is_Some (m' !! key) → is_Some (M !! key).
Proof.
  induction clues as [|clue rest IH]; intros Hin m m' clues' Hwithin Hkeys H; simpl in H.
  - by simplify_eq.
  - apply bind_OK in H as ([m1 clue'] & H1 & H). apply bind_OK in H as ([m2 rest'] & H2 & H).
    injection H as <- <-.
    destruct (iterationClue_contains clue m m1 clue' (Hin _ ltac:(left)) Hwithin Hkeys H1)
      as (-> & Hw1 & Hk1).
    destruct (IH (fun c Hc => Hin c ltac:(by right)) m1 m2 rest' Hw1 Hk1 H2)
      as (-> & Hw2 & Hk2).
    done.
Qed.

Lemma iteration_contains state state' :
  contains M clues0 state → iteration sc state = OK state' → contains M clues0 state'.
Proof.
  intros (Hclues & Hwithin & Hkeys). unfold iteration. intros H.
  apply bind_OK in H as ([m1 clues'] & H1 & H). apply bind_OK in H as (m2 & H2 & [= <-]).
  destruct (iterationClues_contains (clues state) ltac:(by rewrite Hclues) _ _ _
              Hwithin Hkeys H1) as (-> & Hw1 & Hk1).
  split; [done|]. simpl. split.
  - by eapply (eliminateImpossibleOptions_within sc M m1 m2).
  - by eapply eliminate_keys.
Qed.

Lemma iterationLoop_contains fuel :
  ∀ state state', contains M clues0 state →
  iterationLoop sc fuel state = Some (OK state') → contains M clues0 state'.
Proof.
  induction fuel as [|fuel IH]; intros state state' Hstate H; [done|]. simpl in H.
  destruct (iteration sc state) as [state1|e] eqn:E; [|done].
  apply (iteration_contains _ _ Hstate) in E.
  destruct (matrixChanged _ _ _); [by eapply IH|by simplify_eq].
Qed.

(** *** The children of a state *)

Lemma findMinimum_column (m : Matrix) minimum :
  findMinimum sc m = OK minimum →
  match minimum with Some (_, _, col) => (col < count sc)%nat | None => True end.
Proof.
  unfold findMinimum.
  apply (forEach_preserves (fun minimum : option (nat * string * nat) =>
           match minimum with Some (_, _, col) => (col < count sc)%nat | None => True end));
    [|done].
  intros entry s s' _ Hs.
  apply (forEach_preserves (fun minimum : option (nat * string * nat) =>
           match minimum with Some (_, _, col) => (col < count sc)%nat | None => True end));
    [|done].
  intros col t t' Hcol Ht Hbody. apply elem_of_seq in Hcol.
  unfold scanColumn in Hbody. apply bind_OK in Hbody as (n & _ & [= <-]).
  destruct (_ && _); [lia|done].
Qed.

Lemma forceItem_contains state category items col item child :
  contains M clues0 state →
  (∀ it, it ∈ items → cellOf M (rowKey category it) col = true → it = item) →
  forceItem state category items col item = OK child → contains M clues0 child.
Proof.
  intros (Hclues & Hwithin & Hkeys) Hunique. unfold forceItem, structuredClone. intros H.
  apply bind_OK in H as (m1 & H1 & H). apply bind_OK in H as (m2 & H2 & [= <-]).
  assert (Hm1 : (∀ key i, cellOf M key i = true →
                   (key = rowKey category item ∧ i = col) ∨ cellOf m1 key i = true)
                ∧ ∀ key, is_Some (m1 !! key) → is_Some (M !! key)).
  { revert H1.
    apply (forEach_preserves (fun s : Matrix =>
             (∀ key i, cellOf M key i = true →
                (key = rowKey category item ∧ i = col) ∨ cellOf s key i = true)
             ∧ ∀ key, is_Some (s !! key) → is_Some (M !! key))); [|by split; auto].
    intros it s s' Hit [Hs Hk] Hbody. cbv beta in Hbody. split.
    - intros key i HM. destruct (Hs key i HM) as [|Hcell]; [by left|].
      pose proof (setCell_cellOf _ _ _ _ _ Hbody) as [Hset _]. rewrite Hset.
      case_decide as Hd; [|by right]. destruct Hd as [-> ->]. left.
      by rewrite (Hunique it Hit HM).
    - intros key Hkey. apply Hk. by apply (setCell_keys _ _ _ _ _ key Hbody). }
  destruct Hm1 as [Hcells Hk1]. split; [done|]. simpl. split.
  - intros key i HM. pose proof (setCell_cellOf _ _ _ _ _ H2) as [Hset _]. rewrite Hset.
    case_decide as Hd; [done|]. destruct (Hcells key i HM) as [[-> ->]|]; [|done].
    exfalso. by apply Hd.
  - intros key Hkey. apply Hk1. by apply (setCell_keys _ _ _ _ _ key H2).
Qed.

Lemma expandState_contains state children :
  contains M clues0 state → expandState sc state = OK children →
  ∃ child, child ∈ children ∧ contains M clues0 child.
Proof.
  intros Hstate. pose proof Hstate as (Hclues & Hwithin & Hkeys).
  unfold expandState. intros H. apply bind_OK in H as (minimum & Hminimum & H).
  apply findMinimum_column in Hminimum.
  destruct minimum as [[[n category] col]|]; [|by rewrite Hunnamed in H].
  destruct (lookupCategory (categories sc) category) as [items|] eqn:Hlookup; [|done].
  apply lookupCategory_elem in Hlookup. destruct Hfull as [Hassignment Hcategories].
  destruct (Hcategories _ _ Hlookup) as (_ & _ & Hcovers).
  destruct (Hcovers col Hminimum) as (j & (item & row & Hitem & Hrow & Htrue) & Huniq).
  assert (HM : cellOf M (rowKey category item) col = true)
    by by rewrite (cellOf_lookup _ _ row).
  assert (Hunique : ∀ it, it ∈ items → cellOf M (rowKey category it) col = true → it = item).
  { intros it [j' Hj']%list_elem_of_lookup_1 Hcell.
    apply cellOf_row in Hcell as (row' & Hrow' & Htrue').
    rewrite (Huniq j' it row' Hj' Hrow' Htrue') in Hj'. congruence. }
  assert (Hin : item ∈ items) by by eapply list_elem_of_lookup_2.
  revert H. match goal with |- forEach ?f _ _ = _ → _ => set (body := f) end. intros H.
  assert (Hloop : ∀ its acc,
            forEach body its acc = OK children →
            (∃ child, child ∈ acc ∧ contains M clues0 child) ∨ item ∈ its →
            ∃ child, child ∈ children ∧ contains M clues0 child).
  { intros its. induction its as [|it its IH]; intros acc Hrun Hacc; simpl in Hrun.
    - injection Hrun as <-. destruct Hacc as [|[]%elem_of_nil]; done.
    - apply bind_OK in Hrun as (acc1 & H1 & Hrun). eapply IH; [exact Hrun|].
      unfold body in H1.
      apply bind_OK in H1 as (c & Hc & H1). apply getCell_cellOf in Hc as [-> _].
      destruct Hacc as [(child & Hchild & Hgood)|Hit].
      + left. exists child. split; [|done].
        destruct (cellOf (matrix state) (rowKey category it) col); [|by simplify_eq].
        apply bind_OK in H1 as (new & _ & [= <-]). apply elem_of_app. by left.
      + apply elem_of_cons in Hit as [Heq|Hit]; [|by right].
        subst it. left. rewrite (Hwithin _ _ HM) in H1.
        apply bind_OK in H1 as (new & Hnew & [= <-]). exists new.
        split; [apply elem_of_app; right; left|].
        by eapply forceItem_contains. }
  eapply Hloop; [exact H|]. by right.
Qed.

(** *** The loop *)

Lemma solveOption_contains state stats code state' stats' :
  contains M clues0 state →
  solveOption sc state stats = OK (code, state', stats') →
  contains M clues0 state'
  ∧ (code = 0%Z ∧ stats' = stats
     ∨ code = 1%Z ∧ solutions_ stats' = solutions_ stats ++ [matrix state']
       ∧ agrees sc (matrix state') M).
Proof.
  intros Hstate. unfold solveOption. intros H.
  destruct (iterationLoop _ _ _) as [[state1|e]|] eqn:E; try done.
  apply bind_OK in H as ([code1 stats1] & Hcheck & [= <- <- <-]).
  apply (iterationLoop_contains _ _ _ Hstate) in E. split; [done|].
  destruct E as (Hclues & Hwithin & Hkeys).
  pose proof (solveOptionCheck_spec _ _ _ _ _ Hcheck) as Hspec.
  destruct (solveOptionCheck_accepts sc M state1 stats stats1 code1 Hfull Hkeys Hwithin
              ltac:(by rewrite Hclues) ltac:(by rewrite Hclues) Hcheck)
    as [->|(-> & Hsolutions & Hagrees)].
  - left. split; [done|]. by destruct Hspec as [[? _]|[_ ->]].
  - right. split; [done|]. split; [done|]. exact Hagrees.
Qed.

Lemma processState_solutions state acc acc' m :
  processState sc state acc = OK acc' →
  m ∈ solutions_ acc.2 → m ∈ solutions_ acc'.2.
Proof.
  destruct acc as [stack stats]. unfold processState. intros H Hm.
  apply bind_OK in H as ([[code state'] stats1] & Hsolve & H).
  apply solveOption_spec in Hsolve as [_ Hcode]. simpl in Hcode, Hm.
  assert (Hm1 : m ∈ solutions_ stats1).
  { destruct Hcode as [(_ & _ & ->)|[_ ->]]; [apply elem_of_app; by left|done]. }
  destruct (negb _); [by simplify_eq|].
  apply bind_OK in H as (children & _ & [= <-]). done.
Qed.

Lemma processState_stack state acc acc' child :
  processState sc state acc = OK acc' → child ∈ acc.1 → child ∈ acc'.1.
Proof.
  destruct acc as [stack stats]. unfold processState. intros H Hchild.
  apply bind_OK in H as ([[code state'] stats1] & _ & H).
  destruct (negb _); [by simplify_eq|].
  apply bind_OK in H as (children & _ & [= <-]). simpl. apply elem_of_app. by left.
Qed.

Lemma processState_contains state acc acc' :
  contains M clues0 state → processState sc state acc = OK acc' →
  (∃ m, m ∈ solutions_ acc'.2 ∧ agrees sc m M)
  ∨ ∃ child, child ∈ acc'.1 ∧ contains M clues0 child.
Proof.
  destruct acc as [stack stats]. unfold processState. intros Hstate H.
  apply bind_OK in H as ([[code state'] stats1] & Hsolve & H).
  apply (solveOption_contains _ _ _ _ _ Hstate) in Hsolve as [Hstate' Hcode].
  destruct Hcode as [[-> ->]|(-> & Hsolutions & Hagrees)]; simpl in H.
  - apply bind_OK in H as (children & Hchildren & [= <-]). right.
    destruct (expandState_contains _ _ Hstate' Hchildren) as (child & Hchild & Hgood).
    exists child. split; [|done]. simpl. apply elem_of_app. by right.
  - injection H as <-. left. exists (matrix state'). split; [|done]. simpl.
    rewrite Hsolutions. apply elem_of_app. right. left.
Qed.

Lemma wave_contains optionStack :
  ∀ acc acc',
  forEach (processState sc) optionStack acc = OK acc' →
  (∃ m, m ∈ solutions_ acc.2 ∧ agrees sc m M)
  ∨ (∃ child, child ∈ acc.1 ∧ contains M clues0 child)
  ∨ (∃ state, state ∈ optionStack ∧ contains M clues0 state) →
  (∃ m, m ∈ solutions_ acc'.2 ∧ agrees sc m M)
  ∨ ∃ child, child ∈ acc'.1 ∧ contains M clues0 child.
Proof.
  induction optionStack as [|state rest IH]; intros acc acc' H Hinv; simpl in H.
  - injection H as <-. destruct Hinv as [|[|(s & []%elem_of_nil & _)]]; auto.
  - apply bind_OK in H as (acc1 & H1 & H). eapply IH; [exact H|].
    destruct Hinv as [(m & Hm & Hagrees)|[(child & Hchild & Hgood)|(s & Hs & Hgood)]].
    + left. exists m. split; [by eapply processState_solutions|done].
    + right. left. exists child. split; [by eapply processState_stack|done].
    + apply elem_of_cons in Hs as [->|Hs]; [|right; right; by exists s].
      destruct (processState_contains _ _ _ Hgood H1) as [|]; auto.
Qed.

Lemma runLoop_contains remaining :
  ∀ optionStack stats done' optionStack' stats',
  runLoop sc remaining optionStack stats = OK (done', optionStack', stats') →
  (∃ m, m ∈ solutions_ stats ∧ agrees sc m M)
  ∨ (∃ state, state ∈ optionStack ∧ contains M clues0 state) →
  (∃ m, m ∈ solutions_ stats' ∧ agrees sc m M)
  ∨ ∃ state, state ∈ optionStack' ∧ contains M clues0 state.
Proof.
  induction remaining as [|remaining IH]; intros optionStack stats done' optionStack' stats'
    H Hinv; simpl in H; [by simplify_eq|].
  destruct optionStack as [|state rest]; [by simplify_eq|].
  apply bind_OK in H as ([newStack stats1] & Hwave & H).
  eapply IH; [exact H|]. unfold structuredClone. simpl.
  apply wave_contains in Hwave; [exact Hwave|].
  destruct Hinv as [|]; auto.
Qed.

End Completeness.

(** X21: a finished search has found every solution of a puzzle of positive
    clues.  Let [solve] start without a stack to resume, on a header without
    an unnamed category and with at least one position, and let [M] be a full
    assignment over the rows of the initial matrix that lies within it and
    passes [checkClue] for every clue.  If [solve] returns with [done] set,
    one of its solutions has the cells of [M] in every row of every
    category. *)
Theorem solve_finds_every_assignment (input : SolveInput) (sc : SolverConfig)
    (initialMatrix M : Matrix) (res : Solved) (header : Categories) :
  solverConfig input = OK (sc, initialMatrix) →
  in_optionStack input = None →
  (0 < count sc)%nat →
  lookupCategory (categories sc) "" = None →
  Forall positive (in_clues input) →
  fullAssignment sc M →
  (∀ key, is_Some (initialMatrix !! key) → is_Some (M !! key)) →
  within M initialMatrix →
  (∀ clue, clue ∈ in_clues input → checksTrue sc M clue) →
  solve input = OK (res, header) →
  done res = true →
  ∃ m, m ∈ solutions res ∧ agrees sc m M.
Proof.
  intros Hconfig Hstack Hcount Hunnamed Hpositive Hfull Hkeys Hwithin Hchecks Hsolve Hdone.
  assert (Hcombos : combinations sc = generateAllCombinations (count sc)).
  { unfold solverConfig in Hconfig.
    apply bind_OK in Hconfig as ([[kv items] n] & _ & Hconfig).
    destruct (generateInitialMatrix _ _ _). by injection Hconfig as <- <-. }
  unfold solve in Hsolve. rewrite Hconfig in Hsolve. simpl in Hsolve.
  apply bind_OK in Hsolve as ([[done' stack'] stats'] & Hrun & [= <- <-]).
  simpl in Hdone |- *. subst done'.
  unfold runIterations in Hrun. rewrite Hstack in Hrun. simpl in Hrun.
  pose proof (runLoop_done _ _ _ _ _ _ _ Hrun) as [Hempty _].
  rewrite (proj1 Hempty eq_refl) in Hrun.
  destruct (runLoop_contains sc M (in_clues input) Hcount Hcombos Hunnamed Hfull Hpositive
              Hchecks _ _ _ _ _ _ Hrun) as [Hfound|(state & []%elem_of_nil & _)]; [|done].
  right. exists (mkIterationState initialMatrix (in_clues input)).
  split; [left|]. by split.
Qed.

(** ** The puzzle [pair] with [a - b] *)

(** The entries of a table given by its list. *)
Ltac entries H :=
  apply elem_of_list_to_map_2 in H;
  repeat (apply elem_of_cons in H as [H|H]; [injection H as -> ->|]);
  [..|by apply elem_of_nil in H].

Lemma pairMatrix_keys key : is_Some (pairMatrix !! key) → is_Some (pairSolved !! key).
Proof. intros [row H]. entries H; vm_compute; by eexists. Qed.

Lemma pairSolved_keys key : is_Some (pairSolved !! key) → is_Some (pairSolved !! key).
Proof. done. Qed.

Lemma pairSolved_within : within pairSolved pairMatrix.
Proof.
  intros key i H. apply cellOf_row in H as (row & Hrow & Htrue).
  entries Hrow; by destruct i as [|[|i]].
Qed.

Lemma pairSolved_within_itself : within pairSolved pairSolved.
Proof. by intros key i. Qed.

Lemma pairSolved_assignment : assignment 2 pairSolved.
Proof.
  intros key row H.
  entries H; [exists 0%nat|exists 1%nat|exists 0%nat|exists 1%nat];
    (split; [lia|]); intros j; destruct j as [|[|j]]; vm_compute; split; congruence.
Qed.

Lemma pairSolved_full : fullAssignment pairConfig pairSolved.
Proof.
  split; [exact pairSolved_assignment|]. intros category items Hin.
  apply elem_of_cons in Hin as [Hin|Hin]; [|apply elem_of_cons in Hin as [Hin|Hin]];
    [injection Hin as -> ->|injection Hin as -> ->|by apply elem_of_nil in Hin].
  - split; [done|]. split.
    + intros item Hitem.
      repeat (apply elem_of_cons in Hitem as [->|Hitem]; [vm_compute; by eexists|]).
      by apply elem_of_nil in Hitem.
    + intros col Hcol. destruct col as [|[|col]]; [| |simpl in Hcol; lia].
      * exists 0%nat. split; [exists "a", [true; false]; vm_compute; by repeat split|].
        intros j' item row Hj Hrow Htrue.
        destruct j' as [|[|j']]; [done| |done]. vm_compute in Hrow. by simplify_eq/=.
      * exists 1%nat. split; [exists "b", [false; true]; vm_compute; by repeat split|].
        intros j' item row Hj Hrow Htrue.
        destruct j' as [|[|j']]; [|done|done]. vm_compute in Hrow. by simplify_eq/=.
  - split; [done|]. split.
    + intros item Hitem.
      repeat (apply elem_of_cons in Hitem as [->|Hitem]; [vm_compute; by eexists|]).
      by apply elem_of_nil in Hitem.
    + intros col Hcol. destruct col as [|[|col]]; [| |simpl in Hcol; lia].
      * exists 0%nat. split; [exists "1", [true; false]; vm_compute; by repeat split|].
        intros j' item row Hj Hrow Htrue.
        destruct j' as [|[|j']]; [done| |done]. vm_compute in Hrow. by simplify_eq/=.
      * exists 1%nat. split; [exists "2", [false; true]; vm_compute; by repeat split|].
        intros j' item row Hj Hrow Htrue.
        destruct j' as [|[|j']]; [|done|done]. vm_compute in Hrow. by simplify_eq/=.
Qed.

Lemma aLeftOfB_checks clue : clue ∈ [aLeftOfB] → checksTrue pairConfig pairSolved clue.
Proof.
  intros ->%list_elem_of_singleton d Hd _. change (count pairConfig) with 2%nat in Hd.
  destruct d as [|[|[|d]]]; [lia| | |lia]; vm_compute; reflexivity.
Qed.

Lemma aLeftOfB_positive : Forall positive [aLeftOfB].
Proof. by repeat constructor. Qed.

(** Columns of a three-item category. *)
Ltac covers_at j :=
  exists j; split;
  [ do 2 eexists; split; [reflexivity|]; split; vm_compute; reflexivity
  | let j' := fresh "j" in let item := fresh "item" in let row := fresh "row" in
    let Hj := fresh "Hj" in let Hrow := fresh "Hrow" in let Htrue := fresh "Htrue" in
    intros j' item row Hj Hrow Htrue;
    destruct j' as [|[|[|j']]]; simpl in Hj; try discriminate;
    injection Hj as <-; vm_compute in Hrow; injection Hrow as <-;
    first [reflexivity | vm_compute in Htrue; discriminate] ].

Ltac covers := first [covers_at 0%nat | covers_at 1%nat | covers_at 2%nat].

Lemma trioSolved_assignment : assignment 3 trioSolved.
Proof.
  intros key row H.
  entries H; [exists 2%nat|exists 0%nat|exists 1%nat|exists 0%nat|exists 1%nat|exists 2%nat];
    (split; [lia|]); intros j; destruct j as [|[|[|j]]]; vm_compute; split; congruence.
Qed.

Lemma trioSolved_full : fullAssignment trioConfig trioSolved.
Proof.
  split; [exact trioSolved_assignment|]. intros category items Hin.
  apply elem_of_cons in Hin as [Hin|Hin]; [|apply elem_of_cons in Hin as [Hin|Hin]];
    [injection Hin as -> ->|injection Hin as -> ->|by apply elem_of_nil in Hin];
    (split; [done|]; split;
     [ intros item Hitem;
       repeat (apply elem_of_cons in Hitem as [->|Hitem]; [vm_compute; by eexists|]);
       by apply elem_of_nil in Hitem
     | intros col Hcol; destruct col as [|[|[|col]]]; [| | |simpl in Hcol; lia]; covers ]).
Qed.

Lemma trioSolved_within : within trioSolved trioOpen.
Proof.
  intros key i H. apply cellOf_row in H as (row & Hrow & Htrue).
  entries Hrow; by destruct i as [|[|[|i]]].
Qed.

Lemma peopleSolved_assignment : assignment 2 peopleSolved.
Proof.
  intros key row H.
  entries H; [exists 0%nat|exists 1%nat|exists 0%nat|exists 1%nat|exists 0%nat|exists 1%nat];
    (split; [lia|]); intros j; destruct j as [|[|j]]; vm_compute; split; congruence.
Qed.

Lemma peopleNamed_keys key : is_Some (peopleNamed !! key) → is_Some (peopleSolved !! key).
Proof. intros [row H]. entries H; vm_compute; by eexists. Qed.

Lemma peopleSolved_within : within peopleSolved peopleNamed.
Proof.
  intros key i H. apply cellOf_row in H as (row & Hrow & Htrue).
  entries Hrow; by destruct i as [|[|i]].
Qed.

Lemma elimination_keeps_assignments_witness :
  trioEliminated ≠ trioOpen ∧ within trioSolved trioEliminated.
Proof.
  split; [by intros H%(f_equal (fun m : Matrix => m !! "names.a"))|].
  apply (elimination_keeps_assignments trioConfig trioSolved trioOpen trioEliminated).
  - reflexivity.
  - exact trioSolved_full.
  - exact trioSolved_within.
  - vm_compute. reflexivity.
Defined.

Lemma propagation_keeps_assignments_witness :
  within pairSolved pairSolved ∧ aLeftOfB = aLeftOfB.
Proof.
  apply (propagation_keeps_assignments (idParser pairConfig 1) pairConfig pairSolved
           pairMatrix pairSolved aLeftOfB aLeftOfB).
  - simpl. lia.
  - reflexivity.
  - exact pairSolved_full.
  - exact I.
  - exact pairMatrix_keys.
  - exact pairSolved_within.
  - vm_compute. reflexivity.
  - vm_compute. reflexivity.
Defined.

Lemma rejected_clue_rejects_assignments_witness :
  peopleSolved ≠ peopleNamed
  ∧ checkClue alLeftOfBob peopleSolved (idParser peopleConfig 1) peopleConfig = false.
Proof.
  split; [by intros H%(f_equal (fun m : Matrix => m !! "age.10"))|].
  apply (rejected_clue_rejects_assignments (idParser peopleConfig 1) peopleConfig
           peopleSolved peopleNamed alLeftOfBob).
  - exact peopleSolved_assignment.
  - exact peopleNamed_keys.
  - exact peopleSolved_within.
  - exact I.
  - vm_compute. reflexivity.
Defined.

Lemma validation_keeps_assignments_witness :
  1%Z = 0%Z
  ∨ (1%Z = 1%Z
     ∧ solutions_ (mkStats 0 0 [pairSolved]) = solutions_ (mkStats 0 0 []) ++ [pairSolved]
     ∧ ∀ category items item j, (category, items) ∈ categories pairConfig → item ∈ items →
         cellOf pairSolved (rowKey category item) j
         = cellOf pairSolved (rowKey category item) j).
Proof.
  apply (validation_keeps_assignments pairConfig pairSolved
           (mkIterationState pairSolved [aLeftOfB]) (mkStats 0 0 []) (mkStats 0 0 [pairSolved])
           1%Z).
  - exact pairSolved_full.
  - exact pairSolved_keys.
  - exact pairSolved_within_itself.
  - exact aLeftOfB_positive.
  - exact aLeftOfB_checks.
  - vm_compute. reflexivity.
Defined.

Lemma solve_finds_every_assignment_witness :
  ∃ m, m ∈ solutions (mkSolved true [] 1 1 [pairSolved]) ∧ agrees pairConfig m pairSolved.
Proof.
  apply (solve_finds_every_assignment pairInput pairConfig pairMatrix pairSolved
           (mkSolved true [] 1 1 [pairSolved]) (pair ++ [("#", ["1"; "2"])])).
  - vm_compute. reflexivity.
  - reflexivity.
  - simpl. lia.
  - reflexivity.
  - exact aLeftOfB_positive.
  - exact pairSolved_full.
  - exact pairMatrix_keys.
  - exact pairSolved_within.
  - exact aLeftOfB_checks.
  - vm_compute. reflexivity.
  - reflexivity.
Defined.

(** ** The grid of a solution *)

Lemma append_cons c (s t : string) : String c s +:+ t = String c (s +:+ t).
Proof. reflexivity. Qed.

Lemma length_append (s t : string) :
  jsLength (s +:+ t) = (jsLength s + jsLength t)%nat.
Proof.
  induction s as [|c s IH]; [done|]. rewrite append_cons. cbn [jsLength]. rewrite IH. lia.
Qed.

Lemma append_assoc (s t u : string) : (s +:+ t) +:+ u = s +:+ (t +:+ u).
Proof. induction s as [|c s IH]; [done|]. rewrite !append_cons. by rewrite IH. Qed.

Lemma append_empty (s : string) : s +:+ "" = s.
Proof. induction s as [|c s IH]; [done|]. rewrite append_cons. by rewrite IH. Qed.

Lemma length_repeatChar c n :
  (nat_of_ascii c <? 128)%nat = true → jsLength (repeatChar c n) = n.
Proof. intros Hc. induction n as [|n IH]; cbn [repeatChar jsLength]; [done|]. by rewrite Hc, IH. Qed.

Lemma length_padded width str :
  (jsLength str ≤ width)%nat → jsLength (padded width str) = width.
Proof. intros H. unfold padded. rewrite length_append, length_repeatChar by done. lia. Qed.

Lemma pad_fits width str :
  (jsLength str ≤ width)%nat → pad width str = Done (padded width str).
Proof.
  intros H. unfold pad, repeat.
  destruct (Z.ltb_spec (Z.of_nat width - Z.of_nat (jsLength str)) 0) as [Hlt|_]; [lia|].
  simpl. unfold padded. do 3 f_equal. lia.
Qed.

Lemma bind_Done {A B : Type} (a : A) (f : A → Drawn B) : Done a ≫= f = f a.
Proof. reflexivity. Qed.

Lemma mapDrawn_Done {A B : Type} (f : A → Drawn B) (g : A → B) (xs : list A) :
  (∀ x, x ∈ xs → f x = Done (g x)) → mapDrawn f xs = Done (map g xs).
Proof.
  induction xs as [|x xs IH]; intros H; simpl; [done|].
  rewrite H by left. simpl. rewrite IH; [done|]. intros y Hy. apply H. by right.
Qed.

(** *** [longestName] *)

Lemma longest_step (start n : nat) :
  (start ≤ if (start <? n)%nat then n else start)%nat
  ∧ (n ≤ if (start <? n)%nat then n else start)%nat.
Proof. destruct (Nat.ltb_spec start n); lia. Qed.

Lemma longest_items (items : list string) :
  ∀ start result : nat,
  foldl (fun longest item =>
           if (longest <? jsLength item)%nat then jsLength item else longest)
        start items = result →
  (start ≤ result)%nat ∧ ∀ item, item ∈ items → (jsLength item ≤ result)%nat.
Proof.
  induction items as [|item items IH]; intros start result H; simpl in H.
  - subst result. split; [lia|]. by intros item []%elem_of_nil.
  - apply IH in H as [Hstart Hitems].
    destruct (longest_step start (jsLength item)) as [H1 H2].
    split; [lia|]. intros it [->|Hit]%elem_of_cons; [lia|by apply Hitems].
Qed.

Lemma longest_categories (cats : Categories) :
  ∀ start result : nat,
  foldl (fun longest (entry : string * list string) =>
           let longest :=
             if (longest <? jsLength entry.1)%nat then jsLength entry.1
             else longest in
           foldl (fun longest item =>
                    if (longest <? jsLength item)%nat then jsLength item
                    else longest)
                 longest entry.2)
        start cats = result →
  (start ≤ result)%nat
  ∧ ∀ category items, (category, items) ∈ cats →
      (jsLength category ≤ result)%nat
      ∧ ∀ item, item ∈ items → (jsLength item ≤ result)%nat.
Proof.
  induction cats as [|[category items] cats IH]; intros start result H; simpl in H.
  - subst result. split; [lia|]. by intros category items []%elem_of_nil.
  - apply IH in H as [Hrest Hcats].
    destruct (longest_items items
                (if (start <? jsLength category)%nat then jsLength category
                 else start) _ eq_refl) as [Hstart Hitems].
    destruct (longest_step start (jsLength category)) as [H1 H2].
    split; [lia|]. intros c its [[= -> ->]|Hin]%elem_of_cons; [|by apply Hcats].
    split; [lia|]. intros item Hitem. specialize (Hitems item Hitem). lia.
Qed.

Lemma longestName_bound (cats : Categories) category items :
  (category, items) ∈ cats →
  (jsLength category ≤ longestName cats)%nat
  ∧ ∀ item, item ∈ items → (jsLength item ≤ longestName cats)%nat.
Proof. by apply (longest_categories cats 0 (longestName cats)). Qed.

(** *** Lines *)

Lemma concat_cons (x : string) (xs : list string) :
  String.concat "" (x :: xs) = x +:+ String.concat "" xs.
Proof. destruct xs as [|y ys]; simpl; [by rewrite append_empty|done]. Qed.

Lemma concat_blank (P : string → bool) (items : list string) :
  (∀ item, item ∈ items → P item = false) →
  String.concat "" (map (fun item => if P item then item else "") items) = "".
Proof.
  induction items as [|x xs IH]; intros H; [done|].
  cbn [map]. rewrite concat_cons, (H x) by left. rewrite IH; [done|].
  intros item Hitem. apply H. by right.
Qed.

Lemma concat_single (P : string → bool) (items : list string) :
  ∀ j it, items !! j = Some it → P it = true →
  (∀ j' item, items !! j' = Some item → P item = true → j' = j) →
  String.concat "" (map (fun item => if P item then item else "") items) = it.
Proof.
  induction items as [|x xs IH]; intros j it Hj Hit Hunique; [done|].
  cbn [map]. rewrite concat_cons. destruct j as [|j]; simpl in Hj.
  - injection Hj as ->. rewrite Hit, concat_blank; [by rewrite append_empty|].
    intros item [k Hk]%list_elem_of_lookup_1.
    destruct (P item) eqn:E; [|done]. by specialize (Hunique (S k) item Hk E).
  - destruct (P x) eqn:E; [by specialize (Hunique 0%nat x eq_refl E)|].
    simpl. apply (IH j); [done|done|].
    intros j' item Hj' Hitem. by specialize (Hunique (S j') item Hj' Hitem) as [= ->].
Qed.

Lemma length_concat (sep : string) (width : nat) (cells : list string) :
  Forall (fun cell => jsLength cell = width) cells → cells ≠ [] →
  (jsLength (String.concat sep cells) + jsLength sep
   = length cells * (width + jsLength sep))%nat.
Proof.
  induction 1 as [|cell cells Hcell Hcells IH]; intros Hne; [done|].
  destruct cells as [|cell' cells'].
  - simpl. lia.
  - change (String.concat sep (cell :: cell' :: cells'))
      with (cell +:+ sep +:+ String.concat sep (cell' :: cells')).
    rewrite !length_append. specialize (IH ltac:(done)). simpl in IH |- *. lia.
Qed.

Lemma length_gridLine (width : nat) (name : string) (cells : list string) :
  (jsLength name ≤ width)%nat →
  (∀ cell, cell ∈ cells → (jsLength cell ≤ width)%nat) → cells ≠ [] →
  jsLength (gridLine width name cells) = ((width + 3) * (length cells + 1) + 1)%nat.
Proof.
  intros Hname Hcells Hne. unfold gridLine. rewrite !length_append, length_padded by done.
  assert (Hconcat : (jsLength (String.concat " | " (map (padded width) cells)) + 3
                     = length cells * (width + 3))%nat).
  { rewrite <- (length_map (padded width) cells).
    apply (length_concat " | " width (map (padded width) cells)).
    - apply Forall_forall. intros cell (c & -> & Hc)%list_elem_of_fmap.
      apply length_padded. by apply Hcells.
    - by destruct cells. }
  simpl. nia.
Qed.

Lemma concat_lines (rows : list string) (last : string) :
  String.concat newline (rows ++ [last])
  = foldr (fun row rest => row +:+ newline +:+ rest) last rows.
Proof.
  induction rows as [|row rows IH]; [done|].
  cbn [foldr]. rewrite <- IH. by destruct rows.
Qed.

Lemma lines_append (rows : list string) (last : string) :
  foldr (fun row rest => row +:+ newline +:+ rest) "" rows +:+ last
  = foldr (fun row rest => row +:+ newline +:+ rest) last rows.
Proof.
  induction rows as [|row rows IH]; [done|].
  cbn [foldr]. by rewrite !append_assoc, IH.
Qed.

Lemma mapDrawn_exists {A B C : Type} (P : A → C → Prop) (f : A → Drawn B) (g : C → B)
    (xs : list A) :
  (∀ x, x ∈ xs → ∃ y, P x y ∧ f x = Done (g y)) →
  ∃ ys, Forall2 P xs ys ∧ mapDrawn f xs = Done (map g ys).
Proof.
  induction xs as [|x xs IH]; intros H.
  - by exists [].
  - destruct (H x ltac:(left)) as (y & Hy & Hf).
    destruct IH as (ys & Hys & Hmap); [intros z Hz; apply H; by right|].
    exists (y :: ys). split; [by constructor|]. simpl. by rewrite Hf, Hmap.
Qed.

Lemma forEach_total {A S : Type} (I : S → Prop) (body : A → S → Result S) (xs : list A) :
  (∀ x s, x ∈ xs → I s → ∃ s', body x s = OK s' ∧ I s') →
  ∀ s, I s → ∃ s', forEach body xs s = OK s' ∧ I s'.
Proof.
  induction xs as [|x xs IH]; intros Hbody s Hs; simpl; [by exists s|].
  destruct (Hbody x s ltac:(left) Hs) as (s1 & -> & Hs1). simpl.
  apply IH; [|done]. intros y t Hy. apply Hbody. by right.
Qed.

Lemma countTrue_zero (row : list bool) (i : nat) : countTrue row = 0%nat → truthy row i = false.
Proof.
  revert i. induction row as [|b row IH]; intros i; [by destruct i|].
  unfold countTrue. destruct b; simpl; [done|]. intros H.
  destruct i as [|i]; [done|]. by apply IH.
Qed.

Lemma truthy_blank (n i : nat) : truthy (replicate n false) i = false.
Proof.
  unfold truthy. destruct (replicate n false !! i) as [b|] eqn:E; [|done].
  by apply lookup_replicate in E as [-> _].
Qed.

Lemma half_width (width : nat) :
  Z.quot (Z.of_nat width - 1) 2 = Z.of_nat ((width - 1) / 2).
Proof.
  destruct width as [|width]; [done|].
  replace (Z.of_nat (S width) - 1)%Z with (Z.of_nat width) by lia.
  rewrite Z.quot_div_nonneg by lia. replace (S width - 1)%nat with width by lia.
  by rewrite Nat2Z.inj_div.
Qed.

Lemma headerCell_fits (width i : nat) :
  ((width - 1) / 2 + jsLength (pretty (i + 1)) ≤ width)%nat →
  headerCell width i
  = Done (padded width (repeatChar " " ((width - 1) / 2) +:+ pretty (i + 1))).
Proof.
  intros H. unfold headerCell, repeat. rewrite half_width.
  destruct (Z.ltb_spec (Z.of_nat ((width - 1) / 2)) 0) as [Hlt|_]; [lia|].
  simpl. rewrite Nat2Z.id. apply pad_fits. by rewrite length_append, length_repeatChar.
Qed.

Lemma numeral_short (n : nat) : (n < 100)%nat → (jsLength (pretty n) ≤ 2)%nat.
Proof.
  intros H.
  assert (Hall : forallb (fun n => jsLength (pretty n) <=? 2)%nat (seq 0 100) = true)
    by (vm_compute; reflexivity).
  rewrite forallb_forall in Hall. apply Nat.leb_le, Hall, in_seq. lia.
Qed.

Lemma assignCategory_elem (cats : Categories) name items :
  (name, items) ∈ assignCategory cats name items.
Proof.
  induction cats as [|[n its] cats IH]; simpl; [left|].
  destruct (String.eqb_spec n name) as [->|_]; [left|by right].
Qed.

(** *** The grid of a valid matrix *)

Section Grid.
Variables (sc : SolverConfig) (m : Matrix).
Hypothesis Hvalid : ∀ category items,
  (category, items) ∈ categories sc → validCategory sc m category items.

Lemma valid_row category items item :
  (category, items) ∈ categories sc → item ∈ items →
  ∃ row, m !! rowKey category item = Some row ∧ (countTrue row ≤ 1)%nat.
Proof.
  intros Hin Hitem. destruct (Hvalid _ _ Hin) as [Hrows _].
  destruct (Hrows item Hitem) as (row & Hrow & Hcount). exists row. split; [done|].
  destruct (includes _ _); lia.
Qed.

Lemma blankRows_valid :
  ∃ m', blankRows sc m = OK m'
        ∧ ∀ key, (is_Some (m !! key) → is_Some (m' !! key))
                 ∧ ∀ i, cellOf m' key i = cellOf m key i.
Proof.
  pose (I := fun s : Matrix =>
          ∀ key, s !! key = m !! key
                 ∨ ∃ row, m !! key = Some row ∧ countTrue row = 0%nat
                          ∧ s !! key = Some (replicate (count sc) false)).
  destruct (forEach_total I
              (fun (entry : string * list string) (s : Matrix) =>
                 forEach (fun (item : string) (s : Matrix) =>
                            row ← getRow s (rowKey entry.1 item);
                            OK (if negb (countTrue row =? 1)%nat
                                then <[rowKey entry.1 item := replicate (count sc) false]> s
                                else s))
                         entry.2 s)
              (categories sc)) with (structuredClone m) as (m' & Hrun & Hm').
  - intros [category items] s Hin Hs. simpl.
    apply (forEach_total I); [|done]. intros item t Hitem Ht.
    destruct (valid_row _ _ _ Hin Hitem) as (row & Hrow & Hcount).
    assert (Hkey : ∃ row', t !! rowKey category item = Some row'
                           ∧ (countTrue row' ≠ 1%nat → countTrue row = 0%nat)).
    { destruct (Ht (rowKey category item)) as [Heq|(row0 & Hrow0 & Hzero & Heq)].
      - exists row. split; [by rewrite Heq|]. lia.
      - exists (replicate (count sc) false). split; [done|]. intros _. congruence. }
    destruct Hkey as (row' & Hrow' & Hzero). unfold getRow. rewrite Hrow'. simpl.
    eexists. split; [done|].
    destruct (Nat.eqb_spec (countTrue row') 1) as [_|Hne]; simpl; [done|].
    intros key. destruct (decide (key = rowKey category item)) as [->|Hkey].
    + right. exists row. rewrite lookup_insert_eq. auto.
    + rewrite lookup_insert_ne by done. apply Ht.
  - intros key. by left.
  - exists m'. split; [done|]. intros key.
    destruct (Hm' key) as [Heq|(row & Hrow & Hzero & Heq)].
    + split; [by rewrite Heq|]. intros i. unfold cellOf. by rewrite Heq.
    + split; [by rewrite Heq|]. intros i. unfold cellOf. rewrite Heq, Hrow. simpl.
      by rewrite truthy_blank, countTrue_zero.
Qed.

Lemma gridCell_valid (m' : Matrix) category items i :
  (∀ key, (is_Some (m !! key) → is_Some (m' !! key))
          ∧ ∀ i, cellOf m' key i = cellOf m key i) →
  (category, items) ∈ categories sc → (i < count sc)%nat →
  ∃ item, (item ∈ items ∧ cellOf m (rowKey category item) i = true)
          ∧ gridCell m' (longestName (categories sc)) category items i
            = Done (padded (longestName (categories sc)) item).
Proof.
  intros Hm' Hin Hi. destruct (Hvalid _ _ Hin) as [_ Hcovers].
  destruct (Hcovers i Hi) as (j & (item & row & Hj & Hrow & Htrue) & Hunique).
  assert (Hitem : item ∈ items) by by eapply list_elem_of_lookup_2.
  exists item. split; [split; [done|by rewrite (cellOf_lookup _ _ row)]|].
  unfold gridCell.
  rewrite (mapDrawn_Done _ (fun item => if cellOf m (rowKey category item) i
                                        then item else "")).
  - simpl. rewrite (concat_single (fun item => cellOf m (rowKey category item) i) items j item).
    + apply pad_fits. by apply (proj2 (longestName_bound _ _ _ Hin)).
    + done.
    + by rewrite (cellOf_lookup _ _ row).
    + intros j' item' Hj' Hcell. apply cellOf_row in Hcell as (row' & Hrow' & Htrue').
      by eapply Hunique.
  - intros it Hit. destruct (valid_row _ _ _ Hin Hit) as (r & Hr & _).
    destruct (Hm' (rowKey category it)) as [Hsome Hcells].
    destruct (Hsome ltac:(by rewrite Hr)) as [r' Hr'].
    unfold getCell, getRow. rewrite Hr'. simpl.
    by rewrite <- (cellOf_lookup m' _ r' i Hr'), Hcells.
Qed.

Lemma gridRows_valid (m' : Matrix) :
  (∀ key, (is_Some (m !! key) → is_Some (m' !! key))
          ∧ ∀ i, cellOf m' key i = cellOf m key i) →
  ∀ cats out, (∀ entry, entry ∈ cats → entry ∈ categories sc) →
  ∃ rows,
    gridRows m' (longestName (categories sc)) (count sc) cats out
    = Done (out +:+ foldr (fun row rest => row +:+ newline +:+ rest) "" rows)
    ∧ Forall2 (fun (entry : string * list string) row =>
                 ∃ placed,
                   Forall2 (fun i item => item ∈ entry.2
                                          ∧ cellOf m (rowKey entry.1 item) i = true)
                           (seq 0 (count sc)) placed
                   ∧ row = gridLine (longestName (categories sc)) entry.1 placed)
              (List.filter (fun entry : string * list string =>
                              negb (String.eqb entry.1 "#")) cats)
              rows.
Proof.
  intros Hm'. induction cats as [|[category items] cats IH]; intros out Hcats.
  - exists []. split; [by rewrite append_empty|constructor].
  - cbn [gridRows List.filter fst].
    destruct (String.eqb category "#"); simpl.
    + apply IH. intros entry Hentry. apply Hcats. by right.
    + assert (Hin : (category, items) ∈ categories sc) by (apply Hcats; left).
      rewrite (pad_fits (longestName (categories sc)) category)
        by exact (proj1 (longestName_bound _ _ _ Hin)).
      simpl.
      destruct (mapDrawn_exists
                  (fun i item => item ∈ items ∧ cellOf m (rowKey category item) i = true)
                  (gridCell m' (longestName (categories sc)) category items)
                  (padded (longestName (categories sc))) (seq 0 (count sc)))
        as (placed & Hplaced & ->).
      { intros i Hi%elem_of_seq. apply gridCell_valid; [done|done|lia]. }
      simpl.
      destruct (IH (out +:+ ("| " +:+ padded (longestName (categories sc)) category +:+ " | "
                             +:+ String.concat " | "
                                   (map (padded (longestName (categories sc))) placed)
                             +:+ " |" +:+ newline)))
        as (rows & -> & Hrows); [intros entry Hentry; apply Hcats; by right|].
      exists (gridLine (longestName (categories sc)) category placed :: rows). split.
      * f_equal. cbn [foldr]. unfold gridLine. by rewrite !append_assoc.
      * constructor; [|done]. by exists placed.
Qed.

End Grid.

Lemma solverConfig_categories input sc initialMatrix :
  solverConfig input = OK (sc, initialMatrix) →
  ("#", map (fun i => pretty (i + 1)) (seq 0 (count sc))) ∈ categories sc.
Proof.
  unfold solverConfig. intros H. apply bind_OK in H as ([[kv items] n] & _ & H).
  unfold generateInitialMatrix in H. injection H as <- _. simpl.
  apply assignCategory_elem.
Qed.

Lemma header_fits input sc initialMatrix i :
  solverConfig input = OK (sc, initialMatrix) → (i < count sc < 100)%nat →
  ((longestName (categories sc) - 1) / 2 + jsLength (pretty (i + 1))
   ≤ longestName (categories sc))%nat.
Proof.
  intros Hconfig Hi. apply solverConfig_categories in Hconfig.
  destruct (longestName_bound _ _ _ Hconfig) as [_ Hnumerals].
  assert (Hlong : (jsLength (pretty (i + 1)) ≤ longestName (categories sc))%nat).
  { apply Hnumerals, list_elem_of_fmap. exists i. split; [done|]. apply elem_of_seq. lia. }
  pose proof (numeral_short (i + 1) ltac:(lia)) as Hshort.
  pose proof (Nat.Div0.mul_div_le (longestName (categories sc) - 1) 2). lia.
Qed.

(** X22: [solutionString] draws a solution.  For the configuration of
    [solve] with fewer than 100 positions and a matrix in which every
    category is valid (as every recorded solution is), [finalGrid] returns
    lines of one width joined by newlines: a rule, the line of the position
    numbers, a rule, one line for each category but [#], in the order in which
    [for ... in] enumerates the categories, and a rule; the line of a category
    shows, position by position, an item of the category whose cell at that
    position is true.  Widths are lengths in UTF-16 code units ([jsLength]),
    as [String.prototype.length] and [padEnd] count them. *)
Theorem solutionString_draws_solution (input : SolveInput) (sc : SolverConfig)
    (initialMatrix m : Matrix) :
  solverConfig input = OK (sc, initialMatrix) → (0 < count sc < 100)%nat →
  (∀ category items, (category, items) ∈ categories sc → validCategory sc m category items) →
  ∃ lines,
    finalGrid sc m = Done (String.concat newline lines)
    ∧ length lines = (4 + length (drawnCategories sc))%nat
    ∧ (∀ line, line ∈ lines →
         jsLength line
         = ((longestName (categories sc) + 3) * (count sc + 1) + 1)%nat)
    ∧ lines !! 1%nat
      = Some (gridLine (longestName (categories sc)) ""
                (map (fun i => repeatChar " " ((longestName (categories sc) - 1) / 2)
                               +:+ pretty (i + 1))
                     (seq 0 (count sc))))
    ∧ ∀ k category items, drawnCategories sc !! k = Some (category, items) →
        ∃ placed,
          length placed = count sc
          ∧ (∀ i item, placed !! i = Some item →
               item ∈ items ∧ cellOf m (rowKey category item) i = true)
          ∧ lines !! (3 + k)%nat
            = Some (gridLine (longestName (categories sc)) category placed).
Proof.
  intros Hconfig Hcount Hvalid.
  set (width := longestName (categories sc)).
  set (rule := repeatChar "-" ((width + 3) * (count sc + 1) + 1)).
  set (numbers := map (fun i => repeatChar " " ((width - 1) / 2) +:+ pretty (i + 1))
                      (seq 0 (count sc))).
  destruct (blankRows_valid sc m Hvalid) as (m' & Hblank & Hm').
  destruct (gridRows_valid sc m Hvalid m' Hm' (categories sc)
              ((("" +:+ (rule +:+ newline))
                +:+ ("| " +:+ padded width "" +:+ " | "
                     +:+ String.concat " | " (map (padded width) numbers) +:+ " |"
                     +:+ newline))
               +:+ (rule +:+ newline)) ltac:(done)) as (rows & Hrows & Hlines).
  fold width in Hrows, Hlines.
  assert (Hnumbers : ∀ cell, cell ∈ numbers → (jsLength cell ≤ width)%nat).
  { intros cell (i & -> & Hi%elem_of_seq)%list_elem_of_fmap.
    rewrite length_append, length_repeatChar by done.
    apply (header_fits input sc initialMatrix i Hconfig). lia. }
  exists ([rule; gridLine width "" numbers; rule] ++ rows ++ [rule]).
  split; [|split; [|split; [|split]]].
  - unfold finalGrid. fold width. rewrite Hblank. unfold ofResult. rewrite bind_Done.
    fold rule. rewrite (pad_fits width "") by (simpl; lia). rewrite bind_Done.
    rewrite (mapDrawn_Done _ (fun i => padded width (repeatChar " " ((width - 1) / 2)
                                                      +:+ pretty (i + 1)))).
    + rewrite bind_Done, <- (map_map _ (padded width)). fold numbers.
      rewrite Hrows, bind_Done. f_equal.
      rewrite (append_assoc _ (foldr _ "" rows) rule), lines_append.
      change ([rule; gridLine width "" numbers; rule] ++ rows ++ [rule])
        with ((rule :: gridLine width "" numbers :: rule :: rows) ++ [rule]).
      rewrite concat_lines. cbn [foldr]. unfold gridLine.
      by rewrite !append_assoc.
    + intros i Hi%elem_of_seq. apply headerCell_fits.
      apply (header_fits input sc initialMatrix i Hconfig). lia.
  - rewrite length_app, length_app. simpl.
    apply Forall2_length in Hlines. unfold drawnCategories. rewrite Hlines. lia.
  - assert (Hheader : jsLength (gridLine width "" numbers)
                      = ((width + 3) * (count sc + 1) + 1)%nat).
    { rewrite length_gridLine; [| simpl; lia | done |].
      - unfold numbers. by rewrite length_map, length_seq.
      - unfold numbers. destruct (count sc); [lia|done]. }
    assert (Hrule : jsLength rule = ((width + 3) * (count sc + 1) + 1)%nat)
      by (by apply length_repeatChar).
    intros line Hline.
    repeat (apply elem_of_cons in Hline as [->|Hline]; [done|]).
    apply elem_of_app in Hline as [Hline|Hline];
      [|by apply list_elem_of_singleton in Hline as ->].
    apply list_elem_of_lookup_1 in Hline as [k Hk].
    destruct (Forall2_lookup_r _ _ _ _ _ Hlines Hk)
      as ([category items] & Hentry & placed & Hplaced & ->).
    apply list_elem_of_lookup_2, list_elem_of_In, filter_In in Hentry as [Hentry _].
    apply list_elem_of_In in Hentry.
    destruct (longestName_bound _ _ _ Hentry) as [Hname Hitems]. fold width in Hname, Hitems.
    pose proof (Forall2_length _ _ _ Hplaced) as Hlength. rewrite length_seq in Hlength.
    rewrite length_gridLine, <- Hlength; [done|done| |].
    + intros cell [i Hi]%list_elem_of_lookup_1.
      destruct (Forall2_lookup_r _ _ _ _ _ Hplaced Hi) as (col & _ & Hcell & _).
      by apply Hitems.
    + destruct placed; [simpl in Hlength; lia|done].
  - done.
  - intros k category items Hk.
    destruct (Forall2_lookup_l _ _ _ _ _ Hlines Hk) as (row & Hrow & placed & Hplaced & ->).
    exists placed. split; [|split].
    + apply Forall2_length in Hplaced. by rewrite length_seq in Hplaced.
    + intros i item Hi.
      destruct (Forall2_lookup_r _ _ _ _ _ Hplaced Hi) as (col & Hcol & Hitem & Hcell).
      apply lookup_seq in Hcol as [-> _]. done.
    + change (3 + k)%nat with (S (S (S k))). simpl. by rewrite lookup_app_l
        by by eapply lookup_lt_Some.
Qed.

Lemma pairSolved_valid category items :
  (category, items) ∈ categories pairConfig → validCategory pairConfig pairSolved category items.
Proof.
  intros Hin. destruct (proj2 pairSolved_full category items Hin) as (_ & _ & Hcovers).
  split; [|exact Hcovers]. intros item Hitem.
  apply elem_of_cons in Hin as [Hin|Hin]; [|apply elem_of_cons in Hin as [Hin|Hin]];
    [injection Hin as -> ->|injection Hin as -> ->|by apply elem_of_nil in Hin];
    (apply elem_of_cons in Hitem as [->|Hitem];
     [|apply elem_of_cons in Hitem as [->|Hitem]; [|by apply elem_of_nil in Hitem]]);
    eexists; (split; [vm_compute; reflexivity|vm_compute; reflexivity]).
Qed.

Lemma solutionString_draws_solution_witness :
  ∃ lines,
    finalGrid pairConfig pairSolved = Done (String.concat newline lines)
    ∧ length lines = (4 + length (drawnCategories pairConfig))%nat
    ∧ (∀ line, line ∈ lines →
         jsLength line
         = ((longestName (categories pairConfig) + 3) * (count pairConfig + 1) + 1)%nat)
    ∧ lines !! 1%nat
      = Some (gridLine (longestName (categories pairConfig)) ""
                (map (fun i => repeatChar " " ((longestName (categories pairConfig) - 1) / 2)
                               +:+ pretty (i + 1))
                     (seq 0 (count pairConfig))))
    ∧ ∀ k category items, drawnCategories pairConfig !! k = Some (category, items) →
        ∃ placed,
          length placed = count pairConfig
          ∧ (∀ i item, placed !! i = Some item →
               item ∈ items ∧ cellOf pairSolved (rowKey category item) i = true)
          ∧ lines !! (3 + k)%nat
            = Some (gridLine (longestName (categories pairConfig)) category placed).
Proof.
  apply (solutionString_draws_solution (mkSolveInput pair [] 20 None []) pairConfig
           pairMatrix pairSolved).
  - vm_compute. reflexivity.
  - simpl. lia.
  - exact pairSolved_valid.
Defined.

(** ** The recorded solutions *)

(** *** Clues without [truths] are never assigned to *)

Lemma parseArithmetic_truthsFree (m : Matrix) (p : IdParser) (sc : SolverConfig)
    (exp : ArithmeticExpression) :
  truthsFreeArithmetic exp →
  ∀ v exp', parseArithmetic m p sc exp = OK (v, exp') → exp' = exp.
Proof.
  induction exp as [b value|b symbol category|b operator e0 IH0 e1 IH1|b elements];
    intros Hfree v exp' H; simpl in H.
  - by injection H as _ <-.
  - apply bind_OK in H as (val & _ & H). by injection H as _ <-.
  - destruct Hfree as [H0 H1].
    apply bind_OK in H as ([l e0'] & He0 & H). apply bind_OK in H as ([r e1'] & He1 & H).
    rewrite (IH0 H0 _ _ He0), (IH1 H1 _ _ He1) in H.
    destruct l as [l|], r as [r|]; try (by injection H as _ <-).
    apply bind_OK in H as (w & _ & H). by injection H as _ <-.
  - done.
Qed.

Lemma relationalEval_truthsFree (m m' : Matrix) (p : IdParser) (sc : SolverConfig)
    b operator a0 a1 ok clue' :
  truthsFreeArithmetic a0 → truthsFreeArithmetic a1 →
  relationalEval b operator a0 a1 m p sc ok = OK (m', clue') →
  clue' = RelationalOperation b operator a0 a1.
Proof.
  intros H0 H1 H. unfold relationalEval in H.
  destruct a0 as [b0 v0|b0 s0 c0|b0 o0 x0 y0|b0 l0].
  - destruct a1 as [b1 v1|b1 s1 c1|b1 o1 x1 y1|b1 l1]; try (by injection H as _ <-).
    apply bind_OK in H as ([l a0'] & Ha & H).
    rewrite (parseArithmetic_truthsFree _ _ _ _ H0 _ _ Ha) in H.
    destruct l as [l|]; [|by injection H as _ <-].
    apply bind_OK in H as (m1 & _ & H). by injection H as _ <-.
  - apply bind_OK in H as ([r a1'] & Ha & H).
    rewrite (parseArithmetic_truthsFree _ _ _ _ H1 _ _ Ha) in H.
    destruct r as [r|]; [|by injection H as _ <-].
    apply bind_OK in H as (m1 & _ & H). by injection H as _ <-.
  - destruct a1 as [b1 v1|b1 s1 c1|b1 o1 x1 y1|b1 l1]; try (by injection H as _ <-).
    apply bind_OK in H as ([l a0'] & Ha & H).
    rewrite (parseArithmetic_truthsFree _ _ _ _ H0 _ _ Ha) in H.
    destruct l as [l|]; [|by injection H as _ <-].
    apply bind_OK in H as (m1 & _ & H). by injection H as _ <-.
  - done.
Qed.

Lemma truthsFree_operands b operator operands :
  truthsFree (LogicalOperation b operator operands) ↔ Forall truthsFree operands.
Proof.
  simpl. induction operands as [|c rest IH]; [by split; [constructor|]|].
  rewrite Forall_cons. by rewrite IH.
Qed.

Lemma parseClue_truthsFree (p : IdParser) (sc : SolverConfig) (clue : LogicalExpression) :
  truthsFree clue →
  ∀ (m m' : Matrix) clue', parseClue p sc clue m = OK (m', clue') → clue' = clue.
Proof.
  induction clue as [b op o0 IH0|b op o0 o1 IH0 IH1|b op operands IH|b op a0 a1
                    |b op i0 i1 distance|b op lhs rhs] using logical_ind;
    intros Hfree m m' clue' H; simpl in H; unfold clue_solved in H; simpl in H;
    (destruct (solved b); [by injection H as _ <-|]).
  - by injection H as _ <-.
  - destruct Hfree as [H0 H1]. destruct (String.eqb op "&").
    { apply bind_OK in H as ([m1 o0'] & He0 & H). apply bind_OK in H as ([m2 o1'] & He1 & H).
      injection H as _ <-. by rewrite (IH0 H0 _ _ _ He0), (IH1 H1 _ _ _ He1). }
    destruct (String.eqb op "|"); [|by injection H as _ <-].
    apply bind_OK in H as ([m1 o0'] & He0 & H). apply bind_OK in H as ([m2 o1'] & He1 & H).
    apply bind_OK in H as (m1' & _ & H). apply bind_OK in H as (m2' & _ & H).
    injection H as _ <-. by rewrite (IH0 H0 _ _ _ He0), (IH1 H1 _ _ _ He1).
  - apply truthsFree_operands in Hfree. destruct (String.eqb op "&").
    { apply bind_OK in H as ([m1 operands'] & H & [= _ <-]). f_equal.
      revert m m1 operands' H.
      induction IH as [|c rest IHc _ IHrest]; intros m m1 operands' H; simpl in H.
      - by injection H as _ <-.
      - apply Forall_cons in Hfree as [Hc Hrest].
        apply bind_OK in H as ([m2 c'] & Hparse & H).
        apply bind_OK in H as ([m3 rest'] & Heach & H). injection H as _ <-.
        by rewrite (IHc Hc _ _ _ Hparse), (IHrest Hrest _ _ _ Heach). }
    destruct (String.eqb op "|"); [|by injection H as _ <-].
    apply bind_OK in H as ([snapshots operands'] & H & [= _ <-]). f_equal.
    revert snapshots operands' H.
    induction IH as [|c rest IHc _ IHrest]; intros snapshots operands' H; simpl in H.
    + by injection H as _ <-.
    + apply Forall_cons in Hfree as [Hc Hrest].
      apply bind_OK in H as ([mc c'] & Hparse & H). apply bind_OK in H as (mc' & _ & H).
      apply bind_OK in H as ([snaps rest'] & Heach & H). injection H as _ <-.
      by rewrite (IHc Hc _ _ _ Hparse), (IHrest Hrest _ _ Heach).
  - destruct Hfree as [H0 H1].
    destruct (relationalOperators op) as [ok|]; [|by injection H as _ <-].
    by eapply relationalEval_truthsFree.
  - repeat (destruct (String.eqb op _);
            [apply bind_OK in H as (l & _ & H); apply bind_OK in H as (r & _ & H);
             apply bind_OK in H as (m1 & _ & H); by injection H as _ <-|]).
    by injection H as _ <-.
  - destruct (String.eqb op "in"); [|by injection H as _ <-].
    destruct lhs as [id|a], rhs as [elements|rs re]; try done; try (by injection H as _ <-).
    apply bind_OK in H as (m1 & _ & H). by injection H as _ <-.
Qed.

Lemma iterationClues_truthsFree (sc : SolverConfig) (clues : list LogicalExpression) :
  Forall truthsFree clues →
  ∀ (m m' : Matrix) clues', iterationClues sc clues m = OK (m', clues') → clues' = clues.
Proof.
  induction 1 as [|clue rest Hclue _ IH]; intros m m' clues' H; simpl in H.
  - by injection H as _ <-.
  - apply bind_OK in H as ([m1 clue'] & H1 & H). apply bind_OK in H as ([m2 rest'] & H2 & H).
    injection H as _ <-. rewrite (IH _ _ _ H2). f_equal.
    cut ((m1, clue').2 = clue); [done|]. revert H1. unfold iterationClue.
    apply (forEach_preserves (fun s : Matrix * LogicalExpression => s.2 = clue)); [|done].
    intros d [s c] [s' c'] _ Hs Hbody. simpl in *. subst c.
    by eapply parseClue_truthsFree.
Qed.

Lemma iterationLoop_truthsFree (sc : SolverConfig) (fuel : nat) :
  ∀ state state', Forall truthsFree (clues state) →
  iterationLoop sc fuel state = Some (OK state') → clues state' = clues state.
Proof.
  induction fuel as [|fuel IH]; intros state state' Hfree H; [done|]. simpl in H.
  destruct (iteration sc state) as [state1|e] eqn:E; [|done].
  assert (Hclues : clues state1 = clues state).
  { unfold iteration in E. apply bind_OK in E as ([m1 clues'] & H1 & E).
    apply bind_OK in E as (m2 & _ & [= <-]). simpl.
    by eapply iterationClues_truthsFree. }
  destruct (matrixChanged _ _ _); [|by simplify_eq].
  rewrite <- Hclues. apply IH; [by rewrite Hclues|done].
Qed.

Lemma solveOption_truthsFree (sc : SolverConfig) state stats code state' stats' :
  Forall truthsFree (clues state) →
  solveOption sc state stats = OK (code, state', stats') → clues state' = clues state.
Proof.
  intros Hfree. unfold solveOption. intros H.
  destruct (iterationLoop _ _ _) as [[state1|e]|] eqn:E; try done.
  apply bind_OK in H as ([code1 stats1] & _ & [= _ <- _]).
  by eapply iterationLoop_truthsFree.
Qed.

(** *** The invariant of the search *)

Section Recorded.
Variables (sc : SolverConfig) (clues0 : list LogicalExpression).

Lemma processState_categories state acc acc' :
  processState sc state acc = OK acc' →
  Forall (validCategories sc) (solutions_ acc.2) →
  Forall (validCategories sc) (solutions_ acc'.2).
Proof.
  destruct acc as [stack stats]. unfold processState. intros H Hsols. simpl in Hsols.
  apply bind_OK in H as ([[code state'] stats1] & Hsolve & H).
  apply solveOption_spec in Hsolve as [_ Hcode]. simpl in Hcode.
  assert (Hsols' : Forall (validCategories sc) (solutions_ stats1)).
  { destruct Hcode as [(_ & [Hvalid _] & ->)|[_ ->]]; [|done].
    apply Forall_app. split; [done|]. by constructor. }
  destruct (negb (code =? 0)%Z); [by injection H as <-|].
  apply bind_OK in H as (children & _ & [= <-]). done.
Qed.

Lemma runLoop_categories remaining :
  ∀ optionStack stats done' optionStack' stats',
  runLoop sc remaining optionStack stats = OK (done', optionStack', stats') →
  Forall (validCategories sc) (solutions_ stats) →
  Forall (validCategories sc) (solutions_ stats').
Proof.
  induction remaining as [|remaining IH]; intros optionStack stats done' optionStack' stats'
    H Hsols; simpl in H; [by simplify_eq|].
  destruct optionStack as [|state rest]; [by simplify_eq|].
  apply bind_OK in H as ([newStack stats1] & Hwave & H).
  eapply IH; [exact H|]. simpl.
  cut (Forall (validCategories sc) (solutions_ (newStack, stats1).2)); [done|].
  revert Hwave.
  apply (forEach_preserves (fun acc : list IterationState * Stats =>
           Forall (validCategories sc) (solutions_ acc.2))); [|done].
  intros s acc acc' _ Hacc Hbody. by eapply processState_categories.
Qed.

Hypothesis Hfree : Forall truthsFree clues0.

Lemma processState_recorded state acc acc' :
  clues state = clues0 →
  processState sc state acc = OK acc' →
  Forall (fun s => clues s = clues0) acc.1
  ∧ Forall (fun m => validSolution sc m clues0) (solutions_ acc.2) →
  Forall (fun s => clues s = clues0) acc'.1
  ∧ Forall (fun m => validSolution sc m clues0) (solutions_ acc'.2).
Proof.
  destruct acc as [stack stats]. unfold processState. intros Hstate H [Hstack Hsols].
  simpl in Hstack, Hsols.
  apply bind_OK in H as ([[code state'] stats1] & Hsolve & H).
  assert (Hstate' : clues state' = clues0).
  { rewrite <- Hstate. eapply solveOption_truthsFree; [by rewrite Hstate|done]. }
  apply solveOption_spec in Hsolve as [_ Hcode]. simpl in Hcode.
  assert (Hsols' : Forall (fun m => validSolution sc m clues0) (solutions_ stats1)).
  { destruct Hcode as [(_ & Hvalid & ->)|[_ ->]]; [|done].
    apply Forall_app. split; [done|]. constructor; [|constructor]. by rewrite <- Hstate'. }
  destruct (negb (code =? 0)%Z); [injection H as <-; by split|].
  apply bind_OK in H as (children & Hchildren & [= <-]).
  split; [|done]. simpl. apply Forall_app. split; [done|].
  apply expandState_clues in Hchildren.
  eapply Forall_impl; [exact Hchildren|]. intros child ->. done.
Qed.

Lemma wave_recorded states :
  Forall (fun s => clues s = clues0) states →
  ∀ acc acc', forEach (processState sc) states acc = OK acc' →
  Forall (fun s => clues s = clues0) acc.1
  ∧ Forall (fun m => validSolution sc m clues0) (solutions_ acc.2) →
  Forall (fun s => clues s = clues0) acc'.1
  ∧ Forall (fun m => validSolution sc m clues0) (solutions_ acc'.2).
Proof.
  induction 1 as [|state rest Hstate _ IH]; intros acc acc' H Hacc; simpl in H;
    [by simplify_eq|].
  apply bind_OK in H as (acc1 & H1 & H). eapply IH; [exact H|].
  by eapply processState_recorded.
Qed.

Lemma runLoop_recorded remaining :
  ∀ optionStack stats done' optionStack' stats',
  runLoop sc remaining optionStack stats = OK (done', optionStack', stats') →
  Forall (fun s => clues s = clues0) optionStack
  ∧ Forall (fun m => validSolution sc m clues0) (solutions_ stats) →
  Forall (fun s => clues s = clues0) optionStack'
  ∧ Forall (fun m => validSolution sc m clues0) (solutions_ stats').
Proof.
  induction remaining as [|remaining IH]; intros optionStack stats done' optionStack' stats'
    H Hinv; simpl in H; [by simplify_eq|].
  destruct optionStack as [|state rest]; [by simplify_eq|].
  apply bind_OK in H as ([newStack stats1] & Hwave & H).
  eapply IH; [exact H|]. unfold structuredClone. simpl. destruct Hinv as [Hstack Hsols].
  apply (wave_recorded _ Hstack _ _ Hwave). by split; [constructor|].
Qed.

End Recorded.

(** X23: every matrix that [solve] returns in [solutions] has valid
    categories, whatever the clues and the stack it resumes: for every
    category of the configuration (the categories object as [solve] leaves
    it, with the position numerals as the items of [#]) every row of a strict
    category has exactly one true cell and every row of a great category at
    most one, and every column below [count] is covered exactly once. *)
Theorem solutions_have_valid_categories (input : SolveInput) (res : Solved)
    (header : Categories) :
  solve input = OK (res, header) →
  ∃ sc initialMatrix,
    solverConfig input = OK (sc, initialMatrix)
    ∧ Forall (validCategories sc) (solutions res).
Proof.
  unfold solve. intros H. apply bind_OK in H as ([sc initialMatrix] & Hsc & H).
  apply bind_OK in H as ([[done' stack'] stats'] & Hrun & H). injection H as <- _.
  exists sc, initialMatrix. split; [done|]. simpl.
  unfold runIterations in Hrun. by eapply runLoop_categories.
Qed.

Lemma solutions_have_valid_categories_witness :
  ∃ sc initialMatrix,
    solverConfig bitsInput = OK (sc, initialMatrix)
    ∧ Forall (validCategories sc)
             (solutions (mkSolved true [] 3 5 [bitsRecorded])).
Proof.
  apply (solutions_have_valid_categories bitsInput (mkSolved true [] 3 5 [bitsRecorded])
           (bits ++ [("#", ["1"; "2"])])).
  vm_compute. reflexivity.
Defined.

(** X24: when no clue contains a [truths] operator, the propagation never
    assigns a field of a clue, and every matrix that [solve] (started without
    a stack to resume) returns in [solutions] is valid for the clues as they
    were given: its categories are valid and [checkClue] returns true for
    every clue, at every position [d] of [1 .. count] for a clue with [$]. *)
Theorem truths_free_solutions_pass_their_clues (input : SolveInput) (res : Solved)
    (header : Categories) :
  in_optionStack input = None → Forall truthsFree (in_clues input) →
  solve input = OK (res, header) →
  ∃ sc initialMatrix,
    solverConfig input = OK (sc, initialMatrix)
    ∧ Forall (fun m => validSolution sc m (in_clues input)) (solutions res).
Proof.
  intros Hstack Hfree. unfold solve. intros H.
  apply bind_OK in H as ([sc initialMatrix] & Hsc & H).
  apply bind_OK in H as ([[done' stack'] stats'] & Hrun & H). injection H as <- _.
  exists sc, initialMatrix. split; [done|]. simpl.
  unfold runIterations in Hrun. rewrite Hstack in Hrun. simpl in Hrun.
  apply (runLoop_recorded sc (in_clues input) Hfree) in Hrun; [by destruct Hrun|].
  split; [|constructor]. by repeat constructor.
Qed.

Lemma truths_free_solutions_pass_their_clues_witness :
  ∃ sc initialMatrix,
    solverConfig (mkSolveInput people [bobIs20] 20 None []) = OK (sc, initialMatrix)
    ∧ Forall (fun m => validSolution sc m [bobIs20])
             (solutions (mkSolved true [] 4 11 [bobFirstAged20; bobSecondAged20])).
Proof.
  apply (truths_free_solutions_pass_their_clues (mkSolveInput people [bobIs20] 20 None [])
           (mkSolved true [] 4 11 [bobFirstAged20; bobSecondAged20])
           (people ++ [("#", ["1"; "2"])])).
  - reflexivity.
  - repeat constructor.
  - vm_compute. reflexivity.
Defined.
